(** * kofrasa/rpc: the XML-RPC codec, embedded in Rocq

    A shallow embedding of package [xml] of the repository: the value model
    and reflective mapper ([message.go]), the fault taxonomy, the streaming
    writer, the pull reader ([reader.go]) and the codec entry points
    ([codec.go]), followed by the properties of the specification that were
    checked against them.

    Conventions.
    - Go values met through [reflect] are pairs of a type ([gotype]) and
      untyped data ([godata]); an [interface{}] is [iface].
    - A function that may panic returns an [outcome].
    - [error] values are an inductive with one constructor per dynamic error
      type the package can return.
    - The reader consumes a [Decoder]: the tokens [xml.Decoder.RawToken]
      yields, followed by the error it then returns for ever. *)

From Stdlib Require Import String Ascii List ZArith NArith Bool Lia Arith.
From Stdlib Require Import SpecFloat DecimalString DecimalN DecimalFacts.
Import ListNotations.

#[local] Set Warnings "-register-all".

Local Open Scope string_scope.
Local Open Scope Z_scope.

(** ** Outcomes of Go code that may panic

    [Ok] is a normal return. [Panic] is a run-time panic. [Unmodelled] marks
    behaviour of the Go standard library that this development leaves out,
    and [Exhausted] the end of the fuel of a bounded recursion; no property
    below is stated of a run that ends in either. *)

Inductive outcome (A : Type) : Type :=
| Ok (a : A)
| Panic (msg : string)
| Unmodelled (what : string)
| Exhausted.
Arguments Ok {A} a.
Arguments Panic {A} msg.
Arguments Unmodelled {A} what.
Arguments Exhausted {A}.

Definition obind {A B} (o : outcome A) (k : A -> outcome B) : outcome B :=
  match o with
  | Ok a => k a
  | Panic m => Panic m
  | Unmodelled w => Unmodelled w
  | Exhausted => Exhausted
  end.

Notation "x <- c ;; k" := (obind c (fun x => k))
  (at level 61, c at next level, right associativity).
Notation "' p <- c ;; k" := (obind c (fun x => let p := x in k))
  (at level 61, p pattern, c at next level, right associativity).

(** [mapM f l] runs [f] over [l] from left to right, stopping at the first
    panic; written as a local [fix] so that it can be used on the nested
    occurrences of the value types. *)
Definition mapM {A B} (f : A -> outcome B) : list A -> outcome (list B) :=
  fix go (l : list A) : outcome (list B) :=
    match l with
    | [] => Ok []
    | a :: l' => b <- f a ;; bs <- go l' ;; Ok (b :: bs)
    end.

(** ** Strings *)

Definition chars (s : string) : list ascii := list_ascii_of_string s.
Definition str (l : list ascii) : string := string_of_list_ascii l.

Definition code (c : ascii) : N := N_of_ascii c.

(** The double quote, and a string between double quotes. *)
Definition dquote : ascii := ascii_of_N 34.
Definition quoted (s : string) : string :=
  String dquote s ++ String dquote "".

(** [len(s) == 0] *)
Definition isEmptyString (s : string) : bool :=
  match s with EmptyString => true | _ => false end.

Definition memchr (c : ascii) (set : list ascii) : bool :=
  existsb (Ascii.eqb c) set.

(** [strings.IndexAny(s, set) == -1] *)
Definition noneOf (set : string) (s : string) : bool :=
  forallb (fun c => negb (memchr c (chars set))) (chars s).

Fixpoint dropWhile {A} (p : A -> bool) (l : list A) : list A :=
  match l with
  | [] => []
  | a :: l' => if p a then dropWhile p l' else l
  end.

(** [strings.TrimRight(s, cutset)] *)
Definition TrimRight (s cutset : string) : string :=
  str (rev (dropWhile (fun c => memchr c (chars cutset)) (rev (chars s)))).

(** The ASCII white space of [unicode.IsSpace]: tab, line feed, vertical
    tab, form feed, carriage return and space. *)
Definition isSpace (c : ascii) : bool :=
  let n := code c in
  ((9 <=? n) && (n <=? 13))%N || (n =? 32)%N.

(** The strings of the model are byte strings, and Go reads a string as
    UTF-8. [spaces l] tells whether the bytes [l], decoded from the left,
    are runes of [unicode.IsSpace] only: the ASCII ones, U+0085 and U+00A0
    (two bytes), U+1680, U+2000 to U+200A, U+2028, U+2029, U+202F, U+205F
    and U+3000 (three bytes). A byte that starts no such rune, be it part
    of another rune or of no rune at all, is no white space. *)
Fixpoint spaces (l : list ascii) : bool :=
  match l with
  | [] => true
  | c :: l1 =>
      let n := code c in
      if isSpace c then spaces l1
      else if (n =? 194)%N then
        match l1 with
        | c2 :: l2 =>
            ((code c2 =? 133) || (code c2 =? 160))%N && spaces l2
        | [] => false
        end
      else
        match l1 with
        | c2 :: c3 :: l3 =>
            let n2 := code c2 in
            let n3 := code c3 in
            (((n =? 225) && (n2 =? 154) && (n3 =? 128))
             || ((n =? 226) && (n2 =? 128)
                 && (((128 <=? n3) && (n3 <=? 138))
                     || (n3 =? 168) || (n3 =? 169) || (n3 =? 175)))
             || ((n =? 226) && (n2 =? 129) && (n3 =? 159))
             || ((n =? 227) && (n2 =? 128) && (n3 =? 128)))%N
            && spaces l3
        | _ => false
        end
  end.

(** [strings.TrimSpace(s) == ""]: the string holds white space only. *)
Definition isBlank (s : string) : bool := spaces (chars s).

Definition isDigit (c : ascii) : bool :=
  let n := code c in ((48 <=? n) && (n <=? 57))%N.

(** [last s] is [s[len(s)-1]] *)
Definition lastChar (s : string) : option ascii :=
  match rev (chars s) with
  | [] => None
  | c :: _ => Some c
  end.

(** ** Decimal integers: [strconv.Itoa], [strconv.Atoi] *)

Definition FormatUint (n : N) : string := NilZero.string_of_uint (N.to_uint n).

Definition Itoa (z : Z) : string :=
  if z <? 0 then "-" ++ FormatUint (Z.abs_N z) else FormatUint (Z.abs_N z).

Definition ParseUint (s : string) : option N :=
  match s with
  | EmptyString => None
  | _ => option_map N.of_uint (NilEmpty.uint_of_string s)
  end.

Definition minInt : Z := - 2 ^ 63.
Definition maxInt : Z := 2 ^ 63 - 1.

(** [strconv.Atoi(s)] on a 64-bit platform: an optional sign, then decimal
    digits. The boolean tells whether [err == nil]; the value returned with
    an error is 0 for bad syntax and the nearest bound for a value out of
    the range of [int]. *)
Definition Atoi (s : string) : Z * bool :=
  let '(neg, body) :=
    match s with
    | String "-" r => (true, r)
    | String "+" r => (false, r)
    | _ => (false, s)
    end in
  match ParseUint body with
  | None => (0, false)
  | Some n =>
      let z := if neg then - Z.of_N n else Z.of_N n in
      if z <? minInt then (minInt, false)
      else if maxInt <? z then (maxInt, false)
      else (z, true)
  end.

(** ** Go types and values, as package [reflect] shows them *)

Module reflect.
(** [reflect.Kind] *)
Inductive Kind : Set :=
| Invalid | Bool
| Int | Int8 | Int16 | Int32 | Int64
| Uint | Uint8 | Uint16 | Uint32 | Uint64 | Uintptr
| Float32 | Float64 | Complex64 | Complex128
| Array | Chan | Func | Interface | Map | Ptr | Slice | String | Struct
| UnsafePointer.

Definition eqb (a b : Kind) : bool :=
  match a, b with
  | Invalid, Invalid | Bool, Bool | Int, Int | Int8, Int8 | Int16, Int16
  | Int32, Int32 | Int64, Int64 | Uint, Uint | Uint8, Uint8
  | Uint16, Uint16 | Uint32, Uint32 | Uint64, Uint64 | Uintptr, Uintptr
  | Float32, Float32 | Float64, Float64 | Complex64, Complex64
  | Complex128, Complex128 | Array, Array | Chan, Chan | Func, Func
  | Interface, Interface | Map, Map | Ptr, Ptr | Slice, Slice
  | String, String | Struct, Struct | UnsafePointer, UnsafePointer => true
  | _, _ => false
  end.

(** [Kind.String], what the verb [%s] prints for a kind *)
Definition name (k : Kind) : string :=
  match k with
  | Invalid => "invalid" | Bool => "bool"
  | Int => "int" | Int8 => "int8" | Int16 => "int16" | Int32 => "int32"
  | Int64 => "int64" | Uint => "uint" | Uint8 => "uint8"
  | Uint16 => "uint16" | Uint32 => "uint32" | Uint64 => "uint64"
  | Uintptr => "uintptr" | Float32 => "float32" | Float64 => "float64"
  | Complex64 => "complex64" | Complex128 => "complex128"
  | Array => "array" | Chan => "chan" | Func => "func"
  | Interface => "interface" | Map => "map" | Ptr => "ptr"
  | Slice => "slice" | String => "string" | Struct => "struct"
  | UnsafePointer => "unsafe.Pointer"
  end.
End reflect.

(** Static types. A struct type carries its name ([""] for a struct
    literal type) and its fields in declaration order; a field carries the
    value of its [rpc] tag, when it has one. Embedded fields are not
    modelled. [TInterface] is [interface{}]. *)
Inductive gotype : Type :=
| TBool
| TInt | TInt8 | TInt16 | TInt32 | TInt64
| TUint | TUint8 | TUint16 | TUint32 | TUint64 | TUintptr
| TFloat32 | TFloat64 | TComplex64 | TComplex128
| TString
| TTime
| TArray (n : nat) (elem : gotype)
| TSlice (elem : gotype)
| TMap (key elem : gotype)
| TStruct (name : string) (fields : list StructField)
| TPtr (elem : gotype)
| TInterface
| TChan
| TFunc
| TRpcValues
| TRpcEntries
with StructField : Type :=
| mkField (Name : string) (rpcTag : option string) (Type_ : gotype).

Definition fieldName (f : StructField) : string :=
  match f with mkField n _ _ => n end.
Definition fieldTag (f : StructField) : option string :=
  match f with mkField _ t _ => t end.
Definition fieldType (f : StructField) : gotype :=
  match f with mkField _ _ t => t end.

(** [Type.Kind()] *)
Definition kindOf (t : gotype) : reflect.Kind :=
  match t with
  | TBool => reflect.Bool
  | TInt => reflect.Int | TInt8 => reflect.Int8 | TInt16 => reflect.Int16
  | TInt32 => reflect.Int32 | TInt64 => reflect.Int64
  | TUint => reflect.Uint | TUint8 => reflect.Uint8
  | TUint16 => reflect.Uint16 | TUint32 => reflect.Uint32
  | TUint64 => reflect.Uint64 | TUintptr => reflect.Uintptr
  | TFloat32 => reflect.Float32 | TFloat64 => reflect.Float64
  | TComplex64 => reflect.Complex64 | TComplex128 => reflect.Complex128
  | TString => reflect.String
  | TTime => reflect.Struct
  | TArray _ _ => reflect.Array
  | TSlice _ => reflect.Slice
  | TMap _ _ => reflect.Map
  | TStruct _ _ => reflect.Struct
  | TPtr _ => reflect.Ptr
  | TInterface => reflect.Interface
  | TChan => reflect.Chan
  | TFunc => reflect.Func
  | TRpcValues | TRpcEntries => reflect.Slice
  end.

Definition option_eqb {A} (eqb : A -> A -> bool) (a b : option A) : bool :=
  match a, b with
  | None, None => true
  | Some x, Some y => eqb x y
  | _, _ => false
  end.

(** Type identity, the [==] of [reflect.Type] values. *)
Fixpoint gotype_eqb (a b : gotype) {struct a} : bool :=
  match a, b with
  | TArray n e, TArray m f => Nat.eqb n m && gotype_eqb e f
  | TSlice e, TSlice f => gotype_eqb e f
  | TMap k e, TMap l f => gotype_eqb k l && gotype_eqb e f
  | TStruct n fs, TStruct m gs =>
      String.eqb n m &&
      (fix fields_eqb (fs gs : list StructField) {struct fs} : bool :=
         match fs, gs with
         | [], [] => true
         | mkField fn ft fty :: fs', mkField gn gt gty :: gs' =>
             String.eqb fn gn && option_eqb String.eqb ft gt &&
             gotype_eqb fty gty && fields_eqb fs' gs'
         | _, _ => false
         end) fs gs
  | TPtr e, TPtr f => gotype_eqb e f
  | TStruct _ _, _ | TArray _ _, _ | TSlice _, _ | TMap _ _, _ | TPtr _, _ =>
      false
  | _, TStruct _ _ | _, TArray _ _ | _, TSlice _ | _, TMap _ _ | _, TPtr _ =>
      false
  | _, _ => reflect.eqb (kindOf a) (kindOf b) &&
            match a, b with
            | TTime, TTime => true
            | TTime, _ | _, TTime => false
            | TRpcValues, TRpcValues | TRpcEntries, TRpcEntries => true
            | TRpcValues, _ | _, TRpcValues | TRpcEntries, _
            | _, TRpcEntries => false
            | _, _ => true
            end
  end.

(** [time.Time], as the civil date and time it shows in its own location
    and that location's offset east of UTC, in seconds. *)
Record Time : Set := mkTime {
  year : Z; month : Z; day : Z;
  hour : Z; minute : Z; second : Z; nsec : Z;
  offset : Z
}.

(** [time.Time{}] *)
Definition zeroTime : Time := mkTime 1 1 1 0 0 0 0 0.

Inductive valueKind : Set :=
| nilKind | booleanKind | intKind | doubleKind | dateTimeKind | base64Kind
| stringKind | arrayKind | structKind.

Definition valueKind_eqb (a b : valueKind) : bool :=
  match a, b with
  | nilKind, nilKind | booleanKind, booleanKind | intKind, intKind
  | doubleKind, doubleKind | dateTimeKind, dateTimeKind
  | base64Kind, base64Kind | stringKind, stringKind
  | arrayKind, arrayKind | structKind, structKind => true
  | _, _ => false
  end.

(** Data, without its type: what a [reflect.Value] of some type holds.
    Integers of every width are [DInt], floats of both widths [DFloat]. A
    slice or array is the list of its elements, nil and empty slices are
    not told apart. A map is the list of its entries in the order
    [Value.MapKeys] lists them, which Go leaves unspecified. A pointer is
    nil or owns what it points to. An interface is nil or a dynamic type
    with data of that type.

    The message types of the package are part of the same universe, since
    an [rpcValue] keeps a native value in its [value] field and a projection
    may store a [[]rpcValue] in a native slot. *)
Inductive godata : Type :=
| DBool (b : bool)
| DInt (n : Z)
| DFloat (f : spec_float)
| DString (s : string)
| DTime (t : Time)
| DSeq (items : list godata)
| DMap (entries : list (godata * godata))
| DStruct (fields : list godata)
| DPtr (target : option godata)
| DIface (v : iface)
| DOpaque
| DValues (array : list rpcValue)
| DEntries (members : list rpcEntry)
with iface : Type :=
| inil
| idyn (t : gotype) (d : godata)
with rpcValue : Type :=
| RpcValue (value : iface) (kind : valueKind)
with rpcEntry : Type :=
| RpcEntry (Name : string) (Value : rpcValue).

Definition value (r : rpcValue) : iface :=
  match r with RpcValue v _ => v end.
Definition kind (r : rpcValue) : valueKind :=
  match r with RpcValue _ k => k end.
Definition entryName (e : rpcEntry) : string :=
  match e with RpcEntry n _ => n end.
Definition entryValue (e : rpcEntry) : rpcValue :=
  match e with RpcEntry _ v => v end.

(** [var r rpcValue] *)
Definition zeroValue : rpcValue := RpcValue inil nilKind.

(** [reflect.Value]: a type and data of that type; the zero [Value] is
    [None] where it can occur. *)
Definition Value : Type := gotype * godata.

(** [Value.Interface()] for a value that was not reached through an
    unexported field: an interface-typed value gives what it holds. *)
Definition Interface (v : Value) : iface :=
  match v with
  | (TInterface, DIface x) => x
  | (t, d) => idyn t d
  end.

(** The zero value of a type. *)
Fixpoint zero (t : gotype) : godata :=
  match t with
  | TBool => DBool false
  | TInt | TInt8 | TInt16 | TInt32 | TInt64
  | TUint | TUint8 | TUint16 | TUint32 | TUint64 | TUintptr => DInt 0
  | TFloat32 | TFloat64 => DFloat (S754_zero false)
  | TComplex64 | TComplex128 => DOpaque
  | TString => DString ""
  | TTime => DTime zeroTime
  | TArray n e => DSeq (repeat (zero e) n)
  | TSlice _ => DSeq []
  | TMap _ _ => DMap []
  | TStruct _ fs =>
      DStruct ((fix zeros (fs : list StructField) : list godata :=
                  match fs with
                  | [] => []
                  | mkField _ _ ty :: fs' => zero ty :: zeros fs'
                  end) fs)
  | TPtr _ => DPtr None
  | TInterface => DIface inil
  | TChan | TFunc => DOpaque
  | TRpcValues => DValues []
  | TRpcEntries => DEntries []
  end.

(** A field is exported when its name starts with an upper-case letter
    (ASCII letters only). *)
Definition isExported (name : string) : bool :=
  match name with
  | String c _ => let n := code c in ((65 <=? n) && (n <=? 90))%N
  | EmptyString => false
  end.

(** The fields of a struct type; [time.Time] has three unexported ones. *)
Definition fieldsOf (t : gotype) : list StructField :=
  match t with
  | TStruct _ fs => fs
  | TTime => [mkField "wall" None TUint64; mkField "ext" None TInt64;
              mkField "loc" None (TPtr (TStruct "time.Location" []))]
  | _ => []
  end.

(** The data of the fields of a struct value, field by field. *)
Definition fieldData (t : gotype) (d : godata) : list godata :=
  match d with
  | DStruct ds => ds
  | _ => map (fun _ => DOpaque) (fieldsOf t)
  end.

(** ** Faults *)

(** [type Fault struct { Code int `rpc:"faultCode"`; Message string `rpc:"faultString"` }] *)
Record Fault : Set := mkFault { Code : Z; Message : string }.

Definition typeOfFault : gotype :=
  TStruct "xml.Fault"
    [mkField "Code" (Some "faultCode") TInt;
     mkField "Message" (Some "faultString") TString].

Definition dataOfFault (f : Fault) : godata :=
  DStruct [DInt (Code f); DString (Message f)].

(** The [Fault] held by a variable of type [Fault]. *)
Definition faultOfData (d : godata) : Fault :=
  match d with
  | DStruct [DInt c; DString m] => mkFault c m
  | _ => mkFault 0 ""
  end.

(** [type faultCode int] *)
Definition faultCode : Set := Z.

Definition MalformedInput : faultCode := -32700.
Definition UnsupportedEncoding : faultCode := -32701.
Definition InvalidCharacter : faultCode := -32702.
Definition InvalidRequest : faultCode := -32600.
Definition MethodNotFound : faultCode := -32601.
Definition InvalidParams : faultCode := -32602.
Definition InternalError : faultCode := -32603.

Definition faultMessages : list (faultCode * string) :=
  [(MalformedInput, "malformed input");
   (UnsupportedEncoding, "unsupported encoding");
   (InvalidCharacter, "invalid character for encoding");
   (InvalidRequest, "invalid xml-rpc. not conforming to spec");
   (MethodNotFound, "requested method not found");
   (InvalidParams, "invalid method parameters");
   (InternalError, "internal xml-rpc error")].

(** [faultCode.String]: a map lookup, the empty string for a code that is
    not in the table. *)
Definition faultCode_String (f : faultCode) : string :=
  match find (fun p => Z.eqb (fst p) f) faultMessages with
  | Some (_, m) => m
  | None => ""
  end.

(** [faultCode.New(format, v...)], given [s], the text that
    [fmt.Sprintf(format, v...)] produced. *)
Definition New (f : faultCode) (s : string) : Fault :=
  let s := if isEmptyString s then faultCode_String f else s in
  mkFault f s.

Definition isFaultCode (c : Z) : bool :=
  existsb (fun p => Z.eqb (fst p) c) faultMessages.

(** ** Errors *)


(** The dynamic types of the [error] values the package returns. *)
Inductive error : Set :=
| io_EOF
| xml_SyntaxError (msg : string)
| errorString (msg : string)
| FaultError (f : Fault)
| time_ParseError (layout value : string)
| base64_CorruptInputError.

Definition errFault (f : Fault) : option error := Some (FaultError f).


(** ** message.go: the value model and the reflective mapper *)

Record rpcParams : Type := mkParams { Params : list rpcValue }.
Record methodCall : Type := mkCall { Method : string; call_Params : list rpcValue }.
Record methodResponse : Type :=
  mkResponse { resp_Params : list rpcValue; resp_Fault : rpcValue }.

(** The first [switch] of [makeValue], on the dynamic type of [value]. *)
Definition primitiveKind (v : iface) : option valueKind :=
  match v with
  | idyn TBool _ => Some booleanKind
  | idyn (TInt | TInt64 | TInt32 | TInt16
         | TUint | TUint64 | TUint32 | TUint16 | TUint8) _ => Some intKind
  | idyn (TFloat64 | TFloat32) _ => Some doubleKind
  | idyn TString _ => Some stringKind
  | idyn (TSlice TUint8) _ => Some base64Kind
  | idyn TTime _ => Some dateTimeKind
  | _ => None
  end.

(** [fmt.Sprintf("%s", v)] for the key of a map: a string prints as itself,
    an integer or boolean as the bad-verb form. *)
Definition Sprintf_s (v : iface) : outcome string :=
  match v with
  | idyn TString (DString s) => Ok s
  | idyn t (DInt n) => Ok ("%!s(" ++ reflect.name (kindOf t) ++ "=" ++ Itoa n ++ ")")
  | idyn TBool (DBool b) => Ok ("%!s(bool=" ++ (if b then "true" else "false") ++ ")")
  | inil => Ok "%!s(<nil>)"
  | _ => Unmodelled "fmt.Sprintf(%s) of a key that is neither string, integer nor boolean"
  end.

Definition unexportedPanic : string :=
  "reflect.Value.Interface: cannot return value obtained from unexported field or method".

(** The loop of [makeValue] over the fields of a struct: the entry of a
    field is named by its [rpc] tag when it has one, by its own name
    otherwise, and holds [makeValue] of the field, here [recur]. *)
Definition makeFields (recur : gotype -> godata -> outcome rpcValue)
  : list godata -> list StructField -> outcome (list rpcEntry) :=
  fix fields (ds : list godata) (fs : list StructField) {struct ds}
    : outcome (list rpcEntry) :=
    match ds, fs with
    | fd :: ds', mkField name tag ty :: fs' =>
        if isExported name then
          val <- recur ty fd ;;
          let entry := RpcEntry (match tag with
                                 | Some tagName => tagName
                                 | None => name
                                 end) val in
          rest <- fields ds' fs' ;;
          Ok (entry :: rest)
        else Panic unexportedPanic
    | _, [] => Ok []
    | [], _ :: _ => Unmodelled "struct data shorter than its type"
    end.

(** The body of the loop of [makeValue] over the keys of a map. *)
Definition makeMember (recur : gotype -> godata -> outcome rpcValue)
    (kt et : gotype) (kv : godata * godata) : outcome rpcEntry :=
  name <- Sprintf_s (Interface (kt, fst kv)) ;;
  val <- recur et (snd kv) ;;
  Ok (RpcEntry name val).

(** [makeValue(x.Interface())] for a [reflect.Value] [x] of type [et]
    that holds [item], [make] being [makeValue] on a non-nil interface: an
    element, map value or field of interface type gives what it holds. *)
Definition ofInterface (make : gotype -> godata -> outcome rpcValue)
    (et : gotype) (item : godata) : outcome rpcValue :=
  match et, item with
  | TInterface, DIface inil => Ok zeroValue
  | TInterface, DIface (idyn t' d') => make t' d'
  | _, _ => make et item
  end.

(** [makeValue(value)] for a non-nil [value] of dynamic type [t].

    [refVal] is [reflect.ValueOf(value)], replaced by what it points to when
    it is a pointer; [Value.Interface] on the zero [Value] that
    [reflect.Indirect] returns for a nil pointer panics, as it does on a
    value reached through an unexported field. Recursive calls are
    [makeValue(x.Interface())] for an element, map value or field [x]. *)
Fixpoint makeValue_dyn (t : gotype) (d : godata) {struct d} : outcome rpcValue :=
  let recur := ofInterface makeValue_dyn in
  let classify (value : iface) (rt : gotype) (rd : godata) : outcome rpcValue :=
    match primitiveKind value with
    | Some k => Ok (RpcValue value k)
    | None =>
        match kindOf rt with
        | reflect.Slice | reflect.Array =>
            let et := match rt with
                      | TSlice e | TArray _ e => e
                      | _ => TInterface
                      end in
            match rd with
            | DSeq items =>
                array <- mapM (recur et) items ;;
                Ok (RpcValue (idyn TRpcValues (DValues array)) arrayKind)
            | DValues [] | DEntries [] =>
                Ok (RpcValue (idyn TRpcValues (DValues [])) arrayKind)
            | DValues _ | DEntries _ => Panic unexportedPanic
            | _ => Unmodelled "slice data expected"
            end
        | reflect.Map =>
            let '(kt, et) := match rt with
                             | TMap k e => (k, e)
                             | _ => (TInterface, TInterface)
                             end in
            match rd with
            | DMap entries =>
                members <- mapM (makeMember recur kt et) entries ;;
                Ok (RpcValue (idyn TRpcEntries (DEntries members)) structKind)
            | _ => Unmodelled "map data expected"
            end
        | reflect.Struct =>
            match fieldsOf rt, rd with
            | [], _ => Ok (RpcValue (idyn TRpcEntries (DEntries [])) structKind)
            | fs, DStruct ds =>
                members <- makeFields recur ds fs ;;
                Ok (RpcValue (idyn TRpcEntries (DEntries members)) structKind)
            | _, _ => Panic unexportedPanic
            end
        | _ => Ok (RpcValue value nilKind)
        end
    end in
  match t, d with
  | TPtr _, DPtr None =>
      Panic "reflect: call of reflect.Value.Interface on zero Value"
  | TPtr e, DPtr (Some d') =>
      classify (match e, d' with
                | TInterface, DIface x => x
                | _, _ => idyn e d'
                end) e d'
  | _, _ => classify (idyn t d) t d
  end.

(** [makeValue] creates a new XML-RPC value from the given user value. *)
Definition makeValue (value : iface) : outcome rpcValue :=
  match value with
  | inil => Ok zeroValue
  | idyn t d => makeValue_dyn t d
  end.

(** [makeParams] creates a slice of XML-RPC values. *)
Definition makeParams (args : list iface) : outcome (list rpcValue) :=
  mapM makeValue args.

(** [makeCall] creates a new method call. *)
Definition makeCall (method : string) (params : list iface) : outcome methodCall :=
  ps <- makeParams params ;; Ok (mkCall method ps).

(** The argument of [makeResponse], by the case of its type switch that
    takes it: a [Fault], another [error] (given by its [Error()] text), or
    any other value. *)
Inductive payload : Type :=
| PayloadFault (f : Fault)
| PayloadError (text : string)
| PayloadValue (v : iface).

(** [makeResponse] creates a new response; it is a fault if the argument
    is an error or of type [Fault]. The text of an error is used as a format
    string: it is taken here to hold no [%]. *)
Definition makeResponse (p : payload) : outcome methodResponse :=
  match p with
  | PayloadFault v =>
      f <- makeValue (idyn typeOfFault (dataOfFault v)) ;;
      Ok (mkResponse [] f)
  | PayloadError text =>
      f <- makeValue (idyn typeOfFault (dataOfFault (New InternalError text))) ;;
      Ok (mkResponse [] f)
  | PayloadValue v =>
      ps <- makeParams [v] ;;
      Ok (mkResponse ps zeroValue)
  end.

(** [Type.String()], what [%s] prints for a type. The fields of a struct
    literal type are printed without their tags. *)
Fixpoint typeName (t : gotype) : string :=
  match t with
  | TTime => "time.Time"
  | TArray n e => "[" ++ Itoa (Z.of_nat n) ++ "]" ++ typeName e
  | TSlice e => "[]" ++ typeName e
  | TMap k e => "map[" ++ typeName k ++ "]" ++ typeName e
  | TStruct EmptyString fs =>
      "struct {" ++
      (fix fields (fs : list StructField) : string :=
         match fs with
         | [] => " "
         | [mkField n _ ty] => " " ++ n ++ " " ++ typeName ty ++ " "
         | mkField n _ ty :: fs' => " " ++ n ++ " " ++ typeName ty ++ ";" ++ fields fs'
         end) fs ++ "}"
  | TStruct name _ => name
  | TPtr e => "*" ++ typeName e
  | TInterface => "interface {}"
  | TChan => "chan"
  | TFunc => "func()"
  | TRpcValues => "[]xml.rpcValue"
  | TRpcEntries => "[]xml.rpcEntry"
  | _ => reflect.name (kindOf t)
  end.

(** [rpcValue.isEmpty]; the unchecked type assertions panic on a payload
    of another dynamic type. *)
Definition isEmpty (r : rpcValue) : outcome bool :=
  match kind r with
  | nilKind => Ok true
  | arrayKind =>
      match value r with
      | idyn TRpcValues (DValues v) => Ok (Nat.eqb (length v) 0)
      | _ => Panic "interface conversion: interface {} is not []xml.rpcValue"
      end
  | structKind =>
      match value r with
      | idyn TRpcEntries (DEntries v) => Ok (Nat.eqb (length v) 0)
      | _ => Panic "interface conversion: interface {} is not []xml.rpcEntry"
      end
  | _ => Ok false
  end.

(** [rpcFault.isEmpty], as written; no code of the package calls it
    ([res.Fault.isEmpty()] is [rpcValue.isEmpty] on the field). *)
Definition rpcFault_isEmpty (f : rpcValue) : bool :=
  valueKind_eqb (kind f) structKind.

(** The destination [v interface{}] of [writeTo], by what [reflect] finds
    in it. *)
Inductive target : Type :=
| ToNil                                       (* [nil] *)
| ToNonPtr (t : gotype) (d : godata)          (* a value whose kind is not [Ptr] *)
| ToNilPtr (t : gotype)                       (* a nil pointer to a [t] *)
| ToPtr (t : gotype) (cur : godata)           (* [&x], [x] of type [t] holding [cur] *)
| ToZeroValue                                 (* [&rv], [rv] the zero [reflect.Value] *)
| ToValue (t : gotype) (cur : godata) (canSet : bool).
                                              (* [&rv], [rv] a [reflect.Value] for a
                                                 slot of type [t] holding [cur] *)

(** What the slot behind a destination holds. *)
Definition slotOf (v : target) : godata :=
  match v with
  | ToPtr _ cur | ToValue _ cur _ => cur
  | ToNonPtr _ d => d
  | _ => DOpaque
  end.

(** The destination [v] with [slot] in the place it points to. *)
Definition withSlot (v : target) (slot : godata) : target :=
  match v with
  | ToPtr t _ => ToPtr t slot
  | ToValue t _ c => ToValue t slot c
  | _ => v
  end.

(** The kind of [reflect.TypeOf(v)]; [None] is the nil [Type] of a nil
    interface. *)
Definition targetKind (v : target) : option reflect.Kind :=
  match v with
  | ToNil => None
  | ToNonPtr t _ => Some (kindOf t)
  | _ => Some reflect.Ptr
  end.

(** [nameMap] of [writeTo]: a Go map from wire names to field names, built
    by assignments in field order; a later assignment to a key replaces an
    earlier one. *)
Definition nameMapT : Type := list (string * string).

Definition nameMap_set (m : nameMapT) (k v : string) : nameMapT := (k, v) :: m.

(** [m[k]]: the zero value [""] for a missing key *)
Definition nameMap_get (m : nameMapT) (k : string) : string :=
  match find (fun p => String.eqb (fst p) k) m with
  | Some (_, v) => v
  | None => ""
  end.

Definition buildNameMap (fs : list StructField) : nameMapT :=
  fold_left (fun m f =>
               match fieldTag f with
               | Some name => nameMap_set m name (fieldName f)
               | None => nameMap_set m (fieldName f) (fieldName f)
               end) fs [].

(** [Value.FieldByName(name)]: the index of the field, [None] for the
    invalid [Value] of a name that is no field. *)
Fixpoint fieldIndex (fs : list StructField) (name : string) : option nat :=
  match fs with
  | [] => None
  | f :: fs' =>
      if String.eqb (fieldName f) name then Some O
      else option_map S (fieldIndex fs' name)
  end.

Fixpoint setNth {A} (l : list A) (i : nat) (a : A) : list A :=
  match l, i with
  | [], _ => []
  | _ :: l', O => a :: l'
  | x :: l', S i' => x :: setNth l' i' a
  end.

(** [refVal.Set(reflect.ValueOf(val))] on a slot of type [rt]. *)
Definition store (rt : gotype) (val : iface) (cur : godata) : godata :=
  match rt, val with
  | TInterface, _ => DIface val
  | _, idyn _ d => d
  | _, inil => cur
  end.

Definition internalError (s : string) : option error :=
  errFault (New InternalError s).

(** The last lines of [writeTo]: a non-nil [val] whose type is the type
    [refType] of the slot, or any [val] when the slot is an [interface{}],
    is stored; [cur] is what the slot holds. *)
Definition setValue (refType : gotype) (val : iface) (cur : godata)
  : option error * godata :=
  match val with
  | inil => (None, cur)
  | idyn vt _ =>
      if negb (gotype_eqb vt refType) && negb (gotype_eqb refType TInterface)
      then (internalError ("type mismatch: " ++ typeName vt ++ " != " ++
                           typeName refType), cur)
      else (None, store refType val cur)
  end.

(** The loop of [writeTo] over the items of an array: each is written, by
    the recursive call [writeTo], to its element of a new slice of element
    type [et]. The result is the first error and the elements written. *)
Definition writeItems
    (writeTo : rpcValue -> target -> outcome (option error * godata))
    (et : gotype) : list rpcValue -> outcome (option error * list godata) :=
  fix items (array : list rpcValue) : outcome (option error * list godata) :=
    match array with
    | [] => Ok (None, [])
    | item :: rest =>
        '(err, m) <- writeTo item (ToValue et (zero et) true) ;;
        match err with
        | Some e => Ok (Some e, [])
        | None => '(err', ms) <- items rest ;; Ok (err', m :: ms)
        end
    end.

(** The loop of [writeTo] over the members of a struct value, on the
    fields [fds] of the destination: a member is written to the field that
    [nameMap] gives for its name; a name without a field ends the loop with
    an error. *)
Definition writeMembers
    (writeTo : rpcValue -> target -> outcome (option error * godata))
    (fs : list StructField) (nameMap : nameMapT)
  : list rpcEntry -> list godata -> outcome (option error * list godata) :=
  fix each (members : list rpcEntry) (fds : list godata)
    : outcome (option error * list godata) :=
    match members with
    | [] => Ok (None, fds)
    | RpcEntry name mv :: rest =>
        let fieldName := nameMap_get nameMap name in
        match fieldIndex fs fieldName with
        | None =>
            (* field may not exist, report early to avoid panics *)
            Ok (internalError ("error writing struct. unknown field " ++ fieldName),
                fds)
        | Some i =>
            let fty := nth i (map fieldType fs) TInterface in
            '(err, fd) <- writeTo mv (ToValue fty (nth i fds DOpaque)
                                        (isExported fieldName)) ;;
            match err with
            | Some e => Ok (Some e, setNth fds i fd)
            | None => each rest (setNth fds i fd)
            end
        end
    end.

(** [rpcValue.writeTo(v)] writes the XML-RPC value to the given pointer
    value. The result is the error returned and what the slot behind [v]
    holds afterwards: fields of a struct are written in place, so that a
    failing member leaves the earlier ones written. *)
Fixpoint writeTo (r : rpcValue) (v : target) {struct r}
  : outcome (option error * godata) :=
  (* nothing to write *)
  empty <- isEmpty r ;;
  if (empty : bool) then Ok (None, slotOf v) else
  match v with
  | ToNil => Panic "invalid memory address or nil pointer dereference"
  | ToNonPtr t _ =>
      Ok (internalError ("error writing value. expected pointer got '" ++
                         reflect.name (kindOf t) ++ "'"), slotOf v)
  | ToZeroValue => Panic "reflect: call of reflect.Value.Type on zero Value"
  | ToNilPtr _ | ToPtr _ _ | ToValue _ _ _ =>
      let ptrElemKind := match v with
                         | ToNilPtr t | ToPtr t _ => kindOf t
                         | _ => reflect.Struct
                         end in
      if reflect.eqb ptrElemKind reflect.Interface then
        Ok (internalError "error writing value. cannot write to type 'ptr'",
            slotOf v)
      else
      let '(refType, cur, canSet) :=
        match v with
        | ToPtr t cur => (t, cur, true)
        | ToValue t cur canSet => (t, cur, canSet)
        | ToNilPtr t => (t, DOpaque, false)
        | _ => (TInterface, DOpaque, false)
        end in
      let refKind := kindOf refType in
      if negb canSet then
        Ok (internalError "error writing to value. cannot set value", cur)
      else
      match r with
      | RpcValue val arrayKind =>
          if gotype_eqb refType TInterface then
            (* an array of generic types: the payload is stored as it is *)
            Ok (setValue refType val cur)
          else if negb (reflect.eqb refKind reflect.Slice) then
            Ok (internalError ("error writing value. expected type slice got '" ++
                               reflect.name refKind ++ "'"), cur)
          else
          match val with
          | idyn TRpcValues (DValues array) =>
              match refType, cur with
              | TSlice et, DSeq old =>
                  '(err, slice) <- writeItems writeTo et array ;;
                  match err with
                  | Some e => Ok (Some e, cur)
                  | None =>
                      (* append the new slice to the dereferenced slice *)
                      Ok (setValue refType (idyn refType (DSeq (old ++ slice))) cur)
                  end
              | _, _ => Unmodelled "slice destination of another element type"
              end
          | _ => Ok (internalError "invalid decoded type for array", cur)
          end
      | RpcValue val structKind =>
          if negb (reflect.eqb refKind reflect.Struct) then
            Ok (internalError ("error writing struct. expected type struct got '" ++
                               reflect.name refKind ++ "'"), cur)
          else
          match val with
          | idyn TRpcEntries (DEntries members) =>
              let fs := fieldsOf refType in
              '(err, fds) <- writeMembers writeTo fs (buildNameMap fs) members
                               (fieldData refType cur) ;;
              let cur' := match cur with
                          | DStruct _ => DStruct fds
                          | _ => cur
                          end in
              match err with
              | Some e => Ok (Some e, cur')
              | None => Ok (setValue refType (idyn refType cur') cur')
              end
          | _ => Ok (internalError "invalid decoded type for struct", cur)
          end
      | RpcValue val _ => Ok (setValue refType val cur)
      end
  end.

Module rpcParams.
(** [rpcParams.writeTo(args)] writes parameters to the receiver. A single
    parameter is written to the receiver itself, several as one array into
    the [reflect.Value] of what the receiver points to. *)
Definition writeTo (params : list rpcValue) (args : target)
  : outcome (option error * godata) :=
  match args, params with
  | ToNil, _ | _, [] => Ok (None, slotOf args)
  | ToNonPtr t _, _ =>
      Ok (errFault (New InternalError
            ("invalid receiver type. expected pointer but got '" ++
             reflect.name (kindOf t) ++ "'")), slotOf args)
  | _, [p] => writeTo p args
  | _, _ =>
      let array := RpcValue (idyn TRpcValues (DValues params)) arrayKind in
      match args with
      | ToPtr t cur => writeTo array (ToValue t cur true)
      | ToNilPtr _ => writeTo array ToZeroValue
      | _ => writeTo array (ToValue (TStruct "reflect.Value" []) DOpaque true)
      end
  end.
End rpcParams.

(** ** Standard library: formatting and parsing of payloads *)

(** *** [fmt]: the verbs [%v] (of [fmt.Sprint]) and [%f] *)

(** [fmt.Sprint(v)] for the payloads whose form is plain. *)
Definition Sprint (v : iface) : outcome string :=
  match v with
  | inil => Ok "<nil>"
  | idyn _ (DInt n) => Ok (Itoa n)
  | idyn _ (DString s) => Ok s
  | idyn _ (DBool b) => Ok (if b then "true" else "false")
  | _ => Unmodelled "fmt.Sprint of a value that is no integer, string or boolean"
  end.

Fixpoint zeros (n : nat) : string :=
  match n with
  | O => ""
  | S n' => String "0" (zeros n')
  end.

(** [n] in decimal, padded with zeros on the left to at least [width]. *)
Definition padLeft (width : nat) (n : N) : string :=
  let s := FormatUint n in
  zeros (width - String.length s) ++ s.

(** The quotient [a / b] rounded to the nearest integer, ties to even. *)
Definition divRoundEven (a b : N) : N :=
  let q := (a / b)%N in
  let r := (a mod b)%N in
  match (2 * r ?= b)%N with
  | Lt => q
  | Gt => (q + 1)%N
  | Eq => if N.even q then q else (q + 1)%N
  end.

(** The magnitude of a finite float times [10^6], rounded to an integer. *)
Definition scaled6 (m : positive) (e : Z) : N :=
  match e with
  | Zneg p => divRoundEven (Npos m * 10 ^ 6) (2 ^ Npos p)
  | _ => (Npos m * 2 ^ Z.to_N e * 10 ^ 6)%N
  end.

Definition fixed6 (neg : bool) (q : N) : string :=
  (if neg then "-" else "") ++
  FormatUint (q / 10 ^ 6) ++ "." ++ padLeft 6 (q mod 10 ^ 6).

(** [fmt.Sprintf("%f", x)] for a float: six digits after the point, the
    exact value rounded to nearest, ties to even. *)
Definition Sprintf_f_float (x : spec_float) : string :=
  match x with
  | S754_zero s => fixed6 s 0
  | S754_infinity s => if s then "-Inf" else "+Inf"
  | S754_nan => "NaN"
  | S754_finite s m e => fixed6 s (scaled6 m e)
  end.

Definition Sprintf_f (v : iface) : outcome string :=
  match v with
  | idyn (TFloat64 | TFloat32) (DFloat x) => Ok (Sprintf_f_float x)
  | _ => Unmodelled "fmt.Sprintf(%f) of a value that is no float"
  end.

(** *** [time]: the four layouts of the package *)

Definition iso8601 : string := "20060102T15:04:05".
Definition rfc3339NoTZ : string := "2006-01-02T15:04:05".
Definition rfc3339HyphenTZ : string := "2006-01-02T15:04:05-07:00".
Definition time_RFC3339 : string := "2006-01-02T15:04:05Z07:00".

(** The elements of a layout that these four use. *)
Inductive chunk : Set :=
| Lit (c : ascii)
| stdLongYear        (* 2006 *)
| stdZeroMonth       (* 01 *)
| stdZeroDay         (* 02 *)
| stdHour            (* 15 *)
| stdZeroMinute      (* 04 *)
| stdZeroSecond      (* 05 *)
| stdISO8601ColonTZ  (* Z07:00 *)
| stdNumColonTZ.     (* -07:00 *)

(** [nextStdChunk], iterated, for layouts made of the elements above. *)
Fixpoint chunksOf (fuel : nat) (layout : list ascii) : list chunk :=
  match fuel with
  | O => []
  | S fuel' =>
      match layout with
      | [] => []
      | "2" :: "0" :: "0" :: "6" :: l => stdLongYear :: chunksOf fuel' l
      | "0" :: "1" :: l => stdZeroMonth :: chunksOf fuel' l
      | "0" :: "2" :: l => stdZeroDay :: chunksOf fuel' l
      | "1" :: "5" :: l => stdHour :: chunksOf fuel' l
      | "0" :: "4" :: l => stdZeroMinute :: chunksOf fuel' l
      | "0" :: "5" :: l => stdZeroSecond :: chunksOf fuel' l
      | "Z" :: "0" :: "7" :: ":" :: "0" :: "0" :: l =>
          stdISO8601ColonTZ :: chunksOf fuel' l
      | "-" :: "0" :: "7" :: ":" :: "0" :: "0" :: l =>
          stdNumColonTZ :: chunksOf fuel' l
      | c :: l => Lit c :: chunksOf fuel' l
      end%char
  end.

Definition digitVal (c : ascii) : Z := Z.of_N (code c) - 48.

(** [getnum(s, fixed)]: one or two digits, two when [fixed]. *)
Definition getnum (s : list ascii) (fixed : bool) : option (Z * list ascii) :=
  match s with
  | a :: rest =>
      if isDigit a then
        match rest with
        | b :: rest' =>
            if isDigit b then Some (digitVal a * 10 + digitVal b, rest')
            else if fixed then None else Some (digitVal a, rest)
        | [] => if fixed then None else Some (digitVal a, rest)
        end
      else None
  | [] => None
  end.

Definition isLeap (y : Z) : bool :=
  (y mod 4 =? 0) && (negb (y mod 100 =? 0) || (y mod 400 =? 0)).

Definition daysIn (m y : Z) : Z :=
  if m =? 2 then (if isLeap y then 29 else 28)
  else if (m =? 4) || (m =? 6) || (m =? 9) || (m =? 11) then 30 else 31.

Fixpoint takeDigits (s : list ascii) : list ascii * list ascii :=
  match s with
  | c :: s' =>
      if isDigit c then let '(ds, r) := takeDigits s' in (c :: ds, r)
      else ([], s)
  | [] => ([], [])
  end.

Definition digitsVal (ds : list ascii) : Z :=
  fold_left (fun acc c => acc * 10 + digitVal c) ds 0.

(** [parseNanoseconds]: the digits after the point, at most nine of them
    used, scaled to nanoseconds. *)
Definition parseNanoseconds (ds : list ascii) : Z :=
  let used := firstn 9 ds in
  digitsVal used * 10 ^ Z.of_nat (9 - length used).

(** The offset of a zone written [+hh:mm] or [-hh:mm]. *)
Definition parseOffset (s : list ascii) : option (Z * list ascii) :=
  match s with
  | sign :: h1 :: h2 :: colon :: m1 :: m2 :: rest =>
      if Ascii.eqb colon ":" && isDigit h1 && isDigit h2 && isDigit m1
         && isDigit m2 then
        let hr := digitVal h1 * 10 + digitVal h2 in
        let mm := digitVal m1 * 10 + digitVal m2 in
        if (24 <? hr) || (60 <? mm) then None
        else
          let off := (hr * 60 + mm) * 60 in
          if Ascii.eqb sign "+" then Some (off, rest)
          else if Ascii.eqb sign "-" then Some (- off, rest)
          else None
      else None
  | _ => None
  end.

(** The loop of [time.parse] over the elements of the layout. *)
Fixpoint parseChunks (cs : list chunk) (v : list ascii) (t : Time)
  : option Time :=
  match cs with
  | [] =>
      match v with
      | [] =>
          if (day t <? 1) || (daysIn (month t) (year t) <? day t) then None
          else Some t
      | _ => None                  (* extra text *)
      end
  | Lit c :: cs' =>
      match v with
      | c' :: v' => if Ascii.eqb c c' then parseChunks cs' v' t else None
      | [] => None
      end
  | stdLongYear :: cs' =>
      match v with
      | a :: b :: c :: d :: v' =>
          if isDigit a && isDigit b && isDigit c && isDigit d then
            parseChunks cs' v'
              (mkTime (digitsVal [a; b; c; d]) (month t) (day t) (hour t)
                 (minute t) (second t) (nsec t) (offset t))
          else None
      | _ => None
      end
  | stdZeroMonth :: cs' =>
      match getnum v true with
      | Some (n, v') =>
          if (n <=? 0) || (12 <? n) then None
          else parseChunks cs' v'
                 (mkTime (year t) n (day t) (hour t) (minute t) (second t)
                    (nsec t) (offset t))
      | None => None
      end
  | stdZeroDay :: cs' =>
      match getnum v true with
      | Some (n, v') =>
          parseChunks cs' v'
            (mkTime (year t) (month t) n (hour t) (minute t) (second t)
               (nsec t) (offset t))
      | None => None
      end
  | stdHour :: cs' =>
      match getnum v false with
      | Some (n, v') =>
          if 24 <=? n then None
          else parseChunks cs' v'
                 (mkTime (year t) (month t) (day t) n (minute t) (second t)
                    (nsec t) (offset t))
      | None => None
      end
  | stdZeroMinute :: cs' =>
      match getnum v true with
      | Some (n, v') =>
          if 60 <=? n then None
          else parseChunks cs' v'
                 (mkTime (year t) (month t) (day t) (hour t) n (second t)
                    (nsec t) (offset t))
      | None => None
      end
  | stdZeroSecond :: cs' =>
      match getnum v true with
      | Some (n, v') =>
          if 60 <=? n then None
          else
            (* a fractional second in the input that the layout lacks *)
            let '(ns, v'') :=
              match v' with
              | p :: d :: _ =>
                  if (Ascii.eqb p "." || Ascii.eqb p ",")%char && isDigit d
                  then let '(ds, r) := takeDigits (tl v') in
                       (parseNanoseconds ds, r)
                  else (nsec t, v')
              | _ => (nsec t, v')
              end in
            parseChunks cs' v''
              (mkTime (year t) (month t) (day t) (hour t) (minute t) n ns
                 (offset t))
      | None => None
      end
  | stdISO8601ColonTZ :: cs' =>
      match v with
      | "Z"%char :: v' => parseChunks cs' v' t
      | _ =>
          match parseOffset v with
          | Some (off, v') =>
              parseChunks cs' v'
                (mkTime (year t) (month t) (day t) (hour t) (minute t)
                   (second t) (nsec t) off)
          | None => None
          end
      end
  | stdNumColonTZ :: cs' =>
      match parseOffset v with
      | Some (off, v') =>
          parseChunks cs' v'
            (mkTime (year t) (month t) (day t) (hour t) (minute t)
               (second t) (nsec t) off)
      | None => None
      end
  end.

(** [time.Parse(layout, value)], for the layouts above: the time read, or
    the [*time.ParseError]. The date defaults are those of Go (year 0,
    January 1st, UTC). *)
Definition time_Parse (layout value : string) : Time + error :=
  let cs := chunksOf (String.length layout) (chars layout) in
  match parseChunks cs (chars value) (mkTime 0 1 1 0 0 0 0 0) with
  | Some t => inl t
  | None => inr (time_ParseError layout value)
  end.

(** [t.AppendFormat(b, iso8601)]: the year on at least four digits, the
    other fields on two. *)
Definition formatYear (y : Z) : string :=
  (if y <? 0 then "-" else "") ++ padLeft 4 (Z.abs_N y).

Definition formatIso8601 (t : Time) : string :=
  formatYear (year t) ++ padLeft 2 (Z.to_N (month t)) ++
  padLeft 2 (Z.to_N (day t)) ++ "T" ++ padLeft 2 (Z.to_N (hour t)) ++ ":" ++
  padLeft 2 (Z.to_N (minute t)) ++ ":" ++ padLeft 2 (Z.to_N (second t)).

(** *** [encoding/base64]: [StdEncoding] *)

Definition encodeStd : list ascii :=
  chars "ABCDEFGHIJKLMNOPQRSTUVWXYZabcdefghijklmnopqrstuvwxyz0123456789+/".

Definition sextetChar (n : Z) : ascii := nth (Z.to_nat n) encodeStd "="%char.

(** The decode map of the alphabet. *)
Definition sextet (c : ascii) : option Z :=
  let n := Z.of_N (code c) in
  if (65 <=? n) && (n <=? 90) then Some (n - 65)
  else if (97 <=? n) && (n <=? 122) then Some (n - 71)
  else if (48 <=? n) && (n <=? 57) then Some (n + 4)
  else if n =? 43 then Some 62
  else if n =? 47 then Some 63
  else None.

Definition padChar : ascii := "="%char.

(** [StdEncoding.EncodeToString(src)] *)
Fixpoint EncodeToChars (src : list Z) : list ascii :=
  match src with
  | [] => []
  | [a] =>
      let v := Z.shiftl a 16 in
      [sextetChar (Z.land (Z.shiftr v 18) 63);
       sextetChar (Z.land (Z.shiftr v 12) 63); padChar; padChar]
  | [a; b] =>
      let v := Z.lor (Z.shiftl a 16) (Z.shiftl b 8) in
      [sextetChar (Z.land (Z.shiftr v 18) 63);
       sextetChar (Z.land (Z.shiftr v 12) 63);
       sextetChar (Z.land (Z.shiftr v 6) 63); padChar]
  | a :: b :: c :: rest =>
      let v := Z.lor (Z.lor (Z.shiftl a 16) (Z.shiftl b 8)) c in
      sextetChar (Z.land (Z.shiftr v 18) 63) ::
      sextetChar (Z.land (Z.shiftr v 12) 63) ::
      sextetChar (Z.land (Z.shiftr v 6) 63) ::
      sextetChar (Z.land v 63) :: EncodeToChars rest
  end.

Definition EncodeToString (src : list Z) : string := str (EncodeToChars src).

Definition corrupt : option error := Some base64_CorruptInputError.

(** The quanta of [Encoding.Decode], on input without line breaks: the
    bytes decoded and the error; the offset a [CorruptInputError] carries
    is not modelled. *)
Fixpoint decodeQuanta (s : list ascii) : list Z * option error :=
  match s with
  | [] => ([], None)
  | a :: b :: c :: d :: rest =>
      match sextet a, sextet b with
      | Some x, Some y =>
          let val2 := Z.lor (Z.shiftl x 18) (Z.shiftl y 12) in
          if Ascii.eqb c padChar then
            if Ascii.eqb d padChar then
              ([Z.land (Z.shiftr val2 16) 255],
               match rest with [] => None | _ => corrupt end)
            else ([], corrupt)
          else
            match sextet c with
            | None => ([], corrupt)
            | Some z =>
                let val3 := Z.lor val2 (Z.shiftl z 6) in
                if Ascii.eqb d padChar then
                  ([Z.land (Z.shiftr val3 16) 255; Z.land (Z.shiftr val3 8) 255],
                   match rest with [] => None | _ => corrupt end)
                else
                  match sextet d with
                  | None => ([], corrupt)
                  | Some w =>
                      let val := Z.lor val3 w in
                      let '(bytes, err) := decodeQuanta rest in
                      (Z.land (Z.shiftr val 16) 255 ::
                       Z.land (Z.shiftr val 8) 255 ::
                       Z.land val 255 :: bytes, err)
                  end
            end
      | _, _ => ([], corrupt)
      end
  | _ => ([], corrupt)
  end.

Definition isNewline (c : ascii) : bool :=
  (code c =? 10)%N || (code c =? 13)%N.

(** [StdEncoding.DecodeString(s)]: line breaks are skipped; on an error
    the bytes of the quanta before it are returned with it. *)
Definition DecodeString (s : string) : list Z * option error :=
  decodeQuanta (filter (fun c => negb (isNewline c)) (chars s)).

Definition typeOfBytes : gotype := TSlice TUint8.

Definition dataOfBytes (bs : list Z) : godata := DSeq (map DInt bs).

(** [rpc.value.([]byte)] *)
Definition bytesOf (v : iface) : option (list Z) :=
  match v with
  | idyn (TSlice TUint8) (DSeq items) =>
      Some (map (fun d => match d with DInt n => n | _ => 0 end) items)
  | _ => None
  end.

(** *** [encoding/xml]: [EscapeText] *)

(** [xml.EscapeText]: the five markup characters, tab, line feed and
    carriage return are written as references, any other control character
    as U+FFFD; bytes above 127 are taken to be valid UTF-8 and copied. *)
Definition escapeChar (c : ascii) : string :=
  let n := code c in
  if (n =? 34)%N then "&#34;"
  else if (n =? 39)%N then "&#39;"
  else if (n =? 38)%N then "&amp;"
  else if (n =? 60)%N then "&lt;"
  else if (n =? 62)%N then "&gt;"
  else if (n =? 9)%N then "&#x9;"
  else if (n =? 10)%N then "&#xA;"
  else if (n =? 13)%N then "&#xD;"
  else if (n <? 32)%N then String (ascii_of_N 239) (String (ascii_of_N 191) (String (ascii_of_N 189) ""))
  else String c "".

Definition EscapeText (s : string) : string :=
  fold_right (fun c acc => escapeChar c ++ acc) "" (chars s).

(** [xml.Header] *)
Definition xml_Header : string :=
  "<?xml version=" ++ quoted "1.0" ++ " encoding=" ++ quoted "UTF-8" ++ "?>" ++
  String (ascii_of_N 10) "".

(** ** The writer *)

Inductive xmlTag : Set :=
| valueTag | structTag | arrayTag | dataTag | base64Tag | booleanTag
| dateTimeTag | doubleTag | intTag | stringTag | memberTag | nameTag
| methodCallTag | methodNameTag | methodResponseTag | paramListTag
| paramTag | faultTag.

Definition tagNames (t : xmlTag) : string :=
  match t with
  | valueTag => "value"
  | structTag => "struct"
  | arrayTag => "array"
  | dataTag => "data"
  | base64Tag => "base64"
  | booleanTag => "boolean"
  | dateTimeTag => "dateTime.iso8601"
  | doubleTag => "double"
  | intTag => "int"
  | stringTag => "string"
  | memberTag => "member"
  | nameTag => "name"
  | methodCallTag => "methodCall"
  | methodNameTag => "methodName"
  | methodResponseTag => "methodResponse"
  | paramListTag => "params"
  | paramTag => "param"
  | faultTag => "fault"
  end.

(** The tables [init] fills. *)
Definition startTags (t : xmlTag) : string := "<" ++ tagNames t ++ ">".
Definition endTags (t : xmlTag) : string := "</" ++ tagNames t ++ ">".

Definition boolEncodeMap (b : bool) : string := if b then "1" else "0".

(** [xmlWriter]: its [io.Writer] is modelled as a buffer that accepts
    every write, such as the [bytes.Buffer] of the tests; [wr] is what has
    been written to it. *)
Record xmlWriter : Set := mkWriter { wr : string }.

(** A method of the writer: the error it returns and the writer after it,
    or a panic. *)
Definition writing : Type := xmlWriter -> outcome (option error * xmlWriter).

(** [io.WriteString(w.wr, s)] *)
Definition WriteString (s : string) : writing :=
  fun w => Ok (None, mkWriter (wr w ++ s)).

(** [if err := a; err != nil { return err }; b] *)
Definition andThen (a b : writing) : writing :=
  fun w =>
    '(err, w') <- a w ;;
    match err with
    | Some e => Ok (Some e, w')
    | None => b w'
    end.

Definition panics (msg : string) : writing := fun _ => Panic msg.
Definition unmodelled (what : string) : writing := fun _ => Unmodelled what.

(** [writeRaw] writes the given raw value enclosed in the specified tag. *)
Definition writeRaw (t : xmlTag) (raw : string) : writing :=
  andThen (WriteString (startTags t))
    (andThen (WriteString raw) (WriteString (endTags t))).

(** [writeXML] invokes the given function wrapped in the specified tag. *)
Definition writeXML (t : xmlTag) (fn : writing) : writing :=
  andThen (WriteString (startTags t))
    (andThen fn (WriteString (endTags t))).

(** [for _, v := range l { if err := f(v); err != nil { return err } }; return nil] *)
Definition forEach {A} (f : A -> writing) : list A -> writing :=
  fix go (l : list A) : writing :=
    match l with
    | [] => fun w => Ok (None, w)
    | a :: l' => andThen (f a) (go l')
    end.

(** The characters after which a string is escaped: [<>&'] and the
    double quote. *)
Definition markup : string := "<>&'" ++ String dquote "".

(** The text of a [double]: [%f], trailing zeros trimmed, and a zero put
    back after a bare point. *)
Definition formatDouble (d : string) : string :=
  let d := TrimRight d "0" in
  match lastChar d with
  | None => d ++ "0"
  | Some c => if Ascii.eqb c "." then d ++ "0" else d
  end.

Fixpoint writeValue (rpc : rpcValue) {struct rpc} : writing :=
  writeXML valueTag
    match rpc with
    | RpcValue val intKind =>
        match Sprint val with
        | Ok s => writeRaw intTag s
        | Panic m => panics m
        | Unmodelled u => unmodelled u
        | Exhausted => fun _ => Exhausted
        end
    | RpcValue val booleanKind =>
        match val with
        | idyn TBool (DBool b) => writeRaw booleanTag (boolEncodeMap b)
        | _ => panics "interface conversion: interface {} is not bool"
        end
    | RpcValue val doubleKind =>
        match Sprintf_f val with
        | Ok d => writeRaw doubleTag (formatDouble d)
        | Panic m => panics m
        | Unmodelled u => unmodelled u
        | Exhausted => fun _ => Exhausted
        end
    | RpcValue val stringKind =>
        match val with
        | idyn TString (DString s) =>
            if noneOf markup s then writeRaw stringTag s
            else writeXML stringTag (WriteString (EscapeText s))
        | _ => panics "interface conversion: interface {} is not string"
        end
    | RpcValue val dateTimeKind =>
        match val with
        | idyn TTime (DTime t) => writeRaw dateTimeTag (formatIso8601 t)
        | _ => panics "interface conversion: interface {} is not time.Time"
        end
    | RpcValue val base64Kind =>
        match bytesOf val with
        | Some bs => writeRaw base64Tag (EncodeToString bs)
        | None => panics "interface conversion: interface {} is not []uint8"
        end
    | RpcValue val arrayKind =>
        writeXML arrayTag
          (writeXML dataTag
             match val with
             | idyn TRpcValues (DValues array) => forEach writeValue array
             | _ => panics "interface conversion: interface {} is not []xml.rpcValue"
             end)
    | RpcValue val structKind =>
        writeXML structTag
          match val with
          | idyn TRpcEntries (DEntries members) =>
              forEach (fun m : rpcEntry =>
                         match m with
                         | RpcEntry name mv =>
                             writeXML memberTag
                               (andThen (writeRaw nameTag name) (writeValue mv))
                         end) members
          | _ => panics "interface conversion: interface {} is not []xml.rpcEntry"
          end
    | RpcValue _ nilKind => fun w => Ok (None, w)
    end.

Definition writeParamList (params : list rpcValue) : writing :=
  writeXML paramListTag
    (forEach (fun v => writeXML paramTag (writeValue v)) params).

Definition writeCall (rpc : methodCall) : writing :=
  andThen (WriteString xml_Header)
    (writeXML methodCallTag
       (andThen (writeRaw methodNameTag (Method rpc))
          (writeParamList (call_Params rpc)))).

(** [writeResponse]: the fault branch when the [Fault] field is not empty
    ([rpcValue.isEmpty]), the params branch otherwise. *)
Definition writeResponse (rpc : methodResponse) : writing :=
  andThen (WriteString xml_Header)
    (writeXML methodResponseTag
       (fun w =>
          empty <- isEmpty (resp_Fault rpc) ;;
          if (empty : bool) then writeParamList (resp_Params rpc) w
          else writeXML faultTag (writeValue (resp_Fault rpc)) w)).

(** The bytes a method writes to an empty buffer. *)
Definition written (m : writing) : outcome (option error * string) :=
  '(err, w) <- m (mkWriter "") ;; Ok (err, wr w).

(** *** [strconv.ParseFloat(s, 64)] *)

Definition lower (c : ascii) : ascii :=
  let n := code c in
  if ((65 <=? n) && (n <=? 90))%N then ascii_of_N (n + 32) else c.

Definition equalFold (s : list ascii) (lit : string) : bool :=
  if list_eq_dec ascii_dec (map lower s) (chars lit) then true else false.

(** The float64 nearest to [num / den], ties to even. *)
Definition roundRatio (neg : bool) (num den : positive) : spec_float :=
  let '(mz, ez, lz) := SFdiv_core_binary 53 1024 (Zpos num) 0 (Zpos den) 0 in
  binary_round_aux 53 1024 neg mz ez lz.

(** The exponent part of a decimal literal: nothing, or [e] or [E], an
    optional sign and at least one digit, up to the end of the text. *)
Definition readExponent (s : list ascii) : option Z :=
  match s with
  | [] => Some 0
  | e :: r =>
      if Ascii.eqb (lower e) "e" then
        let '(neg, r') :=
          match r with
          | c :: r' =>
              if Ascii.eqb c "-" then (true, r')
              else if Ascii.eqb c "+" then (false, r') else (false, r)
          | [] => (false, r)
          end in
        match takeDigits r' with
        | ((_ :: _) as ds, []) =>
            Some (if neg then - digitsVal ds else digitsVal ds)
        | _ => None
        end
      else None
  end.

(** [strconv.ParseFloat(s, 64)] for decimal literals, [Inf], [Infinity]
    and [NaN]: the value and whether [err == nil]. Text that is not
    well-formed gives 0 and an error, a literal beyond the largest float an
    infinity and an error. Literals with underscores and hexadecimal
    literals are left out. *)
Definition ParseFloat (s : string) : outcome (spec_float * bool) :=
  let cs := chars s in
  let '(neg, signed, body) :=
    match cs with
    | c :: r =>
        if Ascii.eqb c "-" then (true, true, r)
        else if Ascii.eqb c "+" then (false, true, r)
        else (false, false, cs)
    | [] => (false, false, cs)
    end in
  if existsb (fun c => Ascii.eqb c "_" || Ascii.eqb (lower c) "x") cs then
    Unmodelled "strconv.ParseFloat of a literal with an underscore or in base 16"
  else if equalFold body "inf" || equalFold body "infinity" then
    Ok (S754_infinity neg, true)
  else if negb signed && equalFold body "nan" then Ok (S754_nan, true)
  else
    let '(ip, r1) := takeDigits body in
    let '(fp, r2) :=
      match r1 with
      | c :: r => if Ascii.eqb c "." then takeDigits r else ([], r1)
      | [] => ([], r1)
      end in
    match (ip ++ fp)%list, readExponent r2 with
    | [], _ | _, None => Ok (S754_zero false, false)
    | ds, Some e =>
        let k := e - Z.of_nat (length fp) in
        match digitsVal ds with
        | Zpos m =>
            let x := match k with
                     | Zneg p => roundRatio neg m (10 ^ p)
                     | _ => roundRatio neg (m * Z.to_pos (10 ^ k)) 1
                     end in
            match x with
            | S754_infinity _ => Ok (x, false)
            | _ => Ok (x, true)
            end
        | _ => Ok (S754_zero neg, true)
        end
    end.

(** ** reader.go: the pull reader *)

(** [xml.Token], for a document without attributes and name spaces. *)
Inductive Token : Set :=
| StartElement (Local : string)
| EndElement (Local : string)
| CharData (text : string)
| Comment (text : string)
| ProcInst (Target Inst : string)
| Directive (text : string).

(** [*xml.Decoder], by what [RawToken] returns from now on: the tokens
    [pending], then the error [final] ([io.EOF] at the end of well-formed
    input, a [*xml.SyntaxError] where the markup breaks) at every call. *)
Record Decoder : Set := mkDecoder { pending : list Token; final : error }.

Record xmlReader : Set := mkReader {
  dec : Decoder;          (* for XML pull parsing *)
  peek : option Token     (* next token we peeked *)
}.

Definition dateTimeFormats : list string :=
  [iso8601; time_RFC3339; rfc3339HyphenTZ; rfc3339NoTZ].

Definition boolDecodeMap (s : string) : option bool :=
  if String.eqb s "1" then Some true
  else if String.eqb s "true" then Some true
  else if String.eqb s "0" then Some false
  else if String.eqb s "false" then Some false
  else None.

(** [valueTagSet], as [init] fills it. *)
Definition valueTagSet (name : string) : bool :=
  existsb (fun t => String.eqb (tagNames t) name)
    [stringTag; intTag; base64Tag; dateTimeTag; doubleTag; booleanTag;
     arrayTag; structTag]
  || String.eqb name "i4".

Definition newReader (d : Decoder) : xmlReader := mkReader d None.

(** [reset] resets the reader's internal state. *)
Definition reset (r : xmlReader) (d : Decoder) : xmlReader := mkReader d None.

(** [putToken] pushes the token on the top of the decoding stream. *)
Definition putToken (r : xmlReader) (t : option Token) : xmlReader :=
  mkReader (dec r) t.

(** [token] returns the next token from the XML stream. *)
Definition token (r : xmlReader) : option Token * option error * xmlReader :=
  match peek r with
  | Some t => (Some t, None, mkReader (dec r) None)
  | None =>
      match pending (dec r) with
      | t :: rest => (Some t, None, mkReader (mkDecoder rest (final (dec r))) None)
      | [] => (None, Some (final (dec r)), r)
      end
  end.

(** The tokens left once the leading blank character data is dropped. *)
Fixpoint skipBlank (l : list Token) : list Token :=
  match l with
  | CharData s :: l' => if isBlank s then skipBlank l' else l
  | _ => l
  end.

(** [trim]: the loop reads tokens while they are blank character data and
    puts the first other one back; at the end of the tokens it puts [nil]
    back. *)
Definition trim (r : xmlReader) : xmlReader :=
  let fromDecoder :=
    match skipBlank (pending (dec r)) with
    | t :: rest => mkReader (mkDecoder rest (final (dec r))) (Some t)
    | [] => mkReader (mkDecoder [] (final (dec r))) None
    end in
  match peek r with
  | Some (CharData s) => if isBlank s then fromDecoder else r
  | Some _ => r
  | None => fromDecoder
  end.

(** What [%s] and [%#v] print for a token. *)
Definition hexDigit (n : N) : ascii :=
  if (n <? 10)%N then ascii_of_N (48 + n) else ascii_of_N (87 + n).

Definition hexByte (c : ascii) : string :=
  let n := code c in
  "0x" ++ (if (n <? 16)%N then "" else String (hexDigit (n / 16)) "") ++
  String (hexDigit (n mod 16)) "".

Fixpoint hexBytes (l : list ascii) : string :=
  match l with
  | [] => ""
  | [c] => hexByte c
  | c :: l' => hexByte c ++ ", " ++ hexBytes l'
  end.

Definition token_s (t : Token) : string :=
  match t with
  | StartElement n => "{{ " ++ n ++ "} []}"
  | EndElement n => "{{ " ++ n ++ "}}"
  | CharData s | Comment s | Directive s => s
  | ProcInst tg inst => "{" ++ tg ++ " " ++ inst ++ "}"
  end.

Definition name_gv (n : string) : string :=
  "xml.Name{Space:" ++ quoted "" ++ ", Local:" ++ quoted n ++ "}".

Definition token_gv (t : Token) : string :=
  match t with
  | StartElement n => "xml.StartElement{Name:" ++ name_gv n ++ ", Attr:[]xml.Attr{}}"
  | EndElement n => "xml.EndElement{Name:" ++ name_gv n ++ "}"
  | CharData s => "xml.CharData{" ++ hexBytes (chars s) ++ "}"
  | Comment s => "xml.Comment{" ++ hexBytes (chars s) ++ "}"
  | Directive s => "xml.Directive{" ++ hexBytes (chars s) ++ "}"
  | ProcInst tg inst =>
      "xml.ProcInst{Target:" ++ quoted tg ++ ", Inst:[]uint8{" ++
      hexBytes (chars inst) ++ "}}"
  end.

(** [nextText] reads the required next token as text; empty text is an
    error. *)
Definition nextText (r : xmlReader) : string * option error * xmlReader :=
  match token r with
  | (None, err, r) => ("", err, r)
  | (Some (CharData cd), _, r) => (cd, None, r)
  | (Some t, _, r) =>
      ("", Some (errorString ("expected chardata but got '" ++ token_gv t ++ "'")),
       putToken r (Some t))
  end.

(** [nextStart] returns the next token expected as an [xml.StartElement];
    [None] stands for the zero [xml.StartElement{}] returned with an
    error. *)
Definition nextStart (r : xmlReader) : option string * option error * xmlReader :=
  match token (trim r) with
  | (None, err, r) => (None, err, r)
  | (Some (StartElement se), _, r) => (Some se, None, r)
  | (Some t, _, r) =>
      (None, Some (errorString ("expected start element but got '" ++ token_s t ++ "'")),
       putToken r (Some t))
  end.

(** [nextEnd] returns the next token expected as an [xml.EndElement]. *)
Definition nextEnd (r : xmlReader) : option string * option error * xmlReader :=
  match token (trim r) with
  | (None, err, r) => (None, err, r)
  | (Some (EndElement e), _, r) => (Some e, None, r)
  | (Some t, _, r) =>
      (None, Some (errorString ("expected end element but got '" ++ token_s t ++ "'")),
       putToken r (Some t))
  end.

(** [expectStart] expects a start element with the given name. *)
Definition expectStart (name : string) (r : xmlReader) : option error * xmlReader :=
  match nextStart r with
  | (Some se, None, r) =>
      if negb (String.eqb se name) then
        (Some (errorString ("parsing error. expected start element '" ++ name ++
                            "' but got '" ++ se ++ "'")),
         putToken r (Some (StartElement se)))
      else (None, r)
  | (_, err, r) => (err, r)
  end.

(** [expectEnd] expects an end element with the given name. *)
Definition expectEnd (name : string) (r : xmlReader) : option error * xmlReader :=
  match nextEnd r with
  | (Some e, None, r) =>
      if negb (String.eqb e name) then
        (Some (errorString ("parsing error. expected end element '" ++ name ++
                            "' but got '" ++ e ++ "'")),
         putToken r (Some (EndElement e)))
      else (None, r)
  | (_, err, r) => (err, r)
  end.

Definition readHeader (r : xmlReader) : option error * xmlReader :=
  match token (trim r) with
  | (_, Some err, r) => (Some err, r)
  | (Some (ProcInst target inst), None, r) =>
      if String.eqb target "xml" then (None, r)
      else (None, putToken r (Some (ProcInst target inst)))
  | (t, None, r) => (None, putToken r t)
  end.

Definition invalidRequest (what s : string) : option error :=
  errFault (New InvalidRequest ("error writing " ++ what ++ " '" ++ s ++ "'")).

(** The loop of [readPrimitive] over [dateTimeFormats]: each iteration
    assigns the result of [time.Parse] to [rpc.value] and [err], the first
    success ends the loop. [cur] is the pair before the loop. *)
Fixpoint parseDate (formats : list string) (s : string)
    (cur : iface * option error) : iface * option error :=
  match formats with
  | [] => cur
  | dateFmt :: rest =>
      match time_Parse dateFmt s with
      | inl t => (idyn TTime (DTime t), None)
      | inr e => parseDate rest s (idyn TTime (DTime zeroTime), Some e)
      end
  end.

(** [readPrimitive] reads the next primitive value. *)
Definition readPrimitive (rpc : rpcValue) (r : xmlReader)
  : outcome (option error * rpcValue * xmlReader) :=
  match nextStart r with
  | (Some se, None, r) =>
      let '(s, _, r) := nextText r in
      match expectEnd se r with
      | (Some err, r) => Ok (Some err, rpc, r)
      | (None, r) =>
          if String.eqb se "string" then
            Ok (None, RpcValue (idyn TString (DString s)) stringKind, r)
          else if String.eqb se "boolean" then
            match boolDecodeMap s with
            | None =>
                Ok (invalidRequest "boolean" s,
                    RpcValue (idyn TBool (DBool false)) (kind rpc), r)
            | Some b => Ok (None, RpcValue (idyn TBool (DBool b)) booleanKind, r)
            end
          else if String.eqb se "int" || String.eqb se "i4" then
            match Atoi s with
            | (n, false) =>
                Ok (invalidRequest "int" s, RpcValue (idyn TInt (DInt n)) (kind rpc), r)
            | (n, true) => Ok (None, RpcValue (idyn TInt (DInt n)) intKind, r)
            end
          else if String.eqb se "double" then
            '(x, ok) <- ParseFloat s ;;
            if (ok : bool) then
              Ok (None, RpcValue (idyn TFloat64 (DFloat x)) doubleKind, r)
            else
              Ok (invalidRequest "double" s,
                  RpcValue (idyn TFloat64 (DFloat x)) (kind rpc), r)
          else if String.eqb se "base64" then
            let '(bs, err) := DecodeString s in
            Ok (err, RpcValue (idyn typeOfBytes (dataOfBytes bs)) base64Kind, r)
          else if String.eqb se "dateTime.iso8601" then
            let '(v, err) := parseDate dateTimeFormats s (value rpc, None) in
            Ok (err, RpcValue v dateTimeKind, r)
          else
            Ok (Some (errorString ("unhandled tag. '" ++ se ++ "'")), rpc, r)
      end
  | (_, err, r) => Ok (err, rpc, r)
  end.

(** The result of a reading method: the error returned, what the value
    behind its pointer argument holds afterwards, and the reader. *)
Definition reading (A : Type) : Type := outcome (option error * A * xmlReader).

(** [readValue] decodes and reads the next value; [readArray] and
    [readStruct] read an array and a struct value. They call each other:
    [fuel] bounds the depth of the calls and the turns of the loops, and a
    document of [n] tokens is read with fuel [n + 1]. *)
Fixpoint readValue (fuel : nat) (rpc : rpcValue) (r : xmlReader) {struct fuel}
  : reading rpcValue :=
  match fuel with
  | O => Exhausted
  | S fuel =>
      match expectStart "value" r with
      | (Some err, r) => Ok (Some err, rpc, r)
      | (None, r) =>
          (* determine the type of value *)
          match nextStart r with
          | (Some se, None, r) =>
              if negb (valueTagSet se) then
                Ok (Some (errorString
                            ("parsing error. expected valid rpc value element got '" ++
                             se ++ "'")), rpc, r)
              else
                let r := putToken r (Some (StartElement se)) in
                '(err, rpc, r) <-
                  (if String.eqb se "array" then readArray fuel rpc r
                   else if String.eqb se "struct" then readStruct fuel rpc r
                   else readPrimitive rpc r) ;;
                match err with
                | Some e => Ok (Some e, rpc, r)
                | None =>
                    (* match end tag *)
                    let '(err, r) := expectEnd "value" r in Ok (err, rpc, r)
                end
          | (_, _, r) =>
              (* empty value or unwrapped string *)
              match nextText r with
              | (_, Some _, r) =>
                  let '(err, r) := expectEnd "value" r in Ok (err, rpc, r)
              | (s, None, r) =>
                  (* treat empty value as empty string *)
                  Ok (None, RpcValue (idyn TString (DString s)) stringKind, r)
              end
          end
      end
  end

with readArray (fuel : nat) (rpc : rpcValue) (r : xmlReader) {struct fuel}
  : reading rpcValue :=
  match fuel with
  | O => Exhausted
  | S fuel =>
      let '(_, _, r) := nextStart r in      (* <array> *)
      match expectStart "data" r with       (* <data> *)
      | (Some err, r) => Ok (Some err, rpc, r)
      | (None, r) =>
          '(err, array, r) <- readArrayItems fuel [] r ;;
          match err with
          | Some e => Ok (Some e, rpc, r)
          | None =>
              let rpc := RpcValue (idyn TRpcValues (DValues array)) arrayKind in
              match expectEnd "data" r with
              | (Some err, r) => Ok (Some err, rpc, r)
              | (None, r) =>
                  let '(err, r) := expectEnd "array" r in Ok (err, rpc, r)
              end
          end
      end
  end

with readArrayItems (fuel : nat) (array : list rpcValue) (r : xmlReader)
  {struct fuel} : reading (list rpcValue) :=
  match fuel with
  | O => Exhausted
  | S fuel =>
      match nextStart r with
      | (Some se, None, r) =>
          (* we expect every start element to be a value *)
          if negb (String.eqb se "value") then
            Ok (Some (errorString ("parsing error. invalid element '" ++ se ++ "'")),
                array, r)
          else
            '(err, val, r) <-
              readValue fuel zeroValue (putToken r (Some (StartElement se))) ;;
            match err with
            | Some e => Ok (Some e, array, r)
            | None => readArrayItems fuel (array ++ [val])%list r
            end
      | (_, _, r) =>
          (* empty array is allowed although just a waste of bytes *)
          Ok (None, array, r)
      end
  end

with readStruct (fuel : nat) (rpc : rpcValue) (r : xmlReader) {struct fuel}
  : reading rpcValue :=
  match fuel with
  | O => Exhausted
  | S fuel =>
      let '(_, _, r) := nextStart r in      (* <struct> *)
      '(err, members, r) <- readMembers fuel [] r ;;
      match err with
      | Some e => Ok (Some e, rpc, r)
      | None =>
          let rpc := RpcValue (idyn TRpcEntries (DEntries members)) structKind in
          (* we expect to be at the end of the struct *)
          let '(err, r) := expectEnd "struct" r in Ok (err, rpc, r)
      end
  end

with readMembers (fuel : nat) (members : list rpcEntry) (r : xmlReader)
  {struct fuel} : reading (list rpcEntry) :=
  match fuel with
  | O => Exhausted
  | S fuel =>
      match expectStart "member" r with
      | (Some _, r) =>
          (* empty structs are allowed *)
          Ok (None, members, r)
      | (None, r) =>
          match expectStart "name" r with
          | (Some err, r) => Ok (Some err, members, r)
          | (None, r) =>
              match nextText r with
              | (_, Some err, r) => Ok (Some err, members, r)
              | (name, None, r) =>
                  match expectEnd "name" r with
                  | (Some err, r) => Ok (Some err, members, r)
                  | (None, r) =>
                      '(err, val, r) <- readValue fuel zeroValue r ;;
                      match err with
                      | Some e => Ok (Some e, members, r)
                      | None =>
                          match expectEnd "member" r with
                          | (Some err, r) => Ok (Some err, members, r)
                          | (None, r) =>
                              readMembers fuel (members ++ [RpcEntry name val])%list r
                          end
                      end
                  end
              end
          end
      end
  end.

(** The loop of [readParams]. *)
Fixpoint readParamItems (fuel : nat) (params : list rpcValue) (r : xmlReader)
  : reading (list rpcValue) :=
  match fuel with
  | O => Exhausted
  | S fuel' =>
      match expectStart "param" r with
      | (Some _, r) =>
          (* we assume we hit the end *)
          Ok (None, params, r)
      | (None, r) =>
          '(err, v, r) <- readValue fuel zeroValue r ;;
          match err with
          | Some e => Ok (Some e, params, r)
          | None =>
              let params := (params ++ [v])%list in
              match expectEnd "param" r with
              | (Some err, r) => Ok (Some err, params, r)
              | (None, r) => readParamItems fuel' params r
              end
          end
      end
  end.

Definition readParams (fuel : nat) (params : list rpcValue) (r : xmlReader)
  : reading (list rpcValue) :=
  match expectStart "params" r with
  | (Some err, r) => Ok (Some err, params, r)
  | (None, r) =>
      '(err, params, r) <- readParamItems fuel params r ;;
      match err with
      | Some e => Ok (Some e, params, r)
      | None => let '(err, r) := expectEnd "params" r in Ok (err, params, r)
      end
  end.

Definition readCall (fuel : nat) (rpc : methodCall) (r : xmlReader)
  : reading methodCall :=
  match readHeader r with
  | (Some err, r) => Ok (Some err, rpc, r)
  | (None, r) =>
  match expectStart "methodCall" r with
  | (Some err, r) => Ok (Some err, rpc, r)
  | (None, r) =>
  match expectStart "methodName" r with
  | (Some err, r) => Ok (Some err, rpc, r)
  | (None, r) =>
  let '(method, err, r) := nextText r in
  let rpc := mkCall method (call_Params rpc) in
  match err with
  | Some e => Ok (Some e, rpc, r)
  | None =>
  match expectEnd "methodName" r with
  | (Some err, r) => Ok (Some err, rpc, r)
  | (None, r) =>
      '(err, params, r) <- readParams fuel (call_Params rpc) r ;;
      let rpc := mkCall method params in
      match err with
      | Some e => Ok (Some e, rpc, r)
      | None => let '(err, r) := expectEnd "methodCall" r in Ok (err, rpc, r)
      end
  end end end end end.

Definition isEOF (e : error) : bool :=
  match e with io_EOF => true | _ => false end.

Definition readResponse (fuel : nat) (rpc : methodResponse) (r : xmlReader)
  : reading methodResponse :=
  match readHeader r with
  | (Some err, r) => Ok (Some err, rpc, r)
  | (None, r) =>
  match expectStart "methodResponse" r with
  | (Some err, r) => Ok (Some err, rpc, r)
  | (None, r) =>
      '(err, params, r) <- readParams fuel (resp_Params rpc) r ;;
      let rpc := mkResponse params (resp_Fault rpc) in
      let finish rpc r :=
        let '(err, r) := expectEnd "methodResponse" r in Ok (err, rpc, r) in
      match err with
      | Some e =>
          if isEOF e then finish rpc r
          else
            match expectStart "fault" r with
            | (Some err, r) => Ok (Some err, rpc, r)
            | (None, r) =>
                '(err, fault, r) <- readValue fuel (resp_Fault rpc) r ;;
                let rpc := mkResponse params fault in
                match err with
                | Some e => Ok (Some e, rpc, r)
                | None =>
                    match expectEnd "fault" r with
                    | (Some err, r) => Ok (Some err, rpc, r)
                    | (None, r) => finish rpc r
                    end
                end
            end
      | None => finish rpc r
      end
  end end.

(** ** [encoding/xml]: the tokens of a document

    A model of [xml.NewDecoder(r)] and its [RawToken] on the part of XML
    that the writer of this package produces: tags without attributes or
    prefixes, processing instructions, and text of printable ASCII
    characters, tabs and line feeds with the five named and the numeric
    character references. [None] is a document outside this part, be it
    well formed or not: so is one with an XML declaration that [RawToken]
    refuses. *)

Inductive lexState : Set :=
| InText (acc : list ascii)                    (* in text, read so far, reversed *)
| InEntity (acc : list ascii) (ent : list ascii) (* after [&] *)
| InOpen                                       (* after [<] *)
| InStart (name : list ascii)                  (* in the name of a start tag *)
| InEnd (name : list ascii)                    (* in the name of an end tag *)
| InTarget (target : list ascii)               (* in the target after [<?] *)
| InInst (target : list ascii) (inst : list ascii) (q : bool).
                                               (* in the instruction; [q]: after [?] *)

(** [isNameByte] *)
Definition isNameByte (c : ascii) : bool :=
  let n := code c in
  ((65 <=? n) && (n <=? 90))%N || ((97 <=? n) && (n <=? 122))%N
  || ((48 <=? n) && (n <=? 57))%N
  || (n =? 95)%N || (n =? 46)%N || (n =? 45)%N.

(** The first byte of a name: a letter or an underscore. *)
Definition isNameStart (c : ascii) : bool :=
  let n := code c in
  ((65 <=? n) && (n <=? 90))%N || ((97 <=? n) && (n <=? 122))%N || (n =? 95)%N.

(** A character that stands for itself in text: printable ASCII but
    [<], [&] and [>], a tab or a line feed. *)
Definition isTextChar (c : ascii) : bool :=
  let n := code c in
  (((32 <=? n) && (n <=? 126))%N || (n =? 9)%N || (n =? 10)%N)
  && negb ((n =? 60)%N || (n =? 38)%N || (n =? 62)%N).

Definition hexVal (c : ascii) : option N :=
  let n := code c in
  if ((48 <=? n) && (n <=? 57))%N then Some (n - 48)%N
  else if ((97 <=? n) && (n <=? 102))%N then Some (n - 87)%N
  else if ((65 <=? n) && (n <=? 70))%N then Some (n - 55)%N
  else None.

Fixpoint hexNumber (l : list ascii) (acc : N) : option N :=
  match l with
  | [] => Some acc
  | c :: l' =>
      match hexVal c with
      | Some v => hexNumber l' (16 * acc + v)%N
      | None => None
      end
  end.

Fixpoint decNumber (l : list ascii) (acc : N) : option N :=
  match l with
  | [] => Some acc
  | c :: l' =>
      if isDigit c then decNumber l' (10 * acc + (code c - 48))%N else None
  end.

(** The character a reference [&ent;] stands for: one of the five named
    ones, or an ASCII character given by its number. *)
Definition entityChar (ent : list ascii) : option ascii :=
  let ofCode (o : option N) :=
    match o with
    | Some n =>
        if (((32 <=? n) && (n <=? 126)) || (n =? 9) || (n =? 10) || (n =? 13))%N
        then Some (ascii_of_N n) else None
    | None => None
    end in
  match str ent with
  | "lt" => Some "<"%char
  | "gt" => Some ">"%char
  | "amp" => Some "&"%char
  | "apos" => Some "'"%char
  | "quot" => Some dquote
  | _ =>
      match ent with
      | "#"%char :: "x"%char :: (_ :: _) as h => ofCode (hexNumber h 0)
      | "#"%char :: (_ :: _) as d => ofCode (decNumber d 0)
      | _ => None
      end
  end.

(** The character data token of the text read, none for no text. *)
Definition flushText (acc : list ascii) (rest : list Token) : list Token :=
  match acc with
  | [] => rest
  | _ => CharData (str (rev acc)) :: rest
  end.

(** What follows the first occurrence of [sep] in [s]: the part of [s]
    after [strings.Index(s, sep)]. *)
Fixpoint afterFirst (sep s : list ascii) : option (list ascii) :=
  let fix prefixed (p l : list ascii) : option (list ascii) :=
    match p, l with
    | [], _ => Some l
    | a :: p', c :: l' => if Ascii.eqb a c then prefixed p' l' else None
    | _ :: _, [] => None
    end in
  match prefixed sep s with
  | Some rest => Some rest
  | None =>
      match s with
      | [] => None
      | _ :: s' => afterFirst sep s'
      end
  end.

(** What stands before the first [c] in [s]: [s[:strings.IndexByte(s, c)]]. *)
Fixpoint upTo (c : ascii) (s : list ascii) : option (list ascii) :=
  match s with
  | [] => None
  | x :: s' => if Ascii.eqb x c then Some [] else option_map (cons x) (upTo c s')
  end.

(** The loop of [procInst] of [encoding/xml]: [param] ends with [=]; an
    occurrence that no quote follows is passed over. *)
Fixpoint procInstLoop (fuel : nat) (param s : list ascii) : list ascii :=
  match fuel with
  | O => []
  | S fuel' =>
      match afterFirst param s with
      | None | Some [] => []
      | Some (c :: rest) =>
          if Ascii.eqb c "'" || Ascii.eqb c dquote then
            match upTo c rest with
            | Some v => v
            | None => []
            end
          else procInstLoop fuel' param rest
      end
  end.

(** [procInst(param, s)]: the value of [param="..."] or [param='...'] in
    the instruction [s], the empty string when there is none. *)
Definition procInst (param s : string) : string :=
  str (procInstLoop (String.length s) (chars (param ++ "=")) (chars s)).

(** [strings.EqualFold(s, t)] for a [t] of ASCII characters other than [k]
    and [s], the two letters that a rune outside ASCII folds to. *)
Definition EqualFold (s t : string) : bool :=
  let lower (c : ascii) : ascii :=
    let n := code c in
    if ((65 <=? n) && (n <=? 90))%N then ascii_of_N (n + 32) else c in
  String.eqb (str (map lower (chars s))) (str (map lower (chars t))).

(** The check [RawToken] makes of an [<?xml ...?>] declaration, on a
    decoder without a [CharsetReader], as the reader of this package has
    it: a version other than 1.0 and an encoding other than UTF-8 are
    errors. *)
Definition declaration (inst : string) : bool :=
  let ver := procInst "version" inst in
  let enc := procInst "encoding" inst in
  (isEmptyString ver || String.eqb ver "1.0")
  && (isEmptyString enc || EqualFold enc "utf-8").

Fixpoint lex (st : lexState) (s : list ascii) {struct s} : option (list Token) :=
  match s with
  | [] =>
      match st with
      | InText acc => Some (flushText acc [])
      | _ => None
      end
  | c :: s' =>
      match st with
      | InText acc =>
          if Ascii.eqb c "<" then option_map (flushText acc) (lex InOpen s')
          else if Ascii.eqb c "&" then lex (InEntity acc []) s'
          else if isTextChar c then lex (InText (c :: acc)) s'
          else None
      | InEntity acc ent =>
          if Ascii.eqb c ";" then
            match entityChar (rev ent) with
            | Some x => lex (InText (x :: acc)) s'
            | None => None
            end
          else if isNameByte c || Ascii.eqb c "#" then lex (InEntity acc (c :: ent)) s'
          else None
      | InOpen =>
          if Ascii.eqb c "/" then lex (InEnd []) s'
          else if Ascii.eqb c "?" then lex (InTarget []) s'
          else if isNameStart c then lex (InStart [c]) s'
          else None
      | InStart name =>
          if Ascii.eqb c ">" then
            option_map (cons (StartElement (str (rev name)))) (lex (InText []) s')
          else if isNameByte c then lex (InStart (c :: name)) s'
          else None
      | InEnd name =>
          if Ascii.eqb c ">" then
            match name with
            | [] => None
            | _ => option_map (cons (EndElement (str (rev name)))) (lex (InText []) s')
            end
          else if isNameByte c then
            match name with
            | [] => if isNameStart c then lex (InEnd [c]) s' else None
            | _ => lex (InEnd (c :: name)) s'
            end
          else None
      | InTarget target =>
          if Ascii.eqb c " " then
            match target with
            | [] => None
            | _ => lex (InInst target [] false) s'
            end
          else if isNameByte c then lex (InTarget (c :: target)) s'
          else None
      | InInst target inst q =>
          if q && Ascii.eqb c ">" then
            let data := str (rev (tl inst)) in
            if String.eqb (str (rev target)) "xml" && negb (declaration data)
            then None
            else option_map (cons (ProcInst (str (rev target)) data))
                   (lex (InText []) s')
          else
            match inst with
            | [] => if Ascii.eqb c " " then lex (InInst target [] false) s'
                    else lex (InInst target [c] (Ascii.eqb c "?")) s'
            | _ => lex (InInst target (c :: inst) (Ascii.eqb c "?")) s'
            end
      end
  end.

(** [xml.NewDecoder(strings.NewReader(s))] *)
Definition xml_NewDecoder (s : string) : option Decoder :=
  option_map (fun toks => mkDecoder toks io_EOF) (lex (InText []) (chars s)).

(** ** codec.go: the codec *)

Module Codec.

(** [checkPointer] validates that the value is a pointer type. *)
Definition checkPointer (v : target) : outcome (option error) :=
  match targetKind v with
  | None => Panic "invalid memory address or nil pointer dereference"
  | Some k =>
      if negb (reflect.eqb k reflect.Ptr) then
        Ok (errFault (New InternalError
              ("error decoding to value. expected pointer got '" ++
               reflect.name k ++ "'")))
      else Ok None
  end.

(** The argument [value interface{}] of [readRPC], by the case of its type
    switch: a pointer to one of the message types, with what it points to,
    or any other destination. *)
Inductive rpcDest : Type :=
| IntoCall (call : methodCall)
| IntoResponse (res : methodResponse)
| IntoValue (rpc : rpcValue)
| IntoNative (v : target).

(** The last lines of [readRPC]: a nil error or [io.EOF] is success, a
    [*xml.SyntaxError] becomes a [MalformedInput] fault, any other error is
    returned as it is. *)
Definition remap (err : option error) : option error :=
  match err with
  | None | Some io_EOF => None
  | Some (xml_SyntaxError msg) => errFault (New MalformedInput msg)
  | Some e => Some e
  end.

(** [readRPC] deserializes a valid XML-RPC input: [r], the [io.Reader], is
    given by the decoder [xml.NewDecoder(r)]. The result is the error and
    the destination as the call leaves it. *)
Definition readRPC (fuel : nat) (r : Decoder) (value : rpcDest)
  : outcome (option error * rpcDest) :=
  let rd := newReader r in
  match value with
  | IntoCall v =>
      '(err, v, _) <- readCall fuel v rd ;; Ok (remap err, IntoCall v)
  | IntoResponse v =>
      '(err, v, _) <- readResponse fuel v rd ;; Ok (remap err, IntoResponse v)
  | IntoValue v =>
      '(err, v, _) <- readValue fuel v rd ;; Ok (remap err, IntoValue v)
  | IntoNative v =>
      bad <- checkPointer v ;;
      match bad with
      | Some e => Ok (Some e, value)
      | None =>
          '(err, rpc, _) <- readValue fuel zeroValue rd ;;
          match err with
          | None | Some io_EOF =>
              '(err, slot) <- writeTo rpc v ;;
              Ok (remap err, IntoNative (withSlot v slot))
          | _ => Ok (remap err, value)
          end
      end
  end.

(** [readRequest] deserializes a [methodCall] into the method and params
    pointer receivers: the error, [*method] and what [params] points to
    afterwards. *)
Definition readRequest (fuel : nat) (r : Decoder) (method : string)
    (params : target) : outcome (option error * string * godata) :=
  bad <- checkPointer params ;;
  match bad with
  | Some e => Ok (Some e, method, slotOf params)
  | None =>
      '(err, dest) <- readRPC fuel r (IntoCall (mkCall "" [])) ;;
      match err, dest with
      | None, IntoCall call =>
          if String.eqb (Method call) "" then
            Ok (errFault (New InvalidRequest
                  ("invalid method name '" ++ Method call ++ "'")),
                method, slotOf params)
          else
            '(err, slot) <- rpcParams.writeTo (call_Params call) params ;;
            Ok (err, Method call, slot)
      | _, _ => Ok (err, method, slotOf params)
      end
  end.

(** [readResponse] deserializes a [methodResponse] into the params pointer
    receiver; if the response returned a fault, the error is that [Fault].
    The result is the error and what [reply] points to afterwards. *)
Definition readResponse (fuel : nat) (r : Decoder) (reply : target)
  : outcome (option error * godata) :=
  bad <- checkPointer reply ;;
  match bad with
  | Some e => Ok (Some e, slotOf reply)
  | None =>
      '(err, dest) <- readRPC fuel r (IntoResponse (mkResponse [] zeroValue)) ;;
      match err, dest with
      | None, IntoResponse res =>
          empty <- isEmpty (resp_Fault res) ;;
          if negb empty then
            '(err, fault) <- writeTo (resp_Fault res)
                               (ToPtr typeOfFault (zero typeOfFault)) ;;
            match err with
            | Some e => Ok (Some e, slotOf reply)
            | None => Ok (Some (FaultError (faultOfData fault)), slotOf reply)
            end
          else rpcParams.writeTo (resp_Params res) reply
      | _, _ => Ok (err, slotOf reply)
      end
  end.

(** The argument [rpc interface{}] of [writeRPC], by the case of its type
    switch. *)
Inductive rpcSource : Type :=
| FromCall (call : methodCall)
| FromResponse (res : methodResponse)
| FromValue (rpc : rpcValue)
| FromNative (v : iface).

(** [writeRPC] serializes a value as XML-RPC: the error and the bytes
    written to [w], an empty buffer. *)
Definition writeRPC (rpc : rpcSource) : outcome (option error * string) :=
  match rpc with
  | FromCall v => written (writeCall v)
  | FromResponse v => written (writeResponse v)
  | FromValue v => written (writeValue v)
  | FromNative v => r <- makeValue v ;; written (writeValue r)
  end.

(** [writeRequest] serializes and writes a [methodCall]. *)
Definition writeRequest (method : string) (params : list iface)
  : outcome (option error * string) :=
  call <- makeCall method params ;; writeRPC (FromCall call).

(** [writeResponse] serializes and writes a value as a [methodResponse]. *)
Definition writeResponse (params : payload)
  : outcome (option error * string) :=
  res <- makeResponse params ;; writeRPC (FromResponse res).

End Codec.

(** ** Compression of a response *)

(** [http.Header], its keys in canonical form, as the list of its entries:
    [Get] gives the first value of a key and the empty string when there
    is none, [Set] replaces the values of a key. *)
Definition Header : Type := list (string * string).

Definition Header_Get (h : Header) (key : string) : string :=
  match find (fun p => String.eqb (fst p) key) h with
  | Some (_, v) => v
  | None => ""
  end.

Definition Header_Set (h : Header) (key value : string) : Header :=
  (key, value) :: filter (fun p => negb (String.eqb (fst p) key)) h.

(** [strings.HasPrefix(s, prefix)], on the characters *)
Fixpoint hasPrefix (prefix s : list ascii) : bool :=
  match prefix, s with
  | [], _ => true
  | p :: prefix', c :: s' => Ascii.eqb p c && hasPrefix prefix' s'
  | _ :: _, [] => false
  end.

Definition HasPrefix (s prefix : string) : bool := hasPrefix (chars prefix) (chars s).

(** [contentEncodingRe.FindString(s)] for the expression [(gzip|deflate)]:
    the leftmost match, the empty string when there is none. *)
Fixpoint FindEncoding (s : list ascii) : string :=
  if hasPrefix (chars "gzip") s then "gzip"
  else if hasPrefix (chars "deflate") s then "deflate"
  else match s with
       | [] => ""
       | _ :: s' => FindEncoding s'
       end.

(** [http.ResponseWriter]: the header of the response, and the body as the
    bytes written to it through the compressor [Encoding] ([""] for none),
    that is, the body as it is after decompression. *)
Record ResponseWriter : Type := mkResponseWriter {
  respHeader : Header;
  respEncoding : string;
  respBody : string
}.

(** [newCompressor(w, header)]: the writer to write the response to. *)
Definition newCompressor (w : ResponseWriter) (header : Header) : ResponseWriter :=
  let encoding := Header_Get header "Accept-Encoding" in
  let encoding :=
    if negb (isEmptyString encoding) then FindEncoding (chars encoding)
    else encoding in
  if String.eqb encoding "gzip" then
    mkResponseWriter (Header_Set (respHeader w) "Content-Encoding" "gzip")
      "gzip" (respBody w)
  else if String.eqb encoding "deflate" then
    mkResponseWriter (Header_Set (respHeader w) "Content-Encoding" "deflate")
      "deflate" (respBody w)
  else w.

(** ** The server codec *)

(** gorilla error strings *)
Definition methodNotFound : string := "rpc: can't find method".
Definition serviceNotFound : string := "rpc: can't find service".

(** [ServerCodec]: [aliases] is a Go map, here the list of its
    assignments, the latest first. *)
Record ServerCodec : Type := mkServerCodec { aliases : list (string * string) }.

(** [serverRequest] handles reading request and writing response. *)
Record serverRequest : Type := mkServerRequest {
  header : Header;
  call : methodCall;
  err : option error
}.

Definition NewServerCodec : ServerCodec := mkServerCodec [].

(** [RegisterAlias] registers a method alias. *)
Definition RegisterAlias (c : ServerCodec) (alias method : string) : ServerCodec :=
  mkServerCodec ((alias, method) :: aliases c).

(** [method, ok := c.aliases[name]] *)
Definition alias_lookup (c : ServerCodec) (name : string) : option string :=
  option_map snd (find (fun p => String.eqb (fst p) name) (aliases c)).

(** [strings.Split(s, ".")] *)
Fixpoint Split (s : string) : list string :=
  match s with
  | EmptyString => [""]
  | String c s' =>
      if Ascii.eqb c "." then "" :: Split s'
      else match Split s' with
           | part :: parts => String c part :: parts
           | [] => [String c ""]
           end
  end.

(** [strings.Join(parts, ".")] *)
Fixpoint Join (parts : list string) : string :=
  match parts with
  | [] => ""
  | [part] => part
  | part :: parts' => part ++ "." ++ Join parts'
  end.

(** The lines of [NewRequest] that resolve aliases: the method of a name
    of two parts is replaced when the second part is an alias. *)
Definition resolveAlias (c : ServerCodec) (method : string) : string :=
  match Split method with
  | [service; name] =>
      match alias_lookup c name with
      | Some method' => Join [service; method']
      | None => method
      end
  | _ => method
  end.

(** [NewRequest] returns a new codec request: [h] and [body] are the
    header and the body of the HTTP request. *)
Definition NewRequest (c : ServerCodec) (fuel : nat) (h : Header) (body : Decoder)
  : outcome serverRequest :=
  '(e, dest) <- Codec.readRPC fuel body (Codec.IntoCall (mkCall "" [])) ;;
  let call := match dest with
              | Codec.IntoCall v => v
              | _ => mkCall "" []
              end in
  Ok (mkServerRequest h (mkCall (resolveAlias c (Method call)) (call_Params call)) e).

(** [Method] reads the XML-RPC request and returns the method name. *)
Definition serverRequest_Method (s : serverRequest) : string * option error :=
  (Method (call s), err s).

(** [ReadRequest] reads the XML-RPC request and writes the arguments to
    the receiver. *)
Definition ReadRequest (s : serverRequest) (args : target)
  : outcome (option error * godata) :=
  rpcParams.writeTo (call_Params (call s)) args.

(** [WriteResponse] writes an XML-RPC response for [reply]; the error of
    [writeResponse] is dropped. *)
Definition WriteResponse (s : serverRequest) (w : ResponseWriter) (reply : payload)
  : outcome ResponseWriter :=
  let w := mkResponseWriter
             (Header_Set (respHeader w) "Content-Type" "text/xml; charset=utf-8")
             (respEncoding w) (respBody w) in
  let zw := newCompressor w (header s) in
  '(_, b) <- Codec.writeResponse reply ;;
  Ok (mkResponseWriter (respHeader zw) (respEncoding zw) (respBody zw ++ b)).

(** The argument [err error] of [WriteError], by the case of its type
    switch: a [Fault], or any other error, given by its [Error()] text. *)
Inductive serviceError : Set :=
| AFault (f : Fault)
| AnError (text : string).

(** [WriteError] writes an XML-RPC fault; [status] is not used. The text of
    an error is used as a format without operands: a text with a [%] is
    left out. *)
Definition WriteError (s : serverRequest) (w : ResponseWriter) (status : Z)
    (e : serviceError) : outcome ResponseWriter :=
  match e with
  | AFault v => WriteResponse s w (PayloadFault v)
  | AnError text =>
      if HasPrefix text methodNotFound || HasPrefix text serviceNotFound then
        WriteResponse s w (PayloadFault (New MethodNotFound ""))
      else if noneOf "%" text then
        (* service functions should return appropriate XML-RPC faults;
           wrap any other error as internal *)
        WriteResponse s w (PayloadFault (New InternalError text))
      else Unmodelled "fmt.Sprintf of a format with a verb and no operand"
  end.

(** * Properties *)

(** ** Strings and what a writer emits *)

Lemma append_assoc (a b c : string) : (a ++ b) ++ c = a ++ (b ++ c).
Proof. induction a as [|x a IH]; simpl; [reflexivity | now rewrite IH]. Qed.

Lemma append_nil_r (a : string) : a ++ "" = a.
Proof. induction a as [|x a IH]; simpl; [reflexivity | now rewrite IH]. Qed.

Lemma chars_app (a b : string) : chars (a ++ b) = (chars a ++ chars b)%list.
Proof. induction a as [|x a IH]; simpl; [reflexivity | now rewrite IH]. Qed.

Lemma str_app (a b : list ascii) : str (a ++ b)%list = str a ++ str b.
Proof. induction a as [|x a IH]; simpl; [reflexivity | now rewrite IH]. Qed.

Lemma str_chars (s : string) : str (chars s) = s.
Proof. apply string_of_list_ascii_of_string. Qed.

Lemma chars_str (l : list ascii) : chars (str l) = l.
Proof. apply list_ascii_of_string_of_list_ascii. Qed.

(** [emits m b]: from any state of the buffer, the method [m] returns no
    error and has appended exactly [b]. *)
Definition emits (m : writing) (b : string) : Prop :=
  forall w, m w = Ok (None, mkWriter (wr w ++ b)).

Lemma emits_WriteString (s : string) : emits (WriteString s) s.
Proof. intros w. reflexivity. Qed.

Lemma emits_skip : emits (fun w => Ok (None, w)) "".
Proof. intros [w]. simpl. now rewrite append_nil_r. Qed.

Lemma emits_andThen (a b : writing) (x y : string) :
  emits a x -> emits b y -> emits (andThen a b) (x ++ y).
Proof.
  intros Ha Hb w. unfold andThen. rewrite Ha. simpl. rewrite Hb. simpl.
  now rewrite append_assoc.
Qed.

Lemma emits_writeRaw (t : xmlTag) (raw : string) :
  emits (writeRaw t raw) (startTags t ++ raw ++ endTags t).
Proof.
  unfold writeRaw. repeat apply emits_andThen; apply emits_WriteString.
Qed.

Lemma emits_writeXML (t : xmlTag) (fn : writing) (b : string) :
  emits fn b -> emits (writeXML t fn) (startTags t ++ b ++ endTags t).
Proof.
  intros H. unfold writeXML.
  repeat apply emits_andThen; auto using emits_WriteString.
Qed.

Lemma emits_ext (m : writing) (b b' : string) : b = b' -> emits m b -> emits m b'.
Proof. now intros ->. Qed.

(** ** C10: a value of nil kind is written as an empty value element *)

(** C10. For every RPC value of nil kind, whatever its payload, and so for
    what [makeValue] returns for a native shape it does not recognise,
    [writeValue] returns no error and appends exactly the bytes
    [<value></value>] to the output. *)
Theorem C10_nil_kind_writes_empty_value :
  forall (rpc : rpcValue) (w : xmlWriter),
    kind rpc = nilKind ->
    writeValue rpc w = Ok (None, mkWriter (wr w ++ "<value></value>")).
Proof.
  intros [val k] w Hk. simpl in Hk. subst k.
  apply (emits_writeXML valueTag _ "" emits_skip).
Qed.

(** Shapes that no case of [makeValue] takes: [int8] (absent from the list
    of integer types), a channel, a function, a pointer to a pointer. *)
Lemma makeValue_unrecognized :
  makeValue (idyn TInt8 (DInt 3)) = Ok (RpcValue (idyn TInt8 (DInt 3)) nilKind)
  /\ makeValue (idyn TChan DOpaque) = Ok (RpcValue (idyn TChan DOpaque) nilKind)
  /\ makeValue (idyn TFunc DOpaque) = Ok (RpcValue (idyn TFunc DOpaque) nilKind)
  /\ makeValue (idyn TUintptr (DInt 0)) = Ok (RpcValue (idyn TUintptr (DInt 0)) nilKind).
Proof. repeat split. Qed.

Lemma C10_witness :
  kind (RpcValue (idyn TInt8 (DInt 3)) nilKind) = nilKind /\
  writeValue (RpcValue (idyn TInt8 (DInt 3)) nilKind) (mkWriter "") =
    Ok (None, mkWriter "<value></value>").
Proof.
  split; [reflexivity|].
  apply (C10_nil_kind_writes_empty_value (RpcValue (idyn TInt8 (DInt 3)) nilKind)
           (mkWriter "")).
  reflexivity.
Defined.

(** ** C9: the text of a double *)

Definition allDigits (s : string) : bool := forallb isDigit (chars s).

Definition isFinite (x : spec_float) : bool :=
  match x with
  | S754_zero _ | S754_finite _ _ _ => true
  | _ => false
  end.

Definition isZeroChar (c : ascii) : bool := memchr c (chars "0").

Lemma dropWhile_app_stop {A} (p : A -> bool) (a b : list A) (c : A) :
  p c = false -> dropWhile p (a ++ c :: b) = (dropWhile p a ++ c :: b)%list.
Proof.
  intros Hc. induction a as [|x a IH]; simpl.
  - now rewrite Hc.
  - destruct (p x); [exact IH | reflexivity].
Qed.

(** What [dropWhile] removed is made of elements that satisfy the test. *)
Lemma dropWhile_split {A} (p : A -> bool) (l : list A) :
  exists k, l = (firstn k l ++ dropWhile p l)%list /\ forallb p (firstn k l) = true.
Proof.
  induction l as [|x l [k [IH1 IH2]]]; simpl.
  - exists O. now split.
  - destruct (p x) eqn:Hx.
    + exists (S k). simpl. rewrite Hx, IH2. split; [now rewrite <- IH1 | reflexivity].
    + exists O. now split.
Qed.

Lemma dropWhile_head {A} (p : A -> bool) (l : list A) (x : A) (r : list A) :
  dropWhile p l = x :: r -> p x = false.
Proof.
  induction l as [|y l IH]; simpl; [discriminate|].
  destruct (p y) eqn:Hy; [exact IH|]. now intros [= -> _].
Qed.

Lemma forallb_zero_chars (l : list ascii) :
  forallb isZeroChar l = true -> str l = zeros (length l).
Proof.
  induction l as [|c l IH]; simpl; [reflexivity|].
  intros H. apply andb_prop in H as [Hc Hl]. rewrite (IH Hl).
  unfold isZeroChar in Hc. simpl in Hc. rewrite orb_false_r in Hc.
  apply Ascii.eqb_eq in Hc. now subst c.
Qed.

Lemma digits_of_uint (d : Decimal.uint) :
  forallb isDigit (chars (NilEmpty.string_of_uint d)) = true.
Proof. induction d; simpl; auto. Qed.

Lemma FormatUint_digits (n : N) : allDigits (FormatUint n) = true.
Proof.
  unfold allDigits, FormatUint, NilZero.string_of_uint.
  destruct (N.to_uint n) eqn:E; try reflexivity;
    rewrite <- E at 1; rewrite E; apply digits_of_uint.
Qed.

Lemma FormatUint_nonempty (n : N) : FormatUint n <> "".
Proof.
  unfold FormatUint, NilZero.string_of_uint.
  destruct (N.to_uint n); simpl; discriminate.
Qed.

Lemma zeros_digits (k : nat) : allDigits (zeros k) = true.
Proof. induction k; simpl; auto. Qed.

Lemma allDigits_app (a b : string) :
  allDigits (a ++ b) = allDigits a && allDigits b.
Proof. unfold allDigits. rewrite chars_app. apply forallb_app. Qed.

Lemma padLeft_digits (w : nat) (n : N) : allDigits (padLeft w n) = true.
Proof.
  unfold padLeft. now rewrite allDigits_app, zeros_digits, FormatUint_digits.
Qed.

Lemma padLeft_nonempty (w : nat) (n : N) : padLeft w n <> "".
Proof.
  unfold padLeft. destruct (zeros _); simpl; [apply FormatUint_nonempty | discriminate].
Qed.

Lemma digit_not_point (c : ascii) : isDigit c = true -> Ascii.eqb c "." = false.
Proof.
  intros H. destruct (Ascii.eqb_spec c "."); [subst c; discriminate | reflexivity].
Qed.

(** The text of a double, for a [%f] text [pre.F] with [F] made of digits:
    a prefix of it that ends in a digit after the point and lacks only
    zeros. *)
Lemma formatDouble_fixed (pre F : string) :
  allDigits F = true -> F <> "" ->
  exists frac k,
    formatDouble (pre ++ "." ++ F) = pre ++ "." ++ frac
    /\ allDigits frac = true /\ frac <> ""
    /\ (frac = "0" \/ lastChar frac <> Some "0"%char)
    /\ pre ++ "." ++ F = pre ++ "." ++ frac ++ zeros k.
Proof.
  intros HF HF0.
  set (kept := dropWhile isZeroChar (rev (chars F))).
  assert (Htrim : TrimRight (pre ++ "." ++ F) "0" = pre ++ "." ++ str (rev kept)).
  { unfold TrimRight. rewrite !chars_app. simpl.
    rewrite rev_app_distr. simpl. rewrite <- app_assoc. simpl.
    fold isZeroChar. rewrite dropWhile_app_stop by reflexivity. fold kept.
    rewrite rev_app_distr. simpl. rewrite rev_involutive.
    rewrite <- app_assoc. simpl. rewrite str_app. simpl. now rewrite str_chars. }
  assert (Hlast : lastChar (pre ++ "." ++ str (rev kept)) =
                  match kept with [] => Some "."%char | c :: _ => Some c end).
  { unfold lastChar. rewrite !chars_app, chars_str. simpl.
    rewrite rev_app_distr. simpl. rewrite rev_involutive.
    destruct kept; reflexivity. }
  destruct (dropWhile_split isZeroChar (rev (chars F))) as [k [Hsplit Hzeros]].
  fold kept in Hsplit.
  set (cut := firstn k (rev (chars F))) in *.
  assert (HcF : chars F = (rev kept ++ rev cut)%list).
  { rewrite <- (rev_involutive (chars F)), Hsplit. apply rev_app_distr. }
  assert (HF' : F = str (rev kept) ++ zeros (length cut)).
  { rewrite <- (str_chars F) at 1. rewrite HcF, str_app. f_equal.
    rewrite <- length_rev. apply forallb_zero_chars.
    rewrite forallb_forall in *. intros x Hx. apply Hzeros.
    now apply in_rev. }
  assert (Hkept : forallb isDigit kept = true).
  { unfold allDigits in HF. rewrite HcF, forallb_app in HF.
    apply andb_prop in HF as [HF _]. rewrite forallb_forall in *.
    intros x Hx. apply HF. now apply in_rev in Hx. }
  unfold formatDouble. rewrite Htrim, Hlast.
  destruct kept as [|c kept'] eqn:Ek.
  - (* every digit after the point was a zero *)
    simpl in HF'. simpl. exists "0", (length cut - 1)%nat.
    repeat split; auto.
    + now rewrite !append_assoc.
    + discriminate.
    + do 2 f_equal. simpl. rewrite HF'.
      destruct (length cut) eqn:El.
      * exfalso. apply HF0. now rewrite HF'.
      * simpl. now rewrite Nat.sub_0_r.
  - assert (Hc0 : isZeroChar c = false).
    { apply (dropWhile_head isZeroChar (rev (chars F)) c kept'). exact Ek. }
    simpl in Hkept. apply andb_prop in Hkept as [Hcd Hk'].
    rewrite (digit_not_point c Hcd).
    exists (str (rev (c :: kept'))), (length cut).
    repeat split.
    + unfold allDigits. rewrite chars_str, forallb_forall. intros x Hx.
      apply in_rev in Hx. destruct Hx as [<- | Hx]; auto.
      rewrite forallb_forall in Hk'. auto.
    + simpl. rewrite str_app. destruct (str (rev kept')); discriminate.
    + right. unfold lastChar. rewrite chars_str, rev_involutive.
      intros [= ->]. discriminate.
    + now rewrite <- HF'.
Qed.

Lemma Sprintf_f_float_fixed (x : spec_float) :
  isFinite x = true ->
  exists sign ip F,
    Sprintf_f_float x = sign ++ ip ++ "." ++ F
    /\ (sign = "" \/ sign = "-") /\ allDigits ip = true /\ ip <> ""
    /\ allDigits F = true /\ F <> "".
Proof.
  assert (H : forall s q, exists sign ip F,
             fixed6 s q = sign ++ ip ++ "." ++ F
             /\ (sign = "" \/ sign = "-") /\ allDigits ip = true /\ ip <> ""
             /\ allDigits F = true /\ F <> "").
  { intros s q.
    exists (if s then "-" else ""), (FormatUint (q / 10 ^ 6)), (padLeft 6 (q mod 10 ^ 6)).
    repeat split;
      auto using FormatUint_nonempty, padLeft_nonempty, FormatUint_digits, padLeft_digits.
    destruct s; auto. }
  destruct x as [s | s | | s m e]; try discriminate; intros _; simpl; apply H.
Qed.

(** C9, as the code has it. For every finite double-kind value (a zero or
    a finite float, of either width) [writeValue] writes, in the [double]
    element, the sign, the digits of the integer part, a point and at least
    one digit; this text is the six-decimal [%f] text less trailing zeros
    only, and its last digit is a zero only when it is the single digit
    after the point. For a value that is not finite it writes [NaN],
    [+Inf] or [-Inf], as [%f] gives it. *)
Theorem C9_finite_double_text :
  forall (t : gotype) (x : spec_float),
    t = TFloat64 \/ t = TFloat32 ->
    (isFinite x = true ->
     exists sign ip frac k,
       written (writeValue (RpcValue (idyn t (DFloat x)) doubleKind)) =
         Ok (None, "<value><double>" ++ sign ++ ip ++ "." ++ frac ++ "</double></value>")
       /\ (sign = "" \/ sign = "-")
       /\ allDigits ip = true /\ ip <> ""
       /\ allDigits frac = true /\ frac <> ""
       /\ (frac = "0" \/ lastChar frac <> Some "0"%char)
       /\ Sprintf_f_float x = sign ++ ip ++ "." ++ frac ++ zeros k)
    /\ (isFinite x = false ->
        written (writeValue (RpcValue (idyn t (DFloat x)) doubleKind)) =
          Ok (None, "<value><double>" ++
                    match x with
                    | S754_infinity true => "-Inf"
                    | S754_infinity false => "+Inf"
                    | _ => "NaN"
                    end ++ "</double></value>")).
Proof.
  intros t x Ht. split.
  - intros Hx.
    destruct (Sprintf_f_float_fixed x Hx) as (sign & ip & F & HS & Hsign & Hip & Hip0 & HF & HF0).
    destruct (formatDouble_fixed (sign ++ ip) F HF HF0) as (frac & k & Hfd & Hfrac & Hfrac0 & Hlast & Hpre).
    exists sign, ip, frac, k.
    repeat split; auto.
    + assert (Hw : writeValue (RpcValue (idyn t (DFloat x)) doubleKind) =
                   writeXML valueTag
                     (writeRaw doubleTag (formatDouble (Sprintf_f_float x))))
        by (destruct Ht; subst t; reflexivity).
      assert (E : emits (writeValue (RpcValue (idyn t (DFloat x)) doubleKind))
                    ("<value>" ++ ("<double>" ++ (sign ++ ip ++ "." ++ frac) ++ "</double>") ++ "</value>")).
      { rewrite Hw. apply (emits_writeXML valueTag).
        rewrite HS. rewrite <- (append_assoc sign ip). rewrite Hfd.
        rewrite append_assoc. apply (emits_writeRaw doubleTag). }
      unfold written. rewrite E. simpl. f_equal. f_equal.
      now rewrite !append_assoc.
    + rewrite HS. rewrite <- (append_assoc sign ip), Hpre. now rewrite append_assoc.
  - intros Hx. destruct x as [s | [|] | | s m e]; try discriminate Hx;
      destruct Ht; subst t; reflexivity.
Qed.

Lemma C9_finite_double_text_witness :
  (exists sign ip frac k,
     written (writeValue (RpcValue (idyn TFloat64 (DFloat (S754_finite false 3 (-1)))) doubleKind)) =
       Ok (None, "<value><double>" ++ sign ++ ip ++ "." ++ frac ++ "</double></value>")
     /\ (sign = "" \/ sign = "-")
     /\ allDigits ip = true /\ ip <> ""
     /\ allDigits frac = true /\ frac <> ""
     /\ (frac = "0" \/ lastChar frac <> Some "0"%char)
     /\ Sprintf_f_float (S754_finite false 3 (-1)) = sign ++ ip ++ "." ++ frac ++ zeros k)
  /\ written (writeValue (RpcValue (idyn TFloat32 (DFloat (S754_infinity true))) doubleKind)) =
       Ok (None, "<value><double>-Inf</double></value>").
Proof.
  split.
  - apply (proj1 (C9_finite_double_text TFloat64 (S754_finite false 3 (-1))
                    (or_introl eq_refl))).
    reflexivity.
  - apply (proj2 (C9_finite_double_text TFloat32 (S754_infinity true)
                    (or_intror eq_refl))).
    reflexivity.
Defined.

(** The claim as stated fails on a double that is not finite: the text of
    a NaN is [NaN], which holds no decimal point. *)
Lemma C9_counterexample :
  written (writeValue (RpcValue (idyn TFloat64 (DFloat S754_nan)) doubleKind)) =
    Ok (None, "<value><double>NaN</double></value>")
  /\ noneOf "." "NaN" = true.
Proof. split; reflexivity. Qed.

(** The examples of the specification: 1.5, 1.0 and 1.2 (the float nearest
    to it) are written [1.5], [1.0] and [1.2]. *)
Example double_examples :
  formatDouble (Sprintf_f_float (S754_finite false 3 (-1))) = "1.5"
  /\ formatDouble (Sprintf_f_float (S754_finite false 1 0)) = "1.0"
  /\ formatDouble (Sprintf_f_float (S754_finite false 5404319552844595 (-52))) = "1.2"
  /\ formatDouble (Sprintf_f_float (S754_zero true)) = "-0.0".
Proof. repeat split; vm_compute; reflexivity. Qed.

(** ** C4: pointers given to [makeValue] *)

(** C4, at the input where the code fails. For a nil pointer of any
    pointee type [makeValue] does not return a value of nil kind: the
    check [value == nil] is false for an interface that holds a typed nil
    pointer, [reflect.Indirect] gives the zero [Value], and
    [Value.Interface] panics on it. *)
Theorem C4_nil_pointer_panics :
  forall t : gotype,
    makeValue (idyn (TPtr t) (DPtr None)) =
      Panic "reflect: call of reflect.Value.Interface on zero Value".
Proof. intros t. reflexivity. Qed.

(** A pointer is followed once: a pointer to a pointer is classified as
    the inner pointer, which no case takes, and gets nil kind. *)
Lemma makeValue_pointer_to_pointer (t : gotype) (p : option godata) :
  makeValue (idyn (TPtr (TPtr t)) (DPtr (Some (DPtr p)))) =
    Ok (RpcValue (idyn (TPtr t) (DPtr p)) nilKind).
Proof. reflexivity. Qed.

Example makeValue_pointer_examples :
  makeValue (idyn (TPtr TInt) (DPtr (Some (DInt 7)))) =
    Ok (RpcValue (idyn TInt (DInt 7)) intKind)
  /\ makeValue (idyn (TPtr (TSlice TInt)) (DPtr (Some (DSeq [DInt 1])))) =
       Ok (RpcValue (idyn TRpcValues (DValues [RpcValue (idyn TInt (DInt 1)) intKind]))
             arrayKind)
  /\ makeValue inil = Ok zeroValue.
Proof. repeat split. Qed.

(** ** C5: a value element without a type tag *)

(** The claim as stated fails on [<value></value>]: the value read is the
    destination as it was, of nil kind for a fresh one, and not a string. *)
Lemma C5_counterexample :
  readValue 1 zeroValue
    (newReader (mkDecoder [StartElement "value"; EndElement "value"] io_EOF)) =
    Ok (None, RpcValue inil nilKind, newReader (mkDecoder [] io_EOF))
  /\ kind (RpcValue inil nilKind) <> stringKind.
Proof. split; [reflexivity | discriminate]. Qed.

(** C5, as the code has it. After [<value>], character data that is not
    all white space makes the value a string with that text, and no error
    is returned; an end tag, directly or after white space only, ends the
    element with no error and leaves the destination as it was. White
    space is that of [strings.TrimSpace]; [rest] and [final] are what
    follows in the input. *)
Theorem C5_untyped_value :
  forall (fuel : nat) (rpc : rpcValue) (rest : list Token) (final : error),
    (forall s, isBlank s = false ->
       exists rd,
         readValue (S fuel) rpc
           (newReader (mkDecoder (StartElement "value" :: CharData s :: rest) final)) =
         Ok (None, RpcValue (idyn TString (DString s)) stringKind, rd))
    /\ readValue (S fuel) rpc
         (newReader (mkDecoder (StartElement "value" :: EndElement "value" :: rest) final)) =
       Ok (None, rpc, newReader (mkDecoder rest final))
    /\ (forall s, isBlank s = true ->
          readValue (S fuel) rpc
            (newReader (mkDecoder (StartElement "value" :: CharData s ::
                                   EndElement "value" :: rest) final)) =
          Ok (None, rpc, newReader (mkDecoder rest final))).
Proof.
  intros fuel rpc rest final. split; [|split].
  - intros s Hs. eexists. cbn. unfold nextStart, trim, token, putToken; simpl.
    rewrite Hs. reflexivity.
  - reflexivity.
  - intros s Hs. cbn. unfold nextStart, trim, token, putToken; simpl.
    rewrite Hs. reflexivity.
Qed.

Lemma C5_untyped_value_witness :
  isBlank "abc" = false /\
  exists rd,
    readValue 1 zeroValue
      (newReader (mkDecoder [StartElement "value"; CharData "abc"; EndElement "value"]
                    io_EOF)) =
    Ok (None, RpcValue (idyn TString (DString "abc")) stringKind, rd).
Proof.
  split; [reflexivity|].
  apply (proj1 (C5_untyped_value 0 zeroValue [EndElement "value"] io_EOF)).
  reflexivity.
Defined.

(** ** C3: the formats of a date *)

#[local] Arguments time_Parse : simpl never.
#[local] Arguments Atoi : simpl never.
#[local] Arguments ParseFloat : simpl never.
#[local] Arguments DecodeString : simpl never.

(** The first of the four formats, in the order of the specification, that
    parses [s], with the time it gives. *)
Definition firstParsed (s : string) : option Time :=
  match time_Parse iso8601 s with
  | inl t => Some t
  | inr _ =>
      match time_Parse time_RFC3339 s with
      | inl t => Some t
      | inr _ =>
          match time_Parse rfc3339HyphenTZ s with
          | inl t => Some t
          | inr _ =>
              match time_Parse rfc3339NoTZ s with
              | inl t => Some t
              | inr _ => None
              end
          end
      end
  end.

(** A [dateTime.iso8601] element with text [s], inside a value element. *)
Definition dateTimeElement (s : string) (rest : list Token) : list Token :=
  StartElement "value" :: StartElement "dateTime.iso8601" :: CharData s ::
  EndElement "dateTime.iso8601" :: EndElement "value" :: rest.

(** The claim as stated fails on a text that no format parses: the decode
    returns the error of the last format tried. *)
Lemma C3_counterexample :
  firstParsed "yesterday" = None
  /\ Codec.readRPC 1 (mkDecoder (dateTimeElement "yesterday" []) io_EOF)
       (Codec.IntoValue zeroValue) =
     Ok (Some (time_ParseError rfc3339NoTZ "yesterday"),
         Codec.IntoValue (RpcValue (idyn TTime (DTime zeroTime)) dateTimeKind)).
Proof. split; vm_compute; reflexivity. Qed.

(** C3, as the code has it. The text of a [dateTime.iso8601] element is
    tried against the compact format, RFC 3339, the hyphenated format with
    an offset and the hyphenated format without one, in that order; the
    first that parses it gives the value and the decode returns no error.
    When none parses it, the value is left a [dateTime] holding the zero
    time and the decode fails with the parse error of the last format. *)
Theorem C3_date_formats_in_order :
  forall (fuel : nat) (rpc : rpcValue) (s : string) (rest : list Token)
         (final : error),
    readValue (S fuel) rpc (newReader (mkDecoder (dateTimeElement s rest) final)) =
    match firstParsed s with
    | Some t =>
        Ok (None, RpcValue (idyn TTime (DTime t)) dateTimeKind,
            newReader (mkDecoder rest final))
    | None =>
        Ok (Some (time_ParseError rfc3339NoTZ s),
            RpcValue (idyn TTime (DTime zeroTime)) dateTimeKind,
            newReader (mkDecoder (EndElement "value" :: rest) final))
    end.
Proof.
  intros fuel rpc s rest final.
  unfold firstParsed, dateTimeElement. cbn.
  unfold nextStart, trim, token, putToken; simpl.
  unfold readPrimitive, nextStart, trim, token, putToken; simpl.
  destruct (time_Parse iso8601 s) eqn:E1; [reflexivity|].
  destruct (time_Parse time_RFC3339 s) eqn:E2; [reflexivity|].
  destruct (time_Parse rfc3339HyphenTZ s) eqn:E3; [reflexivity|].
  destruct (time_Parse rfc3339NoTZ s) eqn:E4; [reflexivity|].
  unfold time_Parse in E4. destruct (parseChunks _ _ _); [discriminate|].
  injection E4 as <-. reflexivity.
Qed.

(** A text that two formats parse is read by the first: RFC 3339 comes
    before the hyphenated format with an offset. *)
Example date_priority :
  time_Parse iso8601 "2004-01-01T12:30:10+01:00" =
    inr (time_ParseError iso8601 "2004-01-01T12:30:10+01:00")
  /\ time_Parse time_RFC3339 "2004-01-01T12:30:10+01:00" =
       inl (mkTime 2004 1 1 12 30 10 0 3600)
  /\ time_Parse rfc3339HyphenTZ "2004-01-01T12:30:10+01:00" =
       inl (mkTime 2004 1 1 12 30 10 0 3600)
  /\ firstParsed "20040101T12:30:10" = Some (mkTime 2004 1 1 12 30 10 0 0)
  /\ firstParsed "2004-01-01T12:30:10" = Some (mkTime 2004 1 1 12 30 10 0 0).
Proof. repeat split; vm_compute; reflexivity. Qed.

(** ** C6: the errors of the read operations *)








(** ** Induction on RPC values *)

(** The items of an array payload and the members of a struct payload. *)
Definition itemsOf (v : iface) : list rpcValue :=
  match v with
  | idyn _ (DValues l) => l
  | _ => []
  end.

Definition membersOf (v : iface) : list rpcEntry :=
  match v with
  | idyn _ (DEntries l) => l
  | _ => []
  end.

(** The items of an array value and the values of the members of a struct
    value are smaller than the value. *)
Lemma rpcValue_induction (P : rpcValue -> Prop) :
  (forall val k,
      Forall P (itemsOf val) ->
      Forall (fun m => P (entryValue m)) (membersOf val) ->
      P (RpcValue val k)) ->
  forall r, P r.
Proof.
  intros H. fix IH 1. intros [val k]. apply H.
  - destruct val as [|t d]; [constructor|].
    destruct d; try constructor.
    simpl. induction array as [|x items IHl]; constructor; auto.
  - destruct val as [|t d]; [constructor|].
    destruct d; try constructor.
    simpl. induction members as [|[n x] members IHl]; constructor; auto.
Qed.

(** ** The errors of a projection *)

Definition isInternalError (e : option error) : Prop :=
  match e with
  | Some (FaultError f) => Code f = InternalError
  | Some _ => False
  | None => True
  end.

Lemma internalError_is (s : string) : isInternalError (internalError s).
Proof. reflexivity. Qed.

Lemma setValue_internal (t : gotype) (val : iface) (cur : godata) :
  isInternalError (fst (setValue t val cur)).
Proof.
  unfold setValue. destruct val; simpl; auto.
  destruct (_ && _); simpl; auto.
Qed.

Lemma writeItems_internal W et array :
  Forall (fun r => forall v e slot, W r v = Ok (e, slot) -> isInternalError e) array ->
  forall e ms, writeItems W et array = Ok (e, ms) -> isInternalError e.
Proof.
  induction 1 as [|r array Hr _ IH]; simpl; intros e ms H.
  - now injection H as <- _.
  - destruct (W r _) as [[err m]| | |] eqn:EW; try discriminate. simpl in H.
    destruct err as [e0|].
    + injection H as <- _. exact (Hr _ _ _ EW).
    + destruct (writeItems W et array) as [[err' ms']| | |]; try discriminate.
      simpl in H. injection H as <- _. eapply IH; eauto.
Qed.

Lemma writeMembers_internal W fs nm members :
  Forall (fun m => forall v e slot, W (entryValue m) v = Ok (e, slot) ->
                                    isInternalError e) members ->
  forall fds e fds', writeMembers W fs nm members fds = Ok (e, fds') ->
                     isInternalError e.
Proof.
  induction 1 as [|[name mv] members Hr _ IH]; simpl; intros fds e fds' H.
  - now injection H as <- _.
  - destruct (fieldIndex fs (nameMap_get nm name)) as [i|].
    + destruct (W mv _) as [[err fd]| | |] eqn:EW; try discriminate. simpl in H.
      destruct err as [e0|].
      * injection H as <- _. exact (Hr _ _ _ EW).
      * eapply IH; eauto.
    + now injection H as <- _.
Qed.

#[local] Arguments setValue : simpl never.
#[local] Arguments internalError : simpl never.

Lemma Ok_setValue_internal t val c (e : option error) (slot : godata) :
  Ok (setValue t val c) = Ok (e, slot) -> isInternalError e.
Proof.
  intros [= E]. pose proof (setValue_internal t val c) as HI.
  now rewrite E in HI.
Qed.

Lemma Ok_internalError s c (e : option error) (slot : godata) :
  Ok (internalError s, c) = Ok (e, slot) -> isInternalError e.
Proof. now intros [= <- _]. Qed.

(** Every error that [writeTo] returns is an [InternalError] fault. *)
Lemma writeTo_internal :
  forall r v e slot, writeTo r v = Ok (e, slot) -> isInternalError e.
Proof.
  induction r as [val k IHa IHs] using rpcValue_induction.
  intros v e slot H. simpl in H.
  destruct (isEmpty (RpcValue val k)) as [[|]| | |]; try discriminate; simpl in H.
  { now injection H as <- _. }
  assert (Hbody : forall t cur,
    match k with
    | arrayKind =>
        if gotype_eqb t TInterface then Ok (setValue t val cur)
        else if negb (reflect.eqb (kindOf t) reflect.Slice) then
          Ok (internalError ("error writing value. expected type slice got '" ++
                             reflect.name (kindOf t) ++ "'"), cur)
        else
          match val with
          | idyn TRpcValues (DValues array) =>
              match t, cur with
              | TSlice et, DSeq old =>
                  '(err, slice) <- writeItems writeTo et array ;;
                  match err with
                  | Some e => Ok (Some e, cur)
                  | None => Ok (setValue t (idyn t (DSeq (old ++ slice))) cur)
                  end
              | _, _ => Unmodelled "slice destination of another element type"
              end
          | _ => Ok (internalError "invalid decoded type for array", cur)
          end
    | structKind =>
        if negb (reflect.eqb (kindOf t) reflect.Struct) then
          Ok (internalError ("error writing struct. expected type struct got '" ++
                             reflect.name (kindOf t) ++ "'"), cur)
        else
          match val with
          | idyn TRpcEntries (DEntries members) =>
              '(err, fds) <- writeMembers writeTo (fieldsOf t)
                               (buildNameMap (fieldsOf t)) members
                               (fieldData t cur) ;;
              let cur' := match cur with DStruct _ => DStruct fds | _ => cur end in
              match err with
              | Some e => Ok (Some e, cur')
              | None => Ok (setValue t (idyn t cur') cur')
              end
          | _ => Ok (internalError "invalid decoded type for struct", cur)
          end
    | _ => Ok (setValue t val cur)
    end = Ok (e, slot) -> isInternalError e).
  { intros t cur Hb.
    destruct k; eauto using Ok_setValue_internal.
    - destruct (gotype_eqb t TInterface); eauto using Ok_setValue_internal.
      destruct (negb _); eauto using Ok_internalError.
      destruct val as [|[] []]; eauto using Ok_internalError.
      destruct t; try discriminate; destruct cur; try discriminate.
      destruct (writeItems writeTo t array) as [[err sl]| | |] eqn:EW;
        try discriminate. simpl in Hb.
      pose proof (writeItems_internal _ _ _ IHa _ _ EW) as HI.
      destruct err; [now injection Hb as <- _|].
      eauto using Ok_setValue_internal.
    - destruct (negb _); eauto using Ok_internalError.
      destruct val as [|[] []]; eauto using Ok_internalError.
      destruct (writeMembers _ _ _ _ _) as [[err fds]| | |] eqn:EW;
        try discriminate. simpl in Hb.
      pose proof (writeMembers_internal _ _ _ _ IHs _ _ _ EW) as HI.
      destruct err; [now injection Hb as <- _|].
      eauto using Ok_setValue_internal. }
  destruct v as [|t d|t|t cur| |t cur canSet]; try discriminate.
  - eapply Ok_internalError; exact H.
  - destruct (reflect.eqb (kindOf t) reflect.Interface); simpl in H;
      eapply Ok_internalError; exact H.
  - destruct (reflect.eqb (kindOf t) reflect.Interface); simpl in H;
      [eapply Ok_internalError; exact H|].
    destruct k; exact (Hbody t cur H).
  - simpl in H. destruct canSet; simpl in H;
      [|eapply Ok_internalError; exact H].
    destruct k; exact (Hbody t cur H).
Qed.

(** ** C7: a destination that accepts any value *)

(** The claim as stated fails on a pointer to an [interface{}] variable:
    [writeTo] rejects it, whatever the value, and stores nothing. *)
Lemma C7_counterexample :
  writeTo (RpcValue (idyn TInt (DInt 5)) intKind) (ToPtr TInterface (DIface inil)) =
    Ok (Some (FaultError (mkFault InternalError
                            "error writing value. cannot write to type 'ptr'")),
        DIface inil).
Proof. reflexivity. Qed.

Lemma gotype_eqb_interface_r (t : gotype) :
  negb (gotype_eqb t TInterface) && negb (gotype_eqb TInterface TInterface) = false.
Proof. apply andb_false_r. Qed.

(** C7, as the code has it. [writeTo] rejects a pointer to an
    [interface{}] variable with an [InternalError] fault. An [interface{}]
    slot is written through a [reflect.Value], as the elements of a
    [[]interface{}] destination are: a settable one receives the payload of
    a non-empty value of any kind but struct, as it is; a struct value is
    rejected with an [InternalError] fault; an empty value (nil kind, empty
    array, empty struct) stores nothing. *)
Theorem C7_interface_slot :
  forall (r : rpcValue) (cur : godata),
    (isEmpty r = Ok false ->
       writeTo r (ToPtr TInterface cur) =
         Ok (internalError "error writing value. cannot write to type 'ptr'", cur))
    /\ (isEmpty r = Ok false -> kind r <> structKind ->
          writeTo r (ToValue TInterface cur true) =
            Ok (None, match value r with inil => cur | v => DIface v end))
    /\ (isEmpty r = Ok false -> kind r = structKind ->
          writeTo r (ToValue TInterface cur true) =
            Ok (internalError
                  "error writing struct. expected type struct got 'interface'", cur))
    /\ (isEmpty r = Ok true ->
          forall v, writeTo r v = Ok (None, slotOf v)).
Proof.
  intros [val k] cur. split; [|split; [|split]].
  - intros H. simpl. rewrite H. reflexivity.
  - intros H Hk. simpl in Hk. simpl. rewrite H. simpl.
    destruct k; try contradiction; unfold setValue;
      destruct val; try reflexivity; now rewrite gotype_eqb_interface_r.
  - intros H Hk. simpl in Hk. subst k. simpl. rewrite H. reflexivity.
  - intros H v. simpl. rewrite H. reflexivity.
Qed.

Lemma C7_interface_slot_witness :
  isEmpty (RpcValue (idyn TString (DString "hello")) stringKind) = Ok false /\
  kind (RpcValue (idyn TString (DString "hello")) stringKind) <> structKind /\
  writeTo (RpcValue (idyn TString (DString "hello")) stringKind)
    (ToValue TInterface (DIface inil) true) =
  Ok (None, DIface (idyn TString (DString "hello"))).
Proof.
  split; [reflexivity|]. split; [discriminate|].
  apply (proj1 (proj2 (C7_interface_slot
           (RpcValue (idyn TString (DString "hello")) stringKind) (DIface inil)))).
  - reflexivity.
  - discriminate.
Defined.

(** The parameters [5, "hello", [1]] read into a [[]interface{}]: each
    element receives the payload of its value, the array its [[]rpcValue]. *)
Example any_slice_receives_payloads :
  rpcParams.writeTo
    [RpcValue (idyn TInt (DInt 5)) intKind;
     RpcValue (idyn TString (DString "hello")) stringKind;
     RpcValue (idyn TRpcValues (DValues [RpcValue (idyn TInt (DInt 1)) intKind]))
       arrayKind]
    (ToPtr (TSlice TInterface) (DSeq [])) =
  Ok (None,
      DSeq [DIface (idyn TInt (DInt 5)); DIface (idyn TString (DString "hello"));
            DIface (idyn TRpcValues
                      (DValues [RpcValue (idyn TInt (DInt 1)) intKind]))]).
Proof. reflexivity. Qed.

(** ** C8: shape mismatch of a struct value *)

(** The claim as stated fails on the empty struct value: projected into a
    destination that is no struct, it returns no error. *)
Lemma C8_counterexample :
  kind (RpcValue (idyn TRpcEntries (DEntries [])) structKind) = structKind
  /\ writeTo (RpcValue (idyn TRpcEntries (DEntries [])) structKind)
       (ToPtr TInt (DInt 0)) = Ok (None, DInt 0).
Proof. split; reflexivity. Qed.

(** The destination is a struct: a pointer to one, or a [reflect.Value]
    of one. *)
Definition isStructDest (v : target) : bool :=
  match v with
  | ToNilPtr t | ToPtr t _ | ToValue t _ _ => reflect.eqb (kindOf t) reflect.Struct
  | _ => false
  end.

(** The destination has a type: it is neither [nil] nor a pointer to the
    zero [reflect.Value]. *)
Definition hasType (v : target) : bool :=
  match v with
  | ToNil | ToZeroValue => false
  | _ => true
  end.

(** The name a field has on the wire: its [rpc] tag when it has one, its
    own name otherwise. *)
Definition wireName (f : StructField) : string :=
  match fieldTag f with
  | Some n => n
  | None => fieldName f
  end.

Definition hasField (fs : list StructField) (name : string) : bool :=
  existsb (fun f => String.eqb (wireName f) name) fs.

Lemma buildNameMap_fold (fs : list StructField) (acc : nameMapT) :
  fold_left (fun m f =>
               match fieldTag f with
               | Some name => nameMap_set m name (fieldName f)
               | None => nameMap_set m (fieldName f) (fieldName f)
               end) fs acc =
  (rev (map (fun f => (wireName f, fieldName f)) fs) ++ acc)%list.
Proof.
  revert acc. induction fs as [|f fs IH]; intros acc; simpl; [reflexivity|].
  rewrite IH, <- List.app_assoc. simpl. unfold wireName, nameMap_set.
  destruct (fieldTag f); reflexivity.
Qed.

Lemma buildNameMap_spec (fs : list StructField) :
  buildNameMap fs = rev (map (fun f => (wireName f, fieldName f)) fs).
Proof. unfold buildNameMap. now rewrite buildNameMap_fold, List.app_nil_r. Qed.

Lemma find_none_iff {A} (p : A -> bool) (l : list A) :
  (forall x, In x l -> p x = false) -> find p l = None.
Proof.
  induction l as [|a l IH]; simpl; intros H; [reflexivity|].
  rewrite (H a) by now left. apply IH. intros x Hx. apply H. now right.
Qed.

Lemma nameMap_get_unknown (fs : list StructField) (name : string) :
  hasField fs name = false -> nameMap_get (buildNameMap fs) name = "".
Proof.
  intros H. unfold nameMap_get. rewrite buildNameMap_spec.
  rewrite find_none_iff; [reflexivity|].
  intros [k v] Hin. apply in_rev in Hin. apply in_map_iff in Hin as [f [[= <- <-] Hf]].
  simpl. unfold hasField in H.
  destruct (String.eqb (wireName f) name) eqn:E; [|reflexivity].
  assert (existsb (fun f => String.eqb (wireName f) name) fs = true)
    by (apply existsb_exists; eauto).
  congruence.
Qed.

Lemma fieldIndex_none (fs : list StructField) (name : string) :
  Forall (fun f => fieldName f <> name) fs -> fieldIndex fs name = None.
Proof.
  induction 1 as [|f fs Hf _ IH]; simpl; [reflexivity|].
  destruct (String.eqb_spec (fieldName f) name); [contradiction|].
  now rewrite IH.
Qed.

(** The loop over the members does not end well when a member has a name
    that is no wire name of the fields. *)
Lemma writeMembers_unknown W fs members :
  Forall (fun f => fieldName f <> "") fs ->
  Exists (fun m => hasField fs (entryName m) = false) members ->
  forall fds fds', writeMembers W fs (buildNameMap fs) members fds <> Ok (None, fds').
Proof.
  intros Hfs. induction members as [|[name mv] members IH]; intros Hex fds fds'.
  - inversion Hex.
  - simpl. destruct (fieldIndex fs (nameMap_get (buildNameMap fs) name)) as [i|] eqn:Ei.
    + destruct (W mv _) as [[[e|] fd]| | |]; simpl; try discriminate.
      apply IH. inversion Hex as [? ? Hhd | ? ? Htl]; subst; [|assumption].
      simpl in Hhd. rewrite (nameMap_get_unknown _ _ Hhd) in Ei.
      now rewrite (fieldIndex_none _ _ Hfs) in Ei.
    + discriminate.
Qed.

(** The first member with an unknown name, when the loop reaches it, is
    reported without its name: the text is made from [nameMap[member.Name]],
    which is empty for a name that is not in the map. *)
Lemma unknown_member_message :
  writeTo
    (RpcValue (idyn TRpcEntries
                 (DEntries [RpcEntry "nickname" (RpcValue (idyn TString (DString "K")) stringKind)]))
       structKind)
    (ToPtr (TStruct "Person" [mkField "Name" (Some "name") TString])
       (DStruct [DString ""])) =
  Ok (Some (FaultError (mkFault InternalError "error writing struct. unknown field ")),
      DStruct [DString ""]).
Proof. reflexivity. Qed.

(** C8, as the code has it. For every struct value that is not empty:
    - projected into a destination that is no struct, it fails with an
      [InternalError] fault;
    - projected into a struct one of whose members has a name that is no
      wire name of the fields (the tag of a field that has one, the name of
      the field otherwise), it does not succeed;
    and every error a projection returns is an [InternalError] fault. *)
Theorem C8_struct_shape_mismatch :
  (forall r v,
      kind r = structKind -> isEmpty r = Ok false ->
      hasType v = true -> isStructDest v = false ->
      exists f slot, writeTo r v = Ok (Some (FaultError f), slot)
                     /\ Code f = InternalError)
  /\ (forall members v slot,
        isStructDest v = true ->
        Forall (fun f => fieldName f <> "")
          (fieldsOf (match v with
                     | ToNilPtr t | ToPtr t _ | ToValue t _ _ => t
                     | _ => TInterface
                     end)) ->
        Exists (fun m => hasField
                           (fieldsOf (match v with
                                      | ToNilPtr t | ToPtr t _ | ToValue t _ _ => t
                                      | _ => TInterface
                                      end)) (entryName m) = false) members ->
        writeTo (RpcValue (idyn TRpcEntries (DEntries members)) structKind) v
          <> Ok (None, slot))
  /\ (forall r v e slot,
        writeTo r v = Ok (Some e, slot) ->
        exists f, e = FaultError f /\ Code f = InternalError).
Proof.
  split; [|split].
  - intros [val k] v Hk He Hv Hs. simpl in Hk. subst k. simpl. rewrite He. simpl.
    destruct v as [|t d|t|t cur| |t cur canSet]; try discriminate; simpl in Hs.
    + eexists _, _. split; reflexivity.
    + destruct (reflect.eqb (kindOf t) reflect.Interface);
        eexists _, _; split; reflexivity.
    + destruct (reflect.eqb (kindOf t) reflect.Interface); simpl.
      * eexists _, _. split; reflexivity.
      * rewrite Hs. simpl. eexists _, _. split; reflexivity.
    + destruct canSet; simpl.
      * rewrite Hs. simpl. eexists _, _. split; reflexivity.
      * eexists _, _. split; reflexivity.
  - intros members v slot Hs Hfs Hex.
    assert (He : Nat.eqb (length members) 0 = false)
      by (destruct members; [inversion Hex | reflexivity]).
    destruct v as [|t d|t|t cur| |t cur canSet]; try discriminate;
      simpl in Hs; simpl; rewrite He; simpl.
    + destruct (reflect.eqb (kindOf t) reflect.Interface); discriminate.
    + destruct (reflect.eqb (kindOf t) reflect.Interface); [discriminate|].
      simpl. rewrite Hs. simpl.
      pose proof (writeMembers_unknown writeTo _ _ Hfs Hex (fieldData t cur)) as HW.
      destruct (writeMembers writeTo _ _ _ _) as [[[e|] fds]| | |];
        simpl; try discriminate.
      exfalso. now apply (HW fds).
    + destruct canSet; simpl; [|discriminate]. rewrite Hs. simpl.
      pose proof (writeMembers_unknown writeTo _ _ Hfs Hex (fieldData t cur)) as HW.
      destruct (writeMembers writeTo _ _ _ _) as [[[e|] fds]| | |];
        simpl; try discriminate.
      exfalso. now apply (HW fds).
  - intros r v e slot H. apply writeTo_internal in H. simpl in H.
    destruct e; try contradiction. eauto.
Qed.

(** ** The invariant of the value model *)

Definition isIntType (t : gotype) : bool :=
  match t with
  | TInt | TInt64 | TInt32 | TInt16 | TUint | TUint64 | TUint32 | TUint16
  | TUint8 => true
  | _ => false
  end.

(** The payload of a value is of the type its kind tells: the invariant of
    the data model. A value of nil kind holds nothing or the native value
    [makeValue] did not recognise. *)
Fixpoint wfValue (r : rpcValue) : bool :=
  match r with
  | RpcValue _ nilKind => true
  | RpcValue (idyn TBool (DBool _)) booleanKind => true
  | RpcValue (idyn t (DInt _)) intKind => isIntType t
  | RpcValue (idyn (TFloat64 | TFloat32) (DFloat _)) doubleKind => true
  | RpcValue (idyn TTime (DTime _)) dateTimeKind => true
  | RpcValue (idyn (TSlice TUint8) (DSeq _)) base64Kind => true
  | RpcValue (idyn TString (DString _)) stringKind => true
  | RpcValue (idyn TRpcValues (DValues items)) arrayKind => forallb wfValue items
  | RpcValue (idyn TRpcEntries (DEntries members)) structKind =>
      forallb (fun m => match m with RpcEntry _ v => wfValue v end) members
  | _ => false
  end.

Definition wfEntry (m : rpcEntry) : bool := wfValue (entryValue m).

Lemma wfValue_struct (members : list rpcEntry) :
  wfValue (RpcValue (idyn TRpcEntries (DEntries members)) structKind) =
  forallb wfEntry members.
Proof.
  simpl. induction members as [|[n v] members IH]; simpl; [reflexivity|].
  now rewrite IH.
Qed.

Lemma wf_isEmpty (r : rpcValue) :
  wfValue r = true -> exists b, isEmpty r = Ok b.
Proof.
  destruct r as [val k]. unfold isEmpty. simpl. intros H.
  destruct k; eauto; destruct val as [|t d]; try discriminate;
    destruct t; try discriminate; destruct d; try discriminate; eauto;
    match goal with
    | H : match ?x with _ => _ end = true |- _ => destruct x; discriminate
    end.
Qed.

(** *** What the reader builds satisfies it *)

Lemma parseDate_wf (fs : list string) (s : string) (cur : iface * option error) :
  fs <> [] -> exists t, fst (parseDate fs s cur) = idyn TTime (DTime t).
Proof.
  revert cur. induction fs as [|f fs IH]; intros cur H; [contradiction|].
  simpl. destruct (time_Parse f s) as [t|e]; simpl; eauto.
  destruct fs as [|f' fs]; [simpl; eauto|]. apply IH. discriminate.
Qed.

Lemma readPrimitive_wf (rpc : rpcValue) (r : xmlReader) e rpc' r' :
  wfValue rpc = true -> kind rpc = nilKind ->
  readPrimitive rpc r = Ok (e, rpc', r') -> wfValue rpc' = true.
Proof.
  intros Hwf Hk H. unfold readPrimitive in H.
  destruct (nextStart r) as [[[se|] [err|]] r1]; try (now injection H as _ <- _).
  destruct (nextText r1) as [[s err] r2].
  destruct (expectEnd se r2) as [[err'|] r3]; [now injection H as _ <- _|].
  destruct (String.eqb se "string"); [now injection H as _ <- _|].
  destruct (String.eqb se "boolean").
  { destruct (boolDecodeMap s); injection H as _ <- _; [reflexivity|].
    now rewrite Hk. }
  destruct (String.eqb se "int" || String.eqb se "i4").
  { destruct (Atoi s) as [n []]; injection H as _ <- _; [reflexivity|].
    now rewrite Hk. }
  destruct (String.eqb se "double").
  { destruct (ParseFloat s) as [[x []]| | |]; try discriminate;
      injection H as _ <- _; [reflexivity|]. now rewrite Hk. }
  destruct (String.eqb se "base64").
  { destruct (DecodeString s) as [bs err0]. now injection H as _ <- _. }
  destruct (String.eqb se "dateTime.iso8601").
  { destruct (parseDate dateTimeFormats s (value rpc, None)) as [v err0] eqn:E.
    injection H as _ <- _.
    destruct (parseDate_wf dateTimeFormats s (value rpc, None)) as [t Ht];
      [discriminate|].
    rewrite E in Ht. simpl in Ht. now subst v. }
  now injection H as _ <- _.
Qed.

Lemma forallb_snoc {A} (p : A -> bool) (l : list A) (a : A) :
  forallb p (l ++ [a]) = forallb p l && p a.
Proof. rewrite forallb_app. simpl. now rewrite andb_true_r. Qed.

(** Whatever a read into a fresh value returns, the value it leaves is
    well formed. *)
Lemma read_wf (fuel : nat) :
  (forall rpc r e rpc' r',
      wfValue rpc = true -> kind rpc = nilKind ->
      readValue fuel rpc r = Ok (e, rpc', r') -> wfValue rpc' = true)
  /\ (forall rpc r e rpc' r',
        wfValue rpc = true -> kind rpc = nilKind ->
        readArray fuel rpc r = Ok (e, rpc', r') -> wfValue rpc' = true)
  /\ (forall acc r e acc' r',
        forallb wfValue acc = true ->
        readArrayItems fuel acc r = Ok (e, acc', r') -> forallb wfValue acc' = true)
  /\ (forall rpc r e rpc' r',
        wfValue rpc = true -> kind rpc = nilKind ->
        readStruct fuel rpc r = Ok (e, rpc', r') -> wfValue rpc' = true)
  /\ (forall acc r e acc' r',
        forallb wfEntry acc = true ->
        readMembers fuel acc r = Ok (e, acc', r') -> forallb wfEntry acc' = true).
Proof.
  induction fuel as [|fuel (IHv & IHa & IHi & IHs & IHm)].
  { repeat split; intros; discriminate. }
  repeat split.
  - (* readValue *)
    intros rpc r e rpc' r' Hwf Hk H. simpl in H.
    destruct (expectStart "value" r) as [[err|] r1]; [now injection H as _ <- _|].
    destruct (nextStart r1) as [[[se|] [err|]] r2].
    + destruct (nextText r2) as [[s [err'|]] r3].
      * destruct (expectEnd "value" r3). now injection H as _ <- _.
      * now injection H as _ <- _.
    + destruct (negb (valueTagSet se)); [now injection H as _ <- _|].
      assert (Hin : forall o : reading rpcValue,
                 (forall e1 rpc1 r1, o = Ok (e1, rpc1, r1) -> wfValue rpc1 = true) ->
                 ('(err, rpc, r) <- o ;;
                  match err with
                  | Some e => Ok (Some e, rpc, r)
                  | None => let '(err, r) := expectEnd "value" r in Ok (err, rpc, r)
                  end) = Ok (e, rpc', r') -> wfValue rpc' = true).
      { intros [[[e1 rpc1] r4]| | |] Ho; simpl; try discriminate.
        destruct e1; [|destruct (expectEnd "value" r4)];
          intros [= _ <- _]; eapply Ho; reflexivity. }
      revert H. apply Hin. intros e1 rpc1 r4.
      destruct (String.eqb se "array"); [now apply IHa|].
      destruct (String.eqb se "struct"); [now apply IHs|].
      intros Hp. now apply (readPrimitive_wf _ _ _ _ _ Hwf Hk) in Hp.
    + destruct (nextText r2) as [[s [err'|]] r3].
      * destruct (expectEnd "value" r3). now injection H as _ <- _.
      * now injection H as _ <- _.
    + destruct (nextText r2) as [[s [err'|]] r3].
      * destruct (expectEnd "value" r3). now injection H as _ <- _.
      * now injection H as _ <- _.
  - (* readArray *)
    intros rpc r e rpc' r' Hwf Hk H. simpl in H.
    destruct (nextStart r) as [[_x _y] r0].
    destruct (expectStart "data" r0) as [[err|] r1]; [now injection H as _ <- _|].
    destruct (readArrayItems fuel [] r1) as [[[err items] r2]| | |] eqn:EI;
      try discriminate. simpl in H.
    apply IHi in EI; [|reflexivity].
    destruct err; [now injection H as _ <- _|].
    destruct (expectEnd "data" r2) as [[err|] r3]; [now injection H as _ <- _|].
    destruct (expectEnd "array" r3). now injection H as _ <- _.
  - (* readArrayItems *)
    intros acc r e acc' r' Hacc H. simpl in H.
    destruct (nextStart r) as [[[se|] [err|]] r1]; try (now injection H as _ <- _).
    destruct (negb (String.eqb se "value")); [now injection H as _ <- _|].
    destruct (readValue fuel zeroValue _) as [[[err val] r2]| | |] eqn:EV;
      try discriminate. simpl in H.
    apply IHv in EV; try reflexivity.
    destruct err; [now injection H as _ <- _|].
    apply IHi in H; [exact H|]. now rewrite forallb_snoc, Hacc, EV.
  - (* readStruct *)
    intros rpc r e rpc' r' Hwf Hk H. simpl in H.
    destruct (nextStart r) as [[_x _y] r0].
    destruct (readMembers fuel [] r0) as [[[err ms] r2]| | |] eqn:EM;
      try discriminate. simpl in H.
    apply IHm in EM; [|reflexivity].
    destruct err; [now injection H as _ <- _|].
    destruct (expectEnd "struct" r2). injection H as _ <- _.
    now rewrite wfValue_struct.
  - (* readMembers *)
    intros acc r e acc' r' Hacc H. simpl in H.
    destruct (expectStart "member" r) as [[err|] r1]; [now injection H as _ <- _|].
    destruct (expectStart "name" r1) as [[err|] r2]; [now injection H as _ <- _|].
    destruct (nextText r2) as [[name [err|]] r3]; [now injection H as _ <- _|].
    destruct (expectEnd "name" r3) as [[err|] r4]; [now injection H as _ <- _|].
    destruct (readValue fuel zeroValue r4) as [[[err val] r5]| | |] eqn:EV;
      try discriminate. simpl in H.
    apply IHv in EV; try reflexivity.
    destruct err; [now injection H as _ <- _|].
    destruct (expectEnd "member" r5) as [[err|] r6]; [now injection H as _ <- _|].
    apply IHm in H; [exact H|]. rewrite forallb_snoc, Hacc. exact EV.
Qed.

Lemma readResponse_wf fuel rpc r e rpc' r' :
  wfValue (resp_Fault rpc) = true -> kind (resp_Fault rpc) = nilKind ->
  readResponse fuel rpc r = Ok (e, rpc', r') -> wfValue (resp_Fault rpc') = true.
Proof.
  intros Hwf Hk H. unfold readResponse in H.
  destruct (readHeader r) as [[err|] r1]; [now injection H as _ <- _|].
  destruct (expectStart "methodResponse" r1) as [[err|] r2];
    [now injection H as _ <- _|].
  destruct (readParams fuel (resp_Params rpc) r2) as [[[err ps] r3]| | |];
    try discriminate. simpl in H.
  assert (Hfin : forall rpc1 r4,
             wfValue (resp_Fault rpc1) = true ->
             (let '(err, r) := expectEnd "methodResponse" r4 in Ok (err, rpc1, r))
             = Ok (e, rpc', r') -> wfValue (resp_Fault rpc') = true).
  { intros rpc1 r4 H1. destruct (expectEnd "methodResponse" r4).
    now intros [= _ <- _]. }
  destruct err as [e0|]; [|now apply Hfin in H].
  destruct (isEOF e0); [now apply Hfin in H|].
  destruct (expectStart "fault" r3) as [[err|] r4]; [now injection H as _ <- _|].
  destruct (readValue fuel (resp_Fault rpc) r4) as [[[err fault] r5]| | |] eqn:EV;
    try discriminate. simpl in H.
  apply (proj1 (read_wf fuel)) in EV; auto.
  destruct err; [now injection H as _ <- _|].
  destruct (expectEnd "fault" r5) as [[err|] r6]; [now injection H as _ <- _|].
  now apply Hfin in H.
Qed.

(** *** A well-formed value projected into a [Fault] *)

Lemma Ok_pair_exists {A B} (p : A * B) :
  exists a b, @Ok (A * B) p = Ok (a, b).
Proof. destruct p. eauto. Qed.

Lemma writeTo_scalar_total (r : rpcValue) (t : gotype) (cur : godata) (c : bool) :
  wfValue r = true ->
  reflect.eqb (kindOf t) reflect.Slice = false ->
  reflect.eqb (kindOf t) reflect.Struct = false ->
  exists e slot, writeTo r (ToValue t cur c) = Ok (e, slot).
Proof.
  intros Hwf Hsl Hst. destruct (wf_isEmpty r Hwf) as [b Hb].
  destruct r as [val k]. simpl. rewrite Hb. destruct b; simpl; eauto.
  destruct c; simpl; eauto.
  destruct k; try apply Ok_pair_exists.
  - destruct (gotype_eqb t TInterface); [apply Ok_pair_exists|].
    rewrite Hsl. simpl. eauto.
  - rewrite Hst. simpl. eauto.
Qed.

Definition isScalar (t : gotype) : bool :=
  negb (reflect.eqb (kindOf t) reflect.Slice)
  && negb (reflect.eqb (kindOf t) reflect.Struct).

Lemma writeMembers_scalar_total fs nm (members : list rpcEntry) :
  forallb isScalar (map fieldType fs) = true ->
  forallb wfEntry members = true ->
  forall fds, exists e fds', writeMembers writeTo fs nm members fds = Ok (e, fds').
Proof.
  intros Hfs. induction members as [|[name mv] members IH]; intros Hwf fds;
    simpl; eauto.
  simpl in Hwf. apply andb_prop in Hwf as [Hmv Hrest].
  destruct (fieldIndex fs (nameMap_get nm name)) as [i|]; eauto.
  assert (Hi : isScalar (nth i (map fieldType fs) TInterface) = true).
  { destruct (nth_in_or_default i (map fieldType fs) TInterface) as [Hin | ->];
      [|reflexivity].
    rewrite forallb_forall in Hfs. auto. }
  apply andb_prop in Hi as [H1 H2].
  apply negb_true_iff in H1. apply negb_true_iff in H2.
  destruct (writeTo_scalar_total mv (nth i (map fieldType fs) TInterface)
              (nth i fds DOpaque) (isExported (nameMap_get nm name)) Hmv H1 H2)
    as (e & slot & Hs).
  rewrite Hs. simpl. destruct e; eauto.
Qed.

Lemma writeTo_fault_total (r : rpcValue) :
  wfValue r = true ->
  exists e slot, writeTo r (ToPtr typeOfFault (zero typeOfFault)) = Ok (e, slot).
Proof.
  intros Hwf. destruct (wf_isEmpty r Hwf) as [b Hb].
  destruct r as [val k]. simpl. rewrite Hb. destruct b; simpl; eauto.
  destruct k; try apply Ok_pair_exists; eauto.
  destruct val as [|[] []]; eauto. rewrite wfValue_struct in Hwf.
  destruct (writeMembers_scalar_total (fieldsOf typeOfFault)
              (buildNameMap (fieldsOf typeOfFault)) members eq_refl Hwf
              [DInt 0; DString ""]) as (e & fds & Hm).
  change (writeMembers writeTo (fieldsOf typeOfFault)
            (buildNameMap (fieldsOf typeOfFault)) members [DInt 0; DString ""])
    with (writeMembers writeTo
            [mkField "Code" (Some "faultCode") TInt;
             mkField "Message" (Some "faultString") TString]
            (buildNameMap [mkField "Code" (Some "faultCode") TInt;
                           mkField "Message" (Some "faultString") TString])
            members [DInt 0; DString ""]) in Hm.
  unfold buildNameMap in Hm. simpl in Hm. unfold buildNameMap. simpl.
  rewrite Hm. simpl. destruct e; eauto. apply Ok_pair_exists.
Qed.

(** ** C2: the fault branch of a response *)

(** [<methodResponse><fault><value><int>5</int></value></fault></methodResponse>] *)
Definition intFaultResponse : list Token :=
  [StartElement "methodResponse"; StartElement "fault"; StartElement "value";
   StartElement "int"; CharData "5"; EndElement "int"; EndElement "value";
   EndElement "fault"; EndElement "methodResponse"].

(** The claim as stated fails on a fault slot that holds a value of
    another kind than struct: the response decodes, its fault slot is the
    int 5, and [readResponse] still returns a [Fault] (that of the failed
    projection) and leaves the reply unwritten; [writeResponse] writes the
    fault branch for it. *)
Lemma C2_counterexample :
  Codec.readRPC 1 (mkDecoder intFaultResponse io_EOF)
    (Codec.IntoResponse (mkResponse [] zeroValue)) =
    Ok (None, Codec.IntoResponse (mkResponse [] (RpcValue (idyn TInt (DInt 5)) intKind)))
  /\ Codec.readResponse 1 (mkDecoder intFaultResponse io_EOF) (ToPtr TInt (DInt 0)) =
     Ok (Some (FaultError (mkFault InternalError "type mismatch: int != xml.Fault")),
         DInt 0)
  /\ written (writeResponse (mkResponse [] (RpcValue (idyn TInt (DInt 5)) intKind))) =
     Ok (None, xml_Header ++
               "<methodResponse><fault><value><int>5</int></value></fault></methodResponse>").
Proof. repeat split; vm_compute; reflexivity. Qed.


Lemma C8_struct_shape_mismatch_witness :
  kind (RpcValue (idyn TRpcEntries
                    (DEntries [RpcEntry "age" (RpcValue (idyn TInt (DInt 10)) intKind)]))
          structKind) = structKind /\
  exists f slot,
    writeTo (RpcValue (idyn TRpcEntries
                         (DEntries [RpcEntry "age" (RpcValue (idyn TInt (DInt 10)) intKind)]))
               structKind)
      (ToPtr (TMap TString TInt) (DMap [])) = Ok (Some (FaultError f), slot)
    /\ Code f = InternalError.
Proof.
  split; [reflexivity|].
  apply (proj1 C8_struct_shape_mismatch
           (RpcValue (idyn TRpcEntries
                        (DEntries [RpcEntry "age" (RpcValue (idyn TInt (DInt 10)) intKind)]))
              structKind)
           (ToPtr (TMap TString TInt) (DMap []))); reflexivity.
Defined.

(** ** Round trips through the mapper *)

Lemma gotype_eqb_refl : forall t, gotype_eqb t t = true.
Proof.
  fix IH 1. intros t. destruct t; simpl; try reflexivity.
  - now rewrite Nat.eqb_refl, IH.
  - apply IH.
  - now rewrite !IH.
  - rewrite String.eqb_refl. simpl.
    induction fields as [|[n tag ty] fields IHl]; [reflexivity|].
    rewrite String.eqb_refl, IH, IHl.
    destruct tag as [s|]; simpl; [now rewrite String.eqb_refl | reflexivity].
  - apply IH.
Qed.

(** Native data is a tree: the elements of a sequence and the fields of a
    struct are smaller than it. *)
Lemma godata_induction (P : godata -> Prop) :
  (forall items, Forall P items -> P (DSeq items)) ->
  (forall ds, Forall P ds -> P (DStruct ds)) ->
  (forall d, match d with DSeq _ | DStruct _ => False | _ => True end -> P d) ->
  forall d, P d.
Proof.
  intros Hseq Hstruct Hleaf. fix IH 1. intros d.
  destruct d; try (apply Hleaf; exact I).
  - apply Hseq. induction items as [|x items IHl]; constructor; auto.
  - apply Hstruct. induction fields as [|x fields IHl]; constructor; auto.
Qed.

Definition holdsPrimitive (v : iface) : bool :=
  match primitiveKind v with
  | Some _ => true
  | None => false
  end.

Fixpoint distinct (l : list string) : bool :=
  match l with
  | [] => true
  | x :: l' => negb (existsb (String.eqb x) l') && distinct l'
  end.

(** What a slot of type [et] may hold to be read back: a slot of interface
    type nothing or a native value of the type switch of [makeValue], any
    other slot what [ok] accepts. *)
Definition slotOK (ok : gotype -> godata -> bool) (et : gotype) (item : godata)
  : bool :=
  match et, item with
  | TInterface, DIface inil => true
  | TInterface, DIface v => holdsPrimitive v
  | TInterface, _ => false
  | _, _ => ok et item
  end.

Definition fieldsOK (ok : gotype -> godata -> bool)
  : list godata -> list StructField -> bool :=
  fix fields (ds : list godata) (fs : list StructField) {struct ds} : bool :=
    match ds, fs with
    | [], [] => true
    | fd :: ds', f :: fs' =>
        isExported (fieldName f) && slotOK ok (fieldType f) fd && fields ds' fs'
    | _, _ => false
    end.

(** The native values that a projection gives back: the values of the
    types of the type switch of [makeValue], slices of such values and
    structs of them whose fields are exported and have distinct names and
    distinct wire names. Maps, arrays of a fixed size and pointers are not
    among them. *)
Fixpoint projectable (t : gotype) (d : godata) {struct d} : bool :=
  match primitiveKind (idyn t d) with
  | Some _ => true
  | None =>
      match t, d with
      | TSlice et, DSeq items => forallb (slotOK projectable et) items
      | TStruct _ fs, DStruct ds =>
          distinct (map fieldName fs) && distinct (map wireName fs) &&
          fieldsOK projectable ds fs
      | _, _ => false
      end
  end.

Definition isLeafKind (k : valueKind) : bool :=
  match k with
  | nilKind | arrayKind | structKind => false
  | _ => true
  end.

Lemma primitiveKind_leaf (v : iface) (k : valueKind) :
  primitiveKind v = Some k -> isLeafKind k = true.
Proof.
  destruct v as [|t d]; [discriminate|].
  destruct t; try discriminate; simpl; try (intros [= <-]; reflexivity).
  destruct t; try discriminate. intros [= <-]. reflexivity.
Qed.

Lemma makeValue_primitive (t : gotype) (d : godata) (k : valueKind) :
  primitiveKind (idyn t d) = Some k ->
  makeValue_dyn t d = Ok (RpcValue (idyn t d) k).
Proof.
  intros H.
  destruct t; try discriminate; try (destruct d; simpl in *; congruence).
  destruct t; try discriminate. destruct d; simpl in *; congruence.
Qed.

(** A value of a leaf kind is stored as it is in a slot of its type or of
    interface type. *)
Lemma writeTo_leaf (val : iface) (k : valueKind) (t : gotype) (cur : godata) :
  isLeafKind k = true ->
  writeTo (RpcValue val k) (ToValue t cur true) = Ok (setValue t val cur).
Proof. destruct k; try discriminate; reflexivity. Qed.

Lemma writeTo_leaf_ptr (val : iface) (k : valueKind) (t : gotype) (cur : godata) :
  isLeafKind k = true -> reflect.eqb (kindOf t) reflect.Interface = false ->
  writeTo (RpcValue val k) (ToPtr t cur) = Ok (setValue t val cur).
Proof.
  intros Hk Ht. destruct k; try discriminate; simpl; rewrite Ht; reflexivity.
Qed.

Lemma setValue_same (t : gotype) (d cur : godata) :
  gotype_eqb t TInterface = false ->
  setValue t (idyn t d) cur = (None, d).
Proof.
  intros Ht. unfold setValue. rewrite gotype_eqb_refl. simpl.
  destruct t; try reflexivity. discriminate.
Qed.

Lemma setValue_interface (val : iface) (cur : godata) :
  val <> inil -> setValue TInterface val cur = (None, DIface val).
Proof.
  intros H. destruct val as [|t d]; [contradiction|].
  unfold setValue. simpl. now rewrite andb_false_r.
Qed.
Lemma zero_struct (n : string) (fs : list StructField) :
  zero (TStruct n fs) = DStruct (map (fun f => zero (fieldType f)) fs).
Proof.
  simpl. f_equal. induction fs as [|[fn tag ty] fs IH]; simpl; [reflexivity|].
  now rewrite IH.
Qed.

Lemma distinct_cons (x : string) (l : list string) :
  distinct (x :: l) = true -> ~ In x l /\ distinct l = true.
Proof.
  simpl. intros H. apply andb_prop in H as [Hx Hl]. split; [|assumption].
  intros Hin. apply negb_true_iff in Hx.
  assert (existsb (String.eqb x) l = true).
  { apply existsb_exists. exists x. split; [assumption | apply String.eqb_refl]. }
  congruence.
Qed.

Lemma distinct_app_r (a b : list string) :
  distinct (a ++ b) = true -> distinct b = true.
Proof.
  induction a as [|x a IH]; simpl; [auto|].
  intros H. apply andb_prop in H as [_ H]. auto.
Qed.

Lemma distinct_middle (a b : list string) (x : string) :
  distinct (a ++ x :: b) = true -> ~ In x a /\ ~ In x b.
Proof.
  induction a as [|y a IH]; simpl.
  - intros H. split; [tauto|]. now apply (distinct_cons x b).
  - intros H. apply (distinct_cons y (a ++ x :: b)) in H as [Hy Hd].
    destruct (IH Hd) as [Ha Hb]. split; [|assumption].
    intros [-> | Hin]; [|contradiction].
    apply Hy. apply in_or_app. right. now left.
Qed.

(** The name map gives a field for its wire name when no other field has
    that wire name. *)
Lemma nameMap_get_field (pre suf : list StructField) (f : StructField) :
  distinct (map wireName (pre ++ f :: suf)) = true ->
  nameMap_get (buildNameMap (pre ++ f :: suf)) (wireName f) = fieldName f.
Proof.
  intros H. rewrite map_app in H. simpl in H.
  apply distinct_middle in H as [Hpre Hsuf].
  unfold nameMap_get. rewrite buildNameMap_spec, map_app, rev_app_distr. simpl.
  rewrite <- List.app_assoc. simpl.
  assert (Hfind : forall (l : list StructField) rest,
             ~ In (wireName f) (map wireName l) ->
             find (fun p : string * string => String.eqb (fst p) (wireName f))
               (rev (map (fun f => (wireName f, fieldName f)) l) ++ rest)%list =
             find (fun p : string * string => String.eqb (fst p) (wireName f)) rest).
  { intros l. induction l as [|g l IH]; intros rest Hn; simpl; [reflexivity|].
    rewrite <- List.app_assoc. rewrite IH.
    - simpl. destruct (String.eqb_spec (wireName g) (wireName f)) as [E|E];
        [|reflexivity].
      exfalso. apply Hn. left. assumption.
    - intros Hin. apply Hn. now right. }
  rewrite Hfind by assumption. simpl. now rewrite String.eqb_refl.
Qed.

Lemma fieldIndex_middle (pre suf : list StructField) (f : StructField) :
  distinct (map fieldName (pre ++ f :: suf)) = true ->
  fieldIndex (pre ++ f :: suf) (fieldName f) = Some (length pre).
Proof.
  intros H. rewrite map_app in H. simpl in H.
  apply distinct_middle in H as [Hpre _].
  induction pre as [|g pre IH]; simpl.
  - now rewrite String.eqb_refl.
  - destruct (String.eqb_spec (fieldName g) (fieldName f)) as [E|E].
    + exfalso. apply Hpre. left. assumption.
    + rewrite IH; [reflexivity|]. intros Hin. apply Hpre. now right.
Qed.

Lemma setNth_middle {A} (pre suf : list A) (x y : A) :
  setNth (pre ++ x :: suf) (length pre) y = (pre ++ y :: suf)%list.
Proof. induction pre as [|a pre IH]; simpl; [reflexivity | now rewrite IH]. Qed.

(** The members [makeValue] makes of the fields [fs], written by [W] to
    fields that hold their zero values, give the data [ds]. *)
Inductive fieldsWritten (W : rpcValue -> target -> outcome (option error * godata))
  : list StructField -> list godata -> list rpcEntry -> Prop :=
| fw_nil : fieldsWritten W [] [] []
| fw_cons f fd mv fs ds ms :
    isExported (fieldName f) = true ->
    W mv (ToValue (fieldType f) (zero (fieldType f)) true) = Ok (None, fd) ->
    fieldsWritten W fs ds ms ->
    fieldsWritten W (f :: fs) (fd :: ds) (RpcEntry (wireName f) mv :: ms).

Lemma writeMembers_fields W (fs : list StructField) :
  distinct (map fieldName fs) = true ->
  distinct (map wireName fs) = true ->
  forall suf dsuf members, fieldsWritten W suf dsuf members ->
  forall pre dpre, fs = (pre ++ suf)%list -> length dpre = length pre ->
  writeMembers W fs (buildNameMap fs) members
    (dpre ++ map (fun f => zero (fieldType f)) suf) = Ok (None, (dpre ++ dsuf)%list).
Proof.
  intros Hn Hw suf dsuf members Hfw.
  induction Hfw as [|f fd mv suf ds ms Hex HW Hfw IH]; intros pre dpre Hfs Hlen.
  - reflexivity.
  - subst fs. cbn [writeMembers map].
    rewrite nameMap_get_field by assumption.
    rewrite fieldIndex_middle by assumption.
    rewrite map_app. cbn [map].
    replace (length pre) with (length (map fieldType pre)) at 1
      by apply length_map.
    rewrite nth_middle. rewrite <- Hlen, nth_middle, Hex, HW. cbn [obind].
    rewrite setNth_middle.
    specialize (IH (pre ++ [f])%list (dpre ++ [fd])%list).
    rewrite <- !List.app_assoc in IH. simpl in IH. apply IH; [reflexivity|].
    rewrite !length_app. simpl. lia.
Qed.

Lemma mapM_length {A B} (f : A -> outcome B) (l : list A) (bs : list B) :
  mapM f l = Ok bs -> length bs = length l.
Proof.
  revert bs. induction l as [|a l IH]; simpl; intros bs H.
  - now inversion H.
  - destruct (f a) as [b| | |]; try discriminate. simpl in H.
    destruct (mapM f l) as [bs'| | |]; try discriminate. simpl in H.
    inversion H; subst. simpl. now rewrite (IH bs').
Qed.
(** [mapped t d] : [makeValue] maps the native value and a projection
    into a zero slot of its type, or into a fresh variable of its type,
    gives it back. *)
Definition mapped (t : gotype) (d : godata) : Prop :=
  exists r, makeValue_dyn t d = Ok r /\
            writeTo r (ToValue t (zero t) true) = Ok (None, d) /\
            writeTo r (ToPtr t (zero t)) = Ok (None, d).

Lemma primitive_not_interface (t : gotype) (d : godata) (k : valueKind) :
  primitiveKind (idyn t d) = Some k ->
  gotype_eqb t TInterface = false /\
  reflect.eqb (kindOf t) reflect.Interface = false.
Proof.
  destruct t; try discriminate; simpl; auto.
Qed.

Lemma mapped_primitive (t : gotype) (d : godata) (k : valueKind) :
  primitiveKind (idyn t d) = Some k -> mapped t d.
Proof.
  intros H. exists (RpcValue (idyn t d) k).
  pose proof (primitiveKind_leaf _ _ H) as Hk.
  destruct (primitive_not_interface _ _ _ H) as [Hi Hki].
  split; [now apply makeValue_primitive|].
  rewrite writeTo_leaf, writeTo_leaf_ptr by assumption.
  now rewrite setValue_same.
Qed.

(** An element or field of a slot of type [et]: what [makeValue] makes of
    it is written back to a zero slot of that type. *)
Definition slotMapped (et : gotype) (item : godata) : Prop :=
  exists r, ofInterface makeValue_dyn et item = Ok r /\
            writeTo r (ToValue et (zero et) true) = Ok (None, item).

Lemma slotOK_mapped (et : gotype) (item : godata) :
  (forall t, projectable t item = true -> mapped t item) ->
  slotOK projectable et item = true -> slotMapped et item.
Proof.
  intros IH H.
  assert (Hother : projectable et item = true ->
                   ofInterface makeValue_dyn et item = makeValue_dyn et item ->
                   slotMapped et item).
  { intros Hp Heq. destruct (IH et Hp) as [r [Hm [Hv _]]].
    exists r. split; [now rewrite Heq | assumption]. }
  destruct et; try (apply Hother; [exact H | reflexivity]).
  (* a slot of interface type *)
  destruct item; try discriminate. destruct v as [|t' d'].
  - exists zeroValue. split; reflexivity.
  - simpl in H. unfold holdsPrimitive in H.
    destruct (primitiveKind (idyn t' d')) as [k|] eqn:Hk; [|discriminate].
    exists (RpcValue (idyn t' d') k). split.
    + simpl. now apply makeValue_primitive.
    + rewrite writeTo_leaf by (eapply primitiveKind_leaf; eassumption).
      now rewrite setValue_interface.
Qed.

Lemma items_mapped (et : gotype) (items : list godata) :
  Forall (fun d => forall t, projectable t d = true -> mapped t d) items ->
  forallb (slotOK projectable et) items = true ->
  exists array, mapM (ofInterface makeValue_dyn et) items = Ok array /\
                writeItems writeTo et array = Ok (None, items).
Proof.
  induction 1 as [|item items Hitem _ IH]; simpl; intros H.
  - exists []. split; reflexivity.
  - apply andb_prop in H as [H1 H2].
    destruct (slotOK_mapped et item Hitem H1) as [r [Hm Hw]].
    destruct (IH H2) as [array [Hms Hws]].
    exists (r :: array). rewrite Hm, Hms. split; [reflexivity|].
    cbn [writeItems]. rewrite Hw. cbn [obind].
    rewrite Hws. reflexivity.
Qed.

Lemma fields_mapped (ds : list godata) :
  Forall (fun d => forall t, projectable t d = true -> mapped t d) ds ->
  forall fs, fieldsOK projectable ds fs = true ->
  exists members, makeFields (ofInterface makeValue_dyn) ds fs = Ok members /\
                  fieldsWritten writeTo fs ds members /\
                  length members = length fs.
Proof.
  induction 1 as [|fd ds Hfd _ IH]; intros fs H.
  - destruct fs; [|discriminate]. exists []. repeat split. constructor.
  - destruct fs as [|f fs]; [discriminate|]. cbn [fieldsOK] in H.
    apply andb_prop in H as [H H3]. apply andb_prop in H as [H1 H2].
    destruct (slotOK_mapped _ fd Hfd H2) as [r [Hm Hw]].
    destruct (IH fs H3) as [members [Hms [Hfw Hlen]]].
    exists (RpcEntry (wireName f) r :: members).
    destruct f as [name tag ty]. cbn [makeFields].
    simpl in H1, Hm, Hw. rewrite H1, Hm. cbn [obind].
    rewrite Hms. cbn [obind]. repeat split.
    + constructor; assumption.
    + simpl. now rewrite Hlen.
Qed.

(** *** Every projectable native value is given back *)

Lemma projectable_mapped :
  forall d t, projectable t d = true -> mapped t d.
Proof.
  induction d as [items IH | ds IH | d Hleaf] using godata_induction; intros t H.
  - (* a slice *)
    destruct (primitiveKind (idyn t (DSeq items))) as [k|] eqn:Hk;
      [eapply mapped_primitive; eassumption|].
    cbn [projectable] in H. rewrite Hk in H.
    destruct t as [| | | | | | | | | | | | | | | | | | |et| | | | | | | |];
      try discriminate.
    destruct (items_mapped et items IH H) as [array [Hm Hw]].
    exists (RpcValue (idyn TRpcValues (DValues array)) arrayKind).
    assert (Hmake : makeValue_dyn (TSlice et) (DSeq items) =
                    Ok (RpcValue (idyn TRpcValues (DValues array)) arrayKind)).
    { cbn [makeValue_dyn]. rewrite Hk. cbn [kindOf]. cbv iota. rewrite Hm.
      reflexivity. }
    split; [exact Hmake|].
    destruct array as [|r array].
    + apply mapM_length in Hm. destruct items; [|discriminate].
      split; reflexivity.
    + assert (Hv : writeTo (RpcValue (idyn TRpcValues (DValues (r :: array))) arrayKind)
                     (ToValue (TSlice et) (DSeq []) true) = Ok (None, DSeq items)).
      { cbn [writeTo isEmpty kind value length Nat.eqb obind].
        cbn [gotype_eqb kindOf reflect.eqb negb].
        change (reflect.eqb reflect.Struct reflect.Interface) with false.
        cbv iota. rewrite Hw. cbn [obind app].
        now rewrite setValue_same. }
      split; [exact Hv|].
      cbn [writeTo isEmpty kind value length Nat.eqb obind].
      cbn [gotype_eqb kindOf reflect.eqb negb].
      cbv iota. rewrite Hw. cbn [obind app zero].
      now rewrite setValue_same.
  - (* a struct *)
    destruct (primitiveKind (idyn t (DStruct ds))) as [k|] eqn:Hk;
      [eapply mapped_primitive; eassumption|].
    cbn [projectable] in H. rewrite Hk in H.
    destruct t as [| | | | | | | | | | | | | | | | | | | | |name fs| | | | | |];
      try discriminate.
    apply andb_prop in H as [H H3]. apply andb_prop in H as [H1 H2].
    destruct (fields_mapped ds IH fs H3) as [members [Hm [Hfw Hlen]]].
    exists (RpcValue (idyn TRpcEntries (DEntries members)) structKind).
    assert (Hmake : makeValue_dyn (TStruct name fs) (DStruct ds) =
                    Ok (RpcValue (idyn TRpcEntries (DEntries members)) structKind)).
    { cbn [makeValue_dyn]. rewrite Hk. cbn [kindOf fieldsOf]. cbv iota.
      destruct fs as [|f fs].
      - destruct members; [reflexivity | discriminate].
      - rewrite Hm. reflexivity. }
    split; [exact Hmake|].
    pose proof (writeMembers_fields writeTo fs H1 H2 fs ds members Hfw [] []
                  eq_refl eq_refl) as Hw.
    simpl in Hw.
    destruct members as [|m members].
    + destruct fs; [|discriminate]. inversion Hfw; subst. split; reflexivity.
    + rewrite zero_struct.
      assert (Hv : forall v, v = ToValue (TStruct name fs)
                                   (DStruct (map (fun f => zero (fieldType f)) fs)) true \/
                             v = ToPtr (TStruct name fs)
                                   (DStruct (map (fun f => zero (fieldType f)) fs)) ->
                writeTo (RpcValue (idyn TRpcEntries (DEntries (m :: members))) structKind) v =
                Ok (None, DStruct ds)).
      { intros v [-> | ->];
          cbn [writeTo isEmpty kind value length Nat.eqb obind];
          cbn [gotype_eqb kindOf reflect.eqb negb fieldsOf fieldData];
          cbv iota; rewrite Hw; cbn [obind];
          now rewrite setValue_same. }
      split; apply Hv; auto.
  - (* any other data is of a type of the type switch *)
    destruct (primitiveKind (idyn t d)) as [k|] eqn:Hk;
      [eapply mapped_primitive; eassumption|].
    destruct d; try contradiction; cbn [projectable] in H; rewrite Hk in H;
      destruct t; discriminate.
Qed.
(** ** What the decoder makes of what the writer emits *)

(** [lexes b toks]: the bytes [b], wherever they stand between elements,
    are the tokens [toks]. *)
Definition lexes (b : string) (toks : list Token) : Prop :=
  forall rest,
    lex (InText []) (chars b ++ rest) = option_map (app toks) (lex (InText []) rest).

Lemma lexes_nil : lexes "" [].
Proof. intros rest. simpl. now destruct (lex (InText []) rest). Qed.

Lemma lexes_app (a b : string) (ta tb : list Token) :
  lexes a ta -> lexes b tb -> lexes (a ++ b) (ta ++ tb).
Proof.
  intros Ha Hb rest. rewrite chars_app, <- List.app_assoc, Ha, Hb.
  destruct (lex (InText []) rest); simpl; [|reflexivity].
  now rewrite List.app_assoc.
Qed.

Lemma lexes_ext (b b' : string) (toks toks' : list Token) :
  b = b' -> toks = toks' -> lexes b toks -> lexes b' toks'.
Proof. now intros -> ->. Qed.

Lemma lex_startTag (t : xmlTag) (acc : list ascii) (rest : list ascii) :
  lex (InText acc) (chars (startTags t) ++ rest) =
  option_map (fun toks => flushText acc (StartElement (tagNames t) :: toks))
    (lex (InText []) rest).
Proof.
  destruct t; simpl; destruct (lex (InText []) rest); reflexivity.
Qed.

Lemma lex_endTag (t : xmlTag) (acc : list ascii) (rest : list ascii) :
  lex (InText acc) (chars (endTags t) ++ rest) =
  option_map (fun toks => flushText acc (EndElement (tagNames t) :: toks))
    (lex (InText []) rest).
Proof.
  destruct t; simpl; destruct (lex (InText []) rest); reflexivity.
Qed.

Lemma lexes_startTag (t : xmlTag) : lexes (startTags t) [StartElement (tagNames t)].
Proof. intros rest. rewrite lex_startTag. reflexivity. Qed.

Lemma lexes_endTag (t : xmlTag) : lexes (endTags t) [EndElement (tagNames t)].
Proof. intros rest. rewrite lex_endTag. reflexivity. Qed.

(** Text that stands for itself. *)
Lemma isTextChar_lex (c : ascii) (acc rest : list ascii) :
  isTextChar c = true -> lex (InText acc) (c :: rest) = lex (InText (c :: acc)) rest.
Proof.
  intros H. simpl.
  destruct (Ascii.eqb_spec c "<") as [->|_]; [discriminate|].
  destruct (Ascii.eqb_spec c "&") as [->|_]; [discriminate|].
  now rewrite H.
Qed.

Lemma lex_text (l acc rest : list ascii) :
  forallb isTextChar l = true ->
  lex (InText acc) (l ++ rest) = lex (InText (rev l ++ acc)) rest.
Proof.
  revert acc. induction l as [|c l IH]; intros acc H; [reflexivity|].
  simpl in H. apply andb_prop in H as [Hc Hl].
  change ((c :: l) ++ rest)%list with (c :: (l ++ rest))%list.
  rewrite isTextChar_lex by assumption. rewrite IH by assumption.
  simpl. now rewrite <- List.app_assoc.
Qed.

(** The characters of the strings that are read back: printable ASCII, tab
    and line feed. *)
Definition isPlain (c : ascii) : bool :=
  let n := code c in
  (((32 <=? n) && (n <=? 126)) || (n =? 9) || (n =? 10))%N.

Lemma escapeChar_lex (c : ascii) (acc rest : list ascii) :
  isPlain c = true ->
  lex (InText acc) (chars (escapeChar c) ++ rest) = lex (InText (c :: acc)) rest.
Proof.
  destruct c as [[] [] [] [] [] [] [] []]; intros H; try discriminate H; reflexivity.
Qed.

Lemma EscapeText_lex (s : string) (acc rest : list ascii) :
  forallb isPlain (chars s) = true ->
  lex (InText acc) (chars (EscapeText s) ++ rest) =
  lex (InText (rev (chars s) ++ acc)) rest.
Proof.
  unfold EscapeText. revert acc.
  induction (chars s) as [|c l IH]; intros acc H; [reflexivity|].
  simpl in H. apply andb_prop in H as [Hc Hl].
  cbn [fold_right]. rewrite chars_app, <- List.app_assoc.
  rewrite escapeChar_lex by assumption. rewrite IH by assumption.
  simpl. now rewrite <- List.app_assoc.
Qed.

Lemma plain_unmarked_text (l : list ascii) :
  forallb isPlain l = true ->
  forallb (fun c => negb (memchr c (chars markup))) l = true ->
  forallb isTextChar l = true.
Proof.
  induction l as [|c l IH]; simpl; [reflexivity|]. intros H1 H2.
  apply andb_prop in H1 as [Hc Hl]. apply andb_prop in H2 as [Hm Hl2].
  rewrite IH by assumption. rewrite andb_true_r. clear IH Hl Hl2.
  destruct c as [[] [] [] [] [] [] [] []]; try discriminate Hc; try discriminate Hm;
    reflexivity.
Qed.

(** The character data token of a text: none for the empty text. *)
Definition textTokens (s : string) : list Token :=
  match s with
  | EmptyString => []
  | _ => [CharData s]
  end.

(** An element with text: a start tag, the text, an end tag. *)
Definition element (tag text : string) : list Token :=
  StartElement tag :: (textTokens text ++ [EndElement tag])%list.

Lemma flushText_rev (s : string) (toks : list Token) :
  flushText (rev (chars s) ++ []) toks = (textTokens s ++ toks)%list.
Proof.
  rewrite List.app_nil_r. destruct s as [|c s]; [reflexivity|].
  unfold flushText. rewrite rev_involutive, str_chars.
  destruct (rev (chars (String c s))) eqn:E; [|reflexivity].
  apply (f_equal (@rev ascii)) in E. rewrite rev_involutive in E. discriminate.
Qed.

(** An element whose source [src] between the tags is read as the text
    [text]. *)
Lemma lexes_element (t : xmlTag) (src text : string) :
  (forall acc rest,
      lex (InText acc) (chars src ++ rest) = lex (InText (rev (chars text) ++ acc)) rest) ->
  lexes (startTags t ++ src ++ endTags t) (element (tagNames t) text).
Proof.
  intros H rest. rewrite !chars_app, <- !List.app_assoc.
  rewrite lex_startTag, H, lex_endTag.
  destruct (lex (InText []) rest) as [toks|]; [|reflexivity].
  cbn [option_map flushText]. rewrite flushText_rev.
  unfold element. cbn [app]. now rewrite <- List.app_assoc.
Qed.

Lemma lexes_raw (t : xmlTag) (s : string) :
  forallb isTextChar (chars s) = true ->
  lexes (startTags t ++ s ++ endTags t) (element (tagNames t) s).
Proof.
  intros H. apply lexes_element. intros acc rest. now apply lex_text.
Qed.

Lemma lexes_wrap (t : xmlTag) (b : string) (toks : list Token) :
  lexes b toks ->
  lexes (startTags t ++ b ++ endTags t)
    (StartElement (tagNames t) :: toks ++ [EndElement (tagNames t)]).
Proof.
  intros H.
  apply (lexes_app _ _ [_] _ (lexes_startTag t)).
  apply lexes_app; [assumption | apply lexes_endTag].
Qed.
(** ** Texts that are read back *)

Lemma digit_text (c : ascii) : isDigit c = true -> isTextChar c = true.
Proof.
  destruct c as [[] [] [] [] [] [] [] []]; intros H; try discriminate H; reflexivity.
Qed.

Lemma digits_text (l : list ascii) :
  forallb isDigit l = true -> forallb isTextChar l = true.
Proof.
  induction l as [|c l IH]; simpl; [reflexivity|]. intros H.
  apply andb_prop in H as [Hc Hl]. now rewrite digit_text, IH.
Qed.

Lemma to_uint_not_nil (n : N) : N.to_uint n <> Decimal.Nil.
Proof.
  destruct n as [|p]; [discriminate|]. simpl.
  apply DecimalPos.Unsigned.to_uint_nonnil.
Qed.

Lemma FormatUint_empty (n : N) : FormatUint n = NilEmpty.string_of_uint (N.to_uint n).
Proof.
  unfold FormatUint. pose proof (to_uint_not_nil n) as H.
  destruct (N.to_uint n); [contradiction | reflexivity ..].
Qed.

Lemma ParseUint_FormatUint (n : N) : ParseUint (FormatUint n) = Some n.
Proof.
  unfold ParseUint. pose proof (FormatUint_nonempty n) as Hne.
  destruct (FormatUint n) eqn:E; [contradiction|]. rewrite <- E.
  rewrite FormatUint_empty, NilEmpty.usu. simpl.
  now rewrite DecimalN.Unsigned.of_to.
Qed.

Lemma FormatUint_head (n : N) :
  exists c r, FormatUint n = String c r /\ isDigit c = true.
Proof.
  pose proof (FormatUint_nonempty n) as Hne.
  pose proof (FormatUint_digits n) as Hd. unfold allDigits in Hd.
  destruct (FormatUint n) as [|c r]; [contradiction|].
  simpl in Hd. apply andb_prop in Hd as [Hc _]. eauto.
Qed.

(** [strconv.Atoi] reads back what [strconv.Itoa] writes of an [int]. *)
Lemma Atoi_Itoa (n : Z) :
  minInt <= n <= maxInt -> Atoi (Itoa n) = (n, true).
Proof.
  intros Hn. unfold Itoa. destruct (Z.ltb_spec n 0) as [Hneg|Hpos].
  - unfold Atoi. cbn [append]. rewrite ParseUint_FormatUint.
    rewrite N2Z.inj_abs_N, Z.abs_neq, Z.opp_involutive by lia.
    destruct (Z.ltb_spec n minInt); [lia|].
    destruct (Z.ltb_spec maxInt n); [lia|]. reflexivity.
  - destruct (FormatUint_head (Z.abs_N n)) as [c [r [E Hc]]].
    assert (HA : Atoi (FormatUint (Z.abs_N n)) =
                 match ParseUint (FormatUint (Z.abs_N n)) with
                 | None => (0, false)
                 | Some m =>
                     let z := Z.of_N m in
                     if z <? minInt then (minInt, false)
                     else if maxInt <? z then (maxInt, false)
                     else (z, true)
                 end).
    { unfold Atoi. rewrite E.
      destruct c as [[] [] [] [] [] [] [] []]; try discriminate Hc; reflexivity. }
    rewrite HA, ParseUint_FormatUint. cbv zeta.
    rewrite N2Z.inj_abs_N, Z.abs_eq by lia.
    destruct (Z.ltb_spec n minInt); [lia|].
    destruct (Z.ltb_spec maxInt n); [lia|]. reflexivity.
Qed.

Lemma Itoa_text (n : Z) : forallb isTextChar (chars (Itoa n)) = true.
Proof.
  unfold Itoa. pose proof (FormatUint_digits (Z.abs_N n)) as H.
  unfold allDigits in H. apply digits_text in H.
  destruct (n <? 0); [|assumption]. simpl. exact H.
Qed.

Lemma Itoa_nonempty (n : Z) : Itoa n <> "".
Proof.
  unfold Itoa. destruct (n <? 0); [discriminate | apply FormatUint_nonempty].
Qed.
(** ** Base64: decoding what was encoded *)

Definition isByte (n : Z) : bool := (0 <=? n) && (n <? 256).

Lemma byte_high (a k : Z) : isByte a = true -> 8 <= k -> Z.testbit a k = false.
Proof.
  unfold isByte. intros H Hk. apply andb_prop in H as [H0 H1].
  apply Z.leb_le in H0. apply Z.ltb_lt in H1.
  destruct (Z.eq_dec a 0) as [->|Hnz]; [apply Z.testbit_0_l|].
  apply Z.bits_above_log2; [lia|].
  assert (Z.log2 a < 8); [|lia].
  apply Z.log2_lt_pow2; lia.
Qed.

(** One bit of an expression made of bytes, shifts and masks, at a known
    position: the bit is pushed to the bytes, the positions are computed,
    and what is known of the masks and of the bytes is used. *)
Ltac bit_step :=
  match goal with
  | |- context [Z.testbit ?x ?e] =>
      lazymatch e with
      | Z0 => fail
      | Zpos ?p => is_var p
      | Zneg ?p => is_var p
      | _ =>
          let k := eval vm_compute in e in
          progress change (Z.testbit x e) with (Z.testbit x k)
      end
  | |- context [Z.testbit ?x (Zneg ?p)] =>
      rewrite (Z.testbit_neg_r x (Zneg p)) by reflexivity
  | |- context [Z.testbit (Z.lor ?x ?y) ?m] => rewrite (Z.lor_spec x y m)
  | |- context [Z.testbit (Z.land ?x ?y) ?m] => rewrite (Z.land_spec x y m)
  | |- context [Z.testbit (Z.shiftr ?x ?n) ?m] =>
      rewrite (Z.shiftr_spec x n m) by (vm_compute; discriminate)
  | |- context [Z.testbit (Z.shiftl ?x ?n) ?m] =>
      rewrite (Z.shiftl_spec x n m) by (vm_compute; discriminate)
  | |- context [Z.testbit 63 ?k] =>
      let b := eval vm_compute in (Z.testbit 63 k) in
      change (Z.testbit 63 k) with b
  | |- context [Z.testbit 255 ?k] =>
      let b := eval vm_compute in (Z.testbit 255 k) in
      change (Z.testbit 255 k) with b
  | H : isByte ?x = true |- context [Z.testbit ?x ?k] =>
      rewrite (byte_high x k H) by (vm_compute; discriminate)
  end.

Ltac bool_simpl :=
  repeat rewrite ?andb_false_r, ?andb_true_r, ?orb_false_r, ?orb_false_l,
    ?andb_false_l, ?andb_true_l.

Ltac bit_here :=
  match goal with H : ?i = _ |- _ => subst i end;
  repeat bit_step; bool_simpl; try reflexivity.

Lemma bits_of_byte (x a : Z) :
  isByte a = true ->
  (forall i, 0 <= i < 8 -> Z.testbit x i = Z.testbit a i) ->
  Z.land x 255 = a.
Proof.
  intros Ha H. apply Z.bits_inj'. intros i Hi. rewrite Z.land_spec.
  destruct (Z.lt_ge_cases i 8) as [Hlt|Hge].
  - rewrite H by lia. change 255 with (Z.ones 8).
    rewrite Z.ones_spec_low by lia. apply andb_true_r.
  - rewrite (byte_high a i Ha Hge). change 255 with (Z.ones 8).
    rewrite Z.ones_spec_high by lia. apply andb_false_r.
Qed.

Lemma below8 (i : Z) :
  0 <= i < 8 -> i = 0 \/ i = 1 \/ i = 2 \/ i = 3 \/ i = 4 \/ i = 5 \/ i = 6 \/ i = 7.
Proof. lia. Qed.

Ltac each_bit :=
  apply bits_of_byte; [assumption|];
  let i := fresh "i" in let Hi := fresh "Hi" in
  intros i Hi; apply below8 in Hi;
  repeat (destruct Hi as [Hi|Hi]; [bit_here|]); bit_here.

Lemma quantum1 (a : Z) :
  isByte a = true ->
  let v := Z.shiftl a 16 in
  let val2 := Z.lor (Z.shiftl (Z.land (Z.shiftr v 18) 63) 18)
                    (Z.shiftl (Z.land (Z.shiftr v 12) 63) 12) in
  Z.land (Z.shiftr val2 16) 255 = a.
Proof.
  intros Ha v val2. subst v val2. each_bit.
Qed.
Lemma quantum2 (a b : Z) :
  isByte a = true -> isByte b = true ->
  let v := Z.lor (Z.shiftl a 16) (Z.shiftl b 8) in
  let val3 := Z.lor (Z.lor (Z.shiftl (Z.land (Z.shiftr v 18) 63) 18)
                           (Z.shiftl (Z.land (Z.shiftr v 12) 63) 12))
                    (Z.shiftl (Z.land (Z.shiftr v 6) 63) 6) in
  Z.land (Z.shiftr val3 16) 255 = a /\ Z.land (Z.shiftr val3 8) 255 = b.
Proof.
  intros Ha Hb v val3. subst v val3. split; each_bit.
Qed.

Lemma quantum3 (a b c : Z) :
  isByte a = true -> isByte b = true -> isByte c = true ->
  let v := Z.lor (Z.lor (Z.shiftl a 16) (Z.shiftl b 8)) c in
  let val := Z.lor (Z.lor (Z.lor (Z.shiftl (Z.land (Z.shiftr v 18) 63) 18)
                                 (Z.shiftl (Z.land (Z.shiftr v 12) 63) 12))
                          (Z.shiftl (Z.land (Z.shiftr v 6) 63) 6))
                   (Z.land v 63) in
  Z.land (Z.shiftr val 16) 255 = a /\ Z.land (Z.shiftr val 8) 255 = b /\
  Z.land val 255 = c.
Proof.
  intros Ha Hb Hc v val. subst v val. split; [|split]; each_bit.
Qed.

Lemma sextet_range (x : Z) : 0 <= Z.land x 63 < 64.
Proof.
  change 63 with (Z.ones 6). rewrite Z.land_ones by lia.
  apply Z.mod_pos_bound. reflexivity.
Qed.

Lemma sextet_nth (k : nat) :
  (k < 64)%nat ->
  sextet (nth k encodeStd padChar) = Some (Z.of_nat k) /\
  Ascii.eqb (nth k encodeStd padChar) padChar = false /\
  isTextChar (nth k encodeStd padChar) = true /\
  isNewline (nth k encodeStd padChar) = false.
Proof.
  intros H.
  do 64 (destruct k as [|k]; [repeat split|]). lia.
Qed.

Lemma sextet_sextetChar (n : Z) :
  0 <= n < 64 ->
  sextet (sextetChar n) = Some n /\ Ascii.eqb (sextetChar n) padChar = false.
Proof.
  intros H. unfold sextetChar.
  destruct (sextet_nth (Z.to_nat n)) as [H1 [H2 _]]; [lia|].
  change "="%char with padChar. rewrite H1, H2, Z2Nat.id by lia. auto.
Qed.

Lemma sextetChar_plain (n : Z) :
  isTextChar (sextetChar n) = true /\ isNewline (sextetChar n) = false.
Proof.
  unfold sextetChar. change "="%char with padChar.
  destruct (Nat.lt_ge_cases (Z.to_nat n) 64) as [H|H].
  - destruct (sextet_nth _ H) as [_ [_ [H3 H4]]]. auto.
  - rewrite nth_overflow by exact H. split; reflexivity.
Qed.

Lemma EncodeToChars_plain :
  forall (n : nat) (bs : list Z), (length bs <= n)%nat ->
    forallb isTextChar (EncodeToChars bs) = true /\
    forallb (fun c => negb (isNewline c)) (EncodeToChars bs) = true.
Proof.
  induction n as [|n IH]; intros bs Hlen.
  - destruct bs; [split; reflexivity | simpl in Hlen; lia].
  - destruct bs as [|a [|b [|c rest]]]; [split; reflexivity | | |];
      cbn [EncodeToChars forallb];
      repeat match goal with
        | |- context [isTextChar (sextetChar ?x)] =>
            rewrite (proj1 (sextetChar_plain x))
        | |- context [isNewline (sextetChar ?x)] =>
            rewrite (proj2 (sextetChar_plain x))
        end; try (split; reflexivity).
    cbn [negb andb]. apply IH. simpl in Hlen. lia.
Qed.

(** Decoding gives back the bytes that were encoded. *)
Lemma decodeQuanta_EncodeToChars :
  forall (n : nat) (bs : list Z), (length bs <= n)%nat ->
    forallb isByte bs = true ->
    decodeQuanta (EncodeToChars bs) = (bs, None).
Proof.
  induction n as [|n IH]; intros bs Hlen Hb.
  - destruct bs; [reflexivity | simpl in Hlen; lia].
  - destruct bs as [|a [|b [|c rest]]]; [reflexivity | | |].
    + simpl in Hb. rewrite andb_true_r in Hb.
      cbn [EncodeToChars decodeQuanta].
      rewrite !(proj1 (sextet_sextetChar _ (sextet_range _))).
      rewrite Ascii.eqb_refl. now rewrite (quantum1 a Hb).
    + simpl in Hb. rewrite andb_true_r in Hb. apply andb_prop in Hb as [Ha Hb].
      cbn [EncodeToChars decodeQuanta].
      rewrite !(proj1 (sextet_sextetChar _ (sextet_range _))).
      rewrite !(proj2 (sextet_sextetChar _ (sextet_range _))).
      rewrite Ascii.eqb_refl.
      destruct (quantum2 a b Ha Hb) as [E1 E2]. now rewrite E1, E2.
    + cbn [forallb] in Hb. apply andb_prop in Hb as [Ha Hb].
      apply andb_prop in Hb as [Hb Hc]. apply andb_prop in Hc as [Hc Hrest].
      cbn [EncodeToChars decodeQuanta].
      rewrite !(proj1 (sextet_sextetChar _ (sextet_range _))).
      rewrite !(proj2 (sextet_sextetChar _ (sextet_range _))).
      rewrite (IH rest) by (assumption || (simpl in Hlen; lia)).
      destruct (quantum3 a b c Ha Hb Hc) as [E1 [E2 E3]].
      now rewrite E1, E2, E3.
Qed.

Lemma filter_all {A} (p : A -> bool) (l : list A) :
  forallb p l = true -> filter p l = l.
Proof.
  induction l as [|a l IH]; simpl; [reflexivity|]. intros H.
  apply andb_prop in H as [Ha Hl]. now rewrite Ha, IH.
Qed.

Lemma DecodeString_EncodeToString (bs : list Z) :
  forallb isByte bs = true -> DecodeString (EncodeToString bs) = (bs, None).
Proof.
  intros H. unfold DecodeString, EncodeToString. rewrite chars_str.
  rewrite filter_all by apply (EncodeToChars_plain (length bs) bs (le_n _)).
  now apply (decodeQuanta_EncodeToChars (length bs)).
Qed.

Lemma EncodeToString_text (bs : list Z) :
  forallb isTextChar (chars (EncodeToString bs)) = true.
Proof.
  unfold EncodeToString. rewrite chars_str.
  apply (EncodeToChars_plain (length bs) bs (le_n _)).
Qed.
(** ** The reader on a stream of tokens *)

(** The tokens a reader will see: the one it peeked, then those of its
    decoder. *)
Definition stream (r : xmlReader) : list Token :=
  match peek r with
  | Some t => t :: pending (dec r)
  | None => pending (dec r)
  end.

(** The reader that has peeked nothing, before the tokens [l]. *)
Definition before (l : list Token) (fin : error) : xmlReader :=
  mkReader (mkDecoder l fin) None.

(** [r] stands before the tokens [l], of a decoder that ends with [fin]. *)
Definition stands (r : xmlReader) (l : list Token) (fin : error) : Prop :=
  stream r = l /\ final (dec r) = fin.

Definition isTag (t : Token) : bool :=
  match t with
  | StartElement _ | EndElement _ => true
  | _ => false
  end.

Lemma stands_before (l : list Token) (fin : error) : stands (before l fin) l fin.
Proof. split; reflexivity. Qed.

Lemma stands_putToken (t : Token) (l : list Token) (fin : error) :
  stands (putToken (before l fin) (Some t)) (t :: l) fin.
Proof. split; reflexivity. Qed.

Lemma token_stands (r : xmlReader) (t : Token) (l : list Token) (fin : error) :
  stands r (t :: l) fin -> token r = (Some t, None, before l fin).
Proof.
  destruct r as [[p f] [pk|]]; unfold stands, stream, token; simpl;
    intros [H1 H2]; subst.
  - inversion H1; subst. reflexivity.
  - reflexivity.
Qed.

Lemma trim_stands (r : xmlReader) (t : Token) (l : list Token) (fin : error) :
  isTag t = true -> stands r (t :: l) fin -> stands (trim r) (t :: l) fin.
Proof.
  intros Ht. destruct r as [[p f] [pk|]]; unfold stands, stream, trim; simpl;
    intros [H1 H2]; subst.
  - inversion H1; subst. destruct t; try discriminate; split; reflexivity.
  - destruct t; try discriminate; split; reflexivity.
Qed.

Lemma nextStart_start (r : xmlReader) (n : string) (l : list Token) (fin : error) :
  stands r (StartElement n :: l) fin ->
  nextStart r = (Some n, None, before l fin).
Proof.
  intros H. unfold nextStart.
  now rewrite (token_stands _ _ _ _ (trim_stands r (StartElement n) l fin eq_refl H)).
Qed.

Lemma nextStart_end (r : xmlReader) (n : string) (l : list Token) (fin : error) :
  stands r (EndElement n :: l) fin ->
  exists e r', nextStart r = (None, Some e, r') /\ stands r' (EndElement n :: l) fin.
Proof.
  intros H. unfold nextStart.
  rewrite (token_stands _ _ _ _ (trim_stands r (EndElement n) l fin eq_refl H)).
  eexists _, _. split; [reflexivity | apply stands_putToken].
Qed.

Lemma nextEnd_end (r : xmlReader) (n : string) (l : list Token) (fin : error) :
  stands r (EndElement n :: l) fin ->
  nextEnd r = (Some n, None, before l fin).
Proof.
  intros H. unfold nextEnd.
  now rewrite (token_stands _ _ _ _ (trim_stands r (EndElement n) l fin eq_refl H)).
Qed.

Lemma expectStart_start (r : xmlReader) (n : string) (l : list Token) (fin : error) :
  stands r (StartElement n :: l) fin ->
  expectStart n r = (None, before l fin).
Proof.
  intros H. unfold expectStart. rewrite (nextStart_start _ _ _ _ H).
  now rewrite String.eqb_refl.
Qed.

Lemma expectStart_end (name : string) (r : xmlReader) (n : string) (l : list Token)
    (fin : error) :
  stands r (EndElement n :: l) fin ->
  exists e r', expectStart name r = (Some e, r') /\ stands r' (EndElement n :: l) fin.
Proof.
  intros H. unfold expectStart.
  destruct (nextStart_end _ _ _ _ H) as [e [r' [E Hr']]]. rewrite E. eauto.
Qed.

Lemma expectEnd_end (r : xmlReader) (n : string) (l : list Token) (fin : error) :
  stands r (EndElement n :: l) fin ->
  expectEnd n r = (None, before l fin).
Proof.
  intros H. unfold expectEnd. rewrite (nextEnd_end _ _ _ _ H).
  now rewrite String.eqb_refl.
Qed.

Lemma nextText_text (r : xmlReader) (s : string) (l : list Token) (fin : error) :
  stands r (CharData s :: l) fin -> nextText r = (s, None, before l fin).
Proof. intros H. unfold nextText. now rewrite (token_stands _ _ _ _ H). Qed.

Lemma nextText_end (r : xmlReader) (n : string) (l : list Token) (fin : error) :
  stands r (EndElement n :: l) fin ->
  exists e r', nextText r = ("", Some e, r') /\ stands r' (EndElement n :: l) fin.
Proof.
  intros H. unfold nextText. rewrite (token_stands _ _ _ _ H).
  eexists _, _. split; [reflexivity | apply stands_putToken].
Qed.

(** The text of an element, read by [nextText], and its end tag: the text
    is returned whether it is empty or not. *)
Lemma text_then_end (r : xmlReader) (tag text : string) (l : list Token)
    (fin : error) :
  stands r (textTokens text ++ EndElement tag :: l) fin ->
  exists e r', nextText r = (text, e, r') /\ expectEnd tag r' = (None, before l fin).
Proof.
  intros H. destruct text as [|c text].
  - destruct (nextText_end _ _ _ _ H) as [e [r' [E Hr']]].
    exists (Some e), r'. split; [assumption | now apply expectEnd_end].
  - exists None, (before (EndElement tag :: l) fin).
    split; [now apply nextText_text | apply expectEnd_end, stands_before].
Qed.

(** [readPrimitive] on an element with text: what it makes of the tag and
    the text. *)
Definition primitiveOf (rpc : rpcValue) (se s : string) (r : xmlReader)
  : outcome (option error * rpcValue * xmlReader) :=
  if String.eqb se "string" then
    Ok (None, RpcValue (idyn TString (DString s)) stringKind, r)
  else if String.eqb se "boolean" then
    match boolDecodeMap s with
    | None =>
        Ok (invalidRequest "boolean" s,
            RpcValue (idyn TBool (DBool false)) (kind rpc), r)
    | Some b => Ok (None, RpcValue (idyn TBool (DBool b)) booleanKind, r)
    end
  else if String.eqb se "int" || String.eqb se "i4" then
    match Atoi s with
    | (n, false) =>
        Ok (invalidRequest "int" s, RpcValue (idyn TInt (DInt n)) (kind rpc), r)
    | (n, true) => Ok (None, RpcValue (idyn TInt (DInt n)) intKind, r)
    end
  else if String.eqb se "double" then
    '(x, ok) <- ParseFloat s ;;
    if (ok : bool) then
      Ok (None, RpcValue (idyn TFloat64 (DFloat x)) doubleKind, r)
    else
      Ok (invalidRequest "double" s,
          RpcValue (idyn TFloat64 (DFloat x)) (kind rpc), r)
  else if String.eqb se "base64" then
    let '(bs, err) := DecodeString s in
    Ok (err, RpcValue (idyn typeOfBytes (dataOfBytes bs)) base64Kind, r)
  else if String.eqb se "dateTime.iso8601" then
    let '(v, err) := parseDate dateTimeFormats s (value rpc, None) in
    Ok (err, RpcValue v dateTimeKind, r)
  else
    Ok (Some (errorString ("unhandled tag. '" ++ se ++ "'")), rpc, r).

Lemma readPrimitive_element (rpc : rpcValue) (r : xmlReader) (tag text : string)
    (l : list Token) (fin : error) :
  stands r (element tag text ++ l) fin ->
  readPrimitive rpc r = primitiveOf rpc tag text (before l fin).
Proof.
  intros H. unfold readPrimitive. unfold element in H. cbn [app] in H.
  rewrite <- List.app_assoc in H. cbn [app] in H.
  rewrite (nextStart_start _ _ _ _ H).
  destruct (text_then_end (before (textTokens text ++ EndElement tag :: l) fin)
              tag text l fin (stands_before _ _)) as [e [r' [E1 E2]]].
  rewrite E1, E2. reflexivity.
Qed.
(** ** The values that are read back from their bytes *)

Definition spec_float_eqb (x y : spec_float) : bool :=
  match x, y with
  | S754_zero a, S754_zero b => Bool.eqb a b
  | S754_infinity a, S754_infinity b => Bool.eqb a b
  | S754_nan, S754_nan => true
  | S754_finite a m e, S754_finite b n f => Bool.eqb a b && Pos.eqb m n && Z.eqb e f
  | _, _ => false
  end.

Definition Time_eqb (a b : Time) : bool :=
  (year a =? year b) && (month a =? month b) && (day a =? day b) &&
  (hour a =? hour b) && (minute a =? minute b) && (second a =? second b) &&
  (nsec a =? nsec b) && (offset a =? offset b).

Lemma spec_float_eqb_eq (x y : spec_float) : spec_float_eqb x y = true -> x = y.
Proof.
  destruct x, y; simpl; try discriminate; intros H.
  - now apply Bool.eqb_prop in H as ->.
  - now apply Bool.eqb_prop in H as ->.
  - reflexivity.
  - apply andb_prop in H as [H H3]. apply andb_prop in H as [H1 H2].
    apply Bool.eqb_prop in H1 as ->. apply Pos.eqb_eq in H2 as ->.
    now apply Z.eqb_eq in H3 as ->.
Qed.

Lemma Time_eqb_eq (a b : Time) : Time_eqb a b = true -> a = b.
Proof.
  destruct a, b. unfold Time_eqb. simpl. intros H.
  repeat match goal with
    | H : _ && _ = true |- _ => apply andb_prop in H as [H ?]
    end.
  repeat match goal with
    | H : (_ =? _) = true |- _ => apply Z.eqb_eq in H as ->
    end.
  reflexivity.
Qed.

Definition isText (s : string) : bool := forallb isTextChar (chars s).

(** The text written for a double is read back as that double: so it is
    for a double that has no more than six decimals. *)
Definition doubleReadBack (x : spec_float) : bool :=
  let s := formatDouble (Sprintf_f_float x) in
  isText s &&
  match ParseFloat s with
  | Ok (y, true) => spec_float_eqb y x
  | _ => false
  end.

(** The text written for a time is read back as that time: so it is for a
    time of whole seconds in UTC in the years 0 to 9999. *)
Definition dateReadBack (t : Time) : bool :=
  let s := formatIso8601 t in
  isText s &&
  match time_Parse iso8601 s with
  | inl t' => Time_eqb t' t
  | inr _ => false
  end.

Definition isByteData (d : godata) : bool :=
  match d with
  | DInt n => isByte n
  | _ => false
  end.

(** The name of a member that is read back: it is not empty and is
    written as it is. *)
Definition isName (s : string) : bool :=
  negb (isEmptyString s) && isText s.

(** The values that are read back from their bytes. *)
Fixpoint wire (r : rpcValue) : bool :=
  match r with
  | RpcValue inil nilKind => true
  | RpcValue (idyn TBool (DBool _)) booleanKind => true
  | RpcValue (idyn TInt (DInt n)) intKind => (minInt <=? n) && (n <=? maxInt)
  | RpcValue (idyn TFloat64 (DFloat x)) doubleKind => doubleReadBack x
  | RpcValue (idyn TString (DString s)) stringKind => forallb isPlain (chars s)
  | RpcValue (idyn TTime (DTime t)) dateTimeKind => dateReadBack t
  | RpcValue (idyn (TSlice TUint8) (DSeq items)) base64Kind =>
      forallb isByteData items
  | RpcValue (idyn TRpcValues (DValues items)) arrayKind => forallb wire items
  | RpcValue (idyn TRpcEntries (DEntries members)) structKind =>
      forallb (fun m => match m with
                        | RpcEntry n v => isName n && wire v
                        end) members
  | _ => false
  end.

(** The tokens of the bytes of a value. *)
Fixpoint tokensOf (r : rpcValue) : list Token :=
  StartElement "value" ::
  (match r with
   | RpcValue (idyn _ (DBool b)) booleanKind => element "boolean" (boolEncodeMap b)
   | RpcValue (idyn _ (DInt n)) intKind => element "int" (Itoa n)
   | RpcValue (idyn _ (DFloat x)) doubleKind =>
       element "double" (formatDouble (Sprintf_f_float x))
   | RpcValue (idyn _ (DString s)) stringKind => element "string" s
   | RpcValue (idyn _ (DTime t)) dateTimeKind =>
       element "dateTime.iso8601" (formatIso8601 t)
   | RpcValue ((idyn _ (DSeq items)) as val) base64Kind =>
       match bytesOf val with
       | Some bs => element "base64" (EncodeToString bs)
       | None => []
       end
   | RpcValue (idyn _ (DValues items)) arrayKind =>
       StartElement "array" :: StartElement "data" ::
       flat_map tokensOf items ++ [EndElement "data"; EndElement "array"]
   | RpcValue (idyn _ (DEntries members)) structKind =>
       StartElement "struct" ::
       flat_map (fun m => match m with
                          | RpcEntry n v =>
                              StartElement "member" ::
                              element "name" n ++ tokensOf v ++ [EndElement "member"]
                          end) members ++ [EndElement "struct"]
   | _ => []
   end ++ [EndElement "value"])%list.

(** The fuel that reads a value: its depth and the turns of the loops over
    its items and members. *)
Fixpoint weight (r : rpcValue) : nat :=
  match r with
  | RpcValue (idyn _ (DValues items)) arrayKind =>
      2 + fold_right (fun item n => S (weight item + n)) 1%nat items
  | RpcValue (idyn _ (DEntries members)) structKind =>
      2 + fold_right (fun m n => S (weight (entryValue m) + n)) 1%nat members
  | _ => 1
  end.

Definition weightItems (items : list rpcValue) : nat :=
  fold_right (fun item n => S (weight item + n)) 1%nat items.

Definition weightMembers (members : list rpcEntry) : nat :=
  fold_right (fun m n => S (weight (entryValue m) + n)) 1%nat members.

Definition memberTokens (m : rpcEntry) : list Token :=
  match m with
  | RpcEntry n v =>
      StartElement "member" ::
      (element "name" n ++ tokensOf v ++ [EndElement "member"])%list
  end.

Definition wireMember (m : rpcEntry) : bool :=
  match m with
  | RpcEntry n v => isName n && wire v
  end.

(** *** What the writer emits for such a value are its tokens *)

Lemma forEach_lexes {A} (f : A -> writing) (toks : A -> list Token) (l : list A) :
  Forall (fun a => exists b, emits (f a) b /\ lexes b (toks a)) l ->
  exists b, emits (forEach f l) b /\ lexes b (flat_map toks l).
Proof.
  induction 1 as [|a l [b [He Hl]] _ [bs [Hes Hls]]].
  - exists "". split; [apply emits_skip | apply lexes_nil].
  - exists (b ++ bs). split.
    + simpl. now apply emits_andThen.
    + simpl. now apply lexes_app.
Qed.

Lemma value_lexes (fn : writing) (b : string) (toks : list Token) :
  emits fn b -> lexes b toks ->
  exists b', emits (writeXML valueTag fn) b' /\
             lexes b' (StartElement "value" :: toks ++ [EndElement "value"]).
Proof.
  intros He Hl. eexists. split.
  - apply emits_writeXML. eassumption.
  - apply (lexes_wrap valueTag). assumption.
Qed.

Lemma raw_lexes (t : xmlTag) (s : string) :
  isText s = true ->
  exists b, emits (writeRaw t s) b /\ lexes b (element (tagNames t) s).
Proof.
  intros H. eexists. split; [apply emits_writeRaw | now apply lexes_raw].
Qed.

(** The shape of a value that [wire] accepts. *)
Ltac wire_shape H :=
  cbn [wire] in H;
  repeat match type of H with
    | context [match ?x with _ => _ end] =>
        is_var x; destruct x; try discriminate H; cbn [wire] in H
    end.

Lemma writeValue_lexes :
  forall r, wire r = true ->
    exists b, emits (writeValue r) b /\ lexes b (tokensOf r).
Proof.
  induction r as [val k IHitems IHmembers] using rpcValue_induction.
  intros H.
  destruct k.
  - (* nil *)
    wire_shape H.
    apply (value_lexes _ "" []); [apply emits_skip | apply lexes_nil].
  - (* boolean *)
    wire_shape H.
    destruct (raw_lexes booleanTag (boolEncodeMap b)) as [bs [He Hl]];
      [now destruct b|].
    apply (value_lexes _ bs _ He Hl).
  - (* int *)
    wire_shape H.
    destruct (raw_lexes intTag (Itoa n) (Itoa_text n)) as [bs [He Hl]].
    apply (value_lexes _ bs _ He Hl).
  - (* double *)
    wire_shape H.
    unfold doubleReadBack in H. apply andb_prop in H as [Ht _].
    destruct (raw_lexes doubleTag _ Ht) as [bs [He Hl]].
    apply (value_lexes _ bs _ He Hl).
  - (* dateTime *)
    wire_shape H.
    unfold dateReadBack in H. apply andb_prop in H as [Ht _].
    destruct (raw_lexes dateTimeTag _ Ht) as [bs [He Hl]].
    apply (value_lexes _ bs _ He Hl).
  - (* base64 *)
    wire_shape H.
    destruct (raw_lexes base64Tag
                (EncodeToString (map (fun d => match d with DInt n => n | _ => 0 end) items))
                (EncodeToString_text _)) as [bs [He Hl]].
    apply (value_lexes _ bs _ He Hl).
  - (* string *)
    wire_shape H.
    cbn [writeValue tokensOf].
    destruct (noneOf markup s) eqn:Hm.
    + destruct (raw_lexes stringTag s) as [bs [He Hl]];
        [now apply plain_unmarked_text|].
      apply (value_lexes _ bs _ He Hl).
    + eapply value_lexes.
      * apply emits_writeXML. apply emits_WriteString.
      * apply (lexes_element stringTag). intros acc rest.
        now apply EscapeText_lex.
  - (* array *)
    wire_shape H. simpl in IHitems.
    assert (Hall : Forall (fun a => exists b, emits (writeValue a) b /\
                                              lexes b (tokensOf a)) array).
    { clear IHmembers. induction IHitems as [|a l Ha _ IH]; constructor.
      - apply Ha. simpl in H. now apply andb_prop in H as [H _].
      - apply IH. simpl in H. now apply andb_prop in H as [_ H]. }
    destruct (forEach_lexes writeValue tokensOf array Hall) as [bs [He Hl]].
    cbn [writeValue tokensOf].
    eapply value_lexes.
    + apply emits_writeXML. apply emits_writeXML. exact He.
    + pose proof (lexes_wrap arrayTag _ _ (lexes_wrap dataTag _ _ Hl)) as Hw.
      cbn [tagNames app] in Hw. rewrite <- List.app_assoc in Hw. exact Hw.
  - (* struct *)
    wire_shape H. simpl in IHmembers.
    set (f := fun m : rpcEntry =>
                match m with
                | RpcEntry name mv =>
                    writeXML memberTag (andThen (writeRaw nameTag name) (writeValue mv))
                end).
    assert (Hall : Forall (fun a => exists b, emits (f a) b /\
                                              lexes b (memberTokens a)) members).
    { clear IHitems. induction IHmembers as [|[n v] l Ha _ IH]; constructor.
      - simpl in H. apply andb_prop in H as [H _]. apply andb_prop in H as [Hn Hv].
        unfold isName in Hn. apply andb_prop in Hn as [_ Hn].
        destruct (Ha Hv) as [bv [Hev Hlv]].
        destruct (raw_lexes nameTag n Hn) as [bn [Hen Hln]].
        eexists. split.
        + unfold f. apply emits_writeXML. apply emits_andThen; eassumption.
        + pose proof (lexes_wrap memberTag _ _ (lexes_app _ _ _ _ Hln Hlv)) as Hw.
          cbn [tagNames app] in Hw. rewrite <- List.app_assoc in Hw. exact Hw.
      - apply IH. simpl in H. now apply andb_prop in H as [_ H]. }
    destruct (forEach_lexes f memberTokens members Hall) as [bs [He Hl]].
    cbn [writeValue tokensOf].
    eapply value_lexes.
    + apply emits_writeXML. exact He.
    + apply (lexes_wrap structTag), Hl.
Qed.
(** *** The reader on the tokens of a value *)

Lemma tokensOf_head (r : rpcValue) :
  exists tl, tokensOf r = StartElement "value" :: tl.
Proof. destruct r as [val k]. eexists. reflexivity. Qed.

(** The first steps of [readValue] on a typed value. *)
Lemma readValue_typed (fuel : nat) (rpc : rpcValue) (r : xmlReader) (se : string)
    (l : list Token) (fin : error) :
  valueTagSet se = true ->
  stands r (StartElement "value" :: StartElement se :: l) fin ->
  readValue (S fuel) rpc r =
    let r := putToken (before l fin) (Some (StartElement se)) in
    '(err, rpc, r) <-
      (if String.eqb se "array" then readArray fuel rpc r
       else if String.eqb se "struct" then readStruct fuel rpc r
       else readPrimitive rpc r) ;;
    match err with
    | Some e => Ok (Some e, rpc, r)
    | None => let '(err, r) := expectEnd "value" r in Ok (err, rpc, r)
    end.
Proof.
  intros Hse H. cbn [readValue].
  rewrite (expectStart_start _ _ _ _ H).
  rewrite (nextStart_start _ _ _ _ (stands_before _ fin)).
  rewrite Hse. reflexivity.
Qed.

Lemma readValue_leaf (fuel : nat) (rpc : rpcValue) (r : xmlReader)
    (tag text : string) (rest : list Token) (fin : error) :
  valueTagSet tag = true ->
  String.eqb tag "array" = false -> String.eqb tag "struct" = false ->
  stands r (StartElement "value" :: element tag text ++ EndElement "value" :: rest) fin ->
  readValue (S fuel) rpc r =
    '(err, rpc, r) <- primitiveOf rpc tag text (before (EndElement "value" :: rest) fin) ;;
    match err with
    | Some e => Ok (Some e, rpc, r)
    | None => let '(err, r) := expectEnd "value" r in Ok (err, rpc, r)
    end.
Proof.
  intros Hse Ha Hs H.
  rewrite (readValue_typed fuel rpc r tag _ fin Hse H).
  cbv zeta. rewrite Ha, Hs.
  rewrite (readPrimitive_element rpc _ tag text (EndElement "value" :: rest) fin);
    [reflexivity|].
  apply (stands_putToken (StartElement tag)).
Qed.

Lemma expectEnd_before (n : string) (l : list Token) (fin : error) :
  expectEnd n (before (EndElement n :: l) fin) = (None, before l fin).
Proof. apply expectEnd_end, stands_before. Qed.

Definition readsBack (r : rpcValue) : Prop :=
  forall fuel rd rest fin,
    (weight r <= fuel)%nat ->
    stands rd (tokensOf r ++ rest) fin ->
    readValue fuel zeroValue rd = Ok (None, r, before rest fin).

Lemma readArrayItems_back (items : list rpcValue) :
  Forall readsBack items ->
  forall fuel acc rd n l fin,
    (weightItems items <= fuel)%nat ->
    stands rd (flat_map tokensOf items ++ EndElement n :: l) fin ->
    exists r', readArrayItems fuel acc rd = Ok (None, (acc ++ items)%list, r') /\
               stands r' (EndElement n :: l) fin.
Proof.
  induction 1 as [|item items Hitem _ IH]; intros fuel acc rd n l fin Hfuel H.
  - destruct fuel as [|fuel]; [simpl in Hfuel; lia|].
    cbn [readArrayItems]. simpl in H.
    destruct (nextStart_end _ _ _ _ H) as [e [r' [E Hr']]]. rewrite E.
    exists r'. rewrite List.app_nil_r. auto.
  - destruct fuel as [|fuel]; [simpl in Hfuel; lia|].
    unfold weightItems in Hfuel. cbn [fold_right] in Hfuel.
    fold (weightItems items) in Hfuel.
    cbn [readArrayItems]. cbn [flat_map] in H. rewrite <- List.app_assoc in H.
    destruct (tokensOf_head item) as [tl E]. rewrite E in H. cbn [app] in H.
    rewrite (nextStart_start _ _ _ _ H). cbn [String.eqb Ascii.eqb Bool.eqb negb].
    rewrite (Hitem fuel _ (flat_map tokensOf items ++ EndElement n :: l)%list fin);
      [| lia | rewrite E; apply (stands_putToken (StartElement "value"))].
    cbn [obind].
    destruct (IH fuel (acc ++ [item])%list
                (before (flat_map tokensOf items ++ EndElement n :: l) fin) n l fin)
      as [r' [E' Hr']]; [lia | apply stands_before |].
    exists r'. rewrite E'. rewrite <- List.app_assoc. auto.
Qed.

Lemma readMembers_back (members : list rpcEntry) :
  Forall (fun m => readsBack (entryValue m)) members ->
  forallb (fun m => isName (entryName m)) members = true ->
  forall fuel acc rd n l fin,
    (weightMembers members <= fuel)%nat ->
    stands rd (flat_map memberTokens members ++ EndElement n :: l) fin ->
    exists r', readMembers fuel acc rd = Ok (None, (acc ++ members)%list, r') /\
               stands r' (EndElement n :: l) fin.
Proof.
  induction 1 as [|[name v] members Hv _ IH]; intros Hnames fuel acc rd n l fin Hfuel H.
  - destruct fuel as [|fuel]; [simpl in Hfuel; lia|].
    cbn [readMembers]. simpl in H.
    destruct (expectStart_end "member" _ _ _ _ H) as [e [r' [E Hr']]]. rewrite E.
    exists r'. rewrite List.app_nil_r. auto.
  - destruct fuel as [|fuel]; [simpl in Hfuel; lia|].
    unfold weightMembers in Hfuel. cbn [fold_right entryValue] in Hfuel.
    fold (weightMembers members) in Hfuel.
    cbn [forallb entryName] in Hnames. apply andb_prop in Hnames as [Hname Hnames].
    unfold isName in Hname. apply andb_prop in Hname as [Hne _].
    destruct name as [|c name]; [discriminate|].
    cbn [readMembers]. cbn [flat_map memberTokens] in H.
    unfold element in H. cbn [textTokens app] in H.
    rewrite <- !List.app_assoc in H. cbn [app] in H.
    rewrite (expectStart_start _ _ _ _ H).
    rewrite (expectStart_start _ _ _ _ (stands_before _ fin)).
    rewrite (nextText_text _ _ _ _ (stands_before _ fin)).
    rewrite expectEnd_before.
    cbn [entryValue] in Hv.
    rewrite (Hv fuel _ (EndElement "member" ::
                        flat_map memberTokens members ++ EndElement n :: l)%list fin);
      [| lia | apply stands_before].
    cbn [obind]. rewrite expectEnd_before.
    destruct (IH Hnames fuel (acc ++ [RpcEntry (String c name) v])%list
                (before (flat_map memberTokens members ++ EndElement n :: l) fin) n l fin)
      as [r' [E' Hr']]; [lia | apply stands_before |].
    exists r'. rewrite E'. rewrite <- List.app_assoc. auto.
Qed.
Lemma bytes_of_data (items : list godata) :
  forallb isByteData items = true ->
  forallb isByte (map (fun d => match d with DInt n => n | _ => 0 end) items) = true /\
  map DInt (map (fun d => match d with DInt n => n | _ => 0 end) items) = items.
Proof.
  induction items as [|d items IH]; simpl; [auto|]. intros H.
  apply andb_prop in H as [Hd Hl]. destruct (IH Hl) as [H1 H2].
  destruct d; try discriminate. simpl in Hd. simpl. now rewrite Hd, H1, H2.
Qed.

Ltac leaf_tokens H :=
  cbn [tokensOf app] in H; rewrite <- List.app_assoc in H; cbn [app] in H.

Lemma weight_pos (r : rpcValue) : (1 <= weight r)%nat.
Proof.
  destruct r as [[|t d] k]; [simpl; lia|].
  destruct d, k; simpl; lia.
Qed.

(** Every value that [wire] accepts is read back from its tokens. *)
Lemma wire_readsBack : forall r, wire r = true -> readsBack r.
Proof.
  induction r as [val k IHitems IHmembers] using rpcValue_induction.
  intros H fuel rd rest fin Hfuel Hst.
  pose proof (weight_pos (RpcValue val k)) as Hpos.
  destruct fuel as [|fuel]; [lia|]. clear Hpos.
  destruct k.
  - (* nil *)
    wire_shape H. cbn [tokensOf app] in Hst.
    cbn [readValue]. rewrite (expectStart_start _ _ _ _ Hst).
    destruct (nextStart_end _ _ _ _ (stands_before (EndElement "value" :: rest) fin))
      as [e [r1 [E1 H1]]].
    rewrite E1.
    destruct (nextText_end _ _ _ _ H1) as [e2 [r2 [E2 H2]]]. rewrite E2.
    now rewrite (expectEnd_end _ _ _ _ H2).
  - (* boolean *)
    wire_shape H. leaf_tokens Hst.
    rewrite (readValue_leaf fuel _ _ "boolean" _ rest fin eq_refl eq_refl eq_refl Hst).
    unfold primitiveOf. cbn [String.eqb Ascii.eqb Bool.eqb].
    destruct b; cbn [boolEncodeMap boolDecodeMap String.eqb Ascii.eqb Bool.eqb obind];
      now rewrite expectEnd_before.
  - (* int *)
    wire_shape H. leaf_tokens Hst.
    rewrite (readValue_leaf fuel _ _ "int" _ rest fin eq_refl eq_refl eq_refl Hst).
    unfold primitiveOf. cbn [String.eqb Ascii.eqb Bool.eqb orb].
    apply andb_prop in H as [H1 H2]. apply Z.leb_le in H1, H2.
    rewrite Atoi_Itoa by lia. cbn [obind]. now rewrite expectEnd_before.
  - (* double *)
    wire_shape H. leaf_tokens Hst.
    rewrite (readValue_leaf fuel _ _ "double" _ rest fin eq_refl eq_refl eq_refl Hst).
    unfold primitiveOf. cbn [String.eqb Ascii.eqb Bool.eqb orb].
    unfold doubleReadBack in H. apply andb_prop in H as [_ H].
    destruct (ParseFloat (formatDouble (Sprintf_f_float f))) as [[y [|]]| | |];
      try discriminate.
    apply spec_float_eqb_eq in H as ->. cbn [obind].
    now rewrite expectEnd_before.
  - (* dateTime *)
    wire_shape H. leaf_tokens Hst.
    rewrite (readValue_leaf fuel _ _ "dateTime.iso8601" _ rest fin
               eq_refl eq_refl eq_refl Hst).
    unfold primitiveOf. cbn [String.eqb Ascii.eqb Bool.eqb orb].
    unfold dateReadBack in H. apply andb_prop in H as [_ H].
    unfold dateTimeFormats. cbn [parseDate].
    destruct (time_Parse iso8601 (formatIso8601 t)) as [t'|]; [|discriminate].
    apply Time_eqb_eq in H as ->. cbn [obind].
    now rewrite expectEnd_before.
  - (* base64 *)
    wire_shape H. destruct (bytes_of_data items H) as [Hb Hm].
    cbn [tokensOf bytesOf app] in Hst. rewrite <- List.app_assoc in Hst.
    cbn [app] in Hst.
    rewrite (readValue_leaf fuel _ _ "base64" _ rest fin eq_refl eq_refl eq_refl Hst).
    unfold primitiveOf. cbn [String.eqb Ascii.eqb Bool.eqb orb].
    rewrite (DecodeString_EncodeToString _ Hb). cbn [obind].
    unfold dataOfBytes, typeOfBytes. rewrite Hm.
    now rewrite expectEnd_before.
  - (* string *)
    wire_shape H. leaf_tokens Hst.
    rewrite (readValue_leaf fuel _ _ "string" _ rest fin eq_refl eq_refl eq_refl Hst).
    unfold primitiveOf. cbn [String.eqb Ascii.eqb Bool.eqb orb obind].
    now rewrite expectEnd_before.
  - (* array *)
    wire_shape H. simpl in IHitems. clear IHmembers.
    assert (Hback : Forall readsBack array).
    { clear Hst Hfuel. induction IHitems as [|a l Ha _ IH]; constructor.
      - apply Ha. simpl in H. now apply andb_prop in H as [H _].
      - apply IH. simpl in H. now apply andb_prop in H as [_ H]. }
    cbn [tokensOf app] in Hst. rewrite <- !List.app_assoc in Hst. cbn [app] in Hst.
    rewrite (readValue_typed fuel _ _ "array" _ fin eq_refl Hst).
    cbv zeta. cbn [String.eqb Ascii.eqb Bool.eqb].
    cbn [weight] in Hfuel. fold (weightItems array) in Hfuel.
    destruct fuel as [|fuel]; [lia|]. cbn [readArray].
    rewrite (nextStart_start _ _ _ _ (stands_putToken (StartElement "array") _ fin)).
    rewrite (expectStart_start _ _ _ _ (stands_before _ fin)).
    destruct (readArrayItems_back array Hback fuel []
                (before (flat_map tokensOf array ++
                         EndElement "data" :: EndElement "array" ::
                         EndElement "value" :: rest) fin)
                "data" (EndElement "array" :: EndElement "value" :: rest) fin)
      as [r' [E Hr']]; [lia | apply stands_before |].
    rewrite E. cbn [obind app].
    rewrite (expectEnd_end _ _ _ _ Hr'). rewrite expectEnd_before.
    cbn [obind]. now rewrite expectEnd_before.
  - (* struct *)
    wire_shape H. simpl in IHmembers. clear IHitems.
    assert (Hback : Forall (fun m => readsBack (entryValue m)) members /\
                    forallb (fun m => isName (entryName m)) members = true).
    { clear Hst Hfuel.
      induction IHmembers as [|[n v] l Ha _ IH]; [split; [constructor | reflexivity]|].
      simpl in H. apply andb_prop in H as [H Hl]. apply andb_prop in H as [Hn Hv].
      destruct (IH Hl) as [IH1 IH2]. split.
      - constructor; [apply Ha; exact Hv | exact IH1].
      - simpl. now rewrite Hn, IH2. }
    destruct Hback as [Hback Hnames].
    cbn [tokensOf app] in Hst. rewrite <- !List.app_assoc in Hst. cbn [app] in Hst.
    rewrite (readValue_typed fuel _ _ "struct" _ fin eq_refl Hst).
    cbv zeta. cbn [String.eqb Ascii.eqb Bool.eqb].
    cbn [weight] in Hfuel. fold (weightMembers members) in Hfuel.
    destruct fuel as [|fuel]; [lia|]. cbn [readStruct].
    rewrite (nextStart_start _ _ _ _ (stands_putToken (StartElement "struct") _ fin)).
    destruct (readMembers_back members Hback Hnames fuel []
                (before (flat_map memberTokens members ++
                         EndElement "struct" :: EndElement "value" :: rest) fin)
                "struct" (EndElement "value" :: rest) fin)
      as [r' [E Hr']]; [lia | apply stands_before |].
    change (flat_map
              (fun m : rpcEntry =>
               match m with
               | RpcEntry n v =>
                   StartElement "member" ::
                   (element "name" n ++ tokensOf v ++ [EndElement "member"])%list
               end) members) with (flat_map memberTokens members).
    rewrite E. cbn [obind app].
    rewrite (expectEnd_end _ _ _ _ Hr').
    cbn [obind]. now rewrite expectEnd_before.
Qed.
(** ** Messages: what the writer emits and what the reader makes of it *)

(** The tokens of [xml.Header]: the declaration, and the line feed after
    it as character data before the first tag. *)
Definition headerInst : string :=
  "version=" ++ quoted "1.0" ++ " encoding=" ++ quoted "UTF-8".

Definition headerTokens : list Token :=
  [ProcInst "xml" headerInst; CharData (String (ascii_of_N 10) "")].

Lemma lex_header (rest : list ascii) :
  lex (InText []) (chars xml_Header ++ rest) =
  option_map (cons (ProcInst "xml" headerInst))
    (lex (InText [ascii_of_N 10]) rest).
Proof.
  simpl. destruct (lex _ rest); reflexivity.
Qed.

(** A document: the header, then an element that holds [b]. *)
Lemma document_lexes (t : xmlTag) (b : string) (toks : list Token) :
  lexes b toks ->
  lex (InText []) (chars (xml_Header ++ startTags t ++ b ++ endTags t)) =
  Some (headerTokens ++ StartElement (tagNames t) :: toks ++ [EndElement (tagNames t)])%list.
Proof.
  intros H. rewrite chars_app, lex_header.
  rewrite <- (List.app_nil_r (chars (startTags t ++ b ++ endTags t))).
  rewrite !chars_app, <- !List.app_assoc.
  rewrite lex_startTag, H, lex_endTag. reflexivity.
Qed.

Definition paramTokens (v : rpcValue) : list Token :=
  StartElement "param" :: (tokensOf v ++ [EndElement "param"])%list.

Definition paramsTokens (params : list rpcValue) : list Token :=
  StartElement "params" :: (flat_map paramTokens params ++ [EndElement "params"])%list.

Definition callTokens (method : string) (params : list rpcValue) : list Token :=
  (headerTokens ++
   StartElement "methodCall" ::
   (element "methodName" method ++ paramsTokens params) ++
   [EndElement "methodCall"])%list.

Definition responseTokens (params : list rpcValue) : list Token :=
  (headerTokens ++
   StartElement "methodResponse" :: paramsTokens params ++
   [EndElement "methodResponse"])%list.

Definition faultTokens (fault : rpcValue) : list Token :=
  (headerTokens ++
   StartElement "methodResponse" ::
   (StartElement "fault" :: tokensOf fault ++ [EndElement "fault"]) ++
   [EndElement "methodResponse"])%list.

Lemma writeParamList_lexes (params : list rpcValue) :
  forallb wire params = true ->
  exists b, emits (writeParamList params) b /\ lexes b (paramsTokens params).
Proof.
  intros H.
  assert (Hall : Forall (fun v => exists b, emits (writeXML paramTag (writeValue v)) b /\
                                            lexes b (paramTokens v)) params).
  { apply Forall_forall. intros v Hv. rewrite forallb_forall in H.
    destruct (writeValue_lexes v (H v Hv)) as [b [He Hl]].
    eexists. split; [apply emits_writeXML, He | apply (lexes_wrap paramTag), Hl]. }
  destruct (forEach_lexes _ _ params Hall) as [b [He Hl]].
  eexists. split; [apply emits_writeXML, He | apply (lexes_wrap paramListTag), Hl].
Qed.

Lemma written_emits (m : writing) (b : string) :
  emits m b -> written m = Ok (None, b).
Proof. intros H. unfold written. now rewrite H. Qed.

(** What [writeCall] writes are the tokens of the call. *)
Lemma writeCall_tokens (method : string) (params : list rpcValue) :
  isText method = true -> forallb wire params = true ->
  exists b, written (writeCall (mkCall method params)) = Ok (None, b) /\
            xml_NewDecoder b = Some (mkDecoder (callTokens method params) io_EOF).
Proof.
  intros Hm Hp. destruct (writeParamList_lexes params Hp) as [bp [Hep Hlp]].
  destruct (raw_lexes methodNameTag method Hm) as [bm [Hem Hlm]].
  eexists. split.
  - apply written_emits. unfold writeCall. cbn [Method call_Params].
    apply emits_andThen; [apply emits_WriteString|].
    apply emits_writeXML. apply emits_andThen; eassumption.
  - unfold xml_NewDecoder.
    rewrite (document_lexes methodCallTag _ _ (lexes_app _ _ _ _ Hlm Hlp)).
    reflexivity.
Qed.

(** What [writeResponse] writes for a response without a fault. *)
Lemma writeResponse_tokens (params : list rpcValue) :
  forallb wire params = true ->
  exists b, written (writeResponse (mkResponse params zeroValue)) = Ok (None, b) /\
            xml_NewDecoder b = Some (mkDecoder (responseTokens params) io_EOF).
Proof.
  intros Hp. destruct (writeParamList_lexes params Hp) as [bp [Hep Hlp]].
  eexists. split.
  - apply written_emits. unfold writeResponse.
    apply emits_andThen; [apply emits_WriteString|].
    apply emits_writeXML. exact Hep.
  - unfold xml_NewDecoder. rewrite (document_lexes methodResponseTag _ _ Hlp).
    reflexivity.
Qed.

(** What [writeResponse] writes for a fault that is not empty. *)
Lemma writeResponse_fault_tokens (params : list rpcValue) (fault : rpcValue) :
  wire fault = true -> isEmpty fault = Ok false ->
  exists b, written (writeResponse (mkResponse params fault)) = Ok (None, b) /\
            xml_NewDecoder b = Some (mkDecoder (faultTokens fault) io_EOF).
Proof.
  intros Hf Hne. destruct (writeValue_lexes fault Hf) as [bf [Hef Hlf]].
  eexists. split.
  - apply written_emits. unfold writeResponse.
    apply emits_andThen; [apply emits_WriteString|].
    apply emits_writeXML. cbn [resp_Fault resp_Params].
    intros w. rewrite Hne. cbn [obind].
    apply (emits_writeXML faultTag _ _ Hef).
  - unfold xml_NewDecoder.
    rewrite (document_lexes methodResponseTag _ _ (lexes_wrap faultTag _ _ Hlf)).
    reflexivity.
Qed.
(** *** The reader on the tokens of a message *)

Lemma trim_blank (r : xmlReader) (s : string) (l : list Token) (fin : error) :
  isBlank s = true -> stands r (CharData s :: l) fin -> trim r = trim (before l fin).
Proof.
  intros Hs. destruct r as [[p f] [pk|]]; unfold stands, stream;
    cbn [peek dec pending final]; intros [H1 H2]; subst.
  - inversion H1; subst. unfold trim, before.
    cbn [peek dec pending final skipBlank]. now rewrite Hs.
  - unfold trim, before. cbn [peek dec pending final skipBlank]. now rewrite Hs.
Qed.

Lemma expectStart_blank (name : string) (r : xmlReader) (s : string)
    (l : list Token) (fin : error) :
  isBlank s = true -> stands r (CharData s :: l) fin ->
  expectStart name r = expectStart name (before l fin).
Proof.
  intros Hs H. unfold expectStart, nextStart. now rewrite (trim_blank _ _ _ _ Hs H).
Qed.

Lemma readHeader_header (r : xmlReader) (inst : string) (l : list Token) (fin : error) :
  stands r (ProcInst "xml" inst :: l) fin -> readHeader r = (None, before l fin).
Proof.
  intros H. unfold readHeader.
  assert (Ht : stands (trim r) (ProcInst "xml" inst :: l) fin).
  { destruct r as [[p f] [pk|]]; unfold stands, stream, trim in *; simpl in *;
      destruct H as [H1 H2]; subst; [inversion H1; subst|]; split; reflexivity. }
  now rewrite (token_stands _ _ _ _ Ht).
Qed.

(** A document that starts with a tag has no header to read. *)
Lemma readHeader_none (r : xmlReader) (t : Token) (l : list Token) (fin : error) :
  isTag t = true -> stands r (t :: l) fin ->
  exists r', readHeader r = (None, r') /\ stands r' (t :: l) fin.
Proof.
  intros Ht H. unfold readHeader.
  rewrite (token_stands _ _ _ _ (trim_stands r t l fin Ht H)).
  exists (putToken (before l fin) (Some t)).
  split; [destruct t; try discriminate; reflexivity | apply stands_putToken].
Qed.

Lemma expectStart_other (name : string) (r : xmlReader) (n : string)
    (l : list Token) (fin : error) :
  String.eqb n name = false ->
  stands r (StartElement n :: l) fin ->
  exists e r', expectStart name r = (Some e, r') /\ isEOF e = false /\
               stands r' (StartElement n :: l) fin.
Proof.
  intros Hn H. unfold expectStart. rewrite (nextStart_start _ _ _ _ H), Hn.
  eexists _, _. split; [reflexivity|]. split; [reflexivity | apply stands_putToken].
Qed.

Lemma readParamItems_back (params : list rpcValue) :
  Forall readsBack params ->
  forall fuel acc rd n l fin,
    (weightItems params <= fuel)%nat ->
    stands rd (flat_map paramTokens params ++ EndElement n :: l) fin ->
    exists r', readParamItems fuel acc rd = Ok (None, (acc ++ params)%list, r') /\
               stands r' (EndElement n :: l) fin.
Proof.
  induction 1 as [|v params Hv _ IH]; intros fuel acc rd n l fin Hfuel H.
  - destruct fuel as [|fuel]; [simpl in Hfuel; lia|].
    cbn [readParamItems]. simpl in H.
    destruct (expectStart_end "param" _ _ _ _ H) as [e [r' [E Hr']]]. rewrite E.
    exists r'. rewrite List.app_nil_r. auto.
  - destruct fuel as [|fuel]; [simpl in Hfuel; lia|].
    unfold weightItems in Hfuel. cbn [fold_right] in Hfuel.
    fold (weightItems params) in Hfuel.
    cbn [readParamItems]. cbn [flat_map paramTokens app] in H.
    rewrite <- !List.app_assoc in H. cbn [app] in H.
    rewrite (expectStart_start _ _ _ _ H).
    rewrite (Hv (S fuel) _ (EndElement "param" ::
                            flat_map paramTokens params ++ EndElement n :: l)%list fin);
      [| lia | apply stands_before].
    cbn [obind]. rewrite expectEnd_before.
    destruct (IH fuel (acc ++ [v])%list
                (before (flat_map paramTokens params ++ EndElement n :: l) fin) n l fin)
      as [r' [E' Hr']]; [lia | apply stands_before |].
    exists r'. rewrite E'. rewrite <- List.app_assoc. auto.
Qed.

Lemma readParams_back (params : list rpcValue) (fuel : nat) (acc : list rpcValue)
    (rd : xmlReader) (l : list Token) (fin : error) :
  Forall readsBack params ->
  (weightItems params <= fuel)%nat ->
  stands rd (paramsTokens params ++ l) fin ->
  readParams fuel acc rd = Ok (None, (acc ++ params)%list, before l fin).
Proof.
  intros Hb Hfuel H. unfold readParams. unfold paramsTokens in H.
  cbn [app] in H. rewrite <- List.app_assoc in H. cbn [app] in H.
  rewrite (expectStart_start _ _ _ _ H).
  destruct (readParamItems_back params Hb fuel acc
              (before (flat_map paramTokens params ++ EndElement "params" :: l) fin)
              "params" l fin Hfuel (stands_before _ _)) as [r' [E Hr']].
  rewrite E. cbn [obind]. now rewrite (expectEnd_end _ _ _ _ Hr').
Qed.

Lemma wire_all_readsBack (params : list rpcValue) :
  forallb wire params = true -> Forall readsBack params.
Proof.
  intros H. apply Forall_forall. intros v Hv. rewrite forallb_forall in H.
  apply wire_readsBack. auto.
Qed.

Lemma blank_line_feed : isBlank (String (ascii_of_N 10) "") = true.
Proof. reflexivity. Qed.

(** [readCall] on the tokens of a call. *)
Lemma readCall_back (method : string) (params : list rpcValue) (fuel : nat)
    (rpc : methodCall) (fin : error) :
  method <> "" -> forallb wire params = true ->
  (weightItems params <= fuel)%nat ->
  readCall fuel rpc (newReader (mkDecoder (callTokens method params) fin)) =
    Ok (None, mkCall method (call_Params rpc ++ params), before [] fin).
Proof.
  intros Hm Hp Hfuel.
  change (newReader (mkDecoder (callTokens method params) fin))
    with (before (callTokens method params) fin).
  unfold readCall, callTokens, headerTokens. cbn [app].
  rewrite (readHeader_header _ _ _ fin (stands_before _ _)).
  rewrite (expectStart_blank _ _ _ _ fin blank_line_feed (stands_before _ _)).
  rewrite (expectStart_start _ _ _ fin (stands_before _ _)).
  destruct method as [|c method]; [contradiction|].
  unfold element. cbn [textTokens app].
  rewrite (expectStart_start _ _ _ fin (stands_before _ _)).
  rewrite (nextText_text _ _ _ fin (stands_before _ _)).
  rewrite expectEnd_before. cbn [call_Params].
  rewrite (readParams_back params fuel (call_Params rpc) _ [EndElement "methodCall"] fin
             (wire_all_readsBack _ Hp) Hfuel (stands_before _ _)).
  cbn [obind]. now rewrite expectEnd_before.
Qed.

(** [readResponse] on the tokens of a response without a fault. *)
Lemma readResponse_back (params : list rpcValue) (fuel : nat)
    (rpc : methodResponse) (fin : error) :
  forallb wire params = true ->
  (weightItems params <= fuel)%nat ->
  readResponse fuel rpc (newReader (mkDecoder (responseTokens params) fin)) =
    Ok (None, mkResponse (resp_Params rpc ++ params) (resp_Fault rpc), before [] fin).
Proof.
  intros Hp Hfuel.
  change (newReader (mkDecoder (responseTokens params) fin))
    with (before (responseTokens params) fin).
  unfold readResponse, responseTokens, headerTokens. cbn [app].
  rewrite (readHeader_header _ _ _ fin (stands_before _ _)).
  rewrite (expectStart_blank _ _ _ _ fin blank_line_feed (stands_before _ _)).
  rewrite (expectStart_start _ _ _ fin (stands_before _ _)).
  rewrite (readParams_back params fuel (resp_Params rpc) _
             [EndElement "methodResponse"] fin
             (wire_all_readsBack _ Hp) Hfuel (stands_before _ _)).
  cbn [obind]. now rewrite expectEnd_before.
Qed.

(** [readResponse] on the tokens of a fault response. *)
Lemma readResponse_fault_back (fault : rpcValue) (fuel : nat)
    (params : list rpcValue) (fin : error) :
  wire fault = true -> (weight fault <= fuel)%nat ->
  readResponse fuel (mkResponse params zeroValue)
    (newReader (mkDecoder (faultTokens fault) fin)) =
    Ok (None, mkResponse params fault, before [] fin).
Proof.
  intros Hf Hfuel.
  change (newReader (mkDecoder (faultTokens fault) fin))
    with (before (faultTokens fault) fin).
  unfold readResponse, faultTokens, headerTokens. cbn [app].
  rewrite (readHeader_header _ _ _ fin (stands_before _ _)).
  rewrite (expectStart_blank _ _ _ _ fin blank_line_feed (stands_before _ _)).
  rewrite (expectStart_start _ _ _ fin (stands_before _ _)).
  unfold readParams.
  match goal with
  | |- context [expectStart "params" (before (StartElement "fault" :: ?l) fin)] =>
      destruct (expectStart_other "params" _ "fault" l fin eq_refl (stands_before _ _))
        as [e [r' [E [He Hr']]]]
  end.
  rewrite E. cbn [obind]. rewrite He.
  rewrite <- List.app_assoc in Hr'. cbn [app] in Hr'.
  rewrite (expectStart_start _ _ _ _ Hr'). cbn [resp_Fault resp_Params].
  rewrite (wire_readsBack fault Hf fuel _
             [EndElement "fault"; EndElement "methodResponse"] fin Hfuel
             (stands_before _ _)).
  cbn [obind]. rewrite expectEnd_before. now rewrite expectEnd_before.
Qed.
(** ** Round trips of the codec *)

(** [decode(encode(r))]: the value is written by [writeRPC] and what was
    written is read by [readRPC] into a new value. *)
Definition reread (fuel : nat) (r : rpcValue)
  : outcome (option error * Codec.rpcDest) :=
  '(_, b) <- Codec.writeRPC (Codec.FromValue r) ;;
  match xml_NewDecoder b with
  | Some d => Codec.readRPC fuel d (Codec.IntoValue zeroValue)
  | None => Unmodelled "bytes outside the modelled part of XML"
  end.

Lemma wire_written (r : rpcValue) :
  wire r = true ->
  exists b,
    written (writeValue r) = Ok (None, b) /\
    xml_NewDecoder b = Some (mkDecoder (tokensOf r) io_EOF).
Proof.
  intros H. destruct (writeValue_lexes r H) as [b [He Hl]].
  exists b. split; [now apply written_emits|].
  unfold xml_NewDecoder. rewrite <- (List.app_nil_r (chars b)), Hl.
  simpl. now rewrite List.app_nil_r.
Qed.

Lemma readValue_tokens (r : rpcValue) (fuel : nat) (fin : error) :
  wire r = true -> (weight r <= fuel)%nat ->
  readValue fuel zeroValue (newReader (mkDecoder (tokensOf r) fin)) =
    Ok (None, r, before [] fin).
Proof.
  intros H Hfuel. apply (wire_readsBack r H fuel _ [] fin Hfuel).
  split; [|reflexivity]. unfold stream. simpl. now rewrite List.app_nil_r.
Qed.

Lemma wire_reread (r : rpcValue) (fuel : nat) :
  wire r = true -> (weight r <= fuel)%nat ->
  reread fuel r = Ok (None, Codec.IntoValue r).
Proof.
  intros H Hfuel. destruct (wire_written r H) as [b [Hw Hd]].
  unfold reread, Codec.writeRPC. rewrite Hw. cbn [obind]. rewrite Hd.
  unfold Codec.readRPC. now rewrite (readValue_tokens r fuel io_EOF H Hfuel).
Qed.

(** *** Examples: a float, a record *)

(** A 64-bit float is [S754_finite] with a mantissa of 53 bits: 1.5 and the
    float nearest to 0.1234567. *)
Definition float_1_5 : spec_float := S754_finite false 6755399441055744 (-52).

Definition typeOfPerson : gotype :=
  TStruct "Person"
    [mkField "Name" (Some "name") TString;
     mkField "Age" None TInt;
     mkField "Score" None TFloat64;
     mkField "Born" None TTime;
     mkField "Tags" None (TSlice TString);
     mkField "Raw" None (TSlice TUint8);
     mkField "Any" None TInterface;
     mkField "Friends" None (TSlice (TStruct "Friend" [mkField "Nick" None TString]))].

Definition aPerson : godata :=
  DStruct
    [DString "Kofi <A&B>";
     DInt 42;
     DFloat float_1_5;
     DTime (mkTime 2019 1 2 3 4 5 0 0);
     DSeq [DString "a"; DString ""];
     DSeq [DInt 1; DInt 2; DInt 255; DInt 0];
     DIface (idyn TBool (DBool true));
     DSeq [DStruct [DString "Ama"]; DStruct [DString "Yaw"]]].

(** [makeValue(aPerson)] *)
Definition aPersonValue : rpcValue :=
  let str s := RpcValue (idyn TString (DString s)) stringKind in
  let friend s :=
    RpcValue (idyn TRpcEntries (DEntries [RpcEntry "Nick" (str s)])) structKind in
  RpcValue
    (idyn TRpcEntries
       (DEntries
          [RpcEntry "name" (str "Kofi <A&B>");
           RpcEntry "Age" (RpcValue (idyn TInt (DInt 42)) intKind);
           RpcEntry "Score" (RpcValue (idyn TFloat64 (DFloat float_1_5)) doubleKind);
           RpcEntry "Born"
             (RpcValue (idyn TTime (DTime (mkTime 2019 1 2 3 4 5 0 0))) dateTimeKind);
           RpcEntry "Tags"
             (RpcValue (idyn TRpcValues (DValues [str "a"; str ""])) arrayKind);
           RpcEntry "Raw"
             (RpcValue (idyn (TSlice TUint8) (DSeq [DInt 1; DInt 2; DInt 255; DInt 0]))
                base64Kind);
           RpcEntry "Any" (RpcValue (idyn TBool (DBool true)) booleanKind);
           RpcEntry "Friends"
             (RpcValue (idyn TRpcValues (DValues [friend "Ama"; friend "Yaw"]))
                arrayKind)]))
    structKind.

Example makeValue_aPerson :
  makeValue (idyn typeOfPerson aPerson) = Ok aPersonValue
  /\ projectable typeOfPerson aPerson = true
  /\ wire aPersonValue = true
  /\ weight aPersonValue = 39%nat.
Proof. repeat split; vm_compute; reflexivity. Qed.

(** *** A native value, the mapper and back *)

(** X1. For every native value that is of a type of the type switch of
    [makeValue] (a boolean, an integer, a float, a string, a time or a byte
    slice), a slice of such values or a struct of them whose fields are
    exported and have distinct names and distinct wire names, [makeValue]
    maps the value and [writeTo] into a new variable of its type gives the
    native value back, without an error. *)
Theorem mapper_round_trip :
  forall (t : gotype) (d : godata),
    projectable t d = true ->
    exists r,
      makeValue (idyn t d) = Ok r
      /\ writeTo r (ToPtr t (zero t)) = Ok (None, d).
Proof.
  intros t d H. destruct (projectable_mapped d t H) as [r [Hm [_ Hw]]].
  exists r. split; assumption.
Qed.

Lemma mapper_round_trip_witness :
  projectable typeOfPerson aPerson = true /\
  exists r,
    makeValue (idyn typeOfPerson aPerson) = Ok r
    /\ writeTo r (ToPtr typeOfPerson (zero typeOfPerson)) = Ok (None, aPerson).
Proof.
  split; [vm_compute; reflexivity|].
  apply (mapper_round_trip typeOfPerson aPerson). vm_compute. reflexivity.
Defined.

(** X2. For every RPC value that [wire] accepts -- its integers are of type
    [int], its floats of type [float64], its strings are of printable ASCII
    characters, tabs and line feeds, the names of its members are not empty
    and hold no markup, and every double and dateTime in it is read back
    from the text written for it -- [writeRPC] writes the value without an
    error and [readRPC], on what was written and with enough fuel, returns
    no error and the same value. *)
Theorem value_read_back :
  forall (r : rpcValue) (fuel : nat),
    wire r = true -> (weight r <= fuel)%nat ->
    exists b d,
      Codec.writeRPC (Codec.FromValue r) = Ok (None, b)
      /\ xml_NewDecoder b = Some d
      /\ Codec.readRPC fuel d (Codec.IntoValue zeroValue) = Ok (None, Codec.IntoValue r).
Proof.
  intros r fuel H Hfuel. destruct (wire_written r H) as [b [Hw Hd]].
  exists b, (mkDecoder (tokensOf r) io_EOF). split; [exact Hw|]. split; [exact Hd|].
  unfold Codec.readRPC. now rewrite (readValue_tokens r fuel io_EOF H Hfuel).
Qed.

Lemma value_read_back_witness :
  wire aPersonValue = true /\
  exists b d,
    Codec.writeRPC (Codec.FromValue aPersonValue) = Ok (None, b)
    /\ xml_NewDecoder b = Some d
    /\ Codec.readRPC 39 d (Codec.IntoValue zeroValue) =
         Ok (None, Codec.IntoValue aPersonValue).
Proof.
  split; [vm_compute; reflexivity|].
  apply (value_read_back aPersonValue 39).
  - vm_compute. reflexivity.
  - apply Nat.leb_le. vm_compute. reflexivity.
Defined.

(** X3. A native value given to [writeRPC] and read by [readRPC] into a new
    variable of its type: for every projectable native value whose mapped
    value [wire] accepts, the variable holds the native value afterwards
    and no error is returned. *)
Theorem native_round_trip :
  forall (t : gotype) (d : godata) (r : rpcValue) (fuel : nat),
    projectable t d = true ->
    makeValue (idyn t d) = Ok r ->
    wire r = true -> (weight r <= fuel)%nat ->
    exists b dcd,
      Codec.writeRPC (Codec.FromNative (idyn t d)) = Ok (None, b)
      /\ xml_NewDecoder b = Some dcd
      /\ Codec.readRPC fuel dcd (Codec.IntoNative (ToPtr t (zero t))) =
           Ok (None, Codec.IntoNative (ToPtr t d)).
Proof.
  intros t d r fuel Hp Hm Hw Hfuel.
  destruct (projectable_mapped d t Hp) as [r' [Hm' [_ Hwr]]].
  assert (r' = r) by (unfold makeValue in Hm; congruence). subst r'.
  destruct (wire_written r Hw) as [b [Hb Hd]].
  exists b, (mkDecoder (tokensOf r) io_EOF).
  split; [unfold Codec.writeRPC; rewrite Hm; exact Hb|]. split; [exact Hd|].
  unfold Codec.readRPC, Codec.checkPointer. cbn [targetKind reflect.eqb negb obind].
  rewrite (readValue_tokens r fuel io_EOF Hw Hfuel). cbn [obind].
  rewrite Hwr. reflexivity.
Qed.

Lemma native_round_trip_witness :
  exists b dcd,
    Codec.writeRPC (Codec.FromNative (idyn typeOfPerson aPerson)) = Ok (None, b)
    /\ xml_NewDecoder b = Some dcd
    /\ Codec.readRPC 39 dcd (Codec.IntoNative (ToPtr typeOfPerson (zero typeOfPerson))) =
         Ok (None, Codec.IntoNative (ToPtr typeOfPerson aPerson)).
Proof.
  apply (native_round_trip typeOfPerson aPerson aPersonValue 39).
  - vm_compute. reflexivity.
  - vm_compute. reflexivity.
  - vm_compute. reflexivity.
  - apply Nat.leb_le. vm_compute. reflexivity.
Defined.

(** X4. An integer of any type is read back as an [int]: for every integer
    payload in the range of [int], whatever its type, what [writeRPC]
    writes for it is read by [readRPC] as the [int] of the same number. *)
Theorem integer_read_back_as_int :
  forall (t : gotype) (n : Z) (fuel : nat),
    minInt <= n <= maxInt -> (1 <= fuel)%nat ->
    exists b d,
      Codec.writeRPC (Codec.FromValue (RpcValue (idyn t (DInt n)) intKind)) = Ok (None, b)
      /\ xml_NewDecoder b = Some d
      /\ Codec.readRPC fuel d (Codec.IntoValue zeroValue) =
           Ok (None, Codec.IntoValue (RpcValue (idyn TInt (DInt n)) intKind)).
Proof.
  intros t n fuel Hn Hfuel.
  assert (Hw : wire (RpcValue (idyn TInt (DInt n)) intKind) = true).
  { cbn [wire]. apply andb_true_intro. split; apply Z.leb_le; lia. }
  destruct (wire_written _ Hw) as [b [Hb Hd]].
  exists b, (mkDecoder (tokensOf (RpcValue (idyn TInt (DInt n)) intKind)) io_EOF).
  split; [exact Hb|]. split; [exact Hd|].
  unfold Codec.readRPC. now rewrite (readValue_tokens _ fuel io_EOF Hw Hfuel).
Qed.

Lemma integer_read_back_as_int_witness :
  exists b d,
    Codec.writeRPC (Codec.FromValue (RpcValue (idyn TInt32 (DInt (-7))) intKind)) =
      Ok (None, b)
    /\ xml_NewDecoder b = Some d
    /\ Codec.readRPC 1 d (Codec.IntoValue zeroValue) =
         Ok (None, Codec.IntoValue (RpcValue (idyn TInt (DInt (-7))) intKind)).
Proof.
  apply (integer_read_back_as_int TInt32 (-7) 1).
  - unfold minInt, maxInt. lia.
  - apply le_n.
Defined.

(** *** Calls and responses *)

Lemma isName_text (s : string) : isName s = true -> isText s = true /\ s <> "".
Proof.
  unfold isName. intros H. apply andb_prop in H as [Hne Ht].
  split; [exact Ht|]. intros ->. discriminate.
Qed.

Lemma call_read_back (method : string) (params : list rpcValue) (fuel : nat) :
  isName method = true -> forallb wire params = true ->
  (weightItems params <= fuel)%nat ->
  exists b d,
    Codec.writeRPC (Codec.FromCall (mkCall method params)) = Ok (None, b)
    /\ xml_NewDecoder b = Some d
    /\ Codec.readRPC fuel d (Codec.IntoCall (mkCall "" [])) =
         Ok (None, Codec.IntoCall (mkCall method params)).
Proof.
  intros Hm Hp Hfuel. destruct (isName_text _ Hm) as [Ht Hne].
  destruct (writeCall_tokens method params Ht Hp) as [b [Hb Hd]].
  exists b, (mkDecoder (callTokens method params) io_EOF).
  split; [exact Hb|]. split; [exact Hd|].
  unfold Codec.readRPC.
  now rewrite (readCall_back method params fuel (mkCall "" []) io_EOF Hne Hp Hfuel).
Qed.

(** X5. A call is read back from its bytes: for every method name that is
    not empty and holds text only, and parameters that [wire] accepts,
    [writeRPC] writes the call without an error and [readRPC], on what was
    written, returns no error and the same method name and parameters, in
    their order. *)
Theorem call_round_trip :
  forall (method : string) (params : list rpcValue) (fuel : nat),
    isName method = true -> forallb wire params = true ->
    (weightItems params <= fuel)%nat ->
    exists b d,
      Codec.writeRPC (Codec.FromCall (mkCall method params)) = Ok (None, b)
      /\ xml_NewDecoder b = Some d
      /\ Codec.readRPC fuel d (Codec.IntoCall (mkCall "" [])) =
           Ok (None, Codec.IntoCall (mkCall method params)).
Proof. exact call_read_back. Qed.

Lemma call_round_trip_witness :
  exists b d,
    Codec.writeRPC
      (Codec.FromCall (mkCall "Service.Say"
                         [aPersonValue; RpcValue (idyn TInt (DInt 7)) intKind])) =
      Ok (None, b)
    /\ xml_NewDecoder b = Some d
    /\ Codec.readRPC 50 d (Codec.IntoCall (mkCall "" [])) =
         Ok (None, Codec.IntoCall
                     (mkCall "Service.Say"
                        [aPersonValue; RpcValue (idyn TInt (DInt 7)) intKind])).
Proof.
  apply (call_round_trip "Service.Say"
           [aPersonValue; RpcValue (idyn TInt (DInt 7)) intKind] 50).
  - vm_compute. reflexivity.
  - vm_compute. reflexivity.
  - apply Nat.leb_le. vm_compute. reflexivity.
Defined.

Lemma response_read_back (params : list rpcValue) (fuel : nat) :
  forallb wire params = true -> (weightItems params <= fuel)%nat ->
  exists b d,
    Codec.writeRPC (Codec.FromResponse (mkResponse params zeroValue)) = Ok (None, b)
    /\ xml_NewDecoder b = Some d
    /\ Codec.readRPC fuel d (Codec.IntoResponse (mkResponse [] zeroValue)) =
         Ok (None, Codec.IntoResponse (mkResponse params zeroValue)).
Proof.
  intros Hp Hfuel.
  destruct (writeResponse_tokens params Hp) as [b [Hb Hd]].
  exists b, (mkDecoder (responseTokens params) io_EOF).
  split; [exact Hb|]. split; [exact Hd|].
  unfold Codec.readRPC.
  now rewrite (readResponse_back params fuel (mkResponse [] zeroValue) io_EOF Hp Hfuel).
Qed.

Lemma fault_read_back (params : list rpcValue) (fault : rpcValue) (fuel : nat) :
  wire fault = true -> isEmpty fault = Ok false -> (weight fault <= fuel)%nat ->
  exists b d,
    Codec.writeRPC (Codec.FromResponse (mkResponse params fault)) = Ok (None, b)
    /\ xml_NewDecoder b = Some d
    /\ Codec.readRPC fuel d (Codec.IntoResponse (mkResponse [] zeroValue)) =
         Ok (None, Codec.IntoResponse (mkResponse [] fault)).
Proof.
  intros Hf Hne Hfuel.
  destruct (writeResponse_fault_tokens params fault Hf Hne) as [b [Hb Hd]].
  exists b, (mkDecoder (faultTokens fault) io_EOF).
  split; [exact Hb|]. split; [exact Hd|].
  unfold Codec.readRPC.
  now rewrite (readResponse_fault_back fault fuel [] io_EOF Hf Hfuel).
Qed.

(** X6. A response is read back from its bytes, less the parameters that
    a fault hides: a response whose fault slot is the zero value is read
    back as it is; a response whose fault slot holds a value that is not
    empty is read back with that fault and without its parameters, which
    [writeResponse] does not write. *)
Theorem response_round_trip :
  forall (params : list rpcValue) (fault : rpcValue) (fuel : nat),
    forallb wire params = true -> wire fault = true ->
    (weightItems params <= fuel)%nat -> (weight fault <= fuel)%nat ->
    (exists b d,
        Codec.writeRPC (Codec.FromResponse (mkResponse params zeroValue)) = Ok (None, b)
        /\ xml_NewDecoder b = Some d
        /\ Codec.readRPC fuel d (Codec.IntoResponse (mkResponse [] zeroValue)) =
             Ok (None, Codec.IntoResponse (mkResponse params zeroValue)))
    /\ (isEmpty fault = Ok false ->
        exists b d,
          Codec.writeRPC (Codec.FromResponse (mkResponse params fault)) = Ok (None, b)
          /\ xml_NewDecoder b = Some d
          /\ Codec.readRPC fuel d (Codec.IntoResponse (mkResponse [] zeroValue)) =
               Ok (None, Codec.IntoResponse (mkResponse [] fault))).
Proof.
  intros params fault fuel Hp Hf Hfuel Hfuel'. split.
  - now apply response_read_back.
  - intros Hne. now apply fault_read_back.
Qed.

Lemma response_round_trip_witness :
  (exists b d,
      Codec.writeRPC (Codec.FromResponse (mkResponse [aPersonValue] zeroValue)) =
        Ok (None, b)
      /\ xml_NewDecoder b = Some d
      /\ Codec.readRPC 50 d (Codec.IntoResponse (mkResponse [] zeroValue)) =
           Ok (None, Codec.IntoResponse (mkResponse [aPersonValue] zeroValue)))
  /\ (exists b d,
        Codec.writeRPC
          (Codec.FromResponse
             (mkResponse [aPersonValue] (RpcValue (idyn TInt (DInt 5)) intKind))) =
          Ok (None, b)
        /\ xml_NewDecoder b = Some d
        /\ Codec.readRPC 50 d (Codec.IntoResponse (mkResponse [] zeroValue)) =
             Ok (None, Codec.IntoResponse
                         (mkResponse [] (RpcValue (idyn TInt (DInt 5)) intKind)))).
Proof.
  destruct (response_round_trip [aPersonValue] (RpcValue (idyn TInt (DInt 5)) intKind) 50)
    as [H1 H2].
  - vm_compute. reflexivity.
  - vm_compute. reflexivity.
  - apply Nat.leb_le. vm_compute. reflexivity.
  - apply Nat.leb_le. vm_compute. reflexivity.
  - split; [exact H1 | apply H2; reflexivity].
Defined.

(** *** Requests, responses and faults of native values *)

Lemma makeValue_fault (f : Fault) :
  makeValue (idyn typeOfFault (dataOfFault f)) =
    Ok (RpcValue
          (idyn TRpcEntries
             (DEntries [RpcEntry "faultCode" (RpcValue (idyn TInt (DInt (Code f))) intKind);
                        RpcEntry "faultString"
                          (RpcValue (idyn TString (DString (Message f))) stringKind)]))
          structKind).
Proof. reflexivity. Qed.

Definition valueOfFault (f : Fault) : rpcValue :=
  RpcValue
    (idyn TRpcEntries
       (DEntries [RpcEntry "faultCode" (RpcValue (idyn TInt (DInt (Code f))) intKind);
                  RpcEntry "faultString"
                    (RpcValue (idyn TString (DString (Message f))) stringKind)]))
    structKind.

(** The faults that are read back: the code is in the range of [int], the
    message of printable ASCII characters, tabs and line feeds. *)
Definition wireFault (f : Fault) : bool :=
  (minInt <=? Code f) && (Code f <=? maxInt) && forallb isPlain (chars (Message f)).

Lemma wireFault_wire (f : Fault) : wireFault f = true -> wire (valueOfFault f) = true.
Proof.
  unfold wireFault. intros H. apply andb_prop in H as [H H3].
  cbn [wire valueOfFault forallb]. rewrite H, H3. reflexivity.
Qed.

Lemma writeTo_fault (f : Fault) :
  writeTo (valueOfFault f) (ToPtr typeOfFault (zero typeOfFault)) =
    Ok (None, dataOfFault f).
Proof.
  destruct (projectable_mapped (dataOfFault f) typeOfFault eq_refl) as [r [Hm [_ Hw]]].
  pose proof (makeValue_fault f) as E. unfold makeValue in E.
  rewrite E in Hm. injection Hm as <-. exact Hw.
Qed.

(** What a client reads from the response that carries the fault [f]. *)
Lemma fault_response_read (f : Fault) (reply : target) (fuel : nat) :
  wireFault f = true -> Codec.checkPointer reply = Ok None -> (7 <= fuel)%nat ->
  exists b d,
    Codec.writeRPC (Codec.FromResponse (mkResponse [] (valueOfFault f))) = Ok (None, b)
    /\ xml_NewDecoder b = Some d
    /\ Codec.readResponse fuel d reply = Ok (Some (FaultError f), slotOf reply).
Proof.
  intros Hf Hreply Hfuel.
  destruct (fault_read_back [] (valueOfFault f) fuel (wireFault_wire f Hf) eq_refl Hfuel)
    as [b [d [Hb [Hd Hr]]]].
  exists b, d. split; [exact Hb|]. split; [exact Hd|].
  unfold Codec.readResponse. rewrite Hreply. cbn [obind]. rewrite Hr.
  cbn [obind resp_Fault isEmpty kind value valueOfFault length Nat.eqb negb].
  fold (valueOfFault f). rewrite writeTo_fault. cbn [obind].
  destruct f. reflexivity.
Qed.

(** X7. A fault sent is the fault received: for every [Fault] whose code
    is in the range of [int] and whose message is of printable ASCII
    characters, tabs and line feeds, [writeResponse] writes it without an
    error, and [readResponse] on what was written returns that [Fault] as
    its error, whatever pointer it is given for the reply, which it leaves
    as it was. *)
Theorem fault_round_trip :
  forall (f : Fault) (reply : target) (fuel : nat),
    wireFault f = true -> Codec.checkPointer reply = Ok None -> (7 <= fuel)%nat ->
    exists b d,
      Codec.writeResponse (PayloadFault f) = Ok (None, b)
      /\ xml_NewDecoder b = Some d
      /\ Codec.readResponse fuel d reply = Ok (Some (FaultError f), slotOf reply).
Proof.
  intros f reply fuel Hf Hreply Hfuel.
  destruct (fault_response_read f reply fuel Hf Hreply Hfuel) as [b [d [Hb H]]].
  exists b, d. split; [|exact H].
  unfold Codec.writeResponse, makeResponse. rewrite makeValue_fault. exact Hb.
Qed.

Lemma fault_round_trip_witness :
  exists b d,
    Codec.writeResponse (PayloadFault (mkFault InternalError "boom")) = Ok (None, b)
    /\ xml_NewDecoder b = Some d
    /\ Codec.readResponse 7 d (ToPtr TString (DString "untouched")) =
         Ok (Some (FaultError (mkFault InternalError "boom")), DString "untouched").
Proof.
  apply (fault_round_trip (mkFault InternalError "boom")
           (ToPtr TString (DString "untouched")) 7).
  - vm_compute. reflexivity.
  - reflexivity.
  - apply le_n.
Defined.

(** X8. An error that is no [Fault], given to [writeResponse], is received
    as an [InternalError] fault: for every error text of printable ASCII
    characters, tabs and line feeds (and without a [%], as the text is used
    as a format), [readResponse] on what was written returns the [Fault]
    with code -32603 and that text as its message, or the message
    [internal xml-rpc error] when the text is empty. *)
Theorem error_response_round_trip :
  forall (text : string) (reply : target) (fuel : nat),
    noneOf "%" text = true ->
    forallb isPlain (chars text) = true ->
    Codec.checkPointer reply = Ok None -> (7 <= fuel)%nat ->
    exists b d,
      Codec.writeResponse (PayloadError text) = Ok (None, b)
      /\ xml_NewDecoder b = Some d
      /\ Codec.readResponse fuel d reply =
           Ok (Some (FaultError
                       (mkFault (-32603)
                          (if isEmptyString text then "internal xml-rpc error"
                           else text))),
               slotOf reply).
Proof.
  intros text reply fuel _ Ht Hreply Hfuel.
  assert (Hf : wireFault (New InternalError text) = true).
  { unfold wireFault, New. cbn [Code Message].
    destruct text; [reflexivity|]. cbn [isEmptyString]. now rewrite Ht. }
  destruct (fault_response_read _ reply fuel Hf Hreply Hfuel) as [b [d [Hb H]]].
  exists b, d. split; [|destruct text; exact H].
  unfold Codec.writeResponse, makeResponse. rewrite makeValue_fault. exact Hb.
Qed.

Lemma error_response_round_trip_witness :
  exists b d,
    Codec.writeResponse (PayloadError "") = Ok (None, b)
    /\ xml_NewDecoder b = Some d
    /\ Codec.readResponse 7 d (ToPtr TInt (DInt 3)) =
         Ok (Some (FaultError (mkFault (-32603) "internal xml-rpc error")), DInt 3).
Proof.
  apply (error_response_round_trip "" (ToPtr TInt (DInt 3)) 7).
  - reflexivity.
  - reflexivity.
  - reflexivity.
  - apply le_n.
Defined.

(** X9. A request is received as it was sent: for every method name that
    is not empty and holds text only, and every projectable native
    argument whose mapped value [wire] accepts, [writeRequest] writes the
    call without an error, and [readRequest] on what was written returns no
    error, the method name, and the argument in the variable of its type
    that it was given. *)
Theorem request_round_trip :
  forall (method : string) (t : gotype) (d : godata) (r : rpcValue) (fuel : nat),
    isName method = true ->
    projectable t d = true -> makeValue (idyn t d) = Ok r -> wire r = true ->
    (weight r + 2 <= fuel)%nat ->
    exists b dcd,
      Codec.writeRequest method [idyn t d] = Ok (None, b)
      /\ xml_NewDecoder b = Some dcd
      /\ Codec.readRequest fuel dcd "" (ToPtr t (zero t)) = Ok (None, method, d).
Proof.
  intros method t d r fuel Hm Hp Hmk Hw Hfuel.
  destruct (projectable_mapped d t Hp) as [r' [Hm' [_ Hwr]]].
  assert (r' = r) by (unfold makeValue in Hmk; congruence). subst r'.
  destruct (call_read_back method [r] fuel Hm) as [b [dcd [Hb [Hd Hr]]]].
  { cbn [forallb]. now rewrite Hw. }
  { unfold weightItems. cbn [fold_right]. lia. }
  exists b, dcd. split.
  - unfold Codec.writeRequest, makeCall, makeParams. cbn [mapM].
    rewrite Hmk. cbn [obind]. exact Hb.
  - split; [exact Hd|].
    unfold Codec.readRequest, Codec.checkPointer.
    cbn [targetKind reflect.eqb negb obind]. rewrite Hr.
    cbn [obind Method call_Params].
    destruct (isName_text _ Hm) as [_ Hne].
    destruct (String.eqb_spec method "") as [E|_]; [contradiction|].
    cbn [rpcParams.writeTo]. rewrite Hwr. reflexivity.
Qed.

Lemma request_round_trip_witness :
  exists b dcd,
    Codec.writeRequest "People.Add" [idyn typeOfPerson aPerson] = Ok (None, b)
    /\ xml_NewDecoder b = Some dcd
    /\ Codec.readRequest 41 dcd "" (ToPtr typeOfPerson (zero typeOfPerson)) =
         Ok (None, "People.Add", aPerson).
Proof.
  apply (request_round_trip "People.Add" typeOfPerson aPerson aPersonValue 41).
  - vm_compute. reflexivity.
  - vm_compute. reflexivity.
  - vm_compute. reflexivity.
  - vm_compute. reflexivity.
  - apply Nat.leb_le. vm_compute. reflexivity.
Defined.



(** ** What the reader builds, the writer writes *)

Lemma readParamItems_wf (fuel : nat) :
  forall acc r e acc' r',
    forallb wfValue acc = true ->
    readParamItems fuel acc r = Ok (e, acc', r') -> forallb wfValue acc' = true.
Proof.
  induction fuel as [|fuel IH]; intros acc r e acc' r' Hacc H; [discriminate|].
  cbn [readParamItems] in H.
  destruct (expectStart "param" r) as [[err|] r1]; [now injection H as _ <- _|].
  destruct (readValue (S fuel) zeroValue r1) as [[[ev v] r2]| | |] eqn:EV;
    try discriminate.
  cbn [obind] in H.
  destruct ev as [err|]; [now injection H as _ <- _|].
  assert (Hv : wfValue v = true)
    by (eapply (proj1 (read_wf (S fuel))); [| | exact EV]; reflexivity).
  assert (Hacc' : forallb wfValue (acc ++ [v]) = true)
    by (rewrite forallb_snoc, Hacc; exact Hv).
  destruct (expectEnd "param" r2) as [[err|] r3]; [now injection H as _ <- _|].
  eapply IH; eassumption.
Qed.

Lemma readParams_wf (fuel : nat) (acc : list rpcValue) (r : xmlReader) e acc' r' :
  forallb wfValue acc = true ->
  readParams fuel acc r = Ok (e, acc', r') -> forallb wfValue acc' = true.
Proof.
  intros Hacc H. unfold readParams in H.
  destruct (expectStart "params" r) as [[err|] r1]; [now injection H as _ <- _|].
  destruct (readParamItems fuel acc r1) as [[[ei ps] r2]| | |] eqn:EI;
    try discriminate.
  cbn [obind] in H. pose proof (readParamItems_wf _ _ _ _ _ _ Hacc EI) as Hps.
  destruct ei as [err|]; [now injection H as _ <- _|].
  destruct (expectEnd "params" r2) as [err r3]. now injection H as _ <- _.
Qed.

Lemma readCall_wf (fuel : nat) (rpc : methodCall) (r : xmlReader) e rpc' r' :
  forallb wfValue (call_Params rpc) = true ->
  readCall fuel rpc r = Ok (e, rpc', r') -> forallb wfValue (call_Params rpc') = true.
Proof.
  intros Hacc H. unfold readCall in H.
  destruct (readHeader r) as [[err|] r0]; [now injection H as _ <- _|].
  destruct (expectStart "methodCall" r0) as [[err|] r1]; [now injection H as _ <- _|].
  destruct (expectStart "methodName" r1) as [[err|] r2]; [now injection H as _ <- _|].
  destruct (nextText r2) as [[m [err|]] r3]; [now injection H as _ <- _|].
  cbn [call_Params] in H.
  destruct (expectEnd "methodName" r3) as [[err|] r4]; [now injection H as _ <- _|].
  destruct (readParams fuel (call_Params rpc) r4) as [[[ep ps] r5]| | |] eqn:EP;
    try discriminate.
  cbn [obind] in H. pose proof (readParams_wf _ _ _ _ _ _ Hacc EP) as Hps.
  destruct ep as [err|]; [now injection H as _ <- _|].
  destruct (expectEnd "methodCall" r5) as [err r6]. now injection H as _ <- _.
Qed.

Lemma readResponse_params_wf (fuel : nat) (rpc : methodResponse) (r : xmlReader)
    e rpc' r' :
  forallb wfValue (resp_Params rpc) = true ->
  readResponse fuel rpc r = Ok (e, rpc', r') ->
  forallb wfValue (resp_Params rpc') = true.
Proof.
  intros Hacc H. unfold readResponse in H.
  destruct (readHeader r) as [[err|] r0]; [now injection H as _ <- _|].
  destruct (expectStart "methodResponse" r0) as [[err|] r1];
    [now injection H as _ <- _|].
  destruct (readParams fuel (resp_Params rpc) r1) as [[[ep ps] r2]| | |] eqn:EP;
    try discriminate.
  cbn [obind] in H. pose proof (readParams_wf _ _ _ _ _ _ Hacc EP) as Hps.
  assert (Hfin : forall (res : methodResponse) rr
                    (out : option error * methodResponse * xmlReader),
             (let '(err, r) := expectEnd "methodResponse" rr in Ok (err, res, r)) =
             Ok out -> snd (fst out) = res).
  { intros res rr out. destruct (expectEnd "methodResponse" rr). now intros [= <-]. }
  destruct ep as [err|].
  - destruct (isEOF err).
    + apply Hfin in H. cbn [fst snd] in H. now subst rpc'.
    + destruct (expectStart "fault" r2) as [[err'|] r3]; [now injection H as _ <- _|].
      cbn [resp_Fault] in H.
      destruct (readValue fuel (resp_Fault rpc) r3) as [[[ef f] r4]| | |];
        try discriminate.
      cbn [obind] in H.
      destruct ef as [err'|]; [now injection H as _ <- _|].
      destruct (expectEnd "fault" r4) as [[err'|] r5]; [now injection H as _ <- _|].
      apply Hfin in H. cbn [fst snd] in H. now subst rpc'.
  - apply Hfin in H. cbn [fst snd] in H. now subst rpc'.
Qed.

(** X11. Whatever its input, [readRPC] leaves well-formed values: the
    payload of every value it has read for a value, for the parameters of a
    call, for the parameters and for the fault of a response is of the type
    that the kind of the value tells, also when it returns an error. *)
Theorem reader_builds_well_formed_values :
  forall (fuel : nat) (d : Decoder) (e : option error),
    (forall v,
        Codec.readRPC fuel d (Codec.IntoValue zeroValue) = Ok (e, Codec.IntoValue v) ->
        wfValue v = true)
    /\ (forall call,
          Codec.readRPC fuel d (Codec.IntoCall (mkCall "" [])) =
            Ok (e, Codec.IntoCall call) ->
          forallb wfValue (call_Params call) = true)
    /\ (forall res,
          Codec.readRPC fuel d (Codec.IntoResponse (mkResponse [] zeroValue)) =
            Ok (e, Codec.IntoResponse res) ->
          forallb wfValue (resp_Params res) = true /\ wfValue (resp_Fault res) = true).
Proof.
  intros fuel d e. split; [|split].
  - intros v H. unfold Codec.readRPC in H.
    destruct (readValue fuel zeroValue (newReader d)) as [[[ev v'] r']| | |] eqn:E;
      try discriminate.
    cbn [obind] in H. injection H as _ <-.
    eapply (proj1 (read_wf fuel)); [| | exact E]; reflexivity.
  - intros call H. unfold Codec.readRPC in H.
    destruct (readCall fuel (mkCall "" []) (newReader d)) as [[[ev c'] r']| | |] eqn:E;
      try discriminate.
    cbn [obind] in H. injection H as _ <-.
    eapply readCall_wf; [|exact E]. reflexivity.
  - intros res H. unfold Codec.readRPC in H.
    destruct (readResponse fuel (mkResponse [] zeroValue) (newReader d))
      as [[[ev c'] r']| | |] eqn:E; try discriminate.
    cbn [obind] in H. injection H as _ <-. split.
    + eapply readResponse_params_wf; [|exact E]. reflexivity.
    + eapply readResponse_wf; [| |exact E]; reflexivity.
Qed.

(** A document that breaks off in an array, after a boolean that is no
    boolean. *)
Definition brokenValue : list Token :=
  [StartElement "value"; StartElement "array"; StartElement "data";
   StartElement "value"; StartElement "int"; CharData "12"; EndElement "int";
   EndElement "value";
   StartElement "value"; StartElement "boolean"; CharData "yes"].

Lemma reader_builds_well_formed_values_witness :
  exists e v,
    Codec.readRPC 5 (mkDecoder brokenValue io_EOF) (Codec.IntoValue zeroValue) =
      Ok (e, Codec.IntoValue v)
    /\ wfValue v = true.
Proof.
  eexists _, _. split.
  - vm_compute. reflexivity.
  - apply (proj1 (reader_builds_well_formed_values 5 (mkDecoder brokenValue io_EOF) None)).
    vm_compute. reflexivity.
Defined.

Lemma forEach_emits {A} (f : A -> writing) (l : list A) :
  Forall (fun a => exists b, emits (f a) b) l -> exists b, emits (forEach f l) b.
Proof.
  induction 1 as [|a l [b He] _ [bs Hes]].
  - exists "". apply emits_skip.
  - exists (b ++ bs). simpl. now apply emits_andThen.
Qed.

(** The shape of a well-formed value. *)
Ltac wf_shape H :=
  cbn [wfValue] in H;
  repeat match type of H with
    | context [match ?x with _ => _ end] =>
        is_var x; destruct x; try discriminate H; cbn [wfValue] in H
    end.

(** The writer writes every well-formed value: no type assertion fails. *)
Lemma writeValue_emits :
  forall r, wfValue r = true -> exists b, emits (writeValue r) b.
Proof.
  induction r as [val k IHitems IHmembers] using rpcValue_induction.
  intros H.
  assert (Hwrap : forall fn, (exists b, emits fn b) ->
                             exists b, emits (writeXML valueTag fn) b).
  { intros fn [b Hb]. eexists. apply emits_writeXML, Hb. }
  destruct k.
  - apply Hwrap. exists "". apply emits_skip.
  - wf_shape H; apply Hwrap; eexists; apply emits_writeRaw.
  - wf_shape H; apply Hwrap; eexists; apply emits_writeRaw.
  - wf_shape H; apply Hwrap; eexists; apply emits_writeRaw.
  - wf_shape H; apply Hwrap; eexists; apply emits_writeRaw.
  - wf_shape H; apply Hwrap; eexists; apply emits_writeRaw.
  - wf_shape H. apply Hwrap. cbn [writeValue]. destruct (noneOf markup s).
    + eexists. apply emits_writeRaw.
    + eexists. apply emits_writeXML, emits_WriteString.
  - wf_shape H. simpl in IHitems.
    assert (Hall : Forall (fun a => exists b, emits (writeValue a) b) array).
    { clear IHmembers. induction IHitems as [|a l Ha _ IH]; constructor.
      - apply Ha. simpl in H. now apply andb_prop in H as [H _].
      - apply IH. simpl in H. now apply andb_prop in H as [_ H]. }
    destruct (forEach_emits writeValue array Hall) as [bs He].
    apply Hwrap. eexists. apply emits_writeXML, emits_writeXML, He.
  - wf_shape H. simpl in IHmembers.
    set (f := fun m : rpcEntry =>
                match m with
                | RpcEntry name mv =>
                    writeXML memberTag (andThen (writeRaw nameTag name) (writeValue mv))
                end).
    assert (Hall : Forall (fun a => exists b, emits (f a) b) members).
    { clear IHitems. induction IHmembers as [|[n v] l Ha _ IH]; constructor.
      - simpl in H. apply andb_prop in H as [H _].
        destruct (Ha H) as [bv Hev].
        eexists. unfold f. apply emits_writeXML.
        apply emits_andThen; [apply emits_writeRaw | exact Hev].
      - apply IH. simpl in H. now apply andb_prop in H as [_ H]. }
    destruct (forEach_emits f members Hall) as [bs He].
    apply Hwrap. eexists. apply emits_writeXML, He.
Qed.

Lemma writeParamList_emits (params : list rpcValue) :
  forallb wfValue params = true -> exists b, emits (writeParamList params) b.
Proof.
  intros H.
  assert (Hall : Forall (fun v => exists b, emits (writeXML paramTag (writeValue v)) b)
                   params).
  { apply Forall_forall. intros v Hv. rewrite forallb_forall in H.
    destruct (writeValue_emits v (H v Hv)) as [b He].
    eexists. apply emits_writeXML, He. }
  destruct (forEach_emits _ params Hall) as [b He].
  eexists. apply emits_writeXML, He.
Qed.

(** X12. The writer writes every well-formed message: for a value whose
    payloads are of the types that the kinds tell, for a call with such
    parameters and for a response with such parameters and such a fault,
    whatever the strings in them, [writeRPC] returns no error and does not
    panic. *)
Theorem writer_writes_well_formed_messages :
  (forall r, wfValue r = true ->
     exists b, Codec.writeRPC (Codec.FromValue r) = Ok (None, b))
  /\ (forall call, forallb wfValue (call_Params call) = true ->
        exists b, Codec.writeRPC (Codec.FromCall call) = Ok (None, b))
  /\ (forall res,
        forallb wfValue (resp_Params res) = true -> wfValue (resp_Fault res) = true ->
        exists b, Codec.writeRPC (Codec.FromResponse res) = Ok (None, b)).
Proof.
  split; [|split].
  - intros r H. destruct (writeValue_emits r H) as [b He].
    exists b. now apply written_emits.
  - intros [m ps] H. cbn [call_Params] in H.
    destruct (writeParamList_emits ps H) as [b He].
    eexists. apply written_emits. unfold writeCall.
    apply emits_andThen; [apply emits_WriteString|].
    apply emits_writeXML. apply emits_andThen; [apply emits_writeRaw | exact He].
  - intros [ps f] Hp Hf. cbn [resp_Params resp_Fault] in *.
    destruct (writeParamList_emits ps Hp) as [bp Hep].
    destruct (writeValue_emits f Hf) as [bf Hef].
    destruct (wf_isEmpty f Hf) as [[|] Hb].
    + exists (xml_Header ++ startTags methodResponseTag ++ bp ++
              endTags methodResponseTag).
      apply written_emits. unfold writeResponse.
      apply emits_andThen; [apply emits_WriteString|].
      apply emits_writeXML. cbn [resp_Params resp_Fault].
      intros w. rewrite Hb. cbn [obind]. apply Hep.
    + exists (xml_Header ++ startTags methodResponseTag ++
              (startTags faultTag ++ bf ++ endTags faultTag) ++
              endTags methodResponseTag).
      apply written_emits. unfold writeResponse.
      apply emits_andThen; [apply emits_WriteString|].
      apply emits_writeXML. cbn [resp_Params resp_Fault].
      intros w. rewrite Hb. cbn [obind]. apply (emits_writeXML faultTag _ _ Hef).
Qed.

(** A value with a string that holds markup and bytes that are no text, in
    a member whose name is empty. *)
Definition oddValue : rpcValue :=
  RpcValue
    (idyn TRpcEntries
       (DEntries
          [RpcEntry ""
             (RpcValue (idyn TString (DString (String (ascii_of_N 0) "<a>")))
                stringKind);
           RpcEntry "n" (RpcValue (idyn TUint16 (DInt (-1))) intKind)]))
    structKind.

Lemma writer_writes_well_formed_messages_witness :
  wfValue oddValue = true /\
  exists b, Codec.writeRPC (Codec.FromValue oddValue) = Ok (None, b).
Proof.
  split; [reflexivity|].
  apply (proj1 writer_writes_well_formed_messages oddValue). reflexivity.
Defined.

(** ** Input that ends early *)

Lemma token_end (r : xmlReader) (fin : error) :
  stands r [] fin -> token r = (None, Some fin, before [] fin).
Proof.
  destruct r as [[p f] [pk|]]; unfold stands, stream, token; simpl;
    intros [H1 H2]; subst; [discriminate | reflexivity].
Qed.

Lemma trim_end (r : xmlReader) (fin : error) :
  skipBlank (stream r) = [] -> final (dec r) = fin -> trim r = before [] fin.
Proof.
  destruct r as [[p f] [pk|]]; unfold stream, trim; simpl; intros H1 H2; subst.
  - destruct pk; try discriminate. destruct (isBlank text); [|discriminate].
    now rewrite H1.
  - now rewrite H1.
Qed.

Lemma expectStart_end_of_input (name : string) (r : xmlReader) (fin : error) :
  skipBlank (stream r) = [] -> final (dec r) = fin ->
  expectStart name r = (Some fin, before [] fin).
Proof.
  intros H1 H2. unfold expectStart, nextStart. rewrite (trim_end r fin H1 H2).
  reflexivity.
Qed.

Lemma expectEnd_end_of_input (name : string) (r : xmlReader) (fin : error) :
  skipBlank (stream r) = [] -> final (dec r) = fin ->
  expectEnd name r = (Some fin, before [] fin).
Proof.
  intros H1 H2. unfold expectEnd, nextEnd. rewrite (trim_end r fin H1 H2).
  reflexivity.
Qed.

Lemma readHeader_end_of_input (r : xmlReader) (fin : error) :
  skipBlank (stream r) = [] -> final (dec r) = fin ->
  readHeader r = (Some fin, before [] fin).
Proof.
  intros H1 H2. unfold readHeader. rewrite (trim_end r fin H1 H2). reflexivity.
Qed.

(** X13. A request without a document is an invalid request: when the
    input holds nothing, or white space only, and ends at [io.EOF],
    [readRequest] returns the [InvalidRequest] fault with the message
    [invalid method name ''], and leaves the method and the receiver as
    they were. *)
Theorem empty_request_is_invalid :
  forall (fuel : nat) (d : Decoder) (method : string) (params : target),
    skipBlank (pending d) = [] -> final d = io_EOF ->
    Codec.checkPointer params = Ok None ->
    Codec.readRequest fuel d method params =
      Ok (Some (FaultError (mkFault (-32600) "invalid method name ''")),
          method, slotOf params).
Proof.
  intros fuel d method params Hd Hfin Hp.
  unfold Codec.readRequest. rewrite Hp. cbn [obind].
  unfold Codec.readRPC, readCall.
  rewrite (readHeader_end_of_input (newReader d) io_EOF Hd Hfin).
  reflexivity.
Qed.

Lemma empty_request_is_invalid_witness :
  Codec.readRequest 3 (mkDecoder [CharData " "] io_EOF) "m" (ToPtr TInt (DInt 1)) =
    Ok (Some (FaultError (mkFault (-32600) "invalid method name ''")), "m", DInt 1).
Proof.
  apply (empty_request_is_invalid 3 (mkDecoder [CharData " "] io_EOF) "m"
           (ToPtr TInt (DInt 1))); reflexivity.
Defined.

(** *** Closing tags that are missing *)

Lemma readParamItems_cut (params : list rpcValue) :
  Forall readsBack params ->
  forall fuel acc rd fin,
    (weightItems params <= fuel)%nat ->
    stands rd (flat_map paramTokens params) fin ->
    readParamItems fuel acc rd = Ok (None, (acc ++ params)%list, before [] fin).
Proof.
  induction 1 as [|v params Hv _ IH]; intros fuel acc rd fin Hfuel H.
  - destruct fuel as [|fuel]; [simpl in Hfuel; lia|].
    cbn [readParamItems]. simpl in H. destruct H as [H1 H2].
    rewrite (expectStart_end_of_input "param" rd fin); [|now rewrite H1|exact H2].
    now rewrite List.app_nil_r.
  - destruct fuel as [|fuel]; [simpl in Hfuel; lia|].
    unfold weightItems in Hfuel. cbn [fold_right] in Hfuel.
    fold (weightItems params) in Hfuel.
    cbn [readParamItems]. cbn [flat_map paramTokens app] in H.
    rewrite <- !List.app_assoc in H. cbn [app] in H.
    rewrite (expectStart_start _ _ _ _ H).
    rewrite (Hv (S fuel) _ (EndElement "param" :: flat_map paramTokens params)%list fin);
      [| lia | apply stands_before].
    cbn [obind]. rewrite expectEnd_before.
    rewrite (IH fuel (acc ++ [v])%list (before (flat_map paramTokens params) fin) fin);
      [| lia | apply stands_before].
    now rewrite <- List.app_assoc.
Qed.

(** A message without the closing tags of its parameters and of its
    root. *)
Definition cutCallTokens (method : string) (params : list rpcValue) : list Token :=
  (headerTokens ++
   StartElement "methodCall" ::
   element "methodName" method ++
   StartElement "params" :: flat_map paramTokens params)%list.

Definition cutResponseTokens (params : list rpcValue) : list Token :=
  (headerTokens ++
   StartElement "methodResponse" ::
   StartElement "params" :: flat_map paramTokens params)%list.

(** X14. Closing tags are not required: a call or a response that ends at
    [io.EOF] after its last parameter, without the closing tags of its
    parameters and of its root element, is read by [readRPC] without an
    error, with all its parameters. *)
Theorem closing_tags_not_required :
  forall (method : string) (params : list rpcValue) (fuel : nat),
    method <> "" -> forallb wire params = true ->
    (weightItems params <= fuel)%nat ->
    Codec.readRPC fuel (mkDecoder (cutCallTokens method params) io_EOF)
      (Codec.IntoCall (mkCall "" [])) =
      Ok (None, Codec.IntoCall (mkCall method params))
    /\ Codec.readRPC fuel (mkDecoder (cutResponseTokens params) io_EOF)
         (Codec.IntoResponse (mkResponse [] zeroValue)) =
         Ok (None, Codec.IntoResponse (mkResponse params zeroValue)).
Proof.
  intros method params fuel Hm Hp Hfuel.
  pose proof (wire_all_readsBack _ Hp) as Hb. split.
  - unfold Codec.readRPC.
    change (newReader (mkDecoder (cutCallTokens method params) io_EOF))
      with (before (cutCallTokens method params) io_EOF).
    unfold readCall, cutCallTokens, headerTokens. cbn [app].
    rewrite (readHeader_header _ _ _ io_EOF (stands_before _ _)).
    rewrite (expectStart_blank _ _ _ _ io_EOF blank_line_feed (stands_before _ _)).
    rewrite (expectStart_start _ _ _ io_EOF (stands_before _ _)).
    destruct method as [|c method]; [contradiction|].
    unfold element. cbn [textTokens app].
    rewrite (expectStart_start _ _ _ io_EOF (stands_before _ _)).
    rewrite (nextText_text _ _ _ io_EOF (stands_before _ _)).
    rewrite expectEnd_before. cbn [call_Params].
    unfold readParams.
    rewrite (expectStart_start _ _ _ io_EOF (stands_before _ _)).
    rewrite (readParamItems_cut params Hb fuel [] _ io_EOF Hfuel (stands_before _ _)).
    cbn [obind app].
    rewrite (expectEnd_end_of_input "params" (before [] io_EOF) io_EOF eq_refl eq_refl).
    reflexivity.
  - unfold Codec.readRPC.
    change (newReader (mkDecoder (cutResponseTokens params) io_EOF))
      with (before (cutResponseTokens params) io_EOF).
    unfold readResponse, cutResponseTokens, headerTokens. cbn [app].
    rewrite (readHeader_header _ _ _ io_EOF (stands_before _ _)).
    rewrite (expectStart_blank _ _ _ _ io_EOF blank_line_feed (stands_before _ _)).
    rewrite (expectStart_start _ _ _ io_EOF (stands_before _ _)).
    unfold readParams. cbn [resp_Params].
    rewrite (expectStart_start _ _ _ io_EOF (stands_before _ _)).
    rewrite (readParamItems_cut params Hb fuel [] _ io_EOF Hfuel (stands_before _ _)).
    cbn [obind app].
    rewrite (expectEnd_end_of_input "params" (before [] io_EOF) io_EOF eq_refl eq_refl).
    cbn [obind]. cbv beta zeta iota delta [isEOF].
    rewrite (expectEnd_end_of_input "methodResponse" (before [] io_EOF) io_EOF
               eq_refl eq_refl).
    reflexivity.
Qed.

Lemma closing_tags_not_required_witness :
  Codec.readRPC 50 (mkDecoder (cutCallTokens "Service.Say" [aPersonValue]) io_EOF)
    (Codec.IntoCall (mkCall "" [])) =
    Ok (None, Codec.IntoCall (mkCall "Service.Say" [aPersonValue]))
  /\ Codec.readRPC 50 (mkDecoder (cutResponseTokens [aPersonValue]) io_EOF)
       (Codec.IntoResponse (mkResponse [] zeroValue)) =
       Ok (None, Codec.IntoResponse (mkResponse [aPersonValue] zeroValue)).
Proof.
  apply (closing_tags_not_required "Service.Say" [aPersonValue] 50).
  - discriminate.
  - vm_compute. reflexivity.
  - apply Nat.leb_le. vm_compute. reflexivity.
Defined.

(** ** The declaration at the head of a document *)

Lemma skipBlank_head (l : list Token) (s : string) (rest : list Token) :
  skipBlank l = CharData s :: rest -> isBlank s = false.
Proof.
  induction l as [|t l IH]; [discriminate|]. simpl.
  destruct t; try (intros [= <- _]); try discriminate.
  destruct (isBlank text) eqn:E; [exact IH|]. now intros [= <- _].
Qed.

(** The first token that is no white space is no XML declaration. *)
Definition undeclared (toks : list Token) : bool :=
  match skipBlank toks with
  | ProcInst target _ :: _ => negb (String.eqb target "xml")
  | _ => true
  end.

(** Without a declaration, [readHeader] leaves the reader where the next
    start tag is looked for. *)
Lemma readHeader_undeclared (name : string) (toks : list Token) (fin : error) :
  undeclared toks = true ->
  match readHeader (before toks fin) with
  | (None, r) => expectStart name r = expectStart name (before toks fin)
  | (Some e, _) => expectStart name (before toks fin) = (Some e, before [] fin)
  end.
Proof.
  unfold undeclared. intros H.
  destruct (skipBlank toks) as [|t rest] eqn:E.
  - rewrite (readHeader_end_of_input (before toks fin) fin E eq_refl).
    apply (expectStart_end_of_input name (before toks fin) fin E eq_refl).
  - assert (Ht : trim (before toks fin) = mkReader (mkDecoder rest fin) (Some t)).
    { unfold trim, before. cbn [peek dec pending final]. now rewrite E. }
    assert (Ht' : trim (mkReader (mkDecoder rest fin) (Some t)) =
                  mkReader (mkDecoder rest fin) (Some t)).
    { unfold trim. cbn [peek]. destruct t; try reflexivity.
      now rewrite (skipBlank_head _ _ _ E). }
    assert (Hh : readHeader (before toks fin) =
                 (None, mkReader (mkDecoder rest fin) (Some t))).
    { unfold readHeader. rewrite Ht. unfold token. cbn [peek dec].
      destruct t; try reflexivity.
      now rewrite (proj1 (negb_true_iff _) H). }
    rewrite Hh. unfold expectStart, nextStart. now rewrite Ht, Ht'.
Qed.

(** X15. The XML declaration is optional on input: a call or a response
    is read by [readRPC] with the same result, error or not, with an XML
    declaration that the decoder accepts before it (version 1.0 and
    encoding UTF-8, where it names them) and without one. *)
Theorem declaration_is_optional :
  forall (fuel : nat) (inst : string) (toks : list Token) (fin : error)
         (call : methodCall) (res : methodResponse),
    declaration inst = true ->
    undeclared toks = true ->
    Codec.readRPC fuel (mkDecoder (ProcInst "xml" inst :: toks) fin) (Codec.IntoCall call) =
      Codec.readRPC fuel (mkDecoder toks fin) (Codec.IntoCall call)
    /\ Codec.readRPC fuel (mkDecoder (ProcInst "xml" inst :: toks) fin)
         (Codec.IntoResponse res) =
       Codec.readRPC fuel (mkDecoder toks fin) (Codec.IntoResponse res).
Proof.
  intros fuel inst toks fin call res _ H. unfold Codec.readRPC.
  change (newReader (mkDecoder (ProcInst "xml" inst :: toks) fin))
    with (before (ProcInst "xml" inst :: toks) fin).
  change (newReader (mkDecoder toks fin)) with (before toks fin).
  split.
  - unfold readCall.
    rewrite (readHeader_header _ _ _ fin (stands_before _ _)).
    pose proof (readHeader_undeclared "methodCall" toks fin H) as Hh.
    destruct (readHeader (before toks fin)) as [[e|] r1].
    + rewrite Hh. reflexivity.
    + rewrite Hh. reflexivity.
  - unfold readResponse.
    rewrite (readHeader_header _ _ _ fin (stands_before _ _)).
    pose proof (readHeader_undeclared "methodResponse" toks fin H) as Hh.
    destruct (readHeader (before toks fin)) as [[e|] r1].
    + rewrite Hh. reflexivity.
    + rewrite Hh. reflexivity.
Qed.

Lemma declaration_is_optional_witness :
  Codec.readRPC 9
    (mkDecoder (ProcInst "xml" headerInst ::
                [StartElement "methodCall"; StartElement "methodName"; CharData "ping";
                 EndElement "methodName"; EndElement "methodCall"]) io_EOF)
    (Codec.IntoCall (mkCall "" [])) =
  Codec.readRPC 9
    (mkDecoder [StartElement "methodCall"; StartElement "methodName"; CharData "ping";
                EndElement "methodName"; EndElement "methodCall"] io_EOF)
    (Codec.IntoCall (mkCall "" [])).
Proof.
  apply (proj1 (declaration_is_optional 9 headerInst
                  [StartElement "methodCall"; StartElement "methodName"; CharData "ping";
                   EndElement "methodName"; EndElement "methodCall"] io_EOF
                  (mkCall "" []) (mkResponse [] zeroValue) eq_refl eq_refl)).
Defined.

(** ** Projections into variables that hold values *)

(** X16. A projection appends to a slice: for every projectable slice that
    is no byte slice, the mapped value written into a variable that
    already holds a slice leaves the elements that were there, followed by
    the elements of the native slice, and returns no error. *)
Theorem projection_appends_to_slice :
  forall (et : gotype) (items old : list godata),
    et <> TUint8 ->
    projectable (TSlice et) (DSeq items) = true ->
    exists r,
      makeValue (idyn (TSlice et) (DSeq items)) = Ok r
      /\ writeTo r (ToPtr (TSlice et) (DSeq old)) = Ok (None, DSeq (old ++ items)).
Proof.
  intros et items old Het H.
  assert (Hk : primitiveKind (idyn (TSlice et) (DSeq items)) = None)
    by (destruct et; try reflexivity; contradiction).
  cbn [projectable] in H. rewrite Hk in H.
  assert (Hall : Forall (fun d => forall t, projectable t d = true -> mapped t d) items).
  { apply Forall_forall. intros d _ t. apply projectable_mapped. }
  destruct (items_mapped et items Hall H) as [array [Hm Hw]].
  exists (RpcValue (idyn TRpcValues (DValues array)) arrayKind). split.
  - unfold makeValue. cbn [makeValue_dyn]. rewrite Hk. cbn [kindOf]. cbv iota.
    rewrite Hm. reflexivity.
  - destruct array as [|r array].
    + apply mapM_length in Hm. destruct items; [|discriminate].
      now rewrite List.app_nil_r.
    + cbn [writeTo isEmpty kind value length Nat.eqb obind].
      cbn [gotype_eqb kindOf reflect.eqb negb]. cbv iota. rewrite Hw.
      cbn [obind]. now rewrite setValue_same.
Qed.

Lemma projection_appends_to_slice_witness :
  exists r,
    makeValue (idyn (TSlice TString) (DSeq [DString "c"; DString "d"])) = Ok r
    /\ writeTo r (ToPtr (TSlice TString) (DSeq [DString "a"; DString "b"])) =
         Ok (None, DSeq [DString "a"; DString "b"; DString "c"; DString "d"]).
Proof.
  apply (projection_appends_to_slice TString [DString "c"; DString "d"]
           [DString "a"; DString "b"]).
  - discriminate.
  - reflexivity.
Defined.

Lemma writeItems_leaves (params : list rpcValue) :
  forallb (fun p => isLeafKind (kind p)) params = true ->
  writeItems writeTo TInterface params =
    Ok (None, map (fun p => DIface (value p)) params).
Proof.
  induction params as [|[val k] params IH]; [reflexivity|].
  cbn [forallb kind]. intros H. apply andb_prop in H as [Hk Hrest].
  cbn [writeItems]. rewrite writeTo_leaf by exact Hk.
  assert (Hs : setValue TInterface val (zero TInterface) = (None, DIface val)).
  { destruct val as [|t d]; [reflexivity|]. apply setValue_interface. discriminate. }
  rewrite Hs. cbn [obind]. rewrite (IH Hrest). reflexivity.
Qed.

(** X17. Several parameters fill a slice: two or more parameters of the
    kinds boolean, int, double, dateTime, base64 and string, written by
    [rpcParams.writeTo] to a pointer to a [[]interface{}], are appended to
    it in their order, each as the payload of the value, and no error is
    returned. *)
Theorem parameters_fill_a_slice :
  forall (params : list rpcValue) (old : list godata),
    (2 <= length params)%nat ->
    forallb (fun p => isLeafKind (kind p)) params = true ->
    rpcParams.writeTo params (ToPtr (TSlice TInterface) (DSeq old)) =
      Ok (None, DSeq (old ++ map (fun p => DIface (value p)) params)).
Proof.
  intros params old Hlen H.
  destruct params as [|p [|q params]]; try (simpl in Hlen; lia).
  cbn [rpcParams.writeTo].
  cbn [writeTo isEmpty kind value length Nat.eqb obind].
  cbn [gotype_eqb kindOf reflect.eqb negb]. cbv iota.
  rewrite (writeItems_leaves _ H). cbn [obind].
  now rewrite setValue_same.
Qed.

Lemma parameters_fill_a_slice_witness :
  rpcParams.writeTo
    [RpcValue (idyn TInt (DInt 1)) intKind;
     RpcValue (idyn TString (DString "two")) stringKind]
    (ToPtr (TSlice TInterface) (DSeq [])) =
    Ok (None, DSeq [DIface (idyn TInt (DInt 1)); DIface (idyn TString (DString "two"))]).
Proof.
  apply (parameters_fill_a_slice
           [RpcValue (idyn TInt (DInt 1)) intKind;
            RpcValue (idyn TString (DString "two")) stringKind] []).
  - apply le_n.
  - reflexivity.
Defined.

Lemma writeItems_natives (t : gotype) (ds : list godata) :
  forallb (projectable t) ds = true ->
  exists params,
    makeParams (map (idyn t) ds) = Ok params
    /\ length params = length ds
    /\ writeItems writeTo t params = Ok (None, ds).
Proof.
  induction ds as [|d ds IH]; intros H.
  - exists []. repeat split.
  - cbn [forallb] in H. apply andb_prop in H as [Hd Hds].
    destruct (projectable_mapped d t Hd) as [r [Hm [Hw _]]].
    destruct (IH Hds) as [params [Hps [Hlen Hws]]].
    exists (r :: params). unfold makeParams in *. cbn [map mapM makeValue].
    rewrite Hm. cbn [obind]. rewrite Hps. cbn [obind]. repeat split.
    + simpl. now rewrite Hlen.
    + cbn [writeItems]. rewrite Hw. cbn [obind]. now rewrite Hws.
Qed.

(** X18. Several arguments of one type fill a slice of that type: for two
    or more projectable native values of a type [t], the parameters that
    [makeParams] makes of them, written by [rpcParams.writeTo] to a pointer
    to a slice of [t], are appended to the slice in their order, and no
    error is returned. *)
Theorem arguments_fill_a_typed_slice :
  forall (t : gotype) (ds old : list godata),
    (2 <= length ds)%nat ->
    forallb (projectable t) ds = true ->
    exists params,
      makeParams (map (idyn t) ds) = Ok params
      /\ rpcParams.writeTo params (ToPtr (TSlice t) (DSeq old)) =
           Ok (None, DSeq (old ++ ds)).
Proof.
  intros t ds old Hlen H.
  destruct (writeItems_natives t ds H) as [params [Hps [Hl Hws]]].
  exists params. split; [exact Hps|].
  rewrite <- Hl in Hlen.
  destruct params as [|p [|q params]]; try (simpl in Hlen; lia).
  cbn [rpcParams.writeTo].
  cbn [writeTo isEmpty kind value length Nat.eqb obind].
  cbn [gotype_eqb kindOf reflect.eqb negb]. cbv iota.
  rewrite Hws. cbn [obind]. now rewrite setValue_same.
Qed.

Lemma arguments_fill_a_typed_slice_witness :
  exists params,
    makeParams (map (idyn TInt) [DInt 5; DInt 9; DInt 7; DInt 5]) = Ok params
    /\ rpcParams.writeTo params (ToPtr (TSlice TInt) (DSeq [])) =
         Ok (None, DSeq [DInt 5; DInt 9; DInt 7; DInt 5]).
Proof.
  apply (arguments_fill_a_typed_slice TInt [DInt 5; DInt 9; DInt 7; DInt 5] []).
  - repeat constructor.
  - reflexivity.
Defined.

(** ** The server codec *)

Lemma Split_nonempty (s : string) : Split s <> [].
Proof.
  induction s as [|c s IH]; [discriminate|]. simpl.
  destruct (Ascii.eqb c "."); [discriminate|].
  destruct (Split s); [contradiction | discriminate].
Qed.

Lemma Split_dotless (s : string) : noneOf "." s = true -> Split s = [s].
Proof.
  unfold noneOf. induction s as [|c s IH]; [reflexivity|].
  cbn [chars list_ascii_of_string forallb]. intros H.
  apply andb_prop in H as [Hc Hs]. cbn [Split].
  unfold memchr in Hc. simpl in Hc. rewrite orb_false_r in Hc.
  apply negb_true_iff in Hc. rewrite Hc.
  unfold chars in IH. now rewrite (IH Hs).
Qed.

Lemma Split_two (service name : string) :
  noneOf "." service = true -> noneOf "." name = true ->
  Split (service ++ "." ++ name) = [service; name].
Proof.
  unfold noneOf. intros Hs Hn. induction service as [|c s IH].
  - simpl. now rewrite (Split_dotless name Hn).
  - cbn [chars list_ascii_of_string forallb] in Hs.
    apply andb_prop in Hs as [Hc Hs]. cbn [append Split].
    unfold memchr in Hc. simpl in Hc. rewrite orb_false_r in Hc.
    apply negb_true_iff in Hc. rewrite Hc.
    unfold chars in IH. specialize (IH Hs). cbn [append] in IH.
    now rewrite IH.
Qed.

(** The number of points in a name. *)
Fixpoint points (s : string) : nat :=
  match s with
  | EmptyString => 0
  | String c s' => (if Ascii.eqb c "." then 1 else 0) + points s'
  end.

Lemma Split_length (s : string) : length (Split s) = S (points s).
Proof.
  induction s as [|c s IH]; [reflexivity|]. cbn [Split points].
  destruct (Ascii.eqb c "."); simpl; [now rewrite IH|].
  pose proof (Split_nonempty s) as Hne.
  destruct (Split s); [contradiction|]. exact IH.
Qed.

(** X19. Aliases are resolved for names of two parts only: for a method
    name [service.name] in which neither part holds a point, the method
    served is [service.] followed by the method last registered for the
    alias [name], and the name itself when [name] is no alias; a method
    name without a point, or with more than one, is served as it is. *)
Theorem alias_resolution :
  forall (c : ServerCodec) (service name method : string),
    (noneOf "." service = true -> noneOf "." name = true ->
     resolveAlias c (service ++ "." ++ name) =
       service ++ "." ++ match alias_lookup c name with
                         | Some method' => method'
                         | None => name
                         end)
    /\ (points method <> 1%nat -> resolveAlias c method = method).
Proof.
  intros c service name method. split.
  - intros Hs Hn. unfold resolveAlias. rewrite (Split_two _ _ Hs Hn).
    destruct (alias_lookup c name); reflexivity.
  - intros Hp. unfold resolveAlias. pose proof (Split_length method) as Hl.
    destruct (Split method) as [|a [|b [|x l]]]; try reflexivity.
    simpl in Hl. injection Hl as Hl. congruence.
Qed.

Lemma alias_resolution_witness :
  resolveAlias (RegisterAlias NewServerCodec "add" "Add") ("Arith" ++ "." ++ "add") =
    "Arith.Add"
  /\ resolveAlias (RegisterAlias NewServerCodec "add" "Add") "system.Arith.add" =
       "system.Arith.add".
Proof.
  destruct (alias_resolution (RegisterAlias NewServerCodec "add" "Add")
              "Arith" "add" "system.Arith.add") as [H1 H2].
  split.
  - apply H1; reflexivity.
  - apply H2. discriminate.
Defined.

(** X20. A request sent is the request served: for a method name
    [service.name] of two parts without points and a projectable native
    argument whose mapped value [wire] accepts, what [writeRequest] writes
    gives a server request whose method is the resolved name, without an
    error, and whose arguments [ReadRequest] writes to a new variable of
    the type of the argument as the argument itself. *)
Theorem request_is_served :
  forall (c : ServerCodec) (h : Header) (service name : string)
         (t : gotype) (d : godata) (r : rpcValue) (fuel : nat),
    noneOf "." service = true -> noneOf "." name = true ->
    isText service = true -> isText name = true ->
    projectable t d = true -> makeValue (idyn t d) = Ok r -> wire r = true ->
    (weight r + 2 <= fuel)%nat ->
    exists b dcd s,
      Codec.writeRequest (service ++ "." ++ name) [idyn t d] = Ok (None, b)
      /\ xml_NewDecoder b = Some dcd
      /\ NewRequest c fuel h dcd = Ok s
      /\ serverRequest_Method s =
           (service ++ "." ++ match alias_lookup c name with
                              | Some method' => method'
                              | None => name
                              end, None)
      /\ ReadRequest s (ToPtr t (zero t)) = Ok (None, d).
Proof.
  intros c h service name t d r fuel Hs Hn Hts Htn Hp Hmk Hw Hfuel.
  destruct (projectable_mapped d t Hp) as [r' [Hm' [_ Hwr]]].
  assert (r' = r) by (unfold makeValue in Hmk; congruence). subst r'.
  assert (Hname : isName (service ++ "." ++ name) = true).
  { unfold isName. apply andb_true_intro. split.
    - destruct service; reflexivity.
    - unfold isText in *. rewrite !chars_app, !forallb_app, Hts, Htn. reflexivity. }
  destruct (call_read_back (service ++ "." ++ name) [r] fuel Hname)
    as [b [dcd [Hb [Hd Hr]]]].
  { cbn [forallb]. now rewrite Hw. }
  { unfold weightItems. cbn [fold_right]. lia. }
  exists b, dcd.
  eexists. split; [|split; [exact Hd|split; [|split]]].
  - unfold Codec.writeRequest, makeCall, makeParams. cbn [mapM].
    rewrite Hmk. cbn [obind]. exact Hb.
  - unfold NewRequest. rewrite Hr. cbn [obind Method call_Params]. reflexivity.
  - unfold serverRequest_Method. cbn [call err Method].
    now rewrite (proj1 (alias_resolution c service name "") Hs Hn).
  - unfold ReadRequest. cbn [call call_Params rpcParams.writeTo]. exact Hwr.
Qed.

Lemma request_is_served_witness :
  exists b dcd s,
    Codec.writeRequest ("People" ++ "." ++ "add") [idyn typeOfPerson aPerson] =
      Ok (None, b)
    /\ xml_NewDecoder b = Some dcd
    /\ NewRequest (RegisterAlias NewServerCodec "add" "Add") 41 [] dcd = Ok s
    /\ serverRequest_Method s = ("People.Add", None)
    /\ ReadRequest s (ToPtr typeOfPerson (zero typeOfPerson)) = Ok (None, aPerson).
Proof.
  apply (request_is_served (RegisterAlias NewServerCodec "add" "Add") []
           "People" "add" typeOfPerson aPerson aPersonValue 41).
  - reflexivity.
  - reflexivity.
  - reflexivity.
  - reflexivity.
  - vm_compute. reflexivity.
  - vm_compute. reflexivity.
  - vm_compute. reflexivity.
  - apply Nat.leb_le. vm_compute. reflexivity.
Defined.

(** *** Errors of a service *)

(** The fault that [WriteError] sends for an error. *)
Definition faultOfError (e : serviceError) : Fault :=
  match e with
  | AFault f => f
  | AnError text =>
      if HasPrefix text methodNotFound || HasPrefix text serviceNotFound
      then mkFault (-32601) "requested method not found"
      else mkFault (-32603) (if isEmptyString text then "internal xml-rpc error"
                             else text)
  end.

(** The errors whose fault is read back: a fault that [wireFault] accepts,
    or a text of printable ASCII characters, tabs and line feeds without a
    [%]. *)
Definition sendable (e : serviceError) : bool :=
  match e with
  | AFault f => wireFault f
  | AnError text => noneOf "%" text && forallb isPlain (chars text)
  end.

Lemma contentType_kept (w : ResponseWriter) (h : Header) (v : string) :
  Header_Get (respHeader
                (newCompressor
                   (mkResponseWriter (Header_Set (respHeader w) "Content-Type" v)
                      (respEncoding w) (respBody w)) h)) "Content-Type" = v.
Proof.
  unfold newCompressor.
  destruct (String.eqb _ "gzip"); [reflexivity|].
  destruct (String.eqb _ "deflate"); reflexivity.
Qed.

Lemma body_kept (w : ResponseWriter) (h : Header) :
  respBody (newCompressor w h) = respBody w.
Proof.
  unfold newCompressor.
  destruct (String.eqb _ "gzip"); [reflexivity|].
  destruct (String.eqb _ "deflate"); reflexivity.
Qed.

(** X21. An error of a service reaches the client as a fault: for a
    [Fault] that is read back, or any other error whose text is of
    printable ASCII characters without a [%], [WriteError] appends to the
    body a response, with the content type [text/xml; charset=utf-8], from
    which [readResponse] returns as its error the [Fault] itself, the fault
    -32601 [requested method not found] for an error whose text starts
    with one of the two texts of gorilla, and for another error the fault
    -32603 with the text of the error, or [internal xml-rpc error] for no
    text. *)
Theorem service_error_is_received_as_fault :
  forall (s : serverRequest) (w : ResponseWriter) (status : Z) (e : serviceError)
         (reply : target) (fuel : nat),
    sendable e = true -> Codec.checkPointer reply = Ok None -> (7 <= fuel)%nat ->
    exists w' b d,
      WriteError s w status e = Ok w'
      /\ respBody w' = respBody w ++ b
      /\ Header_Get (respHeader w') "Content-Type" = "text/xml; charset=utf-8"
      /\ xml_NewDecoder b = Some d
      /\ Codec.readResponse fuel d reply =
           Ok (Some (FaultError (faultOfError e)), slotOf reply).
Proof.
  intros s w status e reply fuel He Hreply Hfuel.
  assert (Hsend : forall f, wireFault f = true ->
            exists w' b d,
              WriteResponse s w (PayloadFault f) = Ok w'
              /\ respBody w' = respBody w ++ b
              /\ Header_Get (respHeader w') "Content-Type" = "text/xml; charset=utf-8"
              /\ xml_NewDecoder b = Some d
              /\ Codec.readResponse fuel d reply = Ok (Some (FaultError f), slotOf reply)).
  { intros f Hf.
    destruct (fault_response_read f reply fuel Hf Hreply Hfuel) as [b [d [Hb [Hd Hr]]]].
    assert (Hwr : Codec.writeResponse (PayloadFault f) = Ok (None, b)).
    { unfold Codec.writeResponse, makeResponse. rewrite makeValue_fault. exact Hb. }
    eexists _, b, d. split; [|split; [|split; [|split]]].
    - unfold WriteResponse. rewrite Hwr. cbn [obind]. reflexivity.
    - cbn [respBody]. now rewrite body_kept.
    - cbn [respHeader]. apply contentType_kept.
    - exact Hd.
    - exact Hr. }
  destruct e as [f|text]; cbn [WriteError faultOfError sendable] in *.
  - apply Hsend. exact He.
  - apply andb_prop in He as [Hpc Hplain].
    destruct (HasPrefix text methodNotFound || HasPrefix text serviceNotFound).
    + apply (Hsend (New MethodNotFound "")). reflexivity.
    + rewrite Hpc.
      assert (Hf : wireFault (New InternalError text) = true).
      { unfold wireFault, New. cbn [Code Message].
        destruct text; [reflexivity|]. cbn [isEmptyString]. now rewrite Hplain. }
      destruct (Hsend _ Hf) as [w' [b [d H]]]. exists w', b, d.
      destruct text; exact H.
Qed.

Lemma service_error_is_received_as_fault_witness :
  exists w' b d,
    WriteError (mkServerRequest [("Accept-Encoding", "gzip")] (mkCall "A.B" []) None)
      (mkResponseWriter [] "" "") 500 (AnError "rpc: can't find method A.B") = Ok w'
    /\ respBody w' = "" ++ b
    /\ Header_Get (respHeader w') "Content-Type" = "text/xml; charset=utf-8"
    /\ xml_NewDecoder b = Some d
    /\ Codec.readResponse 7 d (ToPtr TInt (DInt 0)) =
         Ok (Some (FaultError (mkFault (-32601) "requested method not found")), DInt 0).
Proof.
  apply (service_error_is_received_as_fault
           (mkServerRequest [("Accept-Encoding", "gzip")] (mkCall "A.B" []) None)
           (mkResponseWriter [] "" "") 500 (AnError "rpc: can't find method A.B")
           (ToPtr TInt (DInt 0)) 7).
  - reflexivity.
  - reflexivity.
  - apply le_n.
Defined.

(** ** The compression of a response *)

(** [w] occurs in [s]. *)
Definition occursIn (w s : string) : Prop :=
  exists pre post, s = pre ++ w ++ post.

Lemma hasPrefix_spec (p s : list ascii) :
  hasPrefix p s = true <-> exists post, s = (p ++ post)%list.
Proof.
  revert s. induction p as [|a p IH]; intros s.
  - split; [intros _; exists s; reflexivity | reflexivity].
  - destruct s as [|c s]; simpl.
    + split; [discriminate | intros [post H]; discriminate].
    + split.
      * intros H. apply andb_prop in H as [Hac Hp].
        apply Ascii.eqb_eq in Hac. subst c.
        apply IH in Hp as [post ->]. exists post. reflexivity.
      * intros [post H]. injection H as -> ->.
        rewrite Ascii.eqb_refl. apply IH. exists post. reflexivity.
Qed.

Lemma occursIn_chars (w s : string) :
  occursIn w s <-> exists pre post, chars s = (pre ++ chars w ++ post)%list.
Proof.
  split.
  - intros (pre & post & ->). exists (chars pre), (chars post).
    now rewrite !chars_app.
  - intros (pre & post & H). exists (str pre), (str post).
    rewrite <- (str_chars s), H, !str_app, str_chars. reflexivity.
Qed.

Lemma FindEncoding_cases (s : list ascii) :
  FindEncoding s = "gzip" \/ FindEncoding s = "deflate" \/
  (FindEncoding s = "" /\
   forall pre post, s <> (pre ++ chars "gzip" ++ post)%list /\
                    s <> (pre ++ chars "deflate" ++ post)%list).
Proof.
  induction s as [|c s IH].
  - right. right. split; [reflexivity|].
    intros pre post. split; destruct pre; discriminate.
  - cbn [FindEncoding].
    destruct (hasPrefix (chars "gzip") (c :: s)) eqn:Eg; [now left|].
    destruct (hasPrefix (chars "deflate") (c :: s)) eqn:Ed; [now right; left|].
    destruct IH as [H | [H | [H Hno]]]; [now left | now right; left|].
    right. right. split; [exact H|]. intros pre post. split; intros E.
    + destruct pre as [|a pre].
      * assert (hasPrefix (chars "gzip") (c :: s) = true)
          by (apply hasPrefix_spec; exists post; exact E).
        congruence.
      * injection E as _ E. apply (proj1 (Hno pre post)). exact E.
    + destruct pre as [|a pre].
      * assert (hasPrefix (chars "deflate") (c :: s) = true)
          by (apply hasPrefix_spec; exists post; exact E).
        congruence.
      * injection E as _ E. apply (proj2 (Hno pre post)). exact E.
Qed.

Lemma FindEncoding_found (s : list ascii) (w : string) :
  w = "gzip" \/ w = "deflate" ->
  (exists pre post, s = (pre ++ chars w ++ post)%list) -> FindEncoding s <> "".
Proof.
  intros Hw (pre & post & E).
  destruct (FindEncoding_cases s) as [H | [H | [_ Hno]]];
    [rewrite H; discriminate | rewrite H; discriminate |].
  exfalso. destruct Hw as [-> | ->];
    [apply (proj1 (Hno pre post)) | apply (proj2 (Hno pre post))]; exact E.
Qed.

(** The leftmost of the occurrences of the two words decides. *)
Lemma FindEncoding_leftmost (pre post : list ascii) (word : string) :
  word = "gzip" \/ word = "deflate" ->
  (forall pre' post' word',
      word' = "gzip" \/ word' = "deflate" ->
      (pre ++ chars word ++ post)%list = (pre' ++ chars word' ++ post')%list ->
      (length pre <= length pre')%nat) ->
  FindEncoding (pre ++ chars word ++ post) = word.
Proof.
  intros Hw. induction pre as [|c pre IH]; intros Hmin.
  - destruct Hw as [-> | ->]; reflexivity.
  - cbn [app FindEncoding].
    destruct (hasPrefix (chars "gzip") (c :: pre ++ chars word ++ post)) eqn:Eg.
    { apply hasPrefix_spec in Eg as [post' E].
      specialize (Hmin [] post' "gzip" (or_introl eq_refl) E). simpl in Hmin. lia. }
    destruct (hasPrefix (chars "deflate") (c :: pre ++ chars word ++ post)) eqn:Ed.
    { apply hasPrefix_spec in Ed as [post' E].
      specialize (Hmin [] post' "deflate" (or_intror eq_refl) E). simpl in Hmin. lia. }
    apply IH. intros pre' post' word' Hw' E.
    specialize (Hmin (c :: pre') post' word' Hw').
    cbn [app length] in Hmin. rewrite E in Hmin. specialize (Hmin eq_refl). lia.
Qed.

(** X22. The compression follows the request header alone: when the value
    of [Accept-Encoding] holds neither [gzip] nor [deflate], the response
    writer is used as it is; when it holds one of the two words anywhere,
    whatever stands around it, the response is written through the
    compressor of the word that comes first in the value,
    [Content-Encoding] is set to that word, and what had been written to
    the body is kept. *)
Theorem compression_follows_accept_encoding :
  forall (w : ResponseWriter) (h : Header),
    let accepted := Header_Get h "Accept-Encoding" in
    let zw := newCompressor w h in
    (~ occursIn "gzip" accepted /\ ~ occursIn "deflate" accepted -> zw = w)
    /\ (forall pre word post,
          word = "gzip" \/ word = "deflate" ->
          accepted = pre ++ word ++ post ->
          (forall pre' word' post',
              word' = "gzip" \/ word' = "deflate" ->
              accepted = pre' ++ word' ++ post' ->
              (String.length pre <= String.length pre')%nat) ->
          respEncoding zw = word
          /\ Header_Get (respHeader zw) "Content-Encoding" = word
          /\ respBody zw = respBody w).
Proof.
  intros w h accepted zw. subst zw. unfold newCompressor. fold accepted.
  split.
  - intros [Hg Hd].
    destruct accepted as [|c a] eqn:Ea; [reflexivity|]. cbn [isEmptyString negb].
    destruct (FindEncoding_cases (chars (String c a))) as [H | [H | [H _]]].
    + exfalso. apply Hg.
      clear - H. revert H. generalize (String c a). intros s H.
      apply occursIn_chars. induction (chars s) as [|x l IH]; [discriminate|].
      cbn [FindEncoding] in H.
      destruct (hasPrefix (chars "gzip") (x :: l)) eqn:Eg.
      * apply hasPrefix_spec in Eg as [post E]. exists [], post. exact E.
      * destruct (hasPrefix (chars "deflate") (x :: l)); [discriminate|].
        destruct (IH H) as (pre & post & E). exists (x :: pre), post.
        simpl. now rewrite E.
    + exfalso. apply Hd.
      clear - H. revert H. generalize (String c a). intros s H.
      apply occursIn_chars. induction (chars s) as [|x l IH]; [discriminate|].
      cbn [FindEncoding] in H.
      destruct (hasPrefix (chars "gzip") (x :: l)) eqn:Eg; [discriminate|].
      destruct (hasPrefix (chars "deflate") (x :: l)) eqn:Ed.
      * apply hasPrefix_spec in Ed as [post E]. exists [], post. exact E.
      * destruct (IH H) as (pre & post & E). exists (x :: pre), post.
        simpl. now rewrite E.
    + rewrite H. reflexivity.
  - intros pre word post Hw Hacc Hmin.
    assert (Hne : isEmptyString accepted = false).
    { rewrite Hacc. destruct pre; [|reflexivity].
      destruct Hw as [-> | ->]; reflexivity. }
    rewrite Hne. cbn [negb].
    assert (Hf : FindEncoding (chars accepted) = word).
    { rewrite Hacc, !chars_app. apply FindEncoding_leftmost; [exact Hw|].
      intros pre' post' word' Hw' E.
      specialize (Hmin (str pre') word' (str post') Hw').
      assert (Hlen : forall l, String.length (str l) = length l).
      { induction l as [|x l IHl]; simpl; auto. }
      assert (Hlen' : forall t, length (chars t) = String.length t).
      { induction t as [|x t IHt]; simpl; auto. }
      rewrite Hlen, <- Hlen' in Hmin. apply Hmin.
      rewrite Hacc. rewrite <- (str_chars (pre ++ word ++ post)), !chars_app, E.
      rewrite !str_app, str_chars. reflexivity. }
    rewrite Hf.
    destruct Hw as [-> | ->]; cbn [String.eqb Ascii.eqb Bool.eqb];
      cbn [respEncoding respHeader respBody Header_Get Header_Set find fst
           String.eqb Ascii.eqb Bool.eqb]; auto.
Qed.

Lemma compression_follows_accept_encoding_witness :
  newCompressor (mkResponseWriter [] "" "") [("Accept-Encoding", "identity")] =
    mkResponseWriter [] "" ""
  /\ (let zw := newCompressor (mkResponseWriter [] "" "body")
                  [("Accept-Encoding", "x-deflate;q=0, gzip")] in
      respEncoding zw = "deflate"
      /\ Header_Get (respHeader zw) "Content-Encoding" = "deflate"
      /\ respBody zw = "body").
Proof.
  split.
  - apply (proj1 (compression_follows_accept_encoding (mkResponseWriter [] "" "")
                    [("Accept-Encoding", "identity")])).
    split; intros (pre & post & H);
      repeat (destruct pre as [|? pre]; [discriminate H | injection H as _ H]);
      destruct pre; discriminate H.
  - apply (proj2 (compression_follows_accept_encoding (mkResponseWriter [] "" "body")
                    [("Accept-Encoding", "x-deflate;q=0, gzip")])
             "x-" "deflate" ";q=0, gzip").
    + right. reflexivity.
    + reflexivity.
    + intros [|a [|b pre']] word' post' Hw' E; cbn [String.length]; try lia;
        destruct Hw' as [-> | ->]; discriminate E.
Defined.


(** ** Projection of a struct, member by member *)

(** The member of a struct value that has the wire name of a field. *)
Definition memberFor (members : list rpcEntry) (f : StructField) : option rpcValue :=
  option_map entryValue
    (find (fun m => String.eqb (entryName m) (wireName f)) members).

(** What a field holds after the projection: the payload of its member
    when there is one, what it held otherwise. *)
Definition fieldAfter (members : list rpcEntry) (f : StructField) (old : godata)
  : godata :=
  match memberFor members f with
  | Some r => store (fieldType f) (value r) old
  | None => old
  end.

Fixpoint fieldsAfter (members : list rpcEntry) (fs : list StructField)
    (olds : list godata) : list godata :=
  match fs, olds with
  | f :: fs', old :: olds' => fieldAfter members f old :: fieldsAfter members fs' olds'
  | _, _ => olds
  end.

(** A member for the fields [fs]: it has the wire name of a field, which is
    exported, and holds a value of a leaf kind whose payload is of the type
    of the field, or any such payload when the field is an interface. *)
Definition memberFits (fs : list StructField) (m : rpcEntry) : bool :=
  existsb (fun f =>
             String.eqb (entryName m) (wireName f)
             && isExported (fieldName f)
             && isLeafKind (kind (entryValue m))
             && match value (entryValue m) with
                | idyn t _ => gotype_eqb t (fieldType f)
                              || gotype_eqb (fieldType f) TInterface
                | inil => false
                end) fs.

Lemma find_wireName (pre suf : list StructField) (f : StructField) (name : string) :
  distinct (map wireName (pre ++ f :: suf)) = true ->
  name = wireName f ->
  find (fun g => String.eqb name (wireName g)) (pre ++ f :: suf) = Some f.
Proof.
  intros H ->. rewrite map_app in H. simpl in H.
  apply distinct_middle in H as [Hpre _].
  induction pre as [|g pre IH]; simpl.
  - now rewrite String.eqb_refl.
  - destruct (String.eqb_spec (wireName f) (wireName g)) as [E|E].
    + exfalso. apply Hpre. left. now rewrite E.
    + apply IH. intros Hin. apply Hpre. now right.
Qed.

Lemma fieldsAfter_length (members : list rpcEntry) (fs : list StructField)
    (olds : list godata) :
  length (fieldsAfter members fs olds) = length olds.
Proof.
  revert olds. induction fs as [|f fs IH]; intros [|old olds]; simpl; auto.
Qed.

Lemma fieldsAfter_nil (fs : list StructField) (olds : list godata) :
  fieldsAfter [] fs olds = olds.
Proof.
  revert olds. induction fs as [|f fs IH]; intros [|old olds]; simpl; auto.
  now rewrite IH.
Qed.

Lemma fieldAfter_other (m : rpcEntry) (members : list rpcEntry) (g : StructField)
    (old : godata) :
  entryName m <> wireName g ->
  fieldAfter (m :: members) g old = fieldAfter members g old.
Proof.
  intros H. unfold fieldAfter, memberFor. cbn [find].
  destruct (String.eqb_spec (entryName m) (wireName g)); [contradiction | reflexivity].
Qed.

Lemma fieldAfter_absent (members : list rpcEntry) (f : StructField) (old : godata) :
  ~ In (wireName f) (map entryName members) -> fieldAfter members f old = old.
Proof.
  intros H. unfold fieldAfter, memberFor.
  rewrite find_none_iff; [reflexivity|].
  intros m Hm. destruct (String.eqb_spec (entryName m) (wireName f)) as [E|E];
    [|reflexivity].
  exfalso. apply H. rewrite <- E. now apply in_map.
Qed.

(** One member written, then the others: the fields after the others, on
    the data that the one member has changed, are the fields after all. *)
Lemma fieldsAfter_step (m : rpcEntry) (members : list rpcEntry)
    (pre suf : list StructField) (f : StructField)
    (dpre dsuf : list godata) (old : godata) :
  distinct (map wireName (pre ++ f :: suf)) = true ->
  entryName m = wireName f ->
  ~ In (entryName m) (map entryName members) ->
  length dpre = length pre ->
  fieldsAfter members (pre ++ f :: suf)
    (dpre ++ store (fieldType f) (value (entryValue m)) old :: dsuf) =
  fieldsAfter (m :: members) (pre ++ f :: suf) (dpre ++ old :: dsuf).
Proof.
  intros Hd Hname Hfresh Hlen.
  rewrite map_app in Hd. cbn [map] in Hd.
  pose proof (distinct_middle _ _ _ Hd) as [Hpre Hsuf].
  assert (Hrest : forall gs ds, ~ In (wireName f) (map wireName gs) ->
            fieldsAfter members gs ds = fieldsAfter (m :: members) gs ds).
  { induction gs as [|g gs IH]; intros [|d ds] Hn; simpl; auto.
    rewrite fieldAfter_other, IH; [reflexivity | |].
    - intros Hin. apply Hn. now right.
    - rewrite Hname. intros E. apply Hn. left. now rewrite E. }
  clear Hd. revert dpre Hlen.
  induction pre as [|g pre IH]; intros [|d dpre] Hlen; try discriminate Hlen.
  - cbn [app fieldsAfter]. f_equal.
    + rewrite fieldAfter_absent by (rewrite <- Hname; exact Hfresh).
      unfold fieldAfter, memberFor. cbn [find]. rewrite Hname, String.eqb_refl.
      reflexivity.
    + apply Hrest. exact Hsuf.
  - cbn [app fieldsAfter]. f_equal.
    + rewrite fieldAfter_other; [reflexivity|].
      rewrite Hname. intros E. apply Hpre. left. now rewrite E.
    + apply IH; [|now injection Hlen].
      intros Hin. apply Hpre. now right.
Qed.

Lemma split_at_field (fs : list StructField) (f : StructField) :
  In f fs -> exists pre suf, fs = (pre ++ f :: suf)%list.
Proof. apply in_split. Qed.

Lemma split_data (pre suf : list StructField) (f : StructField) (fds : list godata) :
  length fds = length (pre ++ f :: suf) ->
  exists dpre old dsuf,
    fds = (dpre ++ old :: dsuf)%list /\ length dpre = length pre.
Proof.
  revert fds. induction pre as [|g pre IH]; intros [|d fds] H; try discriminate H.
  - exists [], d, fds. split; reflexivity.
  - simpl in H. injection H as H. destruct (IH fds H) as (dpre & old & dsuf & -> & Hl).
    exists (d :: dpre), old, dsuf. split; [reflexivity | simpl; now rewrite Hl].
Qed.

Lemma writeMembers_by_name (fs : list StructField) :
  distinct (map fieldName fs) = true ->
  distinct (map wireName fs) = true ->
  forall members fds,
    distinct (map entryName members) = true ->
    forallb (memberFits fs) members = true ->
    length fds = length fs ->
    writeMembers writeTo fs (buildNameMap fs) members fds =
      Ok (None, fieldsAfter members fs fds).
Proof.
  intros Hn Hw. induction members as [|[name [val k]] members IH];
    intros fds Hdm Hfit Hlen.
  - cbn [writeMembers]. now rewrite fieldsAfter_nil.
  - cbn [forallb] in Hfit. apply andb_prop in Hfit as [Hm Hrest].
    cbn [map entryName] in Hdm. apply distinct_cons in Hdm as [Hfresh Hdm].
    unfold memberFits in Hm. apply existsb_exists in Hm as [f [Hin Hf]].
    cbn [entryName entryValue kind value] in Hf.
    apply andb_prop in Hf as [Hf Hty]. apply andb_prop in Hf as [Hf Hk].
    apply andb_prop in Hf as [Hname Hex]. apply String.eqb_eq in Hname.
    subst name.
    destruct (split_at_field fs f Hin) as (pre & suf & ->).
    destruct (split_data pre suf f fds Hlen) as (dpre & old & dsuf & -> & Hl).
    cbn [writeMembers].
    rewrite nameMap_get_field by assumption.
    rewrite fieldIndex_middle by assumption.
    rewrite map_app. cbn [map].
    replace (length pre) with (length (map fieldType pre)) at 1 by apply length_map.
    rewrite nth_middle. rewrite <- Hl, nth_middle, Hex.
    rewrite writeTo_leaf by exact Hk.
    assert (Hs : setValue (fieldType f) val old = (None, store (fieldType f) val old)).
    { destruct val as [|t d]; [discriminate|]. unfold setValue.
      apply orb_prop in Hty as [E|E]; rewrite E; [reflexivity|].
      now rewrite andb_false_r. }
    rewrite Hs. cbn [obind]. rewrite setNth_middle.
    rewrite IH; [|assumption|assumption|].
    + f_equal. f_equal.
      apply (fieldsAfter_step (RpcEntry (wireName f) (RpcValue val k)) members
               pre suf f dpre dsuf old Hw eq_refl Hfresh Hl).
    + rewrite !length_app in *. simpl in *. exact Hlen.
Qed.

(** X23. A struct is projected member by member, by name: for a struct
    type with fields of distinct names and wire names, and a value that is
    not empty, whose members have distinct names, each the wire name of an
    exported field, and hold leaf values of the types of their fields,
    [writeTo] returns no error, whatever the order of the members; every
    field that has a member holds the payload of it afterwards, and every
    other field holds what it held. *)
Theorem struct_is_projected_by_name :
  forall (name : string) (fs : list StructField) (members : list rpcEntry)
         (olds : list godata),
    distinct (map fieldName fs) = true ->
    distinct (map wireName fs) = true ->
    distinct (map entryName members) = true ->
    forallb (memberFits fs) members = true ->
    members <> [] ->
    length olds = length fs ->
    writeTo (RpcValue (idyn TRpcEntries (DEntries members)) structKind)
      (ToPtr (TStruct name fs) (DStruct olds)) =
      Ok (None, DStruct (fieldsAfter members fs olds)).
Proof.
  intros name fs members olds Hn Hw Hdm Hfit Hne Hlen.
  destruct members as [|m members]; [contradiction|].
  cbn [writeTo isEmpty kind value length Nat.eqb obind].
  cbn [gotype_eqb kindOf reflect.eqb negb fieldsOf fieldData]. cbv iota.
  rewrite (writeMembers_by_name fs Hn Hw (m :: members) olds Hdm Hfit Hlen).
  cbn [obind]. now rewrite setValue_same.
Qed.

Definition typeOfPoint : gotype :=
  TStruct "Point"
    [mkField "X" (Some "x") TInt; mkField "Y" (Some "y") TInt;
     mkField "Label" None TString].

Lemma struct_is_projected_by_name_witness :
  writeTo
    (RpcValue
       (idyn TRpcEntries
          (DEntries [RpcEntry "Label" (RpcValue (idyn TString (DString "p")) stringKind);
                     RpcEntry "x" (RpcValue (idyn TInt (DInt 3)) intKind)]))
       structKind)
    (ToPtr typeOfPoint (DStruct [DInt 1; DInt 2; DString "old"])) =
    Ok (None, DStruct [DInt 3; DInt 2; DString "p"]).
Proof.
  apply (struct_is_projected_by_name "Point"
           [mkField "X" (Some "x") TInt; mkField "Y" (Some "y") TInt;
            mkField "Label" None TString]
           [RpcEntry "Label" (RpcValue (idyn TString (DString "p")) stringKind);
            RpcEntry "x" (RpcValue (idyn TInt (DInt 3)) intKind)]
           [DInt 1; DInt 2; DString "old"]).
  - reflexivity.
  - reflexivity.
  - reflexivity.
  - reflexivity.
  - discriminate.
  - reflexivity.
Defined.

(** ** White space between elements *)

Definition isBlankData (t : Token) : bool :=
  match t with
  | CharData s => isBlank s
  | _ => false
  end.

(** A gap: character data that is white space only. *)
Definition isGap (g : list Token) : bool := forallb isBlankData g.

Lemma trim_stream (r : xmlReader) (l : list Token) (fin : error) :
  stands r l fin -> trim r = trim (before l fin).
Proof.
  destruct r as [[p f] [pk|]]; unfold stands, stream;
    cbn [peek dec pending final]; intros [H1 H2]; subst; [|reflexivity].
  unfold trim, before. cbn [peek dec pending final skipBlank].
  destruct pk; try reflexivity. destruct (isBlank text); reflexivity.
Qed.

Lemma skipBlank_gap (g l : list Token) :
  isGap g = true -> skipBlank (g ++ l) = skipBlank l.
Proof.
  unfold isGap. induction g as [|t g IH]; [reflexivity|].
  cbn [forallb]. intros H. apply andb_prop in H as [Ht Hg].
  destruct t; try discriminate Ht. cbn [isBlankData] in Ht.
  cbn [app skipBlank]. rewrite Ht. auto.
Qed.

Lemma trim_gap (r : xmlReader) (g l : list Token) (fin : error) :
  isGap g = true -> stands r (g ++ l) fin -> trim r = trim (before l fin).
Proof.
  intros Hg H. rewrite (trim_stream r _ fin H).
  unfold trim, before. cbn [peek dec pending final].
  now rewrite (skipBlank_gap g l Hg).
Qed.

Lemma expectStart_gap (r : xmlReader) (g : list Token) (n : string)
    (l : list Token) (fin : error) :
  isGap g = true -> stands r (g ++ StartElement n :: l) fin ->
  expectStart n r = (None, before l fin).
Proof.
  intros Hg H. unfold expectStart, nextStart. rewrite (trim_gap r g _ fin Hg H).
  apply (expectStart_start (before (StartElement n :: l) fin)), stands_before.
Qed.

Lemma nextStart_gap (r : xmlReader) (g : list Token) (n : string)
    (l : list Token) (fin : error) :
  isGap g = true -> stands r (g ++ StartElement n :: l) fin ->
  nextStart r = (Some n, None, before l fin).
Proof.
  intros Hg H. unfold nextStart. rewrite (trim_gap r g _ fin Hg H).
  apply (nextStart_start (before (StartElement n :: l) fin)), stands_before.
Qed.

Lemma expectEnd_gap (r : xmlReader) (g : list Token) (n : string)
    (l : list Token) (fin : error) :
  isGap g = true -> stands r (g ++ EndElement n :: l) fin ->
  expectEnd n r = (None, before l fin).
Proof.
  intros Hg H. unfold expectEnd, nextEnd. rewrite (trim_gap r g _ fin Hg H).
  apply (expectEnd_end (before (EndElement n :: l) fin)), stands_before.
Qed.

Lemma nextStart_gap_end (r : xmlReader) (g : list Token) (n : string)
    (l : list Token) (fin : error) :
  isGap g = true -> stands r (g ++ EndElement n :: l) fin ->
  exists e r', nextStart r = (None, Some e, r') /\ stands r' (EndElement n :: l) fin.
Proof.
  intros Hg H. unfold nextStart. rewrite (trim_gap r g _ fin Hg H).
  apply (nextStart_end (before (EndElement n :: l) fin)), stands_before.
Qed.

Lemma expectStart_gap_end (name : string) (r : xmlReader) (g : list Token)
    (n : string) (l : list Token) (fin : error) :
  isGap g = true -> stands r (g ++ EndElement n :: l) fin ->
  exists e r', expectStart name r = (Some e, r') /\ stands r' (EndElement n :: l) fin.
Proof.
  intros Hg H. unfold expectStart.
  destruct (nextStart_gap_end r g n l fin Hg H) as [e [r' [E Hr']]].
  rewrite E. eauto.
Qed.

(** The tokens of a value with the gap [g] at every place between its
    elements: before every tag, but for the end tag of an element that
    holds text. *)
Definition memberWith (tokens : rpcValue -> list Token) (g : list Token)
    (m : rpcEntry) : list Token :=
  match m with
  | RpcEntry n v =>
      g ++ StartElement "member" ::
      g ++ element "name" n ++ tokens v ++ g ++ [EndElement "member"]
  end%list.

Fixpoint tokensWith (g : list Token) (r : rpcValue) : list Token :=
  (g ++ StartElement "value" ::
   match r with
   | RpcValue (idyn _ (DBool b)) booleanKind => g ++ element "boolean" (boolEncodeMap b)
   | RpcValue (idyn _ (DInt n)) intKind => g ++ element "int" (Itoa n)
   | RpcValue (idyn _ (DFloat x)) doubleKind =>
       g ++ element "double" (formatDouble (Sprintf_f_float x))
   | RpcValue (idyn _ (DString s)) stringKind => g ++ element "string" s
   | RpcValue (idyn _ (DTime t)) dateTimeKind =>
       g ++ element "dateTime.iso8601" (formatIso8601 t)
   | RpcValue ((idyn _ (DSeq items)) as val) base64Kind =>
       match bytesOf val with
       | Some bs => g ++ element "base64" (EncodeToString bs)
       | None => []
       end
   | RpcValue (idyn _ (DValues items)) arrayKind =>
       g ++ StartElement "array" :: g ++ StartElement "data" ::
       flat_map (tokensWith g) items ++
       g ++ EndElement "data" :: g ++ [EndElement "array"]
   | RpcValue (idyn _ (DEntries members)) structKind =>
       g ++ StartElement "struct" ::
       flat_map (memberWith (tokensWith g) g) members ++ g ++ [EndElement "struct"]
   | _ => []
   end ++ g ++ [EndElement "value"])%list.

Definition readsBackWith (g : list Token) (r : rpcValue) : Prop :=
  forall fuel rd rest fin,
    (weight r <= fuel)%nat ->
    stands rd (tokensWith g r ++ rest) fin ->
    readValue fuel zeroValue rd = Ok (None, r, before rest fin).

Lemma readValue_typed_gap (g1 g2 : list Token) (fuel : nat) (rpc : rpcValue)
    (r : xmlReader) (se : string) (l : list Token) (fin : error) :
  isGap g1 = true -> isGap g2 = true ->
  valueTagSet se = true ->
  stands r (g1 ++ StartElement "value" :: g2 ++ StartElement se :: l) fin ->
  readValue (S fuel) rpc r =
    let r := putToken (before l fin) (Some (StartElement se)) in
    '(err, rpc, r) <-
      (if String.eqb se "array" then readArray fuel rpc r
       else if String.eqb se "struct" then readStruct fuel rpc r
       else readPrimitive rpc r) ;;
    match err with
    | Some e => Ok (Some e, rpc, r)
    | None => let '(err, r) := expectEnd "value" r in Ok (err, rpc, r)
    end.
Proof.
  intros Hg1 Hg2 Hse H. cbn [readValue].
  rewrite (expectStart_gap _ g1 _ _ fin Hg1 H).
  rewrite (nextStart_gap _ g2 _ _ fin Hg2 (stands_before _ fin)).
  rewrite Hse. reflexivity.
Qed.

Lemma readValue_leaf_gap (g : list Token) (fuel : nat) (rpc : rpcValue)
    (r : xmlReader) (tag text : string) (rest : list Token) (fin : error) :
  isGap g = true ->
  valueTagSet tag = true ->
  String.eqb tag "array" = false -> String.eqb tag "struct" = false ->
  stands r (g ++ StartElement "value" ::
            g ++ element tag text ++ g ++ EndElement "value" :: rest) fin ->
  readValue (S fuel) rpc r =
    '(err, rpc, r) <-
      primitiveOf rpc tag text (before (g ++ EndElement "value" :: rest) fin) ;;
    match err with
    | Some e => Ok (Some e, rpc, r)
    | None => let '(err, r) := expectEnd "value" r in Ok (err, rpc, r)
    end.
Proof.
  intros Hg Hse Ha Hs H.
  unfold element in H at 1. cbn [app] in H.
  rewrite (readValue_typed_gap g g fuel rpc r tag _ fin Hg Hg Hse H).
  cbv zeta. rewrite Ha, Hs.
  rewrite (readPrimitive_element rpc _ tag text (g ++ EndElement "value" :: rest) fin);
    [reflexivity|].
  unfold element. cbn [app]. apply (stands_putToken (StartElement tag)).
Qed.

Lemma readArrayItems_gap (g : list Token) (items : list rpcValue) :
  isGap g = true ->
  Forall (readsBackWith g) items ->
  forall fuel acc rd n l fin,
    (weightItems items <= fuel)%nat ->
    stands rd (flat_map (tokensWith g) items ++ g ++ EndElement n :: l) fin ->
    exists r', readArrayItems fuel acc rd = Ok (None, (acc ++ items)%list, r') /\
               stands r' (EndElement n :: l) fin.
Proof.
  intros Hg. induction 1 as [|item items Hitem _ IH];
    intros fuel acc rd n l fin Hfuel H.
  - destruct fuel as [|fuel]; [simpl in Hfuel; lia|].
    cbn [readArrayItems]. cbn [flat_map app] in H.
    destruct (nextStart_gap_end _ g _ _ _ Hg H) as [e [r' [E Hr']]]. rewrite E.
    exists r'. rewrite List.app_nil_r. auto.
  - destruct fuel as [|fuel]; [simpl in Hfuel; lia|].
    unfold weightItems in Hfuel. cbn [fold_right] in Hfuel.
    fold (weightItems items) in Hfuel.
    cbn [readArrayItems]. cbn [flat_map] in H. rewrite <- List.app_assoc in H.
    assert (Ehd : exists tl, tokensWith g item = (g ++ StartElement "value" :: tl)%list)
      by (destruct item; eexists; reflexivity).
    destruct Ehd as [tl E]. pose proof H as H'. rewrite E in H'.
    rewrite <- List.app_assoc in H'. cbn [app] in H'.
    rewrite (nextStart_gap _ g _ _ fin Hg H').
    cbn [String.eqb Ascii.eqb Bool.eqb negb].
    assert (Hput : forall rd' : xmlReader,
               stands rd' (tokensWith g item ++
                           flat_map (tokensWith g) items ++ g ++ EndElement n :: l) fin ->
               readValue fuel zeroValue rd' =
               Ok (None, item,
                   before (flat_map (tokensWith g) items ++ g ++ EndElement n :: l) fin))
      by (intros rd' Hrd'; apply Hitem; [lia | exact Hrd']).
    (* the reader with the start tag put back reads as the reader before
       the gap: both trim to the same reader *)
    assert (Hsame : readValue fuel zeroValue
                      (putToken (before (tl ++ flat_map (tokensWith g) items ++
                                         g ++ EndElement n :: l) fin)
                         (Some (StartElement "value"))) =
                    readValue fuel zeroValue
                      (before (tokensWith g item ++ flat_map (tokensWith g) items ++
                               g ++ EndElement n :: l) fin)).
    { destruct fuel as [|fuel']; [reflexivity|]. cbn [readValue].
      unfold expectStart, nextStart.
      rewrite (trim_stream _ _ fin (stands_putToken (StartElement "value") _ fin)).
      rewrite E, <- List.app_assoc. cbn [app].
      now rewrite (trim_gap (before (g ++ StartElement "value" :: _) fin) g _ fin Hg
                     (stands_before _ _)). }
    rewrite Hsame, (Hput _ (stands_before _ _)). cbn [obind].
    destruct (IH fuel (acc ++ [item])%list
                (before (flat_map (tokensWith g) items ++ g ++ EndElement n :: l) fin)
                n l fin) as [r' [E' Hr']]; [lia | apply stands_before |].
    exists r'. rewrite E'. rewrite <- List.app_assoc. auto.
Qed.

Ltac flatten H :=
  cbn [app] in H; repeat (rewrite <- List.app_assoc in H; cbn [app] in H).

Lemma readMembers_gap (g : list Token) (members : list rpcEntry) :
  isGap g = true ->
  Forall (fun m => readsBackWith g (entryValue m)) members ->
  forallb (fun m => isName (entryName m)) members = true ->
  forall fuel acc rd n l fin,
    (weightMembers members <= fuel)%nat ->
    stands rd (flat_map (memberWith (tokensWith g) g) members ++
               g ++ EndElement n :: l) fin ->
    exists r', readMembers fuel acc rd = Ok (None, (acc ++ members)%list, r') /\
               stands r' (EndElement n :: l) fin.
Proof.
  intros Hg.
  induction 1 as [|[name v] members Hv _ IH]; intros Hnames fuel acc rd n l fin Hfuel H.
  - destruct fuel as [|fuel]; [simpl in Hfuel; lia|].
    cbn [readMembers]. cbn [flat_map app] in H.
    destruct (expectStart_gap_end "member" _ g _ _ _ Hg H) as [e [r' [E Hr']]].
    rewrite E. exists r'. rewrite List.app_nil_r. auto.
  - destruct fuel as [|fuel]; [simpl in Hfuel; lia|].
    unfold weightMembers in Hfuel. cbn [fold_right entryValue] in Hfuel.
    fold (weightMembers members) in Hfuel.
    cbn [forallb entryName] in Hnames. apply andb_prop in Hnames as [Hname Hnames].
    unfold isName in Hname. apply andb_prop in Hname as [Hne _].
    destruct name as [|c name]; [discriminate|].
    cbn [readMembers]. cbn [flat_map memberWith] in H.
    unfold element in H. cbn [textTokens] in H.
    flatten H.
    rewrite (expectStart_gap _ g _ _ fin Hg H).
    rewrite (expectStart_gap _ g _ _ fin Hg (stands_before _ fin)).
    rewrite (nextText_text _ _ _ _ (stands_before _ fin)).
    rewrite expectEnd_before.
    cbn [entryValue] in Hv.
    rewrite (Hv fuel _ (g ++ EndElement "member" ::
                        flat_map (memberWith (tokensWith g) g) members ++
                        g ++ EndElement n :: l)%list fin);
      [| lia | apply stands_before].
    cbn [obind]. rewrite (expectEnd_gap _ g _ _ fin Hg (stands_before _ fin)).
    destruct (IH Hnames fuel (acc ++ [RpcEntry (String c name) v])%list
                (before (flat_map (memberWith (tokensWith g) g) members ++
                         g ++ EndElement n :: l) fin) n l fin)
      as [r' [E' Hr']]; [lia | apply stands_before |].
    exists r'. rewrite E'. rewrite <- List.app_assoc. auto.
Qed.

Ltac leaf_gap H := cbn [tokensWith] in H; flatten H.

Lemma wire_readsBackWith (g : list Token) :
  isGap g = true -> forall r, wire r = true -> readsBackWith g r.
Proof.
  intros Hg.
  induction r as [val k IHitems IHmembers] using rpcValue_induction.
  intros H fuel rd rest fin Hfuel Hst.
  pose proof (weight_pos (RpcValue val k)) as Hpos.
  destruct fuel as [|fuel]; [lia|]. clear Hpos.
  assert (Hend : forall rest',
             expectEnd "value" (before (g ++ EndElement "value" :: rest') fin) =
             (None, before rest' fin))
    by (intros rest'; apply (expectEnd_gap _ g _ _ fin Hg (stands_before _ fin))).
  destruct k.
  - (* nil *)
    wire_shape H. cbn [tokensWith] in Hst. flatten Hst.
    cbn [readValue]. rewrite (expectStart_gap _ g _ _ fin Hg Hst).
    destruct (nextStart_gap_end _ g _ _ _ Hg
                (stands_before (g ++ EndElement "value" :: rest) fin))
      as [e [r1 [E1 H1]]].
    rewrite E1.
    destruct (nextText_end _ _ _ _ H1) as [e2 [r2 [E2 H2]]]. rewrite E2.
    now rewrite (expectEnd_end _ _ _ _ H2).
  - (* boolean *)
    wire_shape H. leaf_gap Hst.
    rewrite (readValue_leaf_gap g fuel _ _ "boolean" _ rest fin Hg
               eq_refl eq_refl eq_refl Hst).
    unfold primitiveOf. cbn [String.eqb Ascii.eqb Bool.eqb].
    destruct b; cbn [boolEncodeMap boolDecodeMap String.eqb Ascii.eqb Bool.eqb obind];
      now rewrite Hend.
  - (* int *)
    wire_shape H. leaf_gap Hst.
    rewrite (readValue_leaf_gap g fuel _ _ "int" _ rest fin Hg
               eq_refl eq_refl eq_refl Hst).
    unfold primitiveOf. cbn [String.eqb Ascii.eqb Bool.eqb orb].
    apply andb_prop in H as [H1 H2]. apply Z.leb_le in H1, H2.
    rewrite Atoi_Itoa by lia. cbn [obind]. now rewrite Hend.
  - (* double *)
    wire_shape H. leaf_gap Hst.
    rewrite (readValue_leaf_gap g fuel _ _ "double" _ rest fin Hg
               eq_refl eq_refl eq_refl Hst).
    unfold primitiveOf. cbn [String.eqb Ascii.eqb Bool.eqb orb].
    unfold doubleReadBack in H. apply andb_prop in H as [_ H].
    destruct (ParseFloat (formatDouble (Sprintf_f_float f))) as [[y [|]]| | |];
      try discriminate.
    apply spec_float_eqb_eq in H as ->. cbn [obind].
    now rewrite Hend.
  - (* dateTime *)
    wire_shape H. leaf_gap Hst.
    rewrite (readValue_leaf_gap g fuel _ _ "dateTime.iso8601" _ rest fin Hg
               eq_refl eq_refl eq_refl Hst).
    unfold primitiveOf. cbn [String.eqb Ascii.eqb Bool.eqb orb].
    unfold dateReadBack in H. apply andb_prop in H as [_ H].
    unfold dateTimeFormats. cbn [parseDate].
    destruct (time_Parse iso8601 (formatIso8601 t)) as [t'|]; [|discriminate].
    apply Time_eqb_eq in H as ->. cbn [obind].
    now rewrite Hend.
  - (* base64 *)
    wire_shape H. destruct (bytes_of_data items H) as [Hb Hm].
    cbn [tokensWith bytesOf] in Hst. flatten Hst.
    rewrite (readValue_leaf_gap g fuel _ _ "base64" _ rest fin Hg
               eq_refl eq_refl eq_refl Hst).
    unfold primitiveOf. cbn [String.eqb Ascii.eqb Bool.eqb orb].
    rewrite (DecodeString_EncodeToString _ Hb). cbn [obind].
    unfold dataOfBytes, typeOfBytes. rewrite Hm.
    now rewrite Hend.
  - (* string *)
    wire_shape H. leaf_gap Hst.
    rewrite (readValue_leaf_gap g fuel _ _ "string" _ rest fin Hg
               eq_refl eq_refl eq_refl Hst).
    unfold primitiveOf. cbn [String.eqb Ascii.eqb Bool.eqb orb obind].
    now rewrite Hend.
  - (* array *)
    wire_shape H. simpl in IHitems. clear IHmembers.
    assert (Hback : Forall (readsBackWith g) array).
    { clear Hst Hfuel. induction IHitems as [|a l Ha _ IH]; constructor.
      - apply Ha. simpl in H. now apply andb_prop in H as [H _].
      - apply IH. simpl in H. now apply andb_prop in H as [_ H]. }
    cbn [tokensWith] in Hst. flatten Hst.
    rewrite (readValue_typed_gap g g fuel _ _ "array" _ fin Hg Hg eq_refl Hst).
    cbv zeta. cbn [String.eqb Ascii.eqb Bool.eqb].
    cbn [weight] in Hfuel. fold (weightItems array) in Hfuel.
    destruct fuel as [|fuel]; [lia|]. cbn [readArray].
    rewrite (nextStart_start _ _ _ _ (stands_putToken (StartElement "array") _ fin)).
    rewrite (expectStart_gap _ g _ _ fin Hg (stands_before _ fin)).
    destruct (readArrayItems_gap g array Hg Hback fuel []
                (before (flat_map (tokensWith g) array ++
                         g ++ EndElement "data" :: g ++ EndElement "array" ::
                         g ++ EndElement "value" :: rest) fin)
                "data" (g ++ EndElement "array" :: g ++ EndElement "value" :: rest) fin)
      as [r' [E Hr']]; [lia | apply stands_before |].
    rewrite E. cbn [obind app].
    rewrite (expectEnd_end _ _ _ _ Hr').
    rewrite (expectEnd_gap _ g _ _ fin Hg (stands_before _ fin)).
    cbn [obind]. now rewrite Hend.
  - (* struct *)
    wire_shape H. simpl in IHmembers. clear IHitems.
    assert (Hback : Forall (fun m => readsBackWith g (entryValue m)) members /\
                    forallb (fun m => isName (entryName m)) members = true).
    { clear Hst Hfuel.
      induction IHmembers as [|[n v] l Ha _ IH]; [split; [constructor | reflexivity]|].
      simpl in H. apply andb_prop in H as [H Hl]. apply andb_prop in H as [Hn Hv].
      destruct (IH Hl) as [IH1 IH2]. split.
      - constructor; [apply Ha; exact Hv | exact IH1].
      - simpl. now rewrite Hn, IH2. }
    destruct Hback as [Hback Hnames].
    cbn [tokensWith] in Hst. flatten Hst.
    rewrite (readValue_typed_gap g g fuel _ _ "struct" _ fin Hg Hg eq_refl Hst).
    cbv zeta. cbn [String.eqb Ascii.eqb Bool.eqb].
    cbn [weight] in Hfuel. fold (weightMembers members) in Hfuel.
    destruct fuel as [|fuel]; [lia|]. cbn [readStruct].
    rewrite (nextStart_start _ _ _ _ (stands_putToken (StartElement "struct") _ fin)).
    destruct (readMembers_gap g members Hg Hback Hnames fuel []
                (before (flat_map (memberWith (tokensWith g) g) members ++
                         g ++ EndElement "struct" :: g ++ EndElement "value" :: rest) fin)
                "struct" (g ++ EndElement "value" :: rest) fin)
      as [r' [E Hr']]; [lia | apply stands_before |].
    rewrite E. cbn [obind app].
    rewrite (expectEnd_end _ _ _ _ Hr').
    cbn [obind]. now rewrite Hend.
Qed.

Definition paramWith (g : list Token) (v : rpcValue) : list Token :=
  (g ++ StartElement "param" :: tokensWith g v ++ g ++ [EndElement "param"])%list.

Definition paramsWith (g : list Token) (params : list rpcValue) : list Token :=
  (g ++ StartElement "params" ::
   flat_map (paramWith g) params ++ g ++ [EndElement "params"])%list.

(** The tokens of a call and of a response with the gap [g] between their
    elements, after the declaration and before the end of the input. *)
Definition callWith (g : list Token) (method : string) (params : list rpcValue)
  : list Token :=
  (ProcInst "xml" headerInst ::
   g ++ StartElement "methodCall" ::
   g ++ element "methodName" method ++ paramsWith g params ++
   g ++ EndElement "methodCall" :: g)%list.

Definition responseWith (g : list Token) (params : list rpcValue) : list Token :=
  (ProcInst "xml" headerInst ::
   g ++ StartElement "methodResponse" ::
   paramsWith g params ++ g ++ EndElement "methodResponse" :: g)%list.

Lemma readParamItems_gap (g : list Token) (params : list rpcValue) :
  isGap g = true ->
  Forall (readsBackWith g) params ->
  forall fuel acc rd n l fin,
    (weightItems params <= fuel)%nat ->
    stands rd (flat_map (paramWith g) params ++ g ++ EndElement n :: l) fin ->
    exists r', readParamItems fuel acc rd = Ok (None, (acc ++ params)%list, r') /\
               stands r' (EndElement n :: l) fin.
Proof.
  intros Hg.
  induction 1 as [|v params Hv _ IH]; intros fuel acc rd n l fin Hfuel H.
  - destruct fuel as [|fuel]; [simpl in Hfuel; lia|].
    cbn [readParamItems]. cbn [flat_map app] in H.
    destruct (expectStart_gap_end "param" _ g _ _ _ Hg H) as [e [r' [E Hr']]].
    rewrite E. exists r'. rewrite List.app_nil_r. auto.
  - destruct fuel as [|fuel]; [simpl in Hfuel; lia|].
    unfold weightItems in Hfuel. cbn [fold_right] in Hfuel.
    fold (weightItems params) in Hfuel.
    cbn [readParamItems]. cbn [flat_map] in H. unfold paramWith in H at 1.
    flatten H.
    rewrite (expectStart_gap _ g _ _ fin Hg H).
    rewrite (Hv (S fuel) _ (g ++ EndElement "param" ::
                            flat_map (paramWith g) params ++
                            g ++ EndElement n :: l)%list fin);
      [| lia | apply stands_before].
    cbn [obind]. rewrite (expectEnd_gap _ g _ _ fin Hg (stands_before _ fin)).
    destruct (IH fuel (acc ++ [v])%list
                (before (flat_map (paramWith g) params ++ g ++ EndElement n :: l) fin)
                n l fin)
      as [r' [E' Hr']]; [lia | apply stands_before |].
    exists r'. rewrite E'. rewrite <- List.app_assoc. auto.
Qed.

Lemma readParams_gap (g : list Token) (params : list rpcValue) (fuel : nat)
    (acc : list rpcValue) (rd : xmlReader) (l : list Token) (fin : error) :
  isGap g = true ->
  Forall (readsBackWith g) params ->
  (weightItems params <= fuel)%nat ->
  stands rd (paramsWith g params ++ l) fin ->
  readParams fuel acc rd = Ok (None, (acc ++ params)%list, before l fin).
Proof.
  intros Hg Hb Hfuel H. unfold readParams. unfold paramsWith in H. flatten H.
  rewrite (expectStart_gap _ g _ _ fin Hg H).
  destruct (readParamItems_gap g params Hg Hb fuel acc
              (before (flat_map (paramWith g) params ++ g ++ EndElement "params" :: l) fin)
              "params" l fin Hfuel (stands_before _ _)) as [r' [E Hr']].
  rewrite E. cbn [obind]. now rewrite (expectEnd_end _ _ _ _ Hr').
Qed.

Lemma wire_all_readsBackWith (g : list Token) (params : list rpcValue) :
  isGap g = true -> forallb wire params = true -> Forall (readsBackWith g) params.
Proof.
  intros Hg H. apply Forall_forall. intros v Hv. rewrite forallb_forall in H.
  apply wire_readsBackWith; auto.
Qed.

Lemma readCall_gap (g : list Token) (method : string) (params : list rpcValue)
    (fuel : nat) (rpc : methodCall) (fin : error) :
  isGap g = true -> method <> "" -> forallb wire params = true ->
  (weightItems params <= fuel)%nat ->
  readCall fuel rpc (newReader (mkDecoder (callWith g method params) fin)) =
    Ok (None, mkCall method (call_Params rpc ++ params), before g fin).
Proof.
  intros Hg Hm Hp Hfuel.
  change (newReader (mkDecoder (callWith g method params) fin))
    with (before (callWith g method params) fin).
  unfold readCall, callWith.
  rewrite (readHeader_header _ _ _ fin (stands_before _ _)).
  rewrite (expectStart_gap _ g _ _ fin Hg (stands_before _ _)).
  destruct method as [|c method]; [contradiction|].
  unfold element. cbn [textTokens app]. rewrite <- ?List.app_assoc. cbn [app].
  rewrite (expectStart_gap _ g _ _ fin Hg (stands_before _ _)).
  rewrite (nextText_text _ _ _ fin (stands_before _ _)).
  rewrite expectEnd_before. cbn [call_Params].
  rewrite (readParams_gap g params fuel (call_Params rpc) _
             (g ++ EndElement "methodCall" :: g) fin Hg
             (wire_all_readsBackWith g _ Hg Hp) Hfuel (stands_before _ _)).
  cbn [obind]. now rewrite (expectEnd_gap _ g _ _ fin Hg (stands_before _ _)).
Qed.

Lemma readResponse_gap (g : list Token) (params : list rpcValue) (fuel : nat)
    (rpc : methodResponse) (fin : error) :
  isGap g = true -> forallb wire params = true ->
  (weightItems params <= fuel)%nat ->
  readResponse fuel rpc (newReader (mkDecoder (responseWith g params) fin)) =
    Ok (None, mkResponse (resp_Params rpc ++ params) (resp_Fault rpc), before g fin).
Proof.
  intros Hg Hp Hfuel.
  change (newReader (mkDecoder (responseWith g params) fin))
    with (before (responseWith g params) fin).
  unfold readResponse, responseWith.
  rewrite (readHeader_header _ _ _ fin (stands_before _ _)).
  rewrite (expectStart_gap _ g _ _ fin Hg (stands_before _ _)).
  rewrite (readParams_gap g params fuel (resp_Params rpc) _
             (g ++ EndElement "methodResponse" :: g) fin Hg
             (wire_all_readsBackWith g _ Hg Hp) Hfuel (stands_before _ _)).
  cbn [obind]. now rewrite (expectEnd_gap _ g _ _ fin Hg (stands_before _ _)).
Qed.

(** X24. White space between the elements of a message is skipped: with
    character data that is white space only before every tag of a value, of
    a call or of a response (but inside an element that holds text),
    [readRPC] returns no error and the value, the method name and the
    parameters of the message. *)
Theorem white_space_between_elements_is_skipped :
  forall (g : list Token) (method : string) (params : list rpcValue)
         (r : rpcValue) (fuel : nat) (fin : error),
    isGap g = true ->
    method <> "" -> forallb wire params = true -> wire r = true ->
    (weightItems params <= fuel)%nat -> (weight r <= fuel)%nat ->
    Codec.readRPC fuel (mkDecoder (tokensWith g r) fin) (Codec.IntoValue zeroValue) =
      Ok (None, Codec.IntoValue r)
    /\ Codec.readRPC fuel (mkDecoder (callWith g method params) fin)
         (Codec.IntoCall (mkCall "" [])) =
       Ok (None, Codec.IntoCall (mkCall method params))
    /\ Codec.readRPC fuel (mkDecoder (responseWith g params) fin)
         (Codec.IntoResponse (mkResponse [] zeroValue)) =
       Ok (None, Codec.IntoResponse (mkResponse params zeroValue)).
Proof.
  intros g method params r fuel fin Hg Hm Hp Hr Hfuel Hfuel'.
  unfold Codec.readRPC. repeat split.
  - rewrite (wire_readsBackWith g Hg r Hr fuel (newReader (mkDecoder (tokensWith g r) fin))
               [] fin Hfuel'); [reflexivity|].
    rewrite List.app_nil_r. apply stands_before.
  - now rewrite (readCall_gap g method params fuel (mkCall "" []) fin Hg Hm Hp Hfuel).
  - now rewrite (readResponse_gap g params fuel (mkResponse [] zeroValue) fin Hg Hp Hfuel).
Qed.

Definition indent : list Token :=
  [CharData (String (ascii_of_N 10) "  ")].

Lemma white_space_between_elements_is_skipped_witness :
  isGap indent = true /\
  (Codec.readRPC 50 (mkDecoder (tokensWith indent aPersonValue) io_EOF)
     (Codec.IntoValue zeroValue) =
     Ok (None, Codec.IntoValue aPersonValue)
   /\ Codec.readRPC 50
        (mkDecoder (callWith indent "Service.Say"
                      [aPersonValue; RpcValue (idyn TInt (DInt 7)) intKind]) io_EOF)
        (Codec.IntoCall (mkCall "" [])) =
      Ok (None, Codec.IntoCall
                  (mkCall "Service.Say"
                     [aPersonValue; RpcValue (idyn TInt (DInt 7)) intKind]))
   /\ Codec.readRPC 50
        (mkDecoder (responseWith indent
                      [aPersonValue; RpcValue (idyn TInt (DInt 7)) intKind]) io_EOF)
        (Codec.IntoResponse (mkResponse [] zeroValue)) =
      Ok (None, Codec.IntoResponse
                  (mkResponse [aPersonValue; RpcValue (idyn TInt (DInt 7)) intKind]
                     zeroValue))).
Proof.
  split; [reflexivity|].
  apply (white_space_between_elements_is_skipped indent "Service.Say"
           [aPersonValue; RpcValue (idyn TInt (DInt 7)) intKind] aPersonValue 50 io_EOF).
  - reflexivity.
  - discriminate.
  - vm_compute. reflexivity.
  - vm_compute. reflexivity.
  - apply Nat.leb_le. vm_compute. reflexivity.
  - apply Nat.leb_le. vm_compute. reflexivity.
Defined.

(** The bytes of an indented value are its tokens with the indentation as
    the gap. *)
Example indented_value_tokens :
  xml_NewDecoder "
  <value>
  <array>
  <data>
  <value>
  <int>7</int>
  </value>
  <value>
  <string>a b</string>
  </value>
  </data>
  </array>
  </value>" =
  Some (mkDecoder
          (tokensWith indent
             (RpcValue (idyn TRpcValues
                          (DValues [RpcValue (idyn TInt (DInt 7)) intKind;
                                    RpcValue (idyn TString (DString "a b")) stringKind]))
                arrayKind))
          io_EOF).
Proof. vm_compute. reflexivity. Qed.

(** ** Numbers of the narrower types *)

Lemma makeValue_integer (t : gotype) (n : Z) :
  isIntType t = true ->
  makeValue (idyn t (DInt n)) = Ok (RpcValue (idyn t (DInt n)) intKind).
Proof. destruct t; try discriminate; reflexivity. Qed.

Lemma setValue_other_integer (t : gotype) (n : Z) (cur : godata) :
  isIntType t = true -> t <> TInt ->
  setValue t (idyn TInt (DInt n)) cur =
    (Some (FaultError (mkFault InternalError ("type mismatch: int != " ++ typeName t))),
     cur).
Proof.
  destruct t; try discriminate; intros _ H; try reflexivity. now contradiction H.
Qed.

(** X25. Only [int] and [float64] come back: an integer of another integer
    type, in the range of [int], and a [float32] whose text is read back as
    it is, are written by [writeRPC] without an error, but [readRPC] on the
    written bytes, into a variable of the type of the number sent, returns
    the InternalError fault [type mismatch: int != T] (or
    [float64 != float32]) and leaves the variable as it was. *)
Theorem narrow_numbers_are_not_read_back :
  forall (t : gotype) (n : Z) (x : spec_float) (old old' : godata) (fuel : nat),
    isIntType t = true -> t <> TInt ->
    minInt <= n <= maxInt ->
    doubleReadBack x = true ->
    (1 <= fuel)%nat ->
    (exists b d,
       Codec.writeRPC (Codec.FromNative (idyn t (DInt n))) = Ok (None, b)
       /\ xml_NewDecoder b = Some d
       /\ Codec.readRPC fuel d (Codec.IntoNative (ToPtr t old)) =
            Ok (Some (FaultError
                        (mkFault InternalError
                           ("type mismatch: int != " ++ typeName t))),
                Codec.IntoNative (ToPtr t old)))
    /\ (exists b d,
          Codec.writeRPC (Codec.FromNative (idyn TFloat32 (DFloat x))) = Ok (None, b)
          /\ xml_NewDecoder b = Some d
          /\ Codec.readRPC fuel d (Codec.IntoNative (ToPtr TFloat32 old')) =
               Ok (Some (FaultError
                           (mkFault InternalError "type mismatch: float64 != float32")),
                   Codec.IntoNative (ToPtr TFloat32 old'))).
Proof.
  intros t n x old old' fuel Ht Hne Hn Hx Hfuel. split.
  - assert (Hw : wire (RpcValue (idyn TInt (DInt n)) intKind) = true).
    { cbn [wire]. apply andb_true_intro. split; apply Z.leb_le; lia. }
    destruct (wire_written _ Hw) as [b [Hb Hd]].
    exists b, (mkDecoder (tokensOf (RpcValue (idyn TInt (DInt n)) intKind)) io_EOF).
    split; [|split; [exact Hd|]].
    + unfold Codec.writeRPC. rewrite (makeValue_integer t n Ht). exact Hb.
    + unfold Codec.readRPC, Codec.checkPointer.
      cbn [targetKind reflect.eqb negb obind].
      rewrite (readValue_tokens _ fuel io_EOF Hw Hfuel). cbn [obind].
      rewrite writeTo_leaf_ptr; [| reflexivity | destruct t; try discriminate; reflexivity].
      rewrite (setValue_other_integer t n old Ht Hne). reflexivity.
  - assert (Hw : wire (RpcValue (idyn TFloat64 (DFloat x)) doubleKind) = true)
      by exact Hx.
    destruct (wire_written _ Hw) as [b [Hb Hd]].
    exists b, (mkDecoder (tokensOf (RpcValue (idyn TFloat64 (DFloat x)) doubleKind)) io_EOF).
    split; [exact Hb|]. split; [exact Hd|].
    unfold Codec.readRPC, Codec.checkPointer.
    cbn [targetKind reflect.eqb negb obind].
    rewrite (readValue_tokens _ fuel io_EOF Hw Hfuel). reflexivity.
Qed.

Lemma narrow_numbers_are_not_read_back_witness :
  (exists b d,
     Codec.writeRPC (Codec.FromNative (idyn TInt64 (DInt 42))) = Ok (None, b)
     /\ xml_NewDecoder b = Some d
     /\ Codec.readRPC 1 d (Codec.IntoNative (ToPtr TInt64 (DInt 0))) =
          Ok (Some (FaultError (mkFault InternalError "type mismatch: int != int64")),
              Codec.IntoNative (ToPtr TInt64 (DInt 0))))
  /\ (exists b d,
        Codec.writeRPC (Codec.FromNative (idyn TFloat32 (DFloat float_1_5))) = Ok (None, b)
        /\ xml_NewDecoder b = Some d
        /\ Codec.readRPC 1 d
             (Codec.IntoNative (ToPtr TFloat32 (DFloat (S754_zero false)))) =
             Ok (Some (FaultError
                         (mkFault InternalError "type mismatch: float64 != float32")),
                 Codec.IntoNative (ToPtr TFloat32 (DFloat (S754_zero false))))).
Proof.
  apply (narrow_numbers_are_not_read_back TInt64 42 float_1_5 (DInt 0)
           (DFloat (S754_zero false)) 1).
  - reflexivity.
  - discriminate.
  - unfold minInt, maxInt. lia.
  - vm_compute. reflexivity.
  - apply le_n.
Defined.

(** ** Unexported fields *)

Lemma makeFields_unexported (recur : gotype -> godata -> outcome rpcValue)
    (pre suf : list StructField) (f : StructField) (ms : list rpcEntry)
    (dpre dsuf : list godata) (d : godata) :
  isExported (fieldName f) = false ->
  length dpre = length pre ->
  makeFields recur dpre pre = Ok ms ->
  makeFields recur (dpre ++ d :: dsuf) (pre ++ f :: suf) = Panic unexportedPanic.
Proof.
  intros Hf. revert dpre ms.
  induction pre as [|[n tg ty] pre IH]; intros [|x dpre] ms Hlen Hm;
    try discriminate Hlen.
  - destruct f as [fn ftag fty]. cbn [fieldName] in Hf. cbn [app makeFields].
    now rewrite Hf.
  - cbn [app makeFields] in *. destruct (isExported n); [|discriminate Hm].
    destruct (recur ty x) as [v| | |]; try discriminate Hm. cbn [obind] in *.
    destruct (makeFields recur dpre pre) as [rest| | |] eqn:E; try discriminate Hm.
    rewrite (IH dpre rest); [reflexivity | now injection Hlen | exact E].
Qed.

Lemma writeTo_cannot_set (r : rpcValue) (t : gotype) (cur : godata) :
  isEmpty r = Ok false ->
  writeTo r (ToValue t cur false) =
    Ok (internalError "error writing to value. cannot set value", cur).
Proof. intros H. destruct r as [val k]. cbn [writeTo]. rewrite H. reflexivity. Qed.

Lemma nth_middle_data {A} (pre suf : list A) (x dflt : A) :
  nth (length pre) (pre ++ x :: suf) dflt = x.
Proof. induction pre as [|a pre IH]; simpl; auto. Qed.

(** X26. Unexported fields are neither sent nor received. [makeValue]
    panics on a struct with an unexported field, when it has mapped the
    fields before it; and [writeTo], for a struct value whose first member
    has the wire name of an unexported field and holds a value that is not
    empty, returns the InternalError fault [error writing to value. cannot
    set value] and leaves the struct as it was. *)
Theorem unexported_fields_are_not_transferred :
  forall (name : string) (pre suf : list StructField) (f : StructField)
         (dpre dsuf : list godata) (d : godata),
    isExported (fieldName f) = false ->
    length dpre = length pre ->
    (forall r,
        makeValue (idyn (TStruct name pre) (DStruct dpre)) = Ok r ->
        makeValue (idyn (TStruct name (pre ++ f :: suf))
                     (DStruct (dpre ++ d :: dsuf))) =
          Panic "reflect.Value.Interface: cannot return value obtained from unexported field or method")
    /\ (forall mv rest,
          distinct (map fieldName (pre ++ f :: suf)) = true ->
          distinct (map wireName (pre ++ f :: suf)) = true ->
          isEmpty mv = Ok false ->
          writeTo
            (RpcValue (idyn TRpcEntries (DEntries (RpcEntry (wireName f) mv :: rest)))
               structKind)
            (ToPtr (TStruct name (pre ++ f :: suf)) (DStruct (dpre ++ d :: dsuf))) =
            Ok (Some (FaultError
                        (mkFault InternalError
                           "error writing to value. cannot set value")),
                DStruct (dpre ++ d :: dsuf))).
Proof.
  intros name pre suf f dpre dsuf d Hf Hlen. split.
  - intros r Hr.
    assert (Hms : exists ms, makeFields (ofInterface makeValue_dyn) dpre pre = Ok ms).
    { destruct pre as [|g pre]; [destruct dpre; [|discriminate Hlen]; now exists []|].
      unfold makeValue in Hr. cbn [makeValue_dyn primitiveKind kindOf fieldsOf] in Hr.
      destruct (makeFields (ofInterface makeValue_dyn) dpre (g :: pre)) as [ms| | |];
        try discriminate Hr. now exists ms. }
    destruct Hms as [ms Hms].
    unfold makeValue. cbn [makeValue_dyn primitiveKind kindOf fieldsOf].
    destruct (pre ++ f :: suf)%list as [|g gs] eqn:E;
      [destruct pre; discriminate E|]. rewrite <- E.
    now rewrite (makeFields_unexported _ pre suf f ms dpre dsuf d Hf Hlen Hms).
  - intros mv rest Hn Hw Hmv.
    cbn [writeTo isEmpty kind value length Nat.eqb obind].
    cbn [gotype_eqb kindOf reflect.eqb negb fieldsOf fieldData]. cbv iota.
    cbn [writeMembers].
    rewrite (nameMap_get_field pre suf f Hw), (fieldIndex_middle pre suf f Hn).
    rewrite <- Hlen, nth_middle_data, Hf, writeTo_cannot_set by exact Hmv.
    cbn [obind]. rewrite setNth_middle. reflexivity.
Qed.

Definition typeOfAccount : gotype :=
  TStruct "Account" [mkField "Owner" None TString; mkField "secret" None TString].

Lemma unexported_fields_are_not_transferred_witness :
  makeValue (idyn typeOfAccount (DStruct [DString "ann"; DString "x"])) =
    Panic "reflect.Value.Interface: cannot return value obtained from unexported field or method"
  /\ writeTo
       (RpcValue
          (idyn TRpcEntries
             (DEntries [RpcEntry "secret" (RpcValue (idyn TString (DString "y")) stringKind)]))
          structKind)
       (ToPtr typeOfAccount (DStruct [DString "ann"; DString "x"])) =
       Ok (Some (FaultError
                   (mkFault InternalError "error writing to value. cannot set value")),
           DStruct [DString "ann"; DString "x"]).
Proof.
  destruct (unexported_fields_are_not_transferred "Account"
              [mkField "Owner" None TString] [] (mkField "secret" None TString)
              [DString "ann"] [] (DString "x") eq_refl eq_refl) as [Hsend Hrecv].
  split.
  - apply (Hsend (RpcValue
                    (idyn TRpcEntries
                       (DEntries [RpcEntry "Owner"
                                    (RpcValue (idyn TString (DString "ann")) stringKind)]))
                    structKind)).
    reflexivity.
  - apply (Hrecv (RpcValue (idyn TString (DString "y")) stringKind) []); reflexivity.
Defined.

(** ** Where the input breaks

    A decoder is a list of tokens and the error that [RawToken] returns
    after them. The result of a read depends on that error, and on what
    tokens would follow, only when the read comes to the end of the
    tokens, and then the error is what the read returns. *)






































Lemma putToken_final (r : xmlReader) (t : option Token) :
  final (dec (putToken r t)) = final (dec r).
Proof. reflexivity. Qed.










(** *** A written document that breaks before its end *)







(** ** Text of a primitive that does not parse *)






(** The tokens of a call up to the parameters [pre], its first ones. *)
Definition callUpTo (method : string) (pre : list rpcValue) : list Token :=
  (headerTokens ++
   StartElement "methodCall" :: element "methodName" method ++
   StartElement "params" :: flat_map paramTokens pre)%list.


(** *** No read returns an error of the parser *)










(** Input that breaks: where the read comes to the place, the fault is
    returned; after an untyped text the value is complete, and what
    follows is not read. *)
Example broken_input :
  Codec.readRPC 9
    (mkDecoder (callUpTo "Service.Say" [RpcValue (idyn TInt (DInt 7)) intKind] ++
                [StartElement "param"; StartElement "value"; StartElement "int"])
       (xml_SyntaxError "unexpected EOF"))
    (Codec.IntoCall (mkCall "" [])) =
    Ok (Some (FaultError (mkFault MalformedInput "unexpected EOF")),
        Codec.IntoCall (mkCall "Service.Say" [RpcValue (idyn TInt (DInt 7)) intKind]))
  /\ Codec.readRPC 1
       (mkDecoder [StartElement "value"; CharData "abc"] (xml_SyntaxError "unexpected EOF"))
       (Codec.IntoValue zeroValue) =
     Ok (None, Codec.IntoValue (RpcValue (idyn TString (DString "abc")) stringKind)).
Proof. split; vm_compute; reflexivity. Qed.

(** ** C2: the fault of a response, as [readResponse] returns it *)

(** C2, as the code has it. For every response that [readRPC] decodes,
    the fault slot is empty or not ([rpcValue.isEmpty]: nil kind, an array
    or a struct without entries). When it is not empty, whatever its kind,
    [readResponse] projects it into a [Fault] variable and returns, as its
    error, the [Fault] that variable then holds, or the error of the
    projection when it fails, which is an [InternalError] fault; the reply
    is left as it was. So the error is the fault [f] itself when the slot
    holds the struct of [f]. When the slot is empty, [readResponse] is the
    projection of the params into the reply. [writeResponse] writes the
    fault branch when the fault slot is not empty and the params branch
    when it is, and never both. *)
Theorem C2_fault_branch :
  (forall fuel d reply res,
      Codec.checkPointer reply = Ok None ->
      Codec.readRPC fuel d (Codec.IntoResponse (mkResponse [] zeroValue)) =
        Ok (None, Codec.IntoResponse res) ->
      exists empty,
        isEmpty (resp_Fault res) = Ok empty /\
        if (empty : bool)
        then Codec.readResponse fuel d reply =
               rpcParams.writeTo (resp_Params res) reply
        else exists e slot,
               writeTo (resp_Fault res) (ToPtr typeOfFault (zero typeOfFault)) =
                 Ok (e, slot)
               /\ Codec.readResponse fuel d reply =
                    Ok (Some (match e with
                              | Some err => err
                              | None => FaultError (faultOfData slot)
                              end), slotOf reply)
               /\ (forall err, e = Some err ->
                     exists f, err = FaultError f /\ Code f = InternalError))
  /\ (forall fuel d reply params f,
        Codec.checkPointer reply = Ok None ->
        Codec.readRPC fuel d (Codec.IntoResponse (mkResponse [] zeroValue)) =
          Ok (None, Codec.IntoResponse (mkResponse params (valueOfFault f))) ->
        Codec.readResponse fuel d reply = Ok (Some (FaultError f), slotOf reply))
  /\ (forall rpc b,
        isEmpty (resp_Fault rpc) = Ok false ->
        emits (writeValue (resp_Fault rpc)) b ->
        emits (writeResponse rpc)
          (xml_Header ++ "<methodResponse><fault>" ++ b ++ "</fault></methodResponse>"))
  /\ (forall rpc b,
        isEmpty (resp_Fault rpc) = Ok true ->
        emits (forEach (fun v => writeXML paramTag (writeValue v)) (resp_Params rpc)) b ->
        emits (writeResponse rpc)
          (xml_Header ++ "<methodResponse><params>" ++ b ++ "</params></methodResponse>")).
Proof.
  split; [|split; [|split]].
  - intros fuel d reply res Hcp Hrpc.
    assert (Hwf : wfValue (resp_Fault res) = true).
    { unfold Codec.readRPC in Hrpc.
      destruct (readResponse fuel _ (newReader d)) as [[[err v] r']| | |] eqn:ER;
        try discriminate. simpl in Hrpc. injection Hrpc as _ <-.
      now apply readResponse_wf in ER. }
    destruct (wf_isEmpty _ Hwf) as [empty He]. exists empty. split; [exact He|].
    unfold Codec.readResponse. rewrite Hcp. cbn [obind]. rewrite Hrpc.
    cbn [obind]. rewrite He. cbn [obind negb].
    destruct empty; [reflexivity|].
    destruct (writeTo_fault_total _ Hwf) as (e & slot & Hw).
    exists e, slot. split; [exact Hw|]. rewrite Hw. cbn [obind]. split.
    + destruct e; reflexivity.
    + intros err ->. apply writeTo_internal in Hw. simpl in Hw.
      destruct err; try contradiction. eauto.
  - intros fuel d reply params f Hcp Hrpc.
    unfold Codec.readResponse. rewrite Hcp. cbn [obind]. rewrite Hrpc.
    cbn [obind resp_Fault isEmpty kind value valueOfFault length Nat.eqb negb].
    fold (valueOfFault f). rewrite writeTo_fault. cbn [obind].
    destruct f. reflexivity.
  - intros rpc b He Hb.
    assert (E : emits (writeResponse rpc)
                  (xml_Header ++ "<methodResponse>" ++ ("<fault>" ++ b ++ "</fault>")
                   ++ "</methodResponse>")).
    { unfold writeResponse. apply emits_andThen; [apply emits_WriteString|].
      apply (emits_writeXML methodResponseTag). intros w. rewrite He. simpl.
      apply (emits_writeXML faultTag _ _ Hb). }
    eapply emits_ext; [|exact E]. f_equal. simpl. now rewrite !append_assoc.
  - intros rpc b He Hb.
    assert (E : emits (writeResponse rpc)
                  (xml_Header ++ "<methodResponse>" ++ ("<params>" ++ b ++ "</params>")
                   ++ "</methodResponse>")).
    { unfold writeResponse. apply emits_andThen; [apply emits_WriteString|].
      apply (emits_writeXML methodResponseTag). intros w. rewrite He. simpl.
      apply (emits_writeXML paramListTag _ _ Hb). }
    eapply emits_ext; [|exact E]. f_equal. simpl. now rewrite !append_assoc.
Qed.

(** The fault of the test of the package, as a response. *)
Definition tooManyParameters : Fault := mkFault 4 "Too many parameters.".

Lemma C2_fault_branch_witness :
  Codec.readResponse 9
    (mkDecoder (faultTokens (valueOfFault tooManyParameters)) io_EOF)
    (ToPtr TInt (DInt 0)) =
    Ok (Some (FaultError tooManyParameters), DInt 0)
  /\ exists empty,
       isEmpty (RpcValue (idyn TInt (DInt 5)) intKind) = Ok empty /\
       if (empty : bool)
       then Codec.readResponse 1 (mkDecoder intFaultResponse io_EOF)
              (ToPtr TInt (DInt 0)) =
              rpcParams.writeTo [] (ToPtr TInt (DInt 0))
       else exists e slot,
              writeTo (RpcValue (idyn TInt (DInt 5)) intKind)
                (ToPtr typeOfFault (zero typeOfFault)) = Ok (e, slot)
              /\ Codec.readResponse 1 (mkDecoder intFaultResponse io_EOF)
                   (ToPtr TInt (DInt 0)) =
                   Ok (Some (match e with
                             | Some err => err
                             | None => FaultError (faultOfData slot)
                             end), DInt 0)
              /\ (forall err, e = Some err ->
                    exists f, err = FaultError f /\ Code f = InternalError).
Proof.
  split.
  - apply (proj1 (proj2 C2_fault_branch) 9%nat
             (mkDecoder (faultTokens (valueOfFault tooManyParameters)) io_EOF)
             (ToPtr TInt (DInt 0)) [] tooManyParameters).
    + reflexivity.
    + vm_compute. reflexivity.
  - apply (proj1 C2_fault_branch 1%nat (mkDecoder intFaultResponse io_EOF)
             (ToPtr TInt (DInt 0))
             (mkResponse [] (RpcValue (idyn TInt (DInt 5)) intKind))).
    + reflexivity.
    + vm_compute. reflexivity.
Defined.

(** ** C1: the round trips *)




(** ** The white space and the declarations of the model *)

(** U+00A0 and U+2003 are white space, as a space after them is; a byte
    160 alone, a cut rune and U+200B are not. *)
Example blank_examples :
  isBlank (String (ascii_of_N 194) (String (ascii_of_N 160) "")) = true
  /\ isBlank (String (ascii_of_N 226) (String (ascii_of_N 128) (String (ascii_of_N 131) " "))) = true
  /\ isBlank (String (ascii_of_N 160) "") = false
  /\ isBlank (String (ascii_of_N 194) "") = false
  /\ isBlank (String (ascii_of_N 226) (String (ascii_of_N 128) (String (ascii_of_N 139) ""))) = false
  /\ isBlank " a" = false.
Proof. repeat split; vm_compute; reflexivity. Qed.

(** The declarations that [RawToken] accepts: version 1.0 and encoding
    UTF-8, in either case, where they are named. *)
Example declaration_examples :
  declaration headerInst = true
  /\ declaration ("version=" ++ quoted "1.1") = false
  /\ declaration ("version='1.0' encoding='utf-8'") = true
  /\ declaration ("version=" ++ quoted "1.0" ++ " encoding=" ++ quoted "ISO-8859-1") = false
  /\ declaration "" = true
  /\ xml_NewDecoder ("<?xml version=" ++ quoted "1.1" ++ "?><value></value>") = None
  /\ xml_NewDecoder ("<?xml version=" ++ quoted "1.0" ++ "?><value></value>") =
       Some (mkDecoder [ProcInst "xml" ("version=" ++ quoted "1.0");
                        StartElement "value"; EndElement "value"] io_EOF).
Proof. repeat split; vm_compute; reflexivity. Qed.
